(** * QC platform: rule engine, chat segmentation and run processor

    A shallow embedding of the TypeScript/JavaScript sources

    - [packages/qc-engine] : [runQc], [evaluateRule] and the per-type evaluators,
      together with [asTextFromInput] / [getValueAtPath] from its [types.ts];
    - [apps/functions/lib/qcChatSplit] : [splitTranscriptIntoChats];
    - [apps/functions/lib/qcResultMapping] : [mapRuleResultToDoc],
      [summarizeRuleStatuses];
    - [apps/functions/lib/qcProcessor] : [combineAggregatedRuleDocs],
      [combineRunSummaryFromChats] and [processQcRun].

    JavaScript numbers are IEEE-754 binary64 values and are modelled by Rocq's
    primitive floats; JavaScript strings are sequences of UTF-16 code units. *)

From Stdlib Require Import List Bool Arith NArith ZArith Lia Ascii Floats.
From Stdlib Require String DecimalString Uint63.
Import String.StringSyntax.
Import ListNotations.

Set Implicit Arguments.
Set Warnings "-register-all".

(* ================================================================== *)
(** * JavaScript values *)
(* ================================================================== *)

Module Js.

(** A string is a list of UTF-16 code units. *)
Definition char := N.
Definition jsstring := list char.

(** A literal of the source, written with Rocq's string notation (ASCII only). *)
Definition str (s : String.string) : jsstring :=
  map N_of_ascii (String.list_ascii_of_string s).
Arguments str s%_string_scope.

Fixpoint string_eqb (a b : jsstring) : bool :=
  match a, b with
  | [], [] => true
  | x :: a', y :: b' => N.eqb x y && string_eqb a' b'
  | _, _ => false
  end.

Definition append (a b : jsstring) : jsstring := a ++ b.
Infix "+++" := append (right associativity, at level 60).

(** [`${n}`] for a non-negative integer. *)
Definition ofNat (n : nat) : jsstring := str (DecimalString.NilEmpty.string_of_uint (Nat.to_uint n)).

(** ECMAScript [WhiteSpace] and [LineTerminator] code units: what [\s] matches
    and what [String.prototype.trim] strips. *)
Definition whiteSpaceCodes : list N :=
  [9; 10; 11; 12; 13; 32; 160; 5760;
   8192; 8193; 8194; 8195; 8196; 8197; 8198; 8199; 8200; 8201; 8202;
   8232; 8233; 8239; 8287; 12288; 65279]%N.

Definition isWhiteSpace (c : char) : bool := existsb (N.eqb c) whiteSpaceCodes.

(** [LineTerminator]: the code units the regular-expression [.] refuses. *)
Definition isLineTerminator (c : char) : bool := existsb (N.eqb c) [10; 13; 8232; 8233]%N.

Fixpoint trimStart (s : jsstring) : jsstring :=
  match s with
  | c :: s' => if isWhiteSpace c then trimStart s' else s
  | [] => []
  end.

Definition trimEnd (s : jsstring) : jsstring := rev (trimStart (rev s)).
Definition trim (s : jsstring) : jsstring := trimEnd (trimStart s).

(** [a.startsWith(p)] *)
Fixpoint startsWith (s p : jsstring) : bool :=
  match p, s with
  | [], _ => true
  | x :: p', y :: s' => N.eqb x y && startsWith s' p'
  | _ :: _, [] => false
  end.

(** [haystack.includes(needle)] *)
Fixpoint includes (haystack needle : jsstring) : bool :=
  startsWith haystack needle ||
  match haystack with
  | [] => false
  | _ :: rest => includes rest needle
  end.

(** [arr.includes(s)] on an array of strings. *)
Definition arrayIncludes (arr : list jsstring) (s : jsstring) : bool :=
  existsb (string_eqb s) arr.

(** [arr.indexOf(s)]: [None] stands for [-1]. *)
Fixpoint indexOf (arr : list jsstring) (s : jsstring) : option nat :=
  match arr with
  | [] => None
  | x :: rest => if string_eqb x s then Some 0 else option_map S (indexOf rest s)
  end.

(** [s.split('\n')] *)
Fixpoint splitNewline (s : jsstring) : list jsstring :=
  match s with
  | [] => [[]]
  | c :: s' =>
      match splitNewline s' with
      | cur :: rest => if N.eqb c 10 then [] :: cur :: rest else (c :: cur) :: rest
      | [] => [[c]]
      end
  end.

(** [lines.join('\n')] *)
Fixpoint joinNewline (lines : list jsstring) : jsstring :=
  match lines with
  | [] => []
  | [l] => l
  | l :: rest => l ++ 10%N :: joinNewline rest
  end.

(** [xs.slice(a, b)] for indices [0 <= a], [0 <= b]. *)
Definition slice {A} (xs : list A) (a b : nat) : list A := firstn (b - a) (skipn a xs).

(** [arr.entries()]: the elements with their indices. *)
Definition entries {A} (arr : list A) : list (nat * A) := combine (seq 0 (length arr)) arr.

(** ** Numbers *)

Definition number := float.

Definition isNaN (x : number) : bool := PrimFloat.is_nan x.
Definition isFinite (x : number) : bool := PrimFloat.is_finite x.

Definition isNegZero (x : number) : bool :=
  match PrimFloat.classify x with NZero => true | _ => false end.

(** [Math.min(x, y)] and [Math.max(x, y)]: NaN is contagious and [-0 < +0]. *)
Definition min2 (x y : number) : number :=
  if isNaN x || isNaN y then nan
  else if (x <? y)%float then x
  else if (y <? x)%float then y
  else if isNegZero x then x else y.

Definition max2 (x y : number) : number :=
  if isNaN x || isNaN y then nan
  else if (y <? x)%float then x
  else if (x <? y)%float then y
  else if isNegZero x then y else x.

(** [Math.min(...xs)] and [Math.max(...xs)] *)
Definition Math_min (xs : list number) : number := fold_left min2 xs infinity.
Definition Math_max (xs : list number) : number := fold_left max2 xs neg_infinity.

(** [Math.abs] *)
Definition Math_abs (x : number) : number := PrimFloat.abs x.

(** ** Dynamically typed values ([unknown]) *)

Inductive value :=
| VUndefined
| VNull
| VBool (b : bool)
| VNum (n : number)
| VStr (s : jsstring)
| VDate (ms : number)
| VArr (items : list value)
| VObj (fields : list (jsstring * value)).

Definition isNullish (v : value) : bool :=
  match v with VUndefined | VNull => true | _ => false end.

(** [typeof v === 'object'] (true for [null] as well). *)
Definition typeofObject (v : value) : bool :=
  match v with VNull | VDate _ | VArr _ | VObj _ => true | _ => false end.

(** What a JavaScript computation throws. [err instanceof Error] holds of
    [ThrowError] only. *)
Inductive thrown :=
| ThrowError (name message : jsstring)
| ThrowOther (v : value).

(** A computation that returns or throws. *)
Inductive completion (A : Type) :=
| Return (a : A)
| Throw (e : thrown).
Arguments Return {A} a.
Arguments Throw {A} e.

Definition bind {A B} (c : completion A) (k : A -> completion B) : completion B :=
  match c with
  | Return a => k a
  | Throw e => Throw e
  end.

(** [xs.map(f)] where [f] may throw: the first exception ends the loop. *)
Fixpoint mapM {A B} (f : A -> completion B) (xs : list A) : completion (list B) :=
  match xs with
  | [] => Return []
  | x :: rest => bind (f x) (fun y => bind (mapM f rest) (fun ys => Return (y :: ys)))
  end.

(** [Number(v)] and [String(v)] first convert an object to a primitive value:
    its methods [valueOf] and [toString] are called in turn, and a TypeError
    is thrown when neither is callable and returns a primitive value. The
    values here hold no function: an own property [toString] of a plain
    object hides [Object.prototype.toString] and is not callable, while
    [valueOf], own or inherited, never returns a primitive value, so the
    conversion of such an object throws. An array is converted by [join],
    which converts each of its elements. Every other value converts. *)
Fixpoint throwsOnConversion (v : value) : bool :=
  match v with
  | VObj fields => existsb (fun field => string_eqb (fst field) (str "toString")) fields
  | VArr items => existsb throwsOnConversion items
  | _ => false
  end.

Definition conversionError : thrown :=
  ThrowError (str "TypeError") (str "Cannot convert object to primitive value").

(** The part of the JavaScript runtime the engine calls and this development
    does not define: Unicode case mapping, the regular-expression engine behind
    [new RegExp(pattern, flags).test(text)], property lookup [o[key]] on an
    object, the results of the conversions [Number(v)] and [String(v)] where
    they do not throw, [Date.parse] and [Math.round].
    Every one of them is a function of its arguments. *)
Class Host := {
  toLowerCase : jsstring -> jsstring;
  toUpperCase : jsstring -> jsstring;
  (** [new RegExp(pattern, flags).test(text)]; the constructor throws a
      [SyntaxError] on a malformed pattern or flag string. *)
  regExpTest : jsstring -> jsstring -> jsstring -> completion bool;
  (** [o[key]] for [o] an object ([typeof o === 'object'], not [null]). *)
  getProperty : value -> jsstring -> value;
  toNumber : value -> number;
  toStringValue : value -> jsstring;
  (** [Date.parse(s)]: NaN when [s] is not a date. *)
  dateParse : jsstring -> number;
  Math_round : number -> number
}.

End Js.

Import Js.

(* ================================================================== *)
(** * The rule engine ([qc-engine]) *)
(* ================================================================== *)

Module Engine.

Definition QC_ENGINE_VERSION : jsstring := str "0.1.0".

Inductive QcRuleType :=
| TEXT_REGEX
| TEXT_KEYWORD_BLACKLIST
| TEXT_REQUIRED_PHRASE
| NUMERIC_RANGE
| REQUIRED_FIELD
| EXCEL_ALL_CAPS
| EXCEL_REQUIRED_COLUMNS
| AUDIO_DURATION_LIMIT
| SLA_TIME_DIFFERENCE
| TONE_CLASSIFICATION
| IMPLIED_ABUSE_DETECTION.

Definition ruleTypeName (t : QcRuleType) : jsstring :=
  match t with
  | TEXT_REGEX => str "TEXT_REGEX"
  | TEXT_KEYWORD_BLACKLIST => str "TEXT_KEYWORD_BLACKLIST"
  | TEXT_REQUIRED_PHRASE => str "TEXT_REQUIRED_PHRASE"
  | NUMERIC_RANGE => str "NUMERIC_RANGE"
  | REQUIRED_FIELD => str "REQUIRED_FIELD"
  | EXCEL_ALL_CAPS => str "EXCEL_ALL_CAPS"
  | EXCEL_REQUIRED_COLUMNS => str "EXCEL_REQUIRED_COLUMNS"
  | AUDIO_DURATION_LIMIT => str "AUDIO_DURATION_LIMIT"
  | SLA_TIME_DIFFERENCE => str "SLA_TIME_DIFFERENCE"
  | TONE_CLASSIFICATION => str "TONE_CLASSIFICATION"
  | IMPLIED_ABUSE_DETECTION => str "IMPLIED_ABUSE_DETECTION"
  end.

Inductive QcSeverity := BLOCKER | MAJOR | MINOR | INFO.

Definition isBlocker (s : QcSeverity) : bool :=
  match s with BLOCKER => true | _ => false end.

Inductive RuleOutcome := PASS | FAIL | SKIP | ERROR.

Definition outcome_eqb (a b : RuleOutcome) : bool :=
  match a, b with
  | PASS, PASS | FAIL, FAIL | SKIP, SKIP | ERROR, ERROR => true
  | _, _ => false
  end.

Inductive OverallOutcome := OverallPASS | OverallFAIL.

(** [Evidence]: [{ type, message, path?, meta? }] *)
Module Evidence.
Record t := {
  type : jsstring;
  message : jsstring;
  path : option (list jsstring);
  meta : option (list (jsstring * value))
}.
End Evidence.

(** ** Rule definitions: a union discriminated by [type], one parameter
    record per variant *)

Record TextRegexParams := {
  tr_fieldPath : option (list jsstring);
  pattern : jsstring;
  flags : option jsstring;
  mustMatch : bool
}.

Record TextKeywordBlacklistParams := {
  kb_fieldPath : option (list jsstring);
  keywords : list jsstring;
  kb_caseSensitive : bool
}.

Record TextRequiredPhraseParams := {
  rp_fieldPath : option (list jsstring);
  phrase : jsstring;
  rp_caseSensitive : bool
}.

Record NumericRangeParams := {
  nr_fieldPath : list jsstring;
  min : option number;
  max : option number;
  inclusiveMin : bool;
  inclusiveMax : bool
}.

Record RequiredFieldParams := {
  rf_fieldPath : list jsstring;
  allowEmptyString : bool
}.

Record ExcelAllCapsParams := {
  column : jsstring;
  minCapsRatio : number
}.

Record ExcelRequiredColumnsParams := {
  requiredColumns : list jsstring;
  rc_caseSensitive : bool
}.

Record AudioDurationLimitParams := {
  maxDurationMs : number
}.

Record SlaTimeDifferenceParams := {
  startFieldPath : list jsstring;
  endFieldPath : list jsstring;
  maxDifferenceMs : number
}.

Record ToneClassificationParams := {
  tone_threshold : number;
  failLabels : list jsstring
}.

Record ImpliedAbuseDetectionParams := {
  abuse_threshold : number
}.

Inductive RuleParams :=
| PTextRegex (p : TextRegexParams)
| PTextKeywordBlacklist (p : TextKeywordBlacklistParams)
| PTextRequiredPhrase (p : TextRequiredPhraseParams)
| PNumericRange (p : NumericRangeParams)
| PRequiredField (p : RequiredFieldParams)
| PExcelAllCaps (p : ExcelAllCapsParams)
| PExcelRequiredColumns (p : ExcelRequiredColumnsParams)
| PAudioDurationLimit (p : AudioDurationLimitParams)
| PSlaTimeDifference (p : SlaTimeDifferenceParams)
| PToneClassification (p : ToneClassificationParams)
| PImpliedAbuseDetection (p : ImpliedAbuseDetectionParams).

Module Rule.
Record t := {
  ruleId : jsstring;
  version : number;
  enabled : bool;
  severity : QcSeverity;
  weight : number;
  name : jsstring;
  params : RuleParams
}.

(** The discriminant [rule.type]. *)
Definition type (r : t) : QcRuleType :=
  match params r with
  | PTextRegex _ => TEXT_REGEX
  | PTextKeywordBlacklist _ => TEXT_KEYWORD_BLACKLIST
  | PTextRequiredPhrase _ => TEXT_REQUIRED_PHRASE
  | PNumericRange _ => NUMERIC_RANGE
  | PRequiredField _ => REQUIRED_FIELD
  | PExcelAllCaps _ => EXCEL_ALL_CAPS
  | PExcelRequiredColumns _ => EXCEL_REQUIRED_COLUMNS
  | PAudioDurationLimit _ => AUDIO_DURATION_LIMIT
  | PSlaTimeDifference _ => SLA_TIME_DIFFERENCE
  | PToneClassification _ => TONE_CLASSIFICATION
  | PImpliedAbuseDetection _ => IMPLIED_ABUSE_DETECTION
  end.
End Rule.
Abbreviation QcRuleDefinition := Rule.t.

(** ** Normalized inputs *)

Inductive InputKind := KText | KRecord | KTable | KAudio.

Definition kindName (k : InputKind) : jsstring :=
  match k with
  | KText => str "text"
  | KRecord => str "record"
  | KTable => str "table"
  | KAudio => str "audio"
  end.

Definition kind_eqb (a b : InputKind) : bool :=
  match a, b with
  | KText, KText | KRecord, KRecord | KTable, KTable | KAudio, KAudio => true
  | _, _ => false
  end.

Inductive QcNormalizedInput :=
| InText (text : jsstring) (locale : option jsstring)
| InRecord (record : value)
| InTable (columns : list jsstring) (rows : list value)
| InAudio (durationMs : number) (format : option jsstring).

Definition kind (input : QcNormalizedInput) : InputKind :=
  match input with
  | InText _ _ => KText
  | InRecord _ => KRecord
  | InTable _ _ => KTable
  | InAudio _ _ => KAudio
  end.

(** ** AI signals *)

Module AiSignal.
Record t := {
  ruleType : QcRuleType;
  confidence : number;
  label : option jsstring;
  evidence : list Evidence.t
}.
End AiSignal.

Record QcAiSignals := {
  tone : option AiSignal.t;
  impliedAbuse : option AiSignal.t
}.

(** ** Results *)

Record RuleError := { code : jsstring; err_message : jsstring }.

Module RuleResult.
Record t := {
  ruleId : jsstring;
  version : number;
  type : QcRuleType;
  severity : QcSeverity;
  weight : number;
  outcome : RuleOutcome;
  score : number;
  evidence : list Evidence.t;
  error : option RuleError
}.
End RuleResult.
Abbreviation QcRuleResult := RuleResult.t.

Module RunSummary.
Record t := {
  engineVersion : jsstring;
  executedAt : jsstring;
  overallOutcome : OverallOutcome;
  overallScore : number;
  failedRuleIds : list jsstring
}.
End RunSummary.

Record QcRunResult := {
  summary : RunSummary.t;
  ruleResults : list QcRuleResult
}.

Record QcExecutionContext := {
  ctx_input : QcNormalizedInput;
  ctx_aiSignals : option QcAiSignals;
  ctx_executedAtIso : jsstring
}.

Record QcExecutionOptions := {
  passScoreThreshold : option number;
  blockerFailureForcesFail : option bool
}.

Definition QcRuleValidationError (message : jsstring) : thrown :=
  ThrowError (str "QcRuleValidationError") message.

Definition QcExecutionError (message : jsstring) : thrown :=
  ThrowError (str "QcExecutionError") message.


Record RunQcRequest := {
  input : QcNormalizedInput;
  rules : list QcRuleDefinition;
  executedAtIso : jsstring;
  aiSignals : option QcAiSignals;
  options : option QcExecutionOptions
}.

Section WithHost.
Context {host : Host}.

Definition normalizeCase (text : jsstring) (caseSensitive : bool) : jsstring :=
  if caseSensitive then text else toLowerCase text.

Definition mkResult (rule : QcRuleDefinition) (outcome : RuleOutcome) (score : number)
    (evidence : list Evidence.t) (error : option RuleError) : QcRuleResult :=
  {| (* ...resultBase(rule) *)
     RuleResult.ruleId := Rule.ruleId rule;
     RuleResult.version := Rule.version rule;
     RuleResult.type := Rule.type rule;
     RuleResult.severity := Rule.severity rule;
     RuleResult.weight := Rule.weight rule;
     RuleResult.outcome := outcome;
     RuleResult.score := score;
     RuleResult.evidence := evidence;
     RuleResult.error := error |}.

Definition pass (rule : QcRuleDefinition) (evidence : list Evidence.t) : QcRuleResult :=
  mkResult rule PASS 1%float evidence None.

Definition fail (rule : QcRuleDefinition) (evidence : list Evidence.t) : QcRuleResult :=
  mkResult rule FAIL 0%float evidence None.

Definition ev (type message : jsstring) (path : option (list jsstring))
    (meta : option (list (jsstring * value))) : Evidence.t :=
  {| Evidence.type := type; Evidence.message := message;
     Evidence.path := path; Evidence.meta := meta |}.

Definition skip (rule : QcRuleDefinition) (reason : jsstring) : QcRuleResult :=
  mkResult rule SKIP 1%float [ev (str "SKIP_REASON") reason None None] None.

Definition errorResult (rule : QcRuleDefinition) (message : jsstring)
    (evidence : list Evidence.t) : QcRuleResult :=
  mkResult rule ERROR 0%float evidence
    (Some {| code := str "RULE_EVALUATION_ERROR"; err_message := message |}).

Definition assertKind (input : QcNormalizedInput) (expectedKind : InputKind)
    (rule : QcRuleDefinition) : completion unit :=
  if negb (kind_eqb (kind input) expectedKind) then
    Throw (QcExecutionError
      (str "Rule " +++ Rule.ruleId rule +++ str " (" +++ ruleTypeName (Rule.type rule)
       +++ str ") expects input kind '" +++ kindName expectedKind
       +++ str "', got '" +++ kindName (kind input) +++ str "'."))
  else Return tt.

Fixpoint getValueAtPath (cursor : value) (path : list jsstring) : value :=
  match path with
  | [] => cursor
  | key :: rest =>
      if isNullish cursor then VUndefined
      else if negb (typeofObject cursor) then VUndefined
      else getValueAtPath (getProperty cursor key) rest
  end.

(** [String(v)] and [Number(v)] *)
Definition stringOf (v : value) : completion jsstring :=
  if throwsOnConversion v then Throw conversionError else Return (toStringValue v).

Definition numberOf (v : value) : completion number :=
  if throwsOnConversion v then Throw conversionError else Return (toNumber v).

Definition asTextFromInput (input : QcNormalizedInput) (fieldPath : option (list jsstring))
    : completion (option jsstring) :=
  match input, fieldPath with
  | InText text _, _ => Return (Some text)
  | InRecord record, Some ((_ :: _) as fieldPath) =>
      match getValueAtPath record fieldPath with
      | VStr s => Return (Some s)
      | VUndefined | VNull => Return None
      | v => bind (stringOf v) (fun s => Return (Some s))
      end
  | _, _ => Return None
  end.

Definition optNum (x : option number) : value :=
  match x with Some n => VNum n | None => VUndefined end.

Definition optStr (x : option jsstring) : value :=
  match x with Some s => VStr s | None => VUndefined end.

Definition evalTextRegex (rule : QcRuleDefinition) (params : TextRegexParams)
    (input : QcNormalizedInput) : completion QcRuleResult :=
  bind (asTextFromInput input (tr_fieldPath params)) (fun text =>
  match text with
  | None => Return (skip rule (str "No text available for evaluation"))
  | Some text =>
      let flags := match flags params with Some f => f | None => str "" end in
      bind (regExpTest (pattern params) flags text) (fun matched =>
      let evidence :=
        [ev (str "TEXT_REGEX")
            (if matched then str "Regex matched" else str "Regex did not match")
            None
            (Some [(str "pattern", VStr (pattern params)); (str "flags", VStr flags)])] in
      let shouldPass := if mustMatch params then matched else negb matched in
      Return (if shouldPass then pass rule evidence else fail rule evidence))
  end).

Definition evalTextKeywordBlacklist (rule : QcRuleDefinition)
    (params : TextKeywordBlacklistParams) (input : QcNormalizedInput)
    : completion QcRuleResult :=
  bind (asTextFromInput input (kb_fieldPath params)) (fun text =>
  match text with
  | None => Return (skip rule (str "No text available for evaluation"))
  | Some text =>
      let haystack := normalizeCase text (kb_caseSensitive params) in
      let found :=
        filter (fun keyword =>
                  let needle := normalizeCase keyword (kb_caseSensitive params) in
                  (0 <? length needle) && includes haystack needle)
               (keywords params) in
      Return
        match found with
        | [] => pass rule [ev (str "TEXT_KEYWORD_BLACKLIST")
                              (str "No blacklisted keywords found") None None]
        | _ => fail rule [ev (str "TEXT_KEYWORD_BLACKLIST")
                             (str "Blacklisted keywords detected")
                             None (Some [(str "found", VArr (map VStr found))])]
        end
  end).

Definition evalTextRequiredPhrase (rule : QcRuleDefinition)
    (params : TextRequiredPhraseParams) (input : QcNormalizedInput)
    : completion QcRuleResult :=
  bind (asTextFromInput input (rp_fieldPath params)) (fun text =>
  match text with
  | None => Return (skip rule (str "No text available for evaluation"))
  | Some text =>
      let haystack := normalizeCase text (rp_caseSensitive params) in
      let needle := normalizeCase (phrase params) (rp_caseSensitive params) in
      let ok := (0 <? length needle) && includes haystack needle in
      Return
        (if ok
         then pass rule [ev (str "TEXT_REQUIRED_PHRASE") (str "Required phrase present")
                            None None]
         else fail rule [ev (str "TEXT_REQUIRED_PHRASE") (str "Required phrase missing") None
                            (Some [(str "phrase", VStr (phrase params))])])
  end).

Definition evalNumericRange (rule : QcRuleDefinition) (params : NumericRangeParams)
    (input : QcNormalizedInput) : completion QcRuleResult :=
  bind (assertKind input KRecord rule) (fun _ =>
  match input with
  | InRecord record =>
      let value := getValueAtPath record (nr_fieldPath params) in
      if isNullish value then
        Return (fail rule [ev (str "NUMERIC_RANGE") (str "Numeric value missing")
                              (Some (nr_fieldPath params)) None])
      else
        bind (match value with VNum n => Return n | v => numberOf v end) (fun numeric =>
        if isNaN numeric then
          Return (fail rule [ev (str "NUMERIC_RANGE") (str "Value is not numeric")
                                (Some (nr_fieldPath params)) (Some [(str "value", value)])])
        else
          let minOk :=
            match min params with
            | None => true
            | Some min => if inclusiveMin params then (min <=? numeric)%float
                          else (min <? numeric)%float
            end in
          let maxOk :=
            match max params with
            | None => true
            | Some max => if inclusiveMax params then (numeric <=? max)%float
                          else (numeric <? max)%float
            end in
          let ok := minOk && maxOk in
          let meta := Some [(str "numeric", VNum numeric); (str "min", optNum (min params));
                            (str "max", optNum (max params))] in
          Return (if ok
                  then pass rule [ev (str "NUMERIC_RANGE") (str "Value within range")
                                     (Some (nr_fieldPath params)) meta]
                  else fail rule [ev (str "NUMERIC_RANGE") (str "Value out of range")
                                     (Some (nr_fieldPath params)) meta]))
  | _ => Throw (QcExecutionError (str "unreachable"))
  end).

Definition evalRequiredField (rule : QcRuleDefinition) (params : RequiredFieldParams)
    (input : QcNormalizedInput) : completion QcRuleResult :=
  bind (assertKind input KRecord rule) (fun _ =>
  match input with
  | InRecord record =>
      let value := getValueAtPath record (rf_fieldPath params) in
      let exists_ := negb (isNullish value) in
      if negb exists_ then
        Return (fail rule [ev (str "REQUIRED_FIELD") (str "Field missing")
                              (Some (rf_fieldPath params)) None])
      else if match value with VStr [] => negb (allowEmptyString params) | _ => false end then
        Return (fail rule [ev (str "REQUIRED_FIELD") (str "Field empty string not allowed")
                              (Some (rf_fieldPath params)) None])
      else
        Return (pass rule [ev (str "REQUIRED_FIELD") (str "Field present")
                              (Some (rf_fieldPath params)) None])
  | _ => Throw (QcExecutionError (str "unreachable"))
  end).

Definition evalExcelRequiredColumns (rule : QcRuleDefinition)
    (params : ExcelRequiredColumnsParams) (input : QcNormalizedInput)
    : completion QcRuleResult :=
  bind (assertKind input KTable rule) (fun _ =>
  match input with
  | InTable input_columns _ =>
      let columns :=
        if rc_caseSensitive params then input_columns else map toLowerCase input_columns in
      let required :=
        if rc_caseSensitive params then requiredColumns params
        else map toLowerCase (requiredColumns params) in
      let missing :=
        flat_map (fun '(i, req) =>
                    if negb (arrayIncludes columns req)
                    then [match nth_error (requiredColumns params) i with
                          | Some c => c
                          | None => req
                          end]
                    else [])
                 (entries required) in
      match missing with
      | [] => Return (pass rule [ev (str "EXCEL_REQUIRED_COLUMNS")
                                    (str "All required columns present") None None])
      | _ => Return (fail rule [ev (str "EXCEL_REQUIRED_COLUMNS")
                                   (str "Missing required columns") None
                                   (Some [(str "missing", VArr (map VStr missing))])])
      end
  | _ => Throw (QcExecutionError (str "unreachable"))
  end).

(** The cell of [row] the all-caps rule inspects. *)
Definition cellOf (row : value) (colIndex : nat) (column : jsstring) : value :=
  match row with
  | VArr items => nth colIndex items VUndefined
  | VObj _ | VDate _ => getProperty row column
  | _ => VUndefined
  end.

Definition evalExcelAllCaps (rule : QcRuleDefinition) (params : ExcelAllCapsParams)
    (input : QcNormalizedInput) : completion QcRuleResult :=
  bind (assertKind input KTable rule) (fun _ =>
  match input with
  | InTable columns rows =>
      match indexOf columns (column params) with
      | None =>
          Return (fail rule [ev (str "EXCEL_ALL_CAPS") (str "Column not found") None
                                (Some [(str "column", VStr (column params))])])
      | Some colIndex =>
          let '(total, caps) :=
            fold_left
              (fun '(total, caps) row =>
                 match cellOf row colIndex (column params) with
                 | VStr cell =>
                     let trimmed := trim cell in
                     if length trimmed =? 0 then (total, caps)
                     else ((total + 1)%float,
                           if string_eqb trimmed (toUpperCase trimmed)
                           then (caps + 1)%float else caps)
                 | _ => (total, caps)
                 end)
              rows (0%float, 0%float) in
          if (total =? 0)%float then Return (skip rule (str "No string cells to evaluate"))
          else
            let ratio := (caps / total)%float in
            let ok := (minCapsRatio params <=? ratio)%float in
            let evidence :=
              [ev (str "EXCEL_ALL_CAPS")
                  (if ok then str "All-caps ratio meets threshold"
                   else str "All-caps ratio below threshold")
                  None
                  (Some [(str "column", VStr (column params)); (str "ratio", VNum ratio);
                         (str "total", VNum total); (str "caps", VNum caps);
                         (str "minCapsRatio", VNum (minCapsRatio params))])] in
            Return (if ok then pass rule evidence else fail rule evidence)
      end
  | _ => Throw (QcExecutionError (str "unreachable"))
  end).

Definition evalAudioDurationLimit (rule : QcRuleDefinition)
    (params : AudioDurationLimitParams) (input : QcNormalizedInput)
    : completion QcRuleResult :=
  bind (assertKind input KAudio rule) (fun _ =>
  match input with
  | InAudio durationMs _ =>
      let ok := (durationMs <=? maxDurationMs params)%float in
      Return (if ok
              then pass rule [ev (str "AUDIO_DURATION_LIMIT") (str "Audio duration within limit")
                                 None (Some [(str "durationMs", VNum durationMs)])]
              else fail rule [ev (str "AUDIO_DURATION_LIMIT") (str "Audio duration exceeds limit")
                                 None (Some [(str "durationMs", VNum durationMs);
                                             (str "maxDurationMs",
                                              VNum (maxDurationMs params))])])
  | _ => Throw (QcExecutionError (str "unreachable"))
  end).

Definition parseDateOrMillis (value : value) : option number :=
  match value with
  | VUndefined | VNull => None
  | VNum n => if isFinite n then Some n else None
  | VDate ms => Some ms
  | VStr s => let ms := dateParse s in if negb (isNaN ms) then Some ms else None
  | _ => None
  end.

Definition evalSlaTimeDifference (rule : QcRuleDefinition) (params : SlaTimeDifferenceParams)
    (input : QcNormalizedInput) : completion QcRuleResult :=
  bind (assertKind input KRecord rule) (fun _ =>
  match input with
  | InRecord record =>
      let startValue := getValueAtPath record (startFieldPath params) in
      let endValue := getValueAtPath record (endFieldPath params) in
      match parseDateOrMillis startValue, parseDateOrMillis endValue with
      | Some startMs, Some endMs =>
          let diff := Math_abs (endMs - startMs)%float in
          let ok := (diff <=? maxDifferenceMs params)%float in
          Return (if ok
                  then pass rule [ev (str "SLA_TIME_DIFFERENCE")
                                     (str "SLA time difference within limit") None
                                     (Some [(str "diffMs", VNum diff)])]
                  else fail rule [ev (str "SLA_TIME_DIFFERENCE")
                                     (str "SLA time difference exceeds limit") None
                                     (Some [(str "diffMs", VNum diff);
                                            (str "maxDifferenceMs",
                                             VNum (maxDifferenceMs params))])])
      | _, _ =>
          Return (fail rule [ev (str "SLA_TIME_DIFFERENCE")
                                (str "Start or end timestamp missing/unparseable") None
                                (Some [(str "startValue", startValue);
                                       (str "endValue", endValue)])])
      end
  | _ => Throw (QcExecutionError (str "unreachable"))
  end).

Definition evalToneClassification (rule : QcRuleDefinition)
    (params : ToneClassificationParams) (aiSignals : option QcAiSignals) : QcRuleResult :=
  match match aiSignals with Some s => tone s | None => None end with
  | None => skip rule (str "No AI tone signal available")
  | Some signal =>
      let meetsConfidence := (tone_threshold params <=? AiSignal.confidence signal)%float in
      let labelIsFail :=
        match AiSignal.label signal with
        | Some ((_ :: _) as label) => arrayIncludes (failLabels params) label
        | _ => false
        end in
      let ok := negb (meetsConfidence && labelIsFail) in
      let evidence :=
        ev (str "TONE_CLASSIFICATION")
           (if ok then str "Tone did not trigger failure thresholds"
            else str "Tone triggered failure thresholds")
           None
           (Some [(str "label", optStr (AiSignal.label signal));
                  (str "confidence", VNum (AiSignal.confidence signal));
                  (str "threshold", VNum (tone_threshold params));
                  (str "failLabels", VArr (map VStr (failLabels params)))])
        :: AiSignal.evidence signal in
      if ok then pass rule evidence else fail rule evidence
  end.

Definition evalImpliedAbuseDetection (rule : QcRuleDefinition)
    (params : ImpliedAbuseDetectionParams) (aiSignals : option QcAiSignals) : QcRuleResult :=
  match match aiSignals with Some s => impliedAbuse s | None => None end with
  | None => skip rule (str "No AI implied-abuse signal available")
  | Some signal =>
      let ok := (AiSignal.confidence signal <? abuse_threshold params)%float in
      let evidence :=
        ev (str "IMPLIED_ABUSE_DETECTION")
           (if ok then str "Implied abuse confidence below threshold"
            else str "Implied abuse confidence above threshold")
           None
           (Some [(str "confidence", VNum (AiSignal.confidence signal));
                  (str "threshold", VNum (abuse_threshold params))])
        :: AiSignal.evidence signal in
      if ok then pass rule evidence else fail rule evidence
  end.

(** The [switch (rule.type)] of [evaluateRule]: the body of its [try]. *)
Definition dispatch (ctx : QcExecutionContext) (rule : QcRuleDefinition)
    : completion QcRuleResult :=
  match Rule.params rule with
  | PTextRegex p => evalTextRegex rule p (ctx_input ctx)
  | PTextKeywordBlacklist p => evalTextKeywordBlacklist rule p (ctx_input ctx)
  | PTextRequiredPhrase p => evalTextRequiredPhrase rule p (ctx_input ctx)
  | PNumericRange p => evalNumericRange rule p (ctx_input ctx)
  | PRequiredField p => evalRequiredField rule p (ctx_input ctx)
  | PExcelRequiredColumns p => evalExcelRequiredColumns rule p (ctx_input ctx)
  | PExcelAllCaps p => evalExcelAllCaps rule p (ctx_input ctx)
  | PAudioDurationLimit p => evalAudioDurationLimit rule p (ctx_input ctx)
  | PSlaTimeDifference p => evalSlaTimeDifference rule p (ctx_input ctx)
  | PToneClassification p => Return (evalToneClassification rule p (ctx_aiSignals ctx))
  | PImpliedAbuseDetection p => Return (evalImpliedAbuseDetection rule p (ctx_aiSignals ctx))
  end.

Definition evaluateRule (ctx : QcExecutionContext) (rule : QcRuleDefinition) : QcRuleResult :=
  if negb (Rule.enabled rule) then skip rule (str "Rule disabled")
  else
    match dispatch ctx rule with
    | Return result => result
    | Throw err =>
        let message :=
          match err with
          | ThrowError _ message => message
          | ThrowOther _ => str "Unknown error"
          end in
        errorResult rule message []
    end.

(** The aggregation of [runQc] over the per-rule results. *)
Definition summarize (passScoreThreshold : number) (blockerFailureForcesFail : bool)
    (executedAtIso : jsstring) (results : list QcRuleResult) : RunSummary.t :=
  let enabledResults :=
    filter (fun r => negb (outcome_eqb (RuleResult.outcome r) SKIP)) results in
  let totalWeight :=
    fold_left (fun sum r => (sum + RuleResult.weight r)%float) enabledResults 0%float in
  let weightedScore :=
    if (totalWeight <=? 0)%float then 1%float
    else (fold_left (fun sum r => (sum + RuleResult.score r * RuleResult.weight r)%float)
                    enabledResults 0%float / totalWeight)%float in
  let failedRuleIds :=
    map RuleResult.ruleId
        (filter (fun r => outcome_eqb (RuleResult.outcome r) FAIL) results) in
  let hasBlockerFail :=
    if blockerFailureForcesFail
    then existsb (fun r => outcome_eqb (RuleResult.outcome r) FAIL
                           && isBlocker (RuleResult.severity r)) results
    else false in
  let overallOutcome :=
    if hasBlockerFail || (weightedScore <? passScoreThreshold)%float
    then OverallFAIL else OverallPASS in
  {| RunSummary.engineVersion := QC_ENGINE_VERSION;
     RunSummary.executedAt := executedAtIso;
     RunSummary.overallOutcome := overallOutcome;
     RunSummary.overallScore := max2 0%float (min2 1%float weightedScore);
     RunSummary.failedRuleIds := failedRuleIds |}.

Definition runQc (request : RunQcRequest) : completion QcRunResult :=
  let passScoreThreshold :=
    match options request with
    | Some {| passScoreThreshold := Some t |} => t
    | _ => 1%float
    end in
  let blockerFailureForcesFail :=
    match options request with
    | Some {| blockerFailureForcesFail := Some b |} => b
    | _ => true
    end in
  if (passScoreThreshold <? 0)%float || (1 <? passScoreThreshold)%float then
    Throw (QcRuleValidationError (str "passScoreThreshold must be between 0 and 1"))
  else
    let ctx := {| ctx_input := input request;
                  ctx_executedAtIso := executedAtIso request;
                  ctx_aiSignals := aiSignals request |} in
    let results := map (evaluateRule ctx) (rules request) in
    Return {| summary := summarize passScoreThreshold blockerFailureForcesFail
                                   (executedAtIso request) results;
              ruleResults := results |}.

End WithHost.

End Engine.

(* ================================================================== *)
(** * Regular expressions, as [String.prototype.match] runs them *)
(* ================================================================== *)

(** A backtracking matcher in continuation-passing style, following the
    pattern semantics of ECMA-262: alternatives are tried left to right, a
    greedy quantifier tries one more iteration before the continuation, a lazy
    one the continuation first, and an iteration that consumes nothing fails.
    The patterns of the sources are written as terms of [regex]. *)
Module Regex.

Inductive regex :=
| RChar (p : char -> bool)          (* one code unit: a literal, a class, [.] *)
| REmpty
| RSeq (r1 r2 : regex)
| RAlt (r1 r2 : regex)              (* r1|r2 *)
| RStar (greedy : bool) (r : regex) (* r* and r*? *)
| RGroup (n : nat) (r : regex)      (* the n-th capturing group *)
| RBegin                            (* ^ *)
| REnd                              (* $ *)
| RWordBoundary.                    (* \b *)

Record mstate := {
  before : list char;               (* the input consumed so far, reversed *)
  after : list char;                (* the input still to match *)
  caps : list (nat * jsstring)      (* captures, latest first *)
}.

Definition cont := mstate -> option mstate.

Definition isWordChar (c : char) : bool :=
  ((48 <=? c) && (c <=? 57) || (65 <=? c) && (c <=? 90) || (97 <=? c) && (c <=? 122)
   || (c =? 95))%N.

Definition orElse {A} (x y : option A) : option A :=
  match x with Some _ => x | None => y end.

Fixpoint star (step : mstate -> cont -> option mstate) (greedy : bool) (fuel : nat)
    (s : mstate) (k : cont) : option mstate :=
  match fuel with
  | 0 => k s
  | S fuel' =>
      let more :=
        step s (fun s' =>
                  if length (after s') <? length (after s)
                  then star step greedy fuel' s' k
                  else None) in
      if greedy then orElse more (k s) else orElse (k s) more
  end.

Fixpoint run (r : regex) (s : mstate) (k : cont) : option mstate :=
  match r with
  | RChar p =>
      match after s with
      | c :: rest =>
          if p c then k {| before := c :: before s; after := rest; caps := caps s |} else None
      | [] => None
      end
  | REmpty => k s
  | RSeq r1 r2 => run r1 s (fun s' => run r2 s' k)
  | RAlt r1 r2 => orElse (run r1 s k) (run r2 s k)
  | RStar greedy r' => star (run r') greedy (S (length (after s))) s k
  | RGroup n r' =>
      run r' s (fun s' =>
        let matched := firstn (length (after s) - length (after s')) (after s) in
        k {| before := before s'; after := after s'; caps := (n, matched) :: caps s' |})
  | RBegin => match before s with [] => k s | _ => None end
  | REnd => match after s with [] => k s | _ => None end
  | RWordBoundary =>
      let a := match before s with c :: _ => isWordChar c | [] => false end in
      let b := match after s with c :: _ => isWordChar c | [] => false end in
      if xorb a b then k s else None
  end.

(** Try the pattern at successive start indices, as a non-global
    [RegExp.prototype.exec] does. *)
Fixpoint execFrom (r : regex) (before after : list char) : option mstate :=
  orElse (run r {| before := before; after := after; caps := [] |} Some)
         match after with
         | [] => None
         | c :: rest => execFrom r (c :: before) rest
         end.

(** [s.match(r)]: the captures of the first match, or [None] for [null]. *)
Definition exec (r : regex) (s : jsstring) : option (list (nat * jsstring)) :=
  option_map caps (execFrom r [] s).

(** [m[n]]: [None] for [undefined]. *)
Fixpoint group (m : list (nat * jsstring)) (n : nat) : option jsstring :=
  match m with
  | [] => None
  | (i, v) :: rest => if i =? n then Some v else group rest n
  end.

(** [r.test(s)] *)
Definition test (r : regex) (s : jsstring) : bool :=
  match exec r s with Some _ => true | None => false end.

(** ** Pattern syntax *)

Definition seqs (rs : list regex) : regex := fold_right RSeq REmpty rs.
Definition alts (r : regex) (rs : list regex) : regex := fold_left RAlt rs r.

(** [r+], [r+?], [r?] and [r{n,}] *)
Definition plus (r : regex) : regex := RSeq r (RStar true r).
Definition plusLazy (r : regex) : regex := RSeq r (RStar false r).
Definition opt (r : regex) : regex := RAlt r REmpty.
Definition atLeast (n : nat) (r : regex) : regex := seqs (repeat r n ++ [RStar true r]).

(** A literal code unit under the [i] flag: ASCII letters match in either case
    (no code unit above 127 canonicalizes to an ASCII letter without the [u] flag). *)
Definition charI (c : char) : regex :=
  RChar (fun x =>
    (x =? c)
    || ((97 <=? c) && (c <=? 122) && (x =? c - 32))
    || ((65 <=? c) && (c <=? 90) && (x =? c + 32)))%N.

(** A literal word under the [i] flag. *)
Definition litI (s : String.string) : regex := seqs (map charI (str s)).
Arguments litI s%_string_scope.

(** [[...]] over the listed code units. *)
Definition oneOf (s : String.string) : regex := RChar (fun x => existsb (N.eqb x) (str s)).
Arguments oneOf s%_string_scope.

(** [\s] and [.] *)
Definition ws : regex := RChar isWhiteSpace.
Definition dot : regex := RChar (fun x => negb (isLineTerminator x)).

End Regex.

(* ================================================================== *)
(** * Chat segmentation ([qcChatSplit]) *)
(* ================================================================== *)

Module ChatSplit.
Import Regex.

Inductive ChatSplitStrategy := SINGLE | CHAT_ID | SEPARATORS | SPEAKER_BLOCKS.

Record Participants := {
  operator : option jsstring;
  customer : option jsstring
}.

Record ChatSegment := {
  index : nat;
  title : jsstring;
  chatId : option jsstring;
  participants : option Participants;
  text : jsstring
}.

Record SplitResult := {
  strategy : ChatSplitStrategy;
  warning : option jsstring;
  chats : list ChatSegment
}.

Record Segment := { start : nat; end_ : nat }.

(** [text.replace(/\r\n/g, '\n').replace(/\r/g, '\n')] *)
Fixpoint replaceCRLF (s : jsstring) : jsstring :=
  match s with
  | [] => []
  | c :: rest =>
      match rest with
      | d :: rest' =>
          if ((c =? 13) && (d =? 10))%N then 10%N :: replaceCRLF rest'
          else c :: replaceCRLF rest
      | [] => [c]
      end
  end.

Definition normalizeNewlines (text : jsstring) : jsstring :=
  map (fun c => if (c =? 13)%N then 10%N else c) (replaceCRLF text).

(** U+2026, the ellipsis [clampString] appends. *)
Definition ellipsis : jsstring := [8230%N].

Definition clampString (s : jsstring) (maxLen : nat) : jsstring :=
  if length s <=? maxLen then s
  else trimEnd (slice s 0 (Nat.max 0 (maxLen - 1))) +++ ellipsis.

Definition splitIntoLines (text : jsstring) : list jsstring :=
  splitNewline (normalizeNewlines text).

Definition rebuildFromLines (lines : list jsstring) (startLine endLineExclusive : nat)
    : jsstring :=
  trim (joinNewline (slice lines startLine endLineExclusive)).

(** [/^[-=*#]{5,}$/] *)
Definition reSeparatorRun : regex :=
  seqs [RBegin; atLeast 5 (oneOf "-=*#"); REnd].

(** [/^(begin|end)\s+(chat|conversation|transcript)\b/i] *)
Definition reBeginEnd : regex :=
  seqs [RBegin; RGroup 1 (alts (litI "begin") [litI "end"]); plus ws;
        RGroup 2 (alts (litI "chat") [litI "conversation"; litI "transcript"]);
        RWordBoundary].

(** [/^end\s+of\s+(chat|conversation)\b/i] *)
Definition reEndOf : regex :=
  seqs [RBegin; litI "end"; plus ws; litI "of"; plus ws;
        RGroup 1 (alts (litI "chat") [litI "conversation"]); RWordBoundary].

Definition isSeparatorLine (line : jsstring) : bool :=
  let t := trim line in
  match t with
  | [] => false
  | _ =>
      if test reSeparatorRun t then true
      else if test reBeginEnd t then true
      else if test reEndOf t then true
      else false
  end.

(** [/^\s*(operator|agent|advisor|rep)\s*:\s*(.+?)\s*$/i] *)
Definition reOperator : regex :=
  seqs [RBegin; RStar true ws;
        RGroup 1 (alts (litI "operator") [litI "agent"; litI "advisor"; litI "rep"]);
        RStar true ws; oneOf ":"; RStar true ws; RGroup 2 (plusLazy dot);
        RStar true ws; REnd].

(** [/^\s*(customer|client|caller|buyer)\s*:\s*(.+?)\s*$/i] *)
Definition reCustomer : regex :=
  seqs [RBegin; RStar true ws;
        RGroup 1 (alts (litI "customer") [litI "client"; litI "caller"; litI "buyer"]);
        RStar true ws; oneOf ":"; RStar true ws; RGroup 2 (plusLazy dot);
        RStar true ws; REnd].

Inductive Role := RoleOperator | RoleCustomer.

Definition groupOrEmpty (m : list (nat * jsstring)) (n : nat) : jsstring :=
  match group m n with Some v => v | None => [] end.

Definition parseLabeledParticipant (line : jsstring) : option (Role * jsstring) :=
  match exec reOperator line with
  | Some m => Some (RoleOperator, trim (groupOrEmpty m 2))
  | None =>
      match exec reCustomer line with
      | Some n => Some (RoleCustomer, trim (groupOrEmpty n 2))
      | None => None
      end
  end.

(** [/^\s*(chat\s*(id|#)|conversation\s*id|ticket\s*(id|#))\s*[:#]?\s*(.+?)\s*$/i] *)
Definition reChatIdHeader : regex :=
  seqs [RBegin; RStar true ws;
        RGroup 1
          (alts (seqs [litI "chat"; RStar true ws; RGroup 2 (alts (litI "id") [oneOf "#"])])
                [seqs [litI "conversation"; RStar true ws; litI "id"];
                 seqs [litI "ticket"; RStar true ws; RGroup 3 (alts (litI "id") [oneOf "#"])]]);
        RStar true ws; opt (oneOf ":#"); RStar true ws; RGroup 4 (plusLazy dot);
        RStar true ws; REnd].

(** Returns the [chatId] of a header line, [None] for [null]. *)
Definition findChatIdHeader (line : jsstring) : option jsstring :=
  match exec reChatIdHeader line with
  | None => None
  | Some m =>
      let chatId := trim (groupOrEmpty m 4) in
      match chatId with
      | [] => None
      | _ => Some chatId
      end
  end.

(** [[...new Set(xs)]]: first occurrences, in order. *)
Fixpoint uniq (xs : list nat) : list nat :=
  match xs with
  | [] => []
  | x :: rest => x :: filter (fun y => negb (y =? x)) (uniq rest)
  end.

(** [xs.sort((a, b) => a - b)] *)
Fixpoint insertSorted (x : nat) (xs : list nat) : list nat :=
  match xs with
  | [] => [x]
  | y :: rest => if x <=? y then x :: xs else y :: insertSorted x rest
  end.

Definition sortAscending (xs : list nat) : list nat := fold_right insertSorted [] xs.

(** The loop of [computeSegmentsFromStarts] over the sorted starts. *)
Fixpoint segmentsBetween (sorted : list nat) (lineCount : nat) : list Segment :=
  match sorted with
  | [] => []
  | start :: rest =>
      let end_ := match rest with next :: _ => next | [] => lineCount end in
      (if start <? end_ then [{| start := start; end_ := end_ |}] else [])
      ++ segmentsBetween rest lineCount
  end.

Definition computeSegmentsFromStarts (lines : list jsstring) (startLines : list nat)
    : list Segment :=
  let sorted := sortAscending (uniq startLines) in
  segmentsBetween sorted (length lines).

Definition minChars : nat := 120.

Definition filterNonTrivialSegments (lines : list jsstring) (segments : list Segment)
    : list Segment :=
  filter (fun s => minChars <=? length (rebuildFromLines lines (start s) (end_ s))) segments.

(** The three scans of [splitTranscriptIntoChats] for segment starts. *)

Definition chatIdStartsOf (lines : list jsstring) : list (nat * jsstring) :=
  flat_map (fun '(i, line) =>
              match findChatIdHeader line with
              | Some chatId => [(i, chatId)]
              | None => []
              end)
           (entries lines).

(** The index of the first line at or after [j] that is not blank, where
    [ls] holds the lines from index [j] on. *)
Fixpoint skipBlank (ls : list jsstring) (j : nat) : option nat :=
  match ls with
  | [] => None
  | l :: rest => match trim l with [] => skipBlank rest (S j) | _ => Some j end
  end.

Definition sepStartsOf (lines : list jsstring) : list nat :=
  flat_map (fun '(i, line) =>
              if negb (isSeparatorLine line) then []
              else match skipBlank (skipn (i + 1) lines) (i + 1) with
                   | Some j => [j]
                   | None => []
                   end)
           (entries lines).

Definition setRole (p : Participants) (role : Role) (name : jsstring) : Participants :=
  match role with
  | RoleOperator => {| operator := Some name; customer := customer p |}
  | RoleCustomer => {| operator := operator p; customer := Some name |}
  end.

(** The first labelled participant among the given lines. *)
Fixpoint findNextParticipant (ls : list jsstring) : option (Role * jsstring) :=
  match ls with
  | [] => None
  | l :: rest =>
      match parseLabeledParticipant l with
      | Some next => Some next
      | None => findNextParticipant rest
      end
  end.

Definition truthy (s : option jsstring) : bool :=
  match s with Some (_ :: _) => true | _ => false end.

Definition participantStartsOf (lines : list jsstring) : list (nat * Participants) :=
  flat_map (fun '(i, line) =>
              match parseLabeledParticipant line with
              | None => []
              | Some (role, name) =>
                  let participants := setRole {| operator := None; customer := None |} role name in
                  (* lines i+1 .. min(lines.length, i+10) - 1 *)
                  let participants :=
                    match findNextParticipant (slice lines (i + 1) (Nat.min (length lines) (i + 10))) with
                    | Some (role', name') => setRole participants role' name'
                    | None => participants
                    end in
                  let hasBoth := truthy (operator participants) && truthy (customer participants) in
                  if hasBoth then [(i, participants)] else []
              end)
           (entries lines).

(** [starts.find((x) => x.lineIndex === seg.start)] *)
Definition findStart {A} (starts : list (nat * A)) (lineIndex : nat) : option A :=
  option_map snd (find (fun x => fst x =? lineIndex) starts).

(** U+2194 between the two participant names of a title. *)
Definition arrow : jsstring := str " " +++ [8596%N] +++ str " ".

Definition singleFallbackWarning : jsstring :=
  str "Could not reliably detect multiple chats in this file. The entire upload was treated as a single chat. If this is wrong, export chats with a Chat ID header or separators between chats.".

Definition chat (idx : nat) (title : jsstring) (chatId : option jsstring)
    (participants : option Participants) (text : jsstring) : ChatSegment :=
  {| index := idx; title := title; chatId := chatId; participants := participants;
     text := text |}.

(** F) Chat ID headers *)
Definition tryChatIdHeaders (lines : list jsstring) : option SplitResult :=
  let chatIdStarts := chatIdStartsOf lines in
  if 2 <=? length chatIdStarts then
    let segments := computeSegmentsFromStarts lines (map fst chatIdStarts) in
    let usable := filterNonTrivialSegments lines segments in
    if 2 <=? length usable then
      let chats :=
        map (fun '(idx, seg) =>
               let chatId := findStart chatIdStarts (start seg) in
               chat idx
                    (if truthy chatId
                     then str "Chat " +++ clampString (match chatId with Some id => id | None => [] end) 48
                     else str "Chat " +++ ofNat (idx + 1))
                    (if truthy chatId then chatId else None)
                    None
                    (rebuildFromLines lines (start seg) (end_ seg)))
            (entries usable) in
      Some {| strategy := CHAT_ID; warning := None; chats := chats |}
    else None
  else None.

(** B) Explicit separators; the beginning of the file is a start as well. *)
Definition trySeparators (lines : list jsstring) : option SplitResult :=
  let sepStarts := sepStartsOf lines in
  if 1 <=? length sepStarts then
    let starts := 0 :: sepStarts in
    let segments := computeSegmentsFromStarts lines starts in
    let usable := filterNonTrivialSegments lines segments in
    if 2 <=? length usable then
      let chats :=
        map (fun '(idx, seg) =>
               chat idx (str "Chat " +++ ofNat (idx + 1)) None None
                    (rebuildFromLines lines (start seg) (end_ seg)))
            (entries usable) in
      Some {| strategy := SEPARATORS; warning := None; chats := chats |}
    else None
  else None.

(** D) Operator + customer participant blocks *)
Definition trySpeakerBlocks (lines : list jsstring) : option SplitResult :=
  let participantStarts := participantStartsOf lines in
  if 2 <=? length participantStarts then
    let segments := computeSegmentsFromStarts lines (map fst participantStarts) in
    let usable := filterNonTrivialSegments lines segments in
    if 2 <=? length usable then
      let chats :=
        map (fun '(idx, seg) =>
               let participants := findStart participantStarts (start seg) in
               let title :=
                 match participants with
                 | Some p =>
                     if truthy (operator p) && truthy (customer p)
                     then clampString (match operator p with Some n => n | None => [] end) 28
                          +++ arrow +++
                          clampString (match customer p with Some n => n | None => [] end) 28
                     else str "Chat " +++ ofNat (idx + 1)
                 | None => str "Chat " +++ ofNat (idx + 1)
                 end in
               chat idx title None participants
                    (rebuildFromLines lines (start seg) (end_ seg)))
            (entries usable) in
      Some {| strategy := SPEAKER_BLOCKS; warning := None; chats := chats |}
    else None
  else None.

Definition splitTranscriptIntoChats (text : jsstring) : SplitResult :=
  let raw := text in
  let normalized := trim (normalizeNewlines raw) in
  match normalized with
  | [] =>
      {| strategy := SINGLE;
         warning := Some (str "No text found to split.");
         chats := [chat 0 (str "Chat 1") None None (str "")] |}
  | _ =>
      let lines := splitIntoLines normalized in
      match tryChatIdHeaders lines with
      | Some result => result
      | None =>
      match trySeparators lines with
      | Some result => result
      | None =>
      match trySpeakerBlocks lines with
      | Some result => result
      | None =>
          (* A) Fallback: treat as single chat *)
          {| strategy := SINGLE;
             warning := Some singleFallbackWarning;
             chats := [chat 0 (str "Chat 1") None None normalized] |}
      end end end
  end.

End ChatSplit.

(* ================================================================== *)
(** * Result documents ([qcResultMapping]) *)
(* ================================================================== *)

Module Mapping.
Import Engine.

Inductive RunStatus := QUEUED | RUNNING | SUCCEEDED | FAILED | CANCELLED.

Inductive RuleStatus := PASS | FAIL | NOT_EVALUATED | ERROR.

Definition status_eqb (a b : RuleStatus) : bool :=
  match a, b with
  | PASS, PASS | FAIL, FAIL | NOT_EVALUATED, NOT_EVALUATED | ERROR, ERROR => true
  | _, _ => false
  end.

Inductive QcPublicErrorCategory := VALIDATION | INTEGRATION | EXECUTION | RULE_EVALUATION.

Record QcPublicError := {
  category : QcPublicErrorCategory;
  code : jsstring;
  message : jsstring;
  help : option jsstring;
  retryable : bool
}.

(** [asPublicError]: [help] is kept only when it is a non-empty string. *)
Definition asPublicError (input : QcPublicError) : QcPublicError :=
  {| category := category input;
     code := code input;
     message := message input;
     help := match help input with Some (_ :: _) => help input | _ => None end;
     retryable := retryable input |}.

Inductive EvidenceKind := GENERIC | TIME_RANGE.

Record EvidenceSource := {
  storagePath : option jsstring;
  fileName : option jsstring;
  contentType : option jsstring
}.

Module EvidenceRef.
Record t := {
  kind : EvidenceKind;
  title : jsstring;
  detail : option jsstring;
  source : option EvidenceSource;
  location : option (list jsstring)      (* location.fieldPath *)
}.
End EvidenceRef.

Module RuleResultDoc.
Record t := {
  order : nat;
  ruleId : jsstring;
  ruleName : jsstring;
  ruleType : QcRuleType;
  weight : number;
  severity : QcSeverity;
  status : RuleStatus;
  score : number;
  reason : option jsstring;
  evidence : list EvidenceRef.t;
  error : option QcPublicError
}.
End RuleResultDoc.

Record RuleCounts := {
  total : nat;
  pass : nat;
  fail : nat;
  notEvaluated : nat;
  error : nat
}.

Definition ruleOutcomeToStatus (outcome : RuleOutcome) : RuleStatus :=
  match outcome with
  | Engine.PASS => PASS
  | Engine.FAIL => FAIL
  | Engine.ERROR => ERROR
  (* qc-engine uses SKIP; results system exposes NOT_EVALUATED. *)
  | Engine.SKIP => NOT_EVALUATED
  end.

Definition nonEmpty (s : option jsstring) : option jsstring :=
  match s with Some (_ :: _) => s | _ => None end.

Definition firstReasonFromEvidence (evidence : list Evidence.t) : option jsstring :=
  option_map Evidence.message
    (find (fun x => 0 <? length (Evidence.message x)) evidence).

(** [meta[key]] on the evidence meta record. *)
Fixpoint metaLookup (meta : list (jsstring * value)) (key : jsstring) : value :=
  match meta with
  | [] => VUndefined
  | (k, v) :: rest => if string_eqb k key then v else metaLookup rest key
  end.

Section WithHost.
Context {host : Host}.

Definition evidenceToRefs (evidence : list Evidence.t) (options : option EvidenceSource)
    : list EvidenceRef.t :=
  map (fun e =>
         let src :=
           match options with
           | Some o =>
               let o' := {| storagePath := nonEmpty (storagePath o);
                            fileName := nonEmpty (fileName o);
                            contentType := nonEmpty (contentType o) |} in
               match storagePath o', fileName o', contentType o' with
               | None, None, None => None
               | _, _, _ => Some o'
               end
           | None => None
           end in
         let loc :=
           match Evidence.path e with
           | Some ((_ :: _) as path) => Some path
           | _ => None
           end in
         let meta := match Evidence.meta e with Some m => m | None => [] end in
         match string_eqb (Evidence.type e) (str "AUDIO_DURATION_LIMIT"),
               metaLookup meta (str "durationMs") with
         | true, VNum durationMs =>
             {| EvidenceRef.kind := TIME_RANGE;
                EvidenceRef.title := str "Audio duration";
                EvidenceRef.detail :=
                  Some (str "Duration: " +++ toStringValue (VNum (Math_round durationMs))
                        +++ str " ms");
                EvidenceRef.source := src;
                EvidenceRef.location := loc |}
         | _, _ =>
             {| EvidenceRef.kind := GENERIC;
                EvidenceRef.title := Evidence.type e;
                EvidenceRef.detail := Some (Evidence.message e);
                EvidenceRef.source := src;
                EvidenceRef.location := loc |}
         end)
      evidence.

Definition mapRuleResultToDoc (order : nat) (rule : QcRuleDefinition) (result : QcRuleResult)
    (source : option EvidenceSource) : RuleResultDoc.t :=
  let status := ruleOutcomeToStatus (RuleResult.outcome result) in
  let reason :=
    match status with
    | FAIL | NOT_EVALUATED => firstReasonFromEvidence (RuleResult.evidence result)
    | _ => None
    end in
  {| RuleResultDoc.order := order;
     RuleResultDoc.ruleId := RuleResult.ruleId result;
     RuleResultDoc.ruleName := Rule.name rule;
     RuleResultDoc.ruleType := RuleResult.type result;
     RuleResultDoc.weight := RuleResult.weight result;
     RuleResultDoc.severity := RuleResult.severity result;
     RuleResultDoc.status := status;
     RuleResultDoc.score := RuleResult.score result;
     RuleResultDoc.evidence := evidenceToRefs (RuleResult.evidence result) source;
     RuleResultDoc.reason := reason;
     RuleResultDoc.error :=
       match status with
       | ERROR =>
           let err := RuleResult.error result in
           Some {| category := RULE_EVALUATION;
                   code := match err with
                           | Some e => Engine.code e
                           | None => str "RULE_EVALUATION_ERROR"
                           end;
                   message := str "This rule could not be evaluated for the provided input.";
                   help := match err with
                           | Some {| err_message := (_ :: _) as m |} =>
                               Some (str "Details: " +++ m)
                           | _ => None
                           end;
                   retryable := false |}
       | _ => None
       end |}.

End WithHost.

Definition summarizeRuleStatuses (ruleDocs : list RuleResultDoc.t) : RuleCounts :=
  fold_left
    (fun counts r =>
       match RuleResultDoc.status r with
       | PASS => {| total := total counts; pass := S (pass counts); fail := fail counts;
                    notEvaluated := notEvaluated counts; error := error counts |}
       | FAIL => {| total := total counts; pass := pass counts; fail := S (fail counts);
                    notEvaluated := notEvaluated counts; error := error counts |}
       | ERROR => {| total := total counts; pass := pass counts; fail := fail counts;
                     notEvaluated := notEvaluated counts; error := S (error counts) |}
       | NOT_EVALUATED =>
                  {| total := total counts; pass := pass counts; fail := fail counts;
                     notEvaluated := S (notEvaluated counts); error := error counts |}
       end)
    ruleDocs
    {| total := length ruleDocs; pass := 0; fail := 0; notEvaluated := 0; error := 0 |}.

End Mapping.

(* ================================================================== *)
(** * The run processor ([qcProcessor]) *)
(* ================================================================== *)

Module Processor.
Import Engine Mapping ChatSplit.

(** ** Aggregation over chats *)

Record ChatSummaryBody := {
  overallOutcome : OverallOutcome;
  overallScore : number;
  failedRuleIds : list jsstring;
  ruleCounts : RuleCounts
}.

Module ChatResultSummary.
Record t := {
  index : nat;
  title : jsstring;
  chatId : option jsstring;
  participants : option Participants;
  summary : ChatSummaryBody
}.
End ChatResultSummary.

Record PerChatComputed := {
  pc_chat : ChatSegment;
  pc_summary : ChatSummaryBody;
  ruleDocs : list RuleResultDoc.t
}.

(** [statusRank] and [rankToStatus] of [combineAggregatedRuleDocs]. *)
Definition statusRank (s : RuleStatus) : number :=
  match s with
  | NOT_EVALUATED => 0%float
  | PASS => 1%float
  | FAIL => 2%float
  | ERROR => 3%float
  end.

Definition rankToStatus (rank : number) : RuleStatus :=
  if (3 <=? rank)%float then ERROR
  else if (rank =? 2)%float then FAIL
  else if (rank =? 1)%float then PASS
  else NOT_EVALUATED.

Definition TypeError (message : jsstring) : thrown := ThrowError (str "TypeError") message.

(** The evidence loop of [combineAggregatedRuleDocs] for one chat entry:
    nothing is pushed once 25 entries are collected. *)
Definition pushEvidence (prefix : jsstring) (evidence : list EvidenceRef.t)
    (ev : EvidenceRef.t) : list EvidenceRef.t :=
  if 25 <=? length evidence then evidence
  else evidence ++
       [{| EvidenceRef.kind := EvidenceRef.kind ev;
           EvidenceRef.title := EvidenceRef.title ev;
           EvidenceRef.detail :=
             Some (match EvidenceRef.detail ev with
                   | Some ((_ :: _) as detail) => prefix +++ detail
                   | _ => trimEnd prefix
                   end);
           EvidenceRef.source := EvidenceRef.source ev;
           EvidenceRef.location := EvidenceRef.location ev |}].

(** The body of the [for (let i = 0; i < ruleCount; i++)] loop, given the
    entries [{ chat, doc: x.docs[i] }] of rule index [i]. *)
Definition combineEntries (entries : list (ChatSegment * RuleResultDoc.t))
    (base : RuleResultDoc.t) : RuleResultDoc.t :=
  let worstRank := Math_max (map (fun e => statusRank (RuleResultDoc.status (snd e))) entries) in
  let status := rankToStatus worstRank in
  let score :=
    Math_min (map (fun e => if isFinite (RuleResultDoc.score (snd e))
                            then RuleResultDoc.score (snd e) else 0%float) entries) in
  let reason :=
    match status with
    | FAIL | NOT_EVALUATED =>
        match find (fun e => status_eqb (RuleResultDoc.status (snd e)) status
                             && match RuleResultDoc.reason (snd e) with
                                | Some (_ :: _) => true
                                | _ => false
                                end) entries with
        | Some e => RuleResultDoc.reason (snd e)
        | None => None
        end
    | _ => None
    end in
  let evidence :=
    fold_left
      (fun evidence e =>
         if negb (status_eqb (RuleResultDoc.status (snd e)) status) then evidence
         else
           let chat := fst e in
           let prefix :=
             str "Chat " +++ ofNat (ChatSplit.index chat + 1)
             +++ (match ChatSplit.title chat with
                  | _ :: _ => str " (" +++ ChatSplit.title chat +++ str ")"
                  | [] => str ""
                  end)
             +++ str ": " in
           fold_left (pushEvidence prefix) (RuleResultDoc.evidence (snd e)) evidence)
      entries [] in
  {| (* ...base *)
     RuleResultDoc.order := RuleResultDoc.order base;
     RuleResultDoc.ruleId := RuleResultDoc.ruleId base;
     RuleResultDoc.ruleName := RuleResultDoc.ruleName base;
     RuleResultDoc.ruleType := RuleResultDoc.ruleType base;
     RuleResultDoc.weight := RuleResultDoc.weight base;
     RuleResultDoc.severity := RuleResultDoc.severity base;
     RuleResultDoc.error := RuleResultDoc.error base;
     RuleResultDoc.status := status;
     RuleResultDoc.score := score;
     RuleResultDoc.reason :=
       match reason with
       | Some (_ :: _) => reason
       | _ => RuleResultDoc.reason base
       end;
     RuleResultDoc.evidence := evidence |}.

Definition combineAggregatedRuleDocs
    (perChatRuleDocs : list (ChatSegment * list RuleResultDoc.t))
    : completion (list RuleResultDoc.t) :=
  match perChatRuleDocs with
  | [] => Return []
  | first :: _ =>
      let ruleCount := length (snd first) in
      mapM (fun i =>
              bind (mapM (fun x =>
                            match nth_error (snd x) i with
                            | Some doc => Return (fst x, doc)
                            | None =>
                                Throw (TypeError
                                  (str "Cannot read properties of undefined (reading 'status')"))
                            end)
                         perChatRuleDocs)
                   (fun entries =>
                      match entries with
                      | e0 :: _ => Return (combineEntries entries (snd e0))
                      | [] =>
                          Throw (TypeError
                            (str "Cannot read properties of undefined (reading 'doc')"))
                      end))
           (seq 0 ruleCount)
  end.

(** [Array.from(new Set(xs))] on strings. *)
Fixpoint uniqStrings (xs : list jsstring) : list jsstring :=
  match xs with
  | [] => []
  | x :: rest => x :: filter (fun y => negb (string_eqb y x)) (uniqStrings rest)
  end.

Record RunSummaryBody := {
  rs_overallOutcome : OverallOutcome;
  rs_overallScore : number;
  rs_failedRuleIds : list jsstring
}.

Definition combineRunSummaryFromChats (chatSummaries : list ChatResultSummary.t)
    : RunSummaryBody :=
  {| rs_overallOutcome :=
       if existsb (fun c => match overallOutcome (ChatResultSummary.summary c) with
                            | OverallFAIL => true
                            | OverallPASS => false
                            end) chatSummaries
       then OverallFAIL else OverallPASS;
     rs_overallScore :=
       match chatSummaries with
       | [] => 1%float
       | _ => Math_min (map (fun c => overallScore (ChatResultSummary.summary c)) chatSummaries)
       end;
     rs_failedRuleIds :=
       uniqStrings (flat_map (fun c => failedRuleIds (ChatResultSummary.summary c))
                             chatSummaries) |}.


(** ** Evaluation of one run: the synchronous middle part of [processQcRun] *)

Record ChatMeta := {
  enabled : bool;
  cm_strategy : ChatSplitStrategy;
  chatCount : nat;
  cm_warning : option jsstring
}.

Record Computed := {
  multiChatEnabled : bool;
  aggregatedRuleDocs : list RuleResultDoc.t;
  c_ruleCounts : RuleCounts;
  runSummary : RunSummaryBody;
  chatSummaries : option (list ChatResultSummary.t);
  perChatComputed : option (list PerChatComputed);
  chatMeta : option ChatMeta
}.

Section WithHost.
Context {host : Host}.

(** [options: { passScoreThreshold: 1, blockerFailureForcesFail: true }] *)
Definition processorOptions : QcExecutionOptions :=
  {| passScoreThreshold := Some 1%float; blockerFailureForcesFail := Some true |}.

(** [ruleResults.map((rr, i) => mapRuleResultToDoc({ order: i, rule: rules[i]!, result: rr, ...source }))] *)
Definition mapResultsToDocs (rules : list QcRuleDefinition) (ruleResults : list QcRuleResult)
    (source : option EvidenceSource) : completion (list RuleResultDoc.t) :=
  mapM (fun '(i, rr) =>
          match nth_error rules i with
          | Some rule => Return (mapRuleResultToDoc i rule rr source)
          | None =>
              Throw (TypeError (str "Cannot read properties of undefined (reading 'name')"))
          end)
       (entries ruleResults).

Definition computeChat (rules : list QcRuleDefinition) (executedAtIso : jsstring)
    (source : option EvidenceSource) (chat : ChatSegment) : completion PerChatComputed :=
  bind (runQc {| input := InText (ChatSplit.text chat) None;
                 rules := rules;
                 executedAtIso := executedAtIso;
                 aiSignals := None;
                 options := Some processorOptions |}) (fun chatResult =>
  bind (mapResultsToDocs rules (ruleResults chatResult) source) (fun docs =>
  let counts := summarizeRuleStatuses docs in
  Return {| pc_chat := chat;
            pc_summary :=
              {| overallOutcome := RunSummary.overallOutcome (Engine.summary chatResult);
                 overallScore := RunSummary.overallScore (Engine.summary chatResult);
                 failedRuleIds := RunSummary.failedRuleIds (Engine.summary chatResult);
                 ruleCounts := counts |};
            ruleDocs := docs |})).

Definition compute (rules : list QcRuleDefinition) (normalizedInput : QcNormalizedInput)
    (source : option EvidenceSource) (executedAtIso : jsstring) : completion Computed :=
  (* If input is text, attempt to split into multiple chats. *)
  let split :=
    match normalizedInput with
    | InText text _ => Some (splitTranscriptIntoChats text)
    | _ => None
    end in
  let multiChatEnabled :=
    match split with
    | Some sp => 2 <=? length (chats sp)
    | None => false
    end in
  match split, multiChatEnabled with
  | Some sp, true =>
      bind (mapM (computeChat rules executedAtIso source) (chats sp)) (fun perChatComputed =>
      let chatSummaries :=
        map (fun c =>
               {| ChatResultSummary.index := ChatSplit.index (pc_chat c);
                  ChatResultSummary.title := ChatSplit.title (pc_chat c);
                  ChatResultSummary.chatId := nonEmpty (ChatSplit.chatId (pc_chat c));
                  ChatResultSummary.participants := ChatSplit.participants (pc_chat c);
                  ChatResultSummary.summary := pc_summary c |})
            perChatComputed in
      bind (combineAggregatedRuleDocs (map (fun c => (pc_chat c, ruleDocs c)) perChatComputed))
           (fun aggregatedRuleDocs =>
      Return {| multiChatEnabled := true;
                aggregatedRuleDocs := aggregatedRuleDocs;
                c_ruleCounts := summarizeRuleStatuses aggregatedRuleDocs;
                runSummary := combineRunSummaryFromChats chatSummaries;
                chatSummaries := Some chatSummaries;
                perChatComputed := Some perChatComputed;
                chatMeta := Some {| enabled := true;
                                    cm_strategy := strategy sp;
                                    chatCount := length (chats sp);
                                    cm_warning := nonEmpty (warning sp) |} |}))
  | _, _ =>
      bind (runQc {| input := normalizedInput;
                     rules := rules;
                     executedAtIso := executedAtIso;
                     aiSignals := None;
                     options := Some processorOptions |}) (fun result =>
      bind (mapResultsToDocs rules (ruleResults result) source) (fun aggregatedRuleDocs =>
      Return {| multiChatEnabled := false;
                aggregatedRuleDocs := aggregatedRuleDocs;
                c_ruleCounts := summarizeRuleStatuses aggregatedRuleDocs;
                runSummary :=
                  {| rs_overallOutcome := RunSummary.overallOutcome (Engine.summary result);
                     rs_overallScore := RunSummary.overallScore (Engine.summary result);
                     rs_failedRuleIds := RunSummary.failedRuleIds (Engine.summary result) |};
                chatSummaries := None;
                perChatComputed := None;
                chatMeta :=
                  match split with
                  | Some sp =>
                      match nonEmpty (warning sp) with
                      | Some w => Some {| enabled := false; cm_strategy := strategy sp;
                                          chatCount := 1; cm_warning := Some w |}
                      | None => None
                      end
                  | None => None
                  end |}))
  end.

End WithHost.

(** ** The persisted state *)

(** Document identifiers; [uuidv4()] returns an identifier never issued before. *)
Definition Id := nat.

Inductive WriteState := WRITING | COMPLETE.

(** [qc_run_results/{resultId}]. Tenant and run identifiers, timestamps, the
    engine version and the integrity block are written once with the document
    and never read back by the processor; they are left out. *)
Module ResultDoc.
Record t := {
  resultId : Id;
  summary : ChatSummaryBody;
  chat : option ChatMeta;
  writeState : option WriteState;
  expectedRuleCount : option nat
}.
End ResultDoc.

(** [qc_runs/{runId}]: the fields [processQcRun] writes, timestamps and the
    input fingerprint apart. *)
Module RunDoc.
Record t := {
  status : RunStatus;
  resultId : option Id;
  error : option QcPublicError
}.
End RunDoc.

Inductive AuditMeta :=
| AuditResult (resultId : Id)
| AuditFailed (code : jsstring) (category : QcPublicErrorCategory).

Record Store := {
  run : option RunDoc.t;
  (** [qc_run_results] *)
  results : list (Id * ResultDoc.t);
  (** [qc_run_results/{resultId}/rule_results]: parent, own id, document *)
  ruleResults : list (Id * Id * RuleResultDoc.t);
  (** [qc_run_results/{resultId}/chat_results] *)
  chatResults : list (Id * Id * ChatResultSummary.t);
  (** [.../chat_results/{chatResultId}/rule_results] *)
  chatRuleResults : list (Id * Id * RuleResultDoc.t);
  auditLog : list AuditMeta
}.

Fixpoint lookup {A} (id : Id) (docs : list (Id * A)) : option A :=
  match docs with
  | [] => None
  | (k, v) :: rest => if k =? id then Some v else lookup id rest
  end.

Fixpoint updateDoc {A} (id : Id) (f : A -> A) (docs : list (Id * A)) : list (Id * A) :=
  match docs with
  | [] => []
  | (k, v) :: rest => if k =? id then (k, f v) :: rest else (k, v) :: updateDoc id f rest
  end.

(** The rule results stored under result [rid]. *)
Definition ruleResultsOf (rid : Id) (st : Store) : list RuleResultDoc.t :=
  map snd (filter (fun x => fst (fst x) =? rid) (ruleResults st)).

(** One [batch.create] per document, each under a fresh identifier. *)
Definition createAll {A} (parent : Id) (next : Id) (docs : list A) : list (Id * Id * A) :=
  map (fun '(i, d) => (parent, next + i, d)) (entries docs).

(** ** Persistence steps *)

Definition chunkSize : nat := 400.

(** [for (let i = 0; i < docs.length; i += chunkSize) docs.slice(i, i + chunkSize)] *)
Fixpoint chunksFrom {A} (fuel : nat) (docs : list A) : list (list A) :=
  match fuel, docs with
  | 0, _ | _, [] => []
  | S fuel', _ => firstn chunkSize docs :: chunksFrom fuel' (skipn chunkSize docs)
  end.

Definition chunks {A} (docs : list A) : list (list A) := chunksFrom (length docs) docs.

(** The awaited writes of the persistence phase, in program order. *)
Inductive WriteOp :=
| WSingleBatch (result : ResultDoc.t) (docs : list RuleResultDoc.t)
| WCreateResult (result : ResultDoc.t)
| WRuleChunk (chunk : list RuleResultDoc.t)
| WChatCreate (chat : ChatResultSummary.t) (perDocs : list RuleResultDoc.t)
| WChatChunk (chatResultId : Id) (chunk : list RuleResultDoc.t)
| WFinalTxn.

Definition resultDoc (resultId : Id) (c : Computed) (writeState : option WriteState)
    (expectedRuleCount : option nat) : ResultDoc.t :=
  {| ResultDoc.resultId := resultId;
     ResultDoc.summary :=
       {| overallOutcome := rs_overallOutcome (runSummary c);
          overallScore := rs_overallScore (runSummary c);
          failedRuleIds := rs_failedRuleIds (runSummary c);
          ruleCounts := c_ruleCounts c |};
     ResultDoc.chat := chatMeta c;
     ResultDoc.writeState := writeState;
     ResultDoc.expectedRuleCount := expectedRuleCount |}.

Definition singleBatchCeiling : nat := 450.

Definition totalWritesNeeded (c : Computed) : nat :=
  1 (* result *) + length (aggregatedRuleDocs c) + 1 (* run update *).

Definition canSingleBatch (c : Computed) : bool :=
  negb (multiChatEnabled c) && (totalWritesNeeded c <=? singleBatchCeiling).

(** The writes [processQcRun] awaits after evaluation. *)
Definition plan (resultId : Id) (c : Computed) : list WriteOp :=
  if canSingleBatch c then
    [WSingleBatch (resultDoc resultId c None None) (aggregatedRuleDocs c)]
  else
    (* Two-phase write for large rule sets OR multi-chat. *)
    [WCreateResult (resultDoc resultId c (Some WRITING) (Some (length (aggregatedRuleDocs c))))]
    ++ map WRuleChunk (chunks (aggregatedRuleDocs c))
    ++ (match multiChatEnabled c, chatSummaries c with
        | true, Some chatSummaries =>
            map (fun chat =>
                   let found :=
                     match perChatComputed c with
                     | Some per =>
                         find (fun pc => ChatSplit.index (pc_chat pc)
                                         =? ChatResultSummary.index chat) per
                     | None => None
                     end in
                   let perDocs := match found with Some f => ruleDocs f | None => [] end in
                   WChatCreate chat perDocs)
                chatSummaries
        | _, _ => []
        end)
    ++ [WFinalTxn].

Definition executionFailed : QcPublicError :=
  asPublicError
    {| category := EXECUTION;
       code := str "EXECUTION_FAILED";
       message := str "The run could not be completed.";
       help := Some (str "Try again. If the issue persists, contact support with the run ID.");
       retryable := true |}.

(** What the [catch] of [processQcRun] receives: an object carrying
    [category], [code] and [message], or anything else. *)
Inductive Failure :=
| PublicFailure (e : QcPublicError)
| OtherFailure.

Definition publicErrOf (err : Failure) : QcPublicError :=
  match err with
  | PublicFailure e => e
  | OtherFailure => executionFailed
  end.

(** ** One invocation of [processQcRun] *)

(** The program points between two awaited operations. *)
Inductive Pc :=
| AtGuard                                    (* before the guarding transaction *)
| AtReread                                   (* before [runRef.get()] *)
| AtEvaluate                                 (* in [try]: load, evaluate *)
| AtPersist (resultId : Id) (pending : list WriteOp)
| AtAudit (resultId : Id)
| AtCatch (err : Failure)                    (* before [runRef.update] of the [catch] *)
| AtCatchAudit (publicErr : QcPublicError)
| Finished                                   (* returned *)
| Rejected.                                  (* the promise rejected *)

(** What loading the rule snapshot and the input gave this invocation: the
    reads of [processQcRun] that do not touch the documents modelled in
    [Store]. *)
Record Loaded := {
  l_rules : list QcRuleDefinition;
  l_input : QcNormalizedInput;
  l_source : option EvidenceSource;
  l_executedAtIso : jsstring
}.

Record Invocation := {
  pc : Pc;
  load : Failure + Loaded
}.

Definition at_ (p : Pc) (t : Invocation) : Invocation := {| pc := p; load := load t |}.

Definition setRun (st : Store) (r : RunDoc.t) : Store :=
  {| run := Some r; results := results st; ruleResults := ruleResults st;
     chatResults := chatResults st; chatRuleResults := chatRuleResults st;
     auditLog := auditLog st |}.

Definition succeeded (r : RunDoc.t) (resultId : Id) : RunDoc.t :=
  {| RunDoc.status := SUCCEEDED; RunDoc.resultId := Some resultId;
     RunDoc.error := RunDoc.error r |}.

Definition afterWrite (resultId : Id) (rest : list WriteOp) : Pc :=
  match rest with
  | [] => AtAudit resultId
  | _ => AtPersist resultId rest
  end.

Section WithHost.
Context {host : Host}.

(** One awaited write. [None]: the write throws. *)
Definition write (resultId : Id) (op : WriteOp) (rest : list WriteOp) (st : Store) (next : Id)
    : option (Store * Id * list WriteOp) :=
  match op with
  | WSingleBatch result docs =>
      match run st with
      | None => None
      | Some r =>
          Some ({| run := Some (succeeded r resultId);
                   results := results st ++ [(resultId, result)];
                   ruleResults := ruleResults st ++ createAll resultId next docs;
                   chatResults := chatResults st;
                   chatRuleResults := chatRuleResults st;
                   auditLog := auditLog st |},
                next + length docs, rest)
      end
  | WCreateResult result =>
      Some ({| run := run st;
               results := results st ++ [(resultId, result)];
               ruleResults := ruleResults st;
               chatResults := chatResults st;
               chatRuleResults := chatRuleResults st;
               auditLog := auditLog st |},
            next, rest)
  | WRuleChunk chunk =>
      Some ({| run := run st;
               results := results st;
               ruleResults := ruleResults st ++ createAll resultId next chunk;
               chatResults := chatResults st;
               chatRuleResults := chatRuleResults st;
               auditLog := auditLog st |},
            next + length chunk, rest)
  | WChatCreate chat perDocs =>
      let chatResultId := next in
      Some ({| run := run st;
               results := results st;
               ruleResults := ruleResults st;
               chatResults := chatResults st ++ [(resultId, chatResultId, chat)];
               chatRuleResults := chatRuleResults st;
               auditLog := auditLog st |},
            S next, map (WChatChunk chatResultId) (chunks perDocs) ++ rest)
  | WChatChunk chatResultId chunk =>
      Some ({| run := run st;
               results := results st;
               ruleResults := ruleResults st;
               chatResults := chatResults st;
               chatRuleResults := chatRuleResults st ++ createAll chatResultId next chunk;
               auditLog := auditLog st |},
            next + length chunk, rest)
  | WFinalTxn =>
      match run st with
      | None => None   (* Run not found *)
      | Some cur =>
          match RunDoc.status cur, lookup resultId (results st) with
          | RUNNING, None => None   (* tx.update of a missing document *)
          | RUNNING, Some _ =>
              Some ({| run := Some (succeeded cur resultId);
                       results :=
                         updateDoc resultId
                           (fun res =>
                              {| ResultDoc.resultId := ResultDoc.resultId res;
                                 ResultDoc.summary := ResultDoc.summary res;
                                 ResultDoc.chat := ResultDoc.chat res;
                                 ResultDoc.writeState := Some COMPLETE;
                                 ResultDoc.expectedRuleCount :=
                                   ResultDoc.expectedRuleCount res |})
                           (results st);
                       ruleResults := ruleResults st;
                       chatResults := chatResults st;
                       chatRuleResults := chatRuleResults st;
                       auditLog := auditLog st |},
                    next, rest)
          | _, _ => Some (st, next, rest)
          end
      end
  end.

(** One step of an invocation: the code up to and including its next awaited
    operation, which throws without effect when [fault] is set. *)
Definition step (fault : bool) (st : Store) (next : Id) (t : Invocation)
    : Store * Id * Invocation :=
  match pc t with
  | AtGuard =>
      if fault then (st, next, at_ Rejected t)
      else
        match run st with
        | None => (st, next, at_ Rejected t)     (* Run not found *)
        | Some r =>
            match RunDoc.status r with
            | CANCELLED => (st, next, at_ AtReread t)
            | QUEUED =>
                (setRun st {| RunDoc.status := RUNNING; RunDoc.resultId := RunDoc.resultId r;
                              RunDoc.error := RunDoc.error r |},
                 next, at_ AtReread t)
            | _ => (st, next, at_ AtReread t)
            end
        end
  | AtReread =>
      if fault then (st, next, at_ Rejected t)
      else
        match run st with
        | None => (st, next, at_ Rejected t)
        | Some r =>
            match RunDoc.status r with
            | RUNNING => (st, next, at_ AtEvaluate t)
            | _ => (st, next, at_ Finished t)
            end
        end
  | AtEvaluate =>
      if fault then (st, next, at_ (AtCatch OtherFailure) t)
      else
        match load t with
        | inl err => (st, next, at_ (AtCatch err) t)
        | inr l =>
            let resultId := next in
            match compute (l_rules l) (l_input l) (l_source l) (l_executedAtIso l) with
            | Throw _ => (st, S next, at_ (AtCatch OtherFailure) t)
            | Return c => (st, S next, at_ (afterWrite resultId (plan resultId c)) t)
            end
        end
  | AtPersist resultId pending =>
      match pending with
      | [] => (st, next, at_ (AtAudit resultId) t)
      | op :: rest =>
          if fault then (st, next, at_ (AtCatch OtherFailure) t)
          else
            match write resultId op rest st next with
            | None => (st, next, at_ (AtCatch OtherFailure) t)
            | Some (st', next', rest') => (st', next', at_ (afterWrite resultId rest') t)
            end
      end
  | AtAudit resultId =>
      if fault then (st, next, at_ (AtCatch OtherFailure) t)
      else
        ({| run := run st; results := results st; ruleResults := ruleResults st;
            chatResults := chatResults st; chatRuleResults := chatRuleResults st;
            auditLog := auditLog st ++ [AuditResult resultId] |},
         next, at_ Finished t)
  | AtCatch err =>
      let publicErr := publicErrOf err in
      if fault then (st, next, at_ Rejected t)
      else
        match run st with
        | None => (st, next, at_ Rejected t)
        | Some r =>
            (setRun st {| RunDoc.status := FAILED; RunDoc.resultId := RunDoc.resultId r;
                          RunDoc.error := Some publicErr |},
             next, at_ (AtCatchAudit publicErr) t)
        end
  | AtCatchAudit publicErr =>
      if fault then (st, next, at_ Rejected t)
      else
        ({| run := run st; results := results st; ruleResults := ruleResults st;
            chatResults := chatResults st; chatRuleResults := chatRuleResults st;
            auditLog := auditLog st ++ [AuditFailed (code publicErr) (category publicErr)] |},
         next, at_ Finished t)
  | Finished | Rejected => (st, next, t)
  end.

(** ** Several invocations on one run *)

Record System := {
  store : Store;
  nextId : Id;
  invocations : list Invocation
}.

Fixpoint replaceAt {A} (i : nat) (x : A) (xs : list A) : list A :=
  match i, xs with
  | _, [] => []
  | 0, _ :: rest => x :: rest
  | S i', y :: rest => y :: replaceAt i' x rest
  end.

(** Invocation [i] takes its next step. *)
Definition systemStep (sys : System) (ev : nat * bool) : System :=
  let '(i, fault) := ev in
  match nth_error (invocations sys) i with
  | None => sys
  | Some t =>
      let '(st', next', t') := step fault (store sys) (nextId sys) t in
      {| store := st'; nextId := next'; invocations := replaceAt i t' (invocations sys) |}
  end.

Definition runSchedule (sys : System) (schedule : list (nat * bool)) : System :=
  fold_left systemStep schedule sys.

(** A run as [POST /v1/qc-runs] creates it, and the invocations triggered on it. *)
Definition queuedRun : RunDoc.t :=
  {| RunDoc.status := QUEUED; RunDoc.resultId := None; RunDoc.error := None |}.

Definition initialStore : Store :=
  {| run := Some queuedRun; results := []; ruleResults := []; chatResults := [];
     chatRuleResults := []; auditLog := [] |}.

Definition initialSystem (loads : list (Failure + Loaded)) : System :=
  {| store := initialStore;
     nextId := 0;
     invocations := map (fun l => {| pc := AtGuard; load := l |}) loads |}.

End WithHost.

End Processor.

(* ================================================================== *)
(** * A host for closed examples *)
(* ================================================================== *)

(** ASCII case mapping, own-property lookup on objects, and the conversions on
    the values the examples use. Patterns made of letters, digits and spaces
    are matched as the literal text they denote; the examples use no other
    pattern. *)
Module ExampleHost.

Definition lower (c : char) : char := if ((65 <=? c) && (c <=? 90))%N then (c + 32)%N else c.
Definition upper (c : char) : char := if ((97 <=? c) && (c <=? 122))%N then (c - 32)%N else c.

Definition isPlain (c : char) : bool := Regex.isWordChar c || (c =? 32)%N.

Fixpoint ownProperty (fields : list (jsstring * value)) (key : jsstring) : value :=
  match fields with
  | [] => VUndefined
  | (k, v) :: rest => if string_eqb k key then v else ownProperty rest key
  end.








#[export] Instance host : Host := {|
  toLowerCase := map lower;
  toUpperCase := map upper;
  regExpTest pattern flags text :=
    match flags with
    | [] => if forallb isPlain pattern then Return (includes text pattern)
            else Throw (ThrowError (str "SyntaxError") (str "Invalid regular expression"))
    | _ => Throw (ThrowError (str "SyntaxError") (str "Invalid flags"))
    end;
  getProperty o key := match o with VObj fields => ownProperty fields key | _ => VUndefined end;
  toNumber v :=
    match v with
    | VNum n => n
    | VBool true => 1%float
    | VBool false | VNull => 0%float
    | _ => nan
    end;
  toStringValue v :=
    match v with
    | VStr s => s
    | VBool true => str "true"
    | VBool false => str "false"
    | VNull => str "null"
    | VUndefined => str "undefined"
    | _ => str "[object Object]"
    end;
  dateParse _ := nan;
  Math_round x := x
|}.

End ExampleHost.

(* ================================================================== *)
(** * Inline inputs ([qcNormalize]) *)
(* ================================================================== *)

Module Normalize.
Import Engine.

(** [normalizeInlineJson]: a string is a text; an object that is not an array
    is a record; anything else is wrapped in the record [{ value }]. *)
Definition normalizeInlineJson (value : value) : QcNormalizedInput :=
  match value with
  | VStr s => InText s None
  | VDate _ | VObj _ => InRecord value
  | _ => InRecord (VObj [(str "value", value)])
  end.

End Normalize.

(* ================================================================== *)
(** * Roles: [rbac] of the web client, [requireRole] and [errorMiddleware]
      of the functions *)
(* ================================================================== *)

Module Access.

(** A role as it arrives at run time: [None] stands for [undefined]. *)
Definition roleValue := option jsstring.

Definition isRole (role : roleValue) (name : jsstring) : bool :=
  match role with
  | Some r => string_eqb r name
  | None => false
  end.

(** [roleRank] of the web client. *)
Definition roleRank (role : roleValue) : nat :=
  if isRole role (str "Admin") then 3
  else if isRole role (str "Manager") then 2
  else if isRole role (str "Viewer") then 1
  else 0.

Definition roleAtLeast (role : roleValue) (required : jsstring) : bool :=
  roleRank (Some required) <=? roleRank role.

(** [ApiError]: [code], [message], HTTP [status]. *)
Record ApiError := {
  code : jsstring;
  message : jsstring;
  status : nat
}.

(** [requireRole] of the functions: [inl] is the [ApiError] it throws. *)
Definition requireRole (actual : roleValue) (required : jsstring) : ApiError + unit :=
  let rank := if isRole actual (str "Admin") then 3
              else if isRole actual (str "Manager") then 2 else 1 in
  let need := if string_eqb required (str "Admin") then 3
              else if string_eqb required (str "Manager") then 2 else 1 in
  if rank <? need
  then inl {| code := str "FORBIDDEN";
              message := str "Requires role " +++ required;
              status := 403 |}
  else inr tt.

(** What a request handler throws. *)
Inductive Failure :=
| ThrownApiError (e : ApiError)
| ThrownError (message : jsstring)     (* another [Error] *)
| ThrownOther.                         (* not an [Error] *)

(** The response of [errorMiddleware]: the HTTP status and the body
    [{ error: { code, message } }]. *)
Record ErrorResponse := {
  httpStatus : nat;
  errorCode : jsstring;
  errorMessage : jsstring
}.

Definition errorMiddleware (err : Failure) : ErrorResponse :=
  match err with
  | ThrownApiError e =>
      {| httpStatus := status e; errorCode := code e; errorMessage := message e |}
  | ThrownError message =>
      {| httpStatus := 500; errorCode := str "INTERNAL"; errorMessage := message |}
  | ThrownOther =>
      {| httpStatus := 500; errorCode := str "INTERNAL"; errorMessage := str "Unknown error" |}
  end.

End Access.

(* ================================================================== *)
(** * The rule builder of the web client ([templates/[templateId]/page]) *)
(* ================================================================== *)

Module RuleBuilder.
Import Engine.

(** [s.split(sep)] for a separator of one code unit. *)
Fixpoint splitOn (sep : char) (s : jsstring) : list jsstring :=
  match s with
  | [] => [[]]
  | c :: s' =>
      match splitOn sep s' with
      | cur :: rest => if N.eqb c sep then [] :: cur :: rest else (c :: cur) :: rest
      | [] => [[c]]
      end
  end.

(** [parts.join(sep)] *)
Fixpoint joinWith (sep : jsstring) (parts : list jsstring) : jsstring :=
  match parts with
  | [] => []
  | [p] => p
  | p :: rest => p ++ sep ++ joinWith sep rest
  end.

(** [.filter(Boolean)] on strings: the empty string is dropped. *)
Definition nonEmptyStrings (xs : list jsstring) : list jsstring :=
  filter (fun x => match x with [] => false | _ => true end) xs.

Definition dot : char := 46%N.
Definition comma : char := 44%N.

Inductive ApplyTo := WHOLE_DOCUMENT | FIELD.

(** The variants of [RuleBuilder], after the fields they share. *)
Inductive BuilderKind :=
| BRequiredPhrase (applyTo : ApplyTo) (fieldPathText phrase : jsstring) (caseSensitive : bool)
| BRegex (applyTo : ApplyTo) (fieldPathText pattern flags : jsstring) (mustMatch : bool)
| BKeywordBlacklist (applyTo : ApplyTo) (fieldPathText keywordsText : jsstring)
                    (caseSensitive : bool)
| BRequiredField (fieldPathText : jsstring) (allowEmptyString : bool).

Record Builder := {
  uiId : jsstring;
  name : jsstring;
  severity : QcSeverity;
  enabled : bool;
  kind : BuilderKind
}.

(** A rule of a snapshot, as [fromRuleSnapshot] reads it: an object any of
    whose fields may be missing. [s_type] is [None] for a missing type. *)
Record SnapshotParams := {
  p_fieldPath : option (list jsstring);
  p_phrase : option jsstring;
  p_caseSensitive : option bool;
  p_pattern : option jsstring;
  p_flags : option jsstring;
  p_mustMatch : option bool;
  p_keywords : option (list jsstring);
  p_allowEmptyString : option bool
}.

Record SnapshotRule := {
  s_ruleId : option jsstring;
  s_version : option number;
  s_type : option QcRuleType;
  s_enabled : option bool;
  s_severity : option QcSeverity;
  s_weight : option number;
  s_name : option jsstring;
  s_tags : option (list jsstring);
  s_params : option SnapshotParams
}.

Definition noParams : SnapshotParams :=
  {| p_fieldPath := None; p_phrase := None; p_caseSensitive := None; p_pattern := None;
     p_flags := None; p_mustMatch := None; p_keywords := None; p_allowEmptyString := None |}.

Definition parseFieldPath (text : jsstring) : option (list jsstring) :=
  let trimmed := trim text in
  match trimmed with
  | [] => None
  | _ =>
      let parts := nonEmptyStrings (map trim (splitOn dot trimmed)) in
      match parts with
      | [] => None
      | _ => Some parts
      end
  end.

Definition typeOf (k : BuilderKind) : QcRuleType :=
  match k with
  | BRequiredPhrase _ _ _ _ => TEXT_REQUIRED_PHRASE
  | BRegex _ _ _ _ _ => TEXT_REGEX
  | BKeywordBlacklist _ _ _ _ => TEXT_KEYWORD_BLACKLIST
  | BRequiredField _ _ => REQUIRED_FIELD
  end.

(** [applyTo === 'FIELD' ? parseFieldPath(fieldPathText) : undefined] *)
Definition fieldPathOf (applyTo : ApplyTo) (fieldPathText : jsstring)
    : option (list jsstring) :=
  match applyTo with
  | FIELD => parseFieldPath fieldPathText
  | WHOLE_DOCUMENT => None
  end.

Definition toRule (r : Builder) : SnapshotRule :=
  {| s_ruleId := Some (uiId r);
     s_version := Some 1%float;
     s_type := Some (typeOf (kind r));
     s_enabled := Some (enabled r);
     s_severity := Some (severity r);
     s_weight := Some 1%float;
     s_name := Some (trim (name r));
     s_tags := Some [];
     s_params :=
       Some match kind r with
            | BRequiredField fieldPathText allowEmptyString =>
                {| p_fieldPath := Some match parseFieldPath fieldPathText with
                                       | Some fp => fp
                                       | None => []
                                       end;
                   p_allowEmptyString := Some allowEmptyString;
                   p_phrase := None; p_caseSensitive := None; p_pattern := None;
                   p_flags := None; p_mustMatch := None; p_keywords := None |}
            | BRequiredPhrase applyTo fieldPathText phrase caseSensitive =>
                {| p_fieldPath := fieldPathOf applyTo fieldPathText;
                   p_phrase := Some phrase;
                   p_caseSensitive := Some caseSensitive;
                   p_pattern := None; p_flags := None; p_mustMatch := None;
                   p_keywords := None; p_allowEmptyString := None |}
            | BRegex applyTo fieldPathText pattern flags mustMatch =>
                {| p_fieldPath := fieldPathOf applyTo fieldPathText;
                   p_pattern := Some pattern;
                   p_flags := match trim flags with
                              | [] => None
                              | trimmed => Some trimmed
                              end;
                   p_mustMatch := Some mustMatch;
                   p_phrase := None; p_caseSensitive := None; p_keywords := None;
                   p_allowEmptyString := None |}
            | BKeywordBlacklist applyTo fieldPathText keywordsText caseSensitive =>
                {| p_fieldPath := fieldPathOf applyTo fieldPathText;
                   p_keywords :=
                     Some (nonEmptyStrings (map trim (splitOn comma keywordsText)));
                   p_caseSensitive := Some caseSensitive;
                   p_phrase := None; p_pattern := None; p_flags := None;
                   p_mustMatch := None; p_allowEmptyString := None |}
            end |}.

Definition toRuleSnapshot (builderRules : list Builder) : list SnapshotRule :=
  map toRule builderRules.

Definition orElse {A} (x : option A) (d : A) : A :=
  match x with Some a => a | None => d end.

(** [r.params?.fieldPath?.length ? 'FIELD' : 'WHOLE_DOCUMENT'] *)
Definition applyToOf (p : SnapshotParams) : ApplyTo :=
  match p_fieldPath p with
  | Some (_ :: _) => FIELD
  | _ => WHOLE_DOCUMENT
  end.

(** [r.params?.fieldPath?.join('.') ?? ''] *)
Definition fieldPathTextOf (p : SnapshotParams) : jsstring :=
  match p_fieldPath p with
  | Some fp => joinWith [dot] fp
  | None => []
  end.

(** One rule of [fromRuleSnapshot]; [fresh] is what [makeUiId()] returns. *)
Definition fromRule (fresh : jsstring) (r : SnapshotRule) : Builder :=
  let uiId := match s_ruleId r with
              | Some ((_ :: _) as id) => id
              | _ => fresh
              end in
  let p := orElse (s_params r) noParams in
  {| uiId := uiId;
     name := orElse (s_name r) [];
     severity := orElse (s_severity r) MAJOR;
     enabled := orElse (s_enabled r) true;
     kind :=
       match s_type r with
       | Some TEXT_REQUIRED_PHRASE =>
           BRequiredPhrase (applyToOf p) (fieldPathTextOf p) (orElse (p_phrase p) [])
                           (orElse (p_caseSensitive p) false)
       | Some TEXT_REGEX =>
           BRegex (applyToOf p) (fieldPathTextOf p) (orElse (p_pattern p) [])
                  (orElse (p_flags p) []) (orElse (p_mustMatch p) true)
       | Some TEXT_KEYWORD_BLACKLIST =>
           BKeywordBlacklist (applyToOf p) (fieldPathTextOf p)
                             (joinWith [comma; 32%N] (orElse (p_keywords p) []))
                             (orElse (p_caseSensitive p) false)
       | Some REQUIRED_FIELD =>
           BRequiredField (fieldPathTextOf p) (orElse (p_allowEmptyString p) false)
       | _ =>
           (* Default fallback *)
           BRequiredPhrase WHOLE_DOCUMENT [] [] false
       end |}.

(** [fromRuleSnapshot]: rule [i] gets [fresh i] when its [ruleId] is missing
    or empty. *)
Definition fromRuleSnapshot (fresh : nat -> jsstring) (snapshot : list SnapshotRule)
    : list Builder :=
  map (fun '(i, r) => fromRule (fresh i) r) (entries snapshot).

End RuleBuilder.

(* ================================================================== *)
(** * The order of binary64 numbers *)
(* ================================================================== *)

Module FloatOrderDefs.

(** [x <= y] on numbers, as [<=] computes it. *)
Definition le (x y : number) : Prop := (x <=? y)%float = true.

(** A number that is not NaN, placed in the lexicographic order of
    (class, exponent, mantissa), the classes being -infinity, negative,
    zero, positive, +infinity. *)
Definition key (f : spec_float) : Z * Z * Z :=
  match f with
  | S754_infinity true => (-2, 0, 0)
  | S754_finite true m e => (-1, - e, Z.neg m)
  | S754_zero _ => (0, 0, 0)
  | S754_finite false m e => (1, e, Z.pos m)
  | S754_infinity false => (2, 0, 0)
  | S754_nan => (3, 0, 0)
  end%Z.

Definition lex (a b : Z * Z * Z) : comparison :=
  let '(a1, a2, a3) := a in
  let '(b1, b2, b3) := b in
  match (a1 ?= b1)%Z with
  | Eq => match (a2 ?= b2)%Z with
          | Eq => (a3 ?= b3)%Z
          | c => c
          end
  | c => c
  end.

Definition lexle (a b : Z * Z * Z) : Prop :=
  let '(a1, a2, a3) := a in
  let '(b1, b2, b3) := b in
  (a1 < b1 \/ (a1 = b1 /\ (a2 < b2 \/ (a2 = b2 /\ a3 <= b3))))%Z.

End FloatOrderDefs.

(* ================================================================== *)
(** * The rule engine: vocabulary of the statements *)
(* ================================================================== *)

Module EngineSpec.
Import Engine.

(** The score the result constructors [pass], [fail], [skip] and [errorResult]
    attach to each outcome. *)
Definition scoreOf (o : RuleOutcome) : number :=
  match o with
  | PASS | SKIP => 1%float
  | FAIL | ERROR => 0%float
  end.

(** The threshold and the blocker switch [runQc] reads from its options. *)
Definition thresholdOf (request : RunQcRequest) : number :=
  match options request with
  | Some {| passScoreThreshold := Some t |} => t
  | _ => 1%float
  end.

Definition blockerSwitchOf (request : RunQcRequest) : bool :=
  match options request with
  | Some {| blockerFailureForcesFail := Some b |} => b
  | _ => true
  end.

(** [passScoreThreshold < 0 || passScoreThreshold > 1] *)
Definition configError (request : RunQcRequest) : bool :=
  (thresholdOf request <? 0)%float || (1 <? thresholdOf request)%float.

Definition contextOf (request : RunQcRequest) : QcExecutionContext :=
  {| ctx_input := input request;
     ctx_executedAtIso := executedAtIso request;
     ctx_aiSignals := aiSignals request |}.

(** The kind an evaluator passes to [assertKind], for the rule types that
    call it. *)
Definition assertedKind (t : QcRuleType) : option InputKind :=
  match t with
  | NUMERIC_RANGE | REQUIRED_FIELD | SLA_TIME_DIFFERENCE => Some KRecord
  | EXCEL_ALL_CAPS | EXCEL_REQUIRED_COLUMNS => Some KTable
  | AUDIO_DURATION_LIMIT => Some KAudio
  | _ => None
  end.

Definition isTextRule (t : QcRuleType) : bool :=
  match t with
  | TEXT_REGEX | TEXT_KEYWORD_BLACKLIST | TEXT_REQUIRED_PHRASE => true
  | _ => false
  end.

Definition kindMismatchMessage (rule : QcRuleDefinition) (expected got : InputKind) : jsstring :=
  str "Rule " +++ Rule.ruleId rule +++ str " (" +++ ruleTypeName (Rule.type rule)
  +++ str ") expects input kind '" +++ kindName expected
  +++ str "', got '" +++ kindName got +++ str "'.".


Definition nonSkip (r : QcRuleResult) : bool := negb (outcome_eqb (RuleResult.outcome r) SKIP).

(** ** The local time zone

    Two things the engine asks of the runtime depend on the time zone of the
    process: [Date.parse] reads a date-time without offset as local time, and
    [String] prints a Date in local time. *)




Section WithHost.
Context {host : Host}.

(** A result assembled from the rule's own metadata with the score of its
    outcome. *)
Inductive built (rule : QcRuleDefinition) : QcRuleResult -> Prop :=
| built_intro o ev err : built rule (mkResult rule o (scoreOf o) ev err).

Definition builtOrThrows (rule : QcRuleDefinition) (c : completion QcRuleResult) : Prop :=
  match c with
  | Return r => built rule r
  | Throw _ => True
  end.





End WithHost.

(** ** Data of the closed examples *)

Definition exampleRule (id : String.string) (sev : QcSeverity) (w : number)
    (p : RuleParams) : QcRuleDefinition :=
  {| Rule.ruleId := str id; Rule.version := 1%float; Rule.enabled := true;
     Rule.severity := sev; Rule.weight := w; Rule.name := str id; Rule.params := p |}.
Arguments exampleRule id%_string_scope.

Definition exampleRequest (i : QcNormalizedInput) (rs : list QcRuleDefinition)
    (o : option QcExecutionOptions) : RunQcRequest :=
  {| input := i; rules := rs; executedAtIso := str "2024-05-01T10:00:00.000Z";
     aiSignals := None; options := o |}.

Definition requiredPhraseRule : QcRuleDefinition :=
  exampleRule "order-id" MAJOR 1%float
    (PTextRequiredPhrase {| rp_fieldPath := None; phrase := str "Order ID";
                            rp_caseSensitive := false |}).

(** A blocker of weight 0: its failure leaves the weighted score at 1. *)
Definition blacklistRule : QcRuleDefinition :=
  exampleRule "no-refund" BLOCKER 0%float
    (PTextKeywordBlacklist {| kb_fieldPath := None; keywords := [str "refund"];
                              kb_caseSensitive := false |}).

Definition numericRangeRule : QcRuleDefinition :=
  exampleRule "amount" MAJOR 1%float
    (PNumericRange {| nr_fieldPath := [str "amount"]; min := Some 0%float;
                      max := Some 10%float; inclusiveMin := true; inclusiveMax := false |}).

Definition disabledRule : QcRuleDefinition :=
  {| Rule.ruleId := str "off"; Rule.version := 1%float; Rule.enabled := false;
     Rule.severity := BLOCKER; Rule.weight := 1%float; Rule.name := str "off";
     Rule.params := Rule.params numericRangeRule |}.

Definition refundText : QcNormalizedInput :=
  InText (str "Your Order ID is 55. I want a refund") None.

Definition emptyTable : QcNormalizedInput := InTable [str "amount"] [].

Definition tableContext : QcExecutionContext :=
  {| ctx_input := emptyTable; ctx_aiSignals := None;
     ctx_executedAtIso := str "2024-05-01T10:00:00.000Z" |}.

(** A failing blocker of weight 0 next to a passing rule of weight 1. *)
Definition blockerRequest : RunQcRequest :=
  exampleRequest refundText [blacklistRule; requiredPhraseRule] None.

Definition allDisabledRequest : RunQcRequest :=
  exampleRequest refundText [disabledRule; disabledRule] None.





End EngineSpec.

(* ================================================================== *)
(** * The aggregator: vocabulary of the statements *)
(* ================================================================== *)

Module AggregatorSpec.
Import Engine Mapping ChatSplit Processor.

(** The rank order NOT_EVALUATED(0) < PASS(1) < FAIL(2) < ERROR(3). *)
Definition rankOf (s : RuleStatus) : nat :=
  match s with
  | NOT_EVALUATED => 0
  | PASS => 1
  | FAIL => 2
  | ERROR => 3
  end.

(** The worse of two statuses. *)
Definition worst (a b : RuleStatus) : RuleStatus :=
  if rankOf a <? rankOf b then b else a.

(** The documents the segments hold for rule index [i]. *)
Definition column (i : nat) (perChat : list (ChatSegment * list RuleResultDoc.t))
    : list RuleResultDoc.t :=
  flat_map (fun x => match nth_error (snd x) i with Some d => [d] | None => [] end) perChat.

(** ** Data of the closed examples *)

Definition exampleDoc (status : RuleStatus) (score : number) : RuleResultDoc.t :=
  {| RuleResultDoc.order := 0;
     RuleResultDoc.ruleId := str "r";
     RuleResultDoc.ruleName := str "r";
     RuleResultDoc.ruleType := TEXT_REQUIRED_PHRASE;
     RuleResultDoc.weight := 1%float;
     RuleResultDoc.severity := MAJOR;
     RuleResultDoc.status := status;
     RuleResultDoc.score := score;
     RuleResultDoc.reason := None;
     RuleResultDoc.evidence := [];
     RuleResultDoc.error := None |}.

Definition exampleChat (i : nat) : ChatSegment :=
  chat i (str "Chat") None None (str "text").

(** Three segments, two rules: rule 0 passes, fails, is skipped; rule 1
    passes, errors, passes. *)
Definition exampleSegments : list (ChatSegment * list RuleResultDoc.t) :=
  [(exampleChat 0, [exampleDoc PASS 1%float; exampleDoc PASS 1%float]);
   (exampleChat 1, [exampleDoc FAIL 0%float; exampleDoc ERROR 0%float]);
   (exampleChat 2, [exampleDoc NOT_EVALUATED 1%float; exampleDoc PASS 1%float])].

End AggregatorSpec.

(* ================================================================== *)
(** * Chat segmentation: vocabulary of the statements *)
(* ================================================================== *)

Module ChatSplitSpec.
Import ChatSplit.

(** What a strategy yields from its start lines: the segments between
    consecutive starts whose rebuilt text has at least [minChars] characters. *)
Definition usableFrom (lines : list jsstring) (starts : list nat) : list Segment :=
  filterNonTrivialSegments lines (computeSegmentsFromStarts lines starts).

Definition headerSegments (lines : list jsstring) : list Segment :=
  usableFrom lines (map fst (chatIdStartsOf lines)).

Definition separatorSegments (lines : list jsstring) : list Segment :=
  usableFrom lines (0 :: sepStartsOf lines).

Definition speakerSegments (lines : list jsstring) : list Segment :=
  usableFrom lines (map fst (participantStartsOf lines)).

(** The text as the strategies see it, and its lines. *)
Definition normalizedOf (text : jsstring) : jsstring := trim (normalizeNewlines text).
Definition linesOf (text : jsstring) : list jsstring := splitIntoLines (normalizedOf text).

(** The rebuilt texts of segments, in order. *)
Definition textsOf (lines : list jsstring) (segments : list Segment) : list jsstring :=
  map (fun seg => rebuildFromLines lines (start seg) (end_ seg)) segments.

(** A result whose chats are numbered from 0 and carry the given texts. *)
Definition chatsCarry (result : SplitResult) (texts : list jsstring) : Prop :=
  map text (chats result) = texts /\
  map index (chats result) = seq 0 (length texts).

Definition singleChat (warning : jsstring) (text : jsstring) : SplitResult :=
  {| strategy := SINGLE; warning := Some warning;
     chats := [chat 0 (str "Chat 1") None None text] |}.

(** A scan of the lines for starts, from line number [s] on: the scans of
    [splitTranscriptIntoChats] that keep one entry per matching line. *)
Definition scan {A} (f : jsstring -> option A) (s : nat) (ls : list jsstring)
    : list (nat * A) :=
  flat_map (fun '(i, line) => match f line with Some a => [(i, a)] | None => [] end)
           (combine (seq s (length ls)) ls).

(** The result of the header strategy on two headers. *)
Definition twoHeaderChats (lines : list jsstring) (i j : nat) (a b : jsstring)
    : SplitResult :=
  {| strategy := CHAT_ID;
     warning := None;
     chats := [chat 0 (str "Chat " +++ clampString a 48) (Some a) None
                    (rebuildFromLines lines i j);
               chat 1 (str "Chat " +++ clampString b 48) (Some b) None
                    (rebuildFromLines lines j (length lines))] |}.

(** ** Data of the closed examples *)

(** 130 characters of conversation. *)
Definition filler : jsstring :=
  str "Agent: Thank you for contacting support today, how can I help you? Customer: My parcel has not arrived and I would like an update.".

Definition newline : jsstring := [10%N].

Definition twoChatTranscript : jsstring :=
  str "Chat ID: 1" +++ newline +++ filler +++ newline +++
  str "Chat ID: 2" +++ newline +++ filler.

Definition plainTranscript : jsstring := filler +++ newline +++ filler.

End ChatSplitSpec.

(* ================================================================== *)
(** * The run processor: vocabulary of the statements *)
(* ================================================================== *)

Module ProcessorSpec.
Import Engine Mapping ChatSplit Processor.

(** The writes between the creation of the result and the final transaction. *)
Definition isBodyOp (op : WriteOp) : bool :=
  match op with
  | WRuleChunk _ | WChatCreate _ _ | WChatChunk _ _ => true
  | _ => false
  end.

(** The rule-result chunks among pending writes. *)
Definition ruleChunksOf (ops : list WriteOp) : list (list RuleResultDoc.t) :=
  flat_map (fun op => match op with WRuleChunk chunk => [chunk] | _ => [] end) ops.

(** The number of rule results pending writes will still create under the result. *)
Definition pendingRuleDocs (ops : list WriteOp) : nat := length (concat (ruleChunksOf ops)).

Definition completed (res : ResultDoc.t) : ResultDoc.t :=
  {| ResultDoc.resultId := ResultDoc.resultId res;
     ResultDoc.summary := ResultDoc.summary res;
     ResultDoc.chat := ResultDoc.chat res;
     ResultDoc.writeState := Some COMPLETE;
     ResultDoc.expectedRuleCount := ResultDoc.expectedRuleCount res |}.

(** The number of rule results a result document announces. *)
Definition announced (res : ResultDoc.t) : nat := total (ruleCounts (ResultDoc.summary res)).

(** The invariant of [docs/qc-results-model.md]: a run that is SUCCEEDED points
    to a result that exists, is not being written, and has all its rule
    results. *)
Definition consistent (st : Store) : Prop :=
  forall r, run st = Some r -> RunDoc.status r = SUCCEEDED ->
    exists rid res,
      RunDoc.resultId r = Some rid /\
      lookup rid (results st) = Some res /\
      ResultDoc.writeState res <> Some WRITING /\
      length (ruleResultsOf rid st) = announced res /\
      (forall n, ResultDoc.expectedRuleCount res = Some n ->
                 length (ruleResultsOf rid st) = n).

(** Nothing is stored under [rid] yet. *)
Definition unwritten (rid : Id) (st : Store) : Prop :=
  lookup rid (results st) = None /\ ruleResultsOf rid st = [].

(** What an invocation that still has writes pending has stored so far. *)
Inductive pendingOk (st : Store) (rid : Id) : list WriteOp -> Prop :=
| pending_single res docs :
    unwritten rid st ->
    ResultDoc.writeState res = None ->
    ResultDoc.expectedRuleCount res = None ->
    announced res = length docs ->
    pendingOk st rid [WSingleBatch res docs]
| pending_create res body :
    unwritten rid st ->
    forallb isBodyOp body = true ->
    ResultDoc.writeState res = Some WRITING ->
    ResultDoc.expectedRuleCount res = Some (announced res) ->
    pendingRuleDocs body = announced res ->
    pendingOk st rid (WCreateResult res :: body ++ [WFinalTxn])
| pending_body res body :
    lookup rid (results st) = Some res ->
    forallb isBodyOp body = true ->
    ResultDoc.expectedRuleCount res = Some (announced res) ->
    length (ruleResultsOf rid st) + pendingRuleDocs body = announced res ->
    pendingOk st rid (body ++ [WFinalTxn]).

(** The result an invocation is writing, while it has writes pending. *)
Definition owner (t : Invocation) : option Id :=
  match pc t with
  | AtPersist rid _ => Some rid
  | _ => None
  end.

Definition owners (ts : list Invocation) : list Id :=
  flat_map (fun t => match owner t with Some rid => [rid] | None => [] end) ts.

Definition invocationOk (st : Store) (next : Id) (t : Invocation) : Prop :=
  match pc t with
  | AtPersist rid pending =>
      rid < next /\ pendingOk st rid pending /\
      (forall r, run st = Some r -> RunDoc.resultId r <> Some rid)
  | _ => True
  end.

(** Every identifier in the store was issued before [next]. *)
Definition issued (st : Store) (next : Id) : Prop :=
  (forall rid res, In (rid, res) (results st) -> rid < next) /\
  (forall p id d, In (p, id, d) (ruleResults st) -> p < next) /\
  (forall r rid, run st = Some r -> RunDoc.resultId r = Some rid -> rid < next).

(** The invariant of the system of invocations. *)
Definition systemOk (sys : System) : Prop :=
  consistent (store sys) /\
  issued (store sys) (nextId sys) /\
  Forall (invocationOk (store sys) (nextId sys)) (invocations sys) /\
  NoDup (owners (invocations sys)).

(** [rid] has the same result document and rule results in both stores. *)
Definition sameAt (rid : Id) (st st' : Store) : Prop :=
  lookup rid (results st') = lookup rid (results st) /\
  ruleResultsOf rid st' = ruleResultsOf rid st.

(** The rule results of [rid] among stored rule-result documents. *)
Definition under (rid : Id) (docs : list (Id * Id * RuleResultDoc.t)) : list RuleResultDoc.t :=
  map snd (filter (fun x => fst (fst x) =? rid) docs).

(** What a step preserves and what it may change. *)
Definition stepOk (st : Store) (next : Id) (t : Invocation)
    (out : Store * Id * Invocation) : Prop :=
  let '(st', next', t') := out in
  next <= next' /\ consistent st' /\ issued st' next' /\ invocationOk st' next' t' /\
  (forall rid, owner t <> Some rid -> sameAt rid st st') /\
  (forall r' rid', run st' = Some r' -> RunDoc.resultId r' = Some rid' ->
     owner t = Some rid' \/ exists r, run st = Some r /\ RunDoc.resultId r = Some rid') /\
  (owner t' = owner t \/ owner t' = None \/
   (owner t = None /\ owner t' = Some next /\ next < next')).

(** The run once the guarding transaction of an invocation has started it. *)
Definition runningRun : RunDoc.t :=
  {| RunDoc.status := RUNNING; RunDoc.resultId := None; RunDoc.error := None |}.

(** The store of a run on which one result and its rule results are stored. *)
Definition storeOf (r : RunDoc.t) (rid : Id) (res : ResultDoc.t)
    (docs : list (Id * Id * RuleResultDoc.t)) : Store :=
  {| run := Some r; results := [(rid, res)]; ruleResults := docs;
     chatResults := []; chatRuleResults := []; auditLog := [] |}.

(** The two-phase write of result [rid] in progress: the run is RUNNING, the
    result [res] is the only one stored, and the rule results stored under it
    followed by those of the pending chunks are [docs]. *)
Definition inProgress (rid : Id) (res : ResultDoc.t) (docs : list RuleResultDoc.t)
    (st : Store) (body : list WriteOp) : Prop :=
  run st = Some runningRun /\
  results st = [(rid, res)] /\
  forallb isBodyOp body = true /\
  ruleResultsOf rid st ++ concat (ruleChunksOf body) = docs.

(** The steps an invocation needs for its pending writes. *)
Definition cost (pending : list WriteOp) : nat :=
  list_sum (map (fun op => match op with
                           | WChatCreate _ perDocs => S (length (chunks perDocs))
                           | _ => 1
                           end) pending).

Definition hasStatus (s : RunStatus) (st : Store) : bool :=
  match run st with
  | Some r => match RunDoc.status r, s with
              | QUEUED, QUEUED | RUNNING, RUNNING | SUCCEEDED, SUCCEEDED
              | FAILED, FAILED | CANCELLED, CANCELLED => true
              | _, _ => false
              end
  | None => false
  end.

Definition isRunning : Store -> bool := hasStatus RUNNING.
Definition isQueued : Store -> bool := hasStatus QUEUED.

Section WithHost.
Context {host : Host}.

(** [n] steps of an invocation that runs alone and meets no failure. *)
Fixpoint runAlone (n : nat) (st : Store) (next : Id) (t : Invocation)
    : Store * Id * Invocation :=
  match n with
  | 0 => (st, next, t)
  | S n' => let '(st', next', t') := step false st next t in runAlone n' st' next' t'
  end.

(** The number of steps of a schedule at which the run becomes RUNNING. *)
Fixpoint startsCount (sys : System) (schedule : list (nat * bool)) : nat :=
  match schedule with
  | [] => 0
  | ev :: rest =>
      (if negb (isRunning (store sys)) && isRunning (store (systemStep sys ev)) then 1 else 0)
      + startsCount (systemStep sys ev) rest
  end.

End WithHost.

(** ** Data of the closed examples *)

Definition exampleLoaded (rules : list QcRuleDefinition) (input : QcNormalizedInput) : Loaded :=
  {| l_rules := rules; l_input := input; l_source := None;
     l_executedAtIso := str "2024-05-01T10:00:00.000Z" |}.

Definition smallLoad : Failure + Loaded :=
  inr (exampleLoaded [EngineSpec.requiredPhraseRule]
                     (InText (str "Your Order ID is 55") None)).

(** 500 copies of one rule. *)
Definition fiveHundredRules : list QcRuleDefinition := repeat EngineSpec.requiredPhraseRule 500.

Definition largeLoad : Failure + Loaded :=
  inr (exampleLoaded fiveHundredRules (InText (str "Your Order ID is 55") None)).

(** 449 copies of one rule: 451 writes, one more than a single batch takes. *)
Definition twoPhaseLoad : Failure + Loaded :=
  inr (exampleLoaded (repeat EngineSpec.requiredPhraseRule 449)
                     (InText (str "Your Order ID is 55") None)).

(** Two triggers of one run that takes the two-phase path: both pass the
    guard and the read that follows it; invocation 0 then runs to its end,
    and invocation 1 after it. No operation fails. *)
Definition duplicateTwoPhase : list (nat * bool) :=
  [(0, false); (0, false); (1, false); (1, false)]
  ++ repeat (0, false) 6 ++ repeat (1, false) 6.

(** Two triggers of one run: invocation 0 wins the guard and reads the run
    back; invocation 1 then passes its guard, which finds the run RUNNING and
    writes nothing, and reads the run back as well; both go on to evaluate,
    persist and audit. No operation fails. *)
Definition duplicateTrigger : list (nat * bool) :=
  [(0, false); (0, false); (1, false); (1, false);
   (0, false); (1, false); (0, false); (1, false); (0, false); (1, false)].

(** Invocation 0 runs to its end before invocation 1 starts. *)
Definition sequentialTrigger : list (nat * bool) :=
  [(0, false); (0, false); (0, false); (0, false); (0, false);
   (1, false); (1, false); (1, false)].

(** What the examples observe of a system. *)
Definition observe (sys : System)
    : option (RunStatus * option Id) * list (Id * option WriteState) * list Id * list Pc :=
  (option_map (fun r => (RunDoc.status r, RunDoc.resultId r)) (run (store sys)),
   map (fun x => (fst x, ResultDoc.writeState (snd x))) (results (store sys)),
   map (fun x => fst (fst x)) (ruleResults (store sys)),
   map pc (invocations sys)).

(** The run document and the results and rule results stored. *)
Definition stored (sys : System)
    : option (RunStatus * option Id) * list (Id * option WriteState) * list Id :=
  fst (observe sys).

End ProcessorSpec.

(* ================================================================== *)
(** * The rule engine: vocabulary of further statements *)
(* ================================================================== *)

Module EngineMore.
Import Engine EngineSpec.

(** [needle] occurs in [haystack] as a run of consecutive code units. *)
Definition occursIn (needle haystack : jsstring) : Prop :=
  exists pre post, haystack = pre ++ needle ++ post.

(** The flags [evalTextRegex] passes to [new RegExp]. *)
Definition flagsOf (p : TextRegexParams) : jsstring :=
  match flags p with Some f => f | None => str "" end.

Definition isAiRule (t : QcRuleType) : bool :=
  match t with
  | TONE_CLASSIFICATION | IMPLIED_ABUSE_DETECTION => true
  | _ => false
  end.

(** The field path of a text rule. *)
Definition textFieldPath (rule : QcRuleDefinition) : option (list jsstring) :=
  match Rule.params rule with
  | PTextRegex p => tr_fieldPath p
  | PTextKeywordBlacklist p => kb_fieldPath p
  | PTextRequiredPhrase p => rp_fieldPath p
  | _ => None
  end.

(** The AI signal a rule reads. *)
Definition signalOf (aiSignals : option QcAiSignals) (t : QcRuleType) : option AiSignal.t :=
  match aiSignals, t with
  | Some s, TONE_CLASSIFICATION => tone s
  | Some s, IMPLIED_ABUSE_DETECTION => impliedAbuse s
  | _, _ => None
  end.

Definition hasOutcome (o : RuleOutcome) (r : QcRuleResult) : bool :=
  outcome_eqb (RuleResult.outcome r) o.

Section WithHost.
Context {host : Host}.

(** The value an evaluator hands to [String] or [Number]: the field a text
    rule reads on a record input, when it is neither a string, [null] nor
    [undefined]; the field a NUMERIC_RANGE rule reads on a record input, when
    it is neither a number, [null] nor [undefined]. *)
Definition convertedValue (ctx : QcExecutionContext) (rule : QcRuleDefinition)
    : option value :=
  match ctx_input ctx with
  | InRecord record =>
      match Rule.params rule with
      | PNumericRange p =>
          match getValueAtPath record (nr_fieldPath p) with
          | VNum _ | VUndefined | VNull => None
          | v => Some v
          end
      | PTextRegex _ | PTextKeywordBlacklist _ | PTextRequiredPhrase _ =>
          match textFieldPath rule with
          | Some ((_ :: _) as path) =>
              match getValueAtPath record path with
              | VStr _ | VUndefined | VNull => None
              | v => Some v
              end
          | _ => None
          end
      | _ => None
      end
  | _ => None
  end.

End WithHost.

(** ** Data of the closed examples *)

Definition refundContext : QcExecutionContext :=
  {| ctx_input := refundText; ctx_aiSignals := None;
     ctx_executedAtIso := str "2024-05-01T10:00:00.000Z" |}.

(** The record [{ amount: { toString: 1 } }]. *)
Definition unconvertibleContext : QcExecutionContext :=
  {| ctx_input := InRecord (VObj [(str "amount", VObj [(str "toString", VNum 1%float)])]);
     ctx_aiSignals := None;
     ctx_executedAtIso := str "2024-05-01T10:00:00.000Z" |}.

(** A required phrase looked for in the field [amount]. *)
Definition amountPhraseRule : QcRuleDefinition :=
  exampleRule "amount-text" MAJOR 1%float
    (PTextRequiredPhrase {| rp_fieldPath := Some [str "amount"]; phrase := str "1";
                            rp_caseSensitive := false |}).

(** The table of [tableContext] has the column, in another case. *)
Definition amountColumnRule : QcRuleDefinition :=
  exampleRule "columns" MAJOR 1%float
    (PExcelRequiredColumns {| requiredColumns := [str "Amount"]; rc_caseSensitive := false |}).

End EngineMore.

(* ================================================================== *)
(** * Result documents and evaluation of a run: vocabulary of further
      statements *)
(* ================================================================== *)

Module ResultMore.
Import Engine Mapping ChatSplit Processor EngineSpec AggregatorSpec.

(** The number of documents with status [s]. *)
Definition countStatus (s : RuleStatus) (docs : list RuleResultDoc.t) : nat :=
  length (filter (fun d => status_eqb (RuleResultDoc.status d) s) docs).

(** The score that goes with a status: 1 for PASS and NOT_EVALUATED, 0 for
    FAIL and ERROR. *)
Definition scoreOfStatus (s : RuleStatus) : number :=
  match s with
  | PASS | NOT_EVALUATED => 1%float
  | FAIL | ERROR => 0%float
  end.

(** The context [processQcRun] evaluates in: no AI signals. *)
Definition processorContext (input : QcNormalizedInput) (executedAtIso : jsstring)
    : QcExecutionContext :=
  {| ctx_input := input; ctx_aiSignals := None; ctx_executedAtIso := executedAtIso |}.

(** Whether [processQcRun] evaluates the input chat by chat. *)
Definition isMulti (input : QcNormalizedInput) : bool :=
  match input with
  | InText text _ => 2 <=? length (chats (splitTranscriptIntoChats text))
  | _ => false
  end.

Section WithHost.
Context {host : Host}.

(** The rule documents of one evaluation: document [i] is that of rule [i]. *)
Definition docsOf (ctx : QcExecutionContext) (rules : list QcRuleDefinition)
    (source : option EvidenceSource) : list RuleResultDoc.t :=
  map (fun '(i, rule) => mapRuleResultToDoc i rule (evaluateRule ctx rule) source)
      (entries rules).

(** The request [processQcRun] sends to the engine. *)
Definition processorRequest (input : QcNormalizedInput) (rules : list QcRuleDefinition)
    (executedAtIso : jsstring) : RunQcRequest :=
  {| Engine.input := input; rules := rules; executedAtIso := executedAtIso;
     aiSignals := None; options := Some processorOptions |}.

(** What [processQcRun] computes for one chat. *)
Definition perChatOf (rules : list QcRuleDefinition) (executedAtIso : jsstring)
    (source : option EvidenceSource) (chat : ChatSegment) : PerChatComputed :=
  let ctx := processorContext (InText (ChatSplit.text chat) None) executedAtIso in
  let results := map (evaluateRule ctx) rules in
  let s := summarize 1%float true executedAtIso results in
  {| pc_chat := chat;
     pc_summary :=
       {| overallOutcome := RunSummary.overallOutcome s;
          overallScore := RunSummary.overallScore s;
          failedRuleIds := RunSummary.failedRuleIds s;
          ruleCounts := summarizeRuleStatuses (docsOf ctx rules source) |};
     ruleDocs := docsOf ctx rules source |}.

End WithHost.

End ResultMore.

(* ================================================================== *)
(** * Chat segmentation: vocabulary of further statements *)
(* ================================================================== *)

Module ChatSplitMore.
Import ChatSplit.

(** Strictly increasing line numbers. *)
Fixpoint increasing (xs : list nat) : Prop :=
  match xs with
  | [] => True
  | x :: rest => match rest with [] => True | y :: _ => x < y end /\ increasing rest
  end.

(** Segments that are not empty and follow one another without a gap up to
    line [n]: each ends where the next starts, the last at [n]. *)
Fixpoint chained (segments : list Segment) (n : nat) : Prop :=
  match segments with
  | [] => True
  | s :: rest =>
      start s < end_ s /\
      end_ s = match rest with [] => n | s' :: _ => start s' end /\
      chained rest n
  end.

(** CARRIAGE RETURN *)
Definition CR : char := 13%N.

End ChatSplitMore.

(* ================================================================== *)
(** * The run processor: vocabulary of further statements *)
(* ================================================================== *)

Module ProcessorMore.
Import Engine Mapping ChatSplit Processor ProcessorSpec.

(** [ys] is [xs] with more entries after it. *)
Definition extends {A} (xs ys : list A) : Prop := exists more, ys = xs ++ more.

(** Every collection of [st'] holds what it held in [st], in place: the
    result documents under their identifiers, the rule results, the chat
    results and the audit entries as they were. *)
Definition grows (st st' : Store) : Prop :=
  extends (map fst (results st)) (map fst (results st')) /\
  extends (ruleResults st) (ruleResults st') /\
  extends (chatResults st) (chatResults st') /\
  extends (chatRuleResults st) (chatRuleResults st') /\
  extends (auditLog st) (auditLog st').

(** The run is neither QUEUED nor RUNNING. *)
Definition settled (st : Store) : Prop := isQueued st = false /\ isRunning st = false.

(** An invocation that has not passed its two reads, or has ended. *)
Definition dormant (t : Invocation) : Prop :=
  match pc t with
  | AtGuard | AtReread | Finished | Rejected => True
  | _ => False
  end.

(** An invocation inside the [try], before an awaited operation. *)
Definition inTry (t : Invocation) : Prop :=
  match pc t with
  | AtEvaluate | AtPersist _ (_ :: _) | AtAudit _ => True
  | _ => False
  end.

Definition failedRun (r : RunDoc.t) (e : QcPublicError) : RunDoc.t :=
  {| RunDoc.status := FAILED; RunDoc.resultId := RunDoc.resultId r;
     RunDoc.error := Some e |}.

(** Every chunk but the last is full. *)
Fixpoint fullButLast {A} (cs : list (list A)) : Prop :=
  match cs with
  | [] => True
  | c :: rest => match rest with [] => True | _ => length c = chunkSize end /\ fullButLast rest
  end.

(** The system of one invocation. *)
Definition alone (st : Store) (next : Id) (t : Invocation) : System :=
  {| store := st; nextId := next; invocations := [t] |}.

(** ** Data of the closed examples *)

Definition storeWithRun (status : RunStatus) (resultId : option Id) : Store :=
  {| run := Some {| RunDoc.status := status; RunDoc.resultId := resultId;
                    RunDoc.error := None |};
     results := []; ruleResults := []; chatResults := []; chatRuleResults := [];
     auditLog := [] |}.

(** A cancelled run on which an invocation is triggered. *)
Definition cancelledSystem : System :=
  alone (storeWithRun CANCELLED None) 0 {| pc := AtGuard; load := smallLoad |}.

(** An invocation about to write its audit entry, the run SUCCEEDED. *)
Definition auditing : Invocation := {| pc := AtAudit 0; load := smallLoad |}.

End ProcessorMore.

(* ================================================================== *)
(** * Roles: vocabulary of the statements *)
(* ================================================================== *)

Module AccessSpec.

(** The three roles of the platform. *)
Definition known (role : jsstring) : Prop :=
  role = str "Admin" \/ role = str "Manager" \/ role = str "Viewer".

End AccessSpec.

(* ================================================================== *)
(** * The rule builder: vocabulary of the statements *)
(* ================================================================== *)

Module RuleBuilderSpec.
Import Engine RuleBuilder.

(** No white space at either end. *)
Definition edgeFree (s : jsstring) : Prop := trimStart s = s /\ trimEnd s = s.

(** A piece of a field path or a keyword as the builder stores it: not empty,
    trimmed, and free of the separator. *)
Definition piece (sep : char) (p : jsstring) : Prop :=
  p <> [] /\ edgeFree p /\ ~ In sep p.

(** ** Data of the closed examples *)

Definition exampleBuilder : Builder :=
  {| uiId := str "r-1"; name := str "  No refunds "; severity := BLOCKER; enabled := true;
     kind := BKeywordBlacklist FIELD (str " ticket . body ") (str "refund ,, chargeback,")
                               false |}.

End RuleBuilderSpec.

Unset Implicit Arguments.

Module FloatOrder.
Import FloatOrderDefs.

Lemma lex_lexle a b : lexle a b <-> lex a b <> Gt.
Proof.
  destruct a as [[a1 a2] a3], b as [[b1 b2] b3]. unfold lexle, lex.
  destruct (Z.compare_spec a1 b1), (Z.compare_spec a2 b2), (Z.compare_spec a3 b3);
    split; intros Hyp; try congruence; try lia; exfalso; apply Hyp; reflexivity.
Qed.

Lemma lexle_trans a b c : lexle a b -> lexle b c -> lexle a c.
Proof.
  destruct a as [[a1 a2] a3], b as [[b1 b2] b3], c as [[c1 c2] c3]. unfold lexle. lia.
Qed.

Lemma lexle_total a b : lexle a b \/ lexle b a.
Proof. destruct a as [[a1 a2] a3], b as [[b1 b2] b3]. unfold lexle. lia. Qed.

Lemma lex_Lt_lexle a b : lex a b <> Lt -> lexle b a.
Proof.
  destruct a as [[a1 a2] a3], b as [[b1 b2] b3]. unfold lexle, lex.
  destruct (Z.compare_spec a1 b1), (Z.compare_spec a2 b2), (Z.compare_spec a3 b3);
    intros Hyp; try lia; exfalso; apply Hyp; reflexivity.
Qed.

Lemma SFcompare_key f1 f2 :
  f1 <> S754_nan -> f2 <> S754_nan -> SFcompare f1 f2 = Some (lex (key f1) (key f2)).
Proof.
  intros H1 H2.
  destruct f1 as [[|]|[|]| |[|] m1 e1], f2 as [[|]|[|]| |[|] m2 e2];
    try congruence; try reflexivity; simpl.
  rewrite Z.compare_opp, (Z.compare_antisym e1 e2).
  destruct (e1 ?= e2)%Z; reflexivity.
Qed.

Lemma not_nan (x : number) : isNaN x = false -> Prim2SF x <> S754_nan.
Proof.
  unfold isNaN, PrimFloat.is_nan. rewrite eqb_spec. intros H E. rewrite E in H. discriminate.
Qed.

Lemma le_key (x y : number) :
  isNaN x = false -> isNaN y = false ->
  (le x y <-> lexle (key (Prim2SF x)) (key (Prim2SF y))).
Proof.
  intros Hx Hy. unfold le. rewrite leb_spec. unfold SFleb.
  rewrite (SFcompare_key _ _ (not_nan x Hx) (not_nan y Hy)), lex_lexle.
  destruct (lex _ _); split; congruence.
Qed.

Lemma le_refl (x : number) : isNaN x = false -> le x x.
Proof.
  intros H. apply (le_key x x H H).
  destruct (lexle_total (key (Prim2SF x)) (key (Prim2SF x))); auto.
Qed.

Lemma le_trans (x y z : number) :
  isNaN x = false -> isNaN y = false -> isNaN z = false -> le x y -> le y z -> le x z.
Proof.
  intros Hx Hy Hz Hxy Hyz. apply (le_key x z Hx Hz).
  apply lexle_trans with (key (Prim2SF y));
    [apply (le_key x y Hx Hy) | apply (le_key y z Hy Hz)]; assumption.
Qed.

Lemma ltb_le (x y : number) : (x <? y)%float = true -> le x y.
Proof.
  unfold le. rewrite ltb_spec, leb_spec. unfold SFltb, SFleb.
  destruct (SFcompare _ _) as [[| |]|]; congruence.
Qed.

Lemma not_ltb_le (x y : number) :
  isNaN x = false -> isNaN y = false -> (x <? y)%float = false -> le y x.
Proof.
  intros Hx Hy. rewrite ltb_spec. unfold SFltb.
  rewrite (SFcompare_key _ _ (not_nan x Hx) (not_nan y Hy)). intros H.
  apply (le_key y x Hy Hx). apply lex_Lt_lexle. destruct (lex _ _); congruence.
Qed.

Lemma infinity_not_below (x : number) : (infinity <? x)%float = false.
Proof.
  rewrite ltb_spec. change (Prim2SF infinity) with (S754_infinity false).
  unfold SFltb. destruct (Prim2SF x) as [[|]|[|]| |[|] m e]; reflexivity.
Qed.

(** ** [Math.min] *)

Lemma min2_cases (x y : number) :
  isNaN x = false -> isNaN y = false -> min2 x y = x \/ min2 x y = y.
Proof.
  intros Hx Hy. unfold min2. rewrite Hx, Hy. simpl.
  destruct (x <? y)%float; [auto|]. destruct (y <? x)%float; [auto|].
  destruct (isNegZero x); auto.
Qed.

Lemma min2_not_nan (x y : number) :
  isNaN x = false -> isNaN y = false -> isNaN (min2 x y) = false.
Proof. intros Hx Hy. destruct (min2_cases x y Hx Hy) as [-> | ->]; assumption. Qed.

Lemma min2_le_l (x y : number) : isNaN x = false -> isNaN y = false -> le (min2 x y) x.
Proof.
  intros Hx Hy. unfold min2. rewrite Hx, Hy. simpl.
  destruct (x <? y)%float eqn:Exy; [apply le_refl; assumption|].
  destruct (y <? x)%float eqn:Eyx; [apply ltb_le; assumption|].
  destruct (isNegZero x); [apply le_refl; assumption | apply not_ltb_le; assumption].
Qed.

Lemma min2_le_r (x y : number) : isNaN x = false -> isNaN y = false -> le (min2 x y) y.
Proof.
  intros Hx Hy. unfold min2. rewrite Hx, Hy. simpl.
  destruct (x <? y)%float eqn:Exy; [apply ltb_le; assumption|].
  destruct (y <? x)%float eqn:Eyx; [apply le_refl; assumption|].
  destruct (isNegZero x); [apply not_ltb_le; assumption | apply le_refl; assumption].
Qed.

Lemma min2_infinity (x : number) : isNaN x = false -> min2 infinity x = x.
Proof.
  intros Hx. unfold min2. rewrite Hx, infinity_not_below. simpl.
  destruct (x <? infinity)%float; reflexivity.
Qed.

Lemma fold_min2 (xs : list number) (a : number) :
  isNaN a = false -> Forall (fun x => isNaN x = false) xs ->
  let m := fold_left min2 xs a in
  isNaN m = false /\ In m (a :: xs) /\ Forall (le m) (a :: xs).
Proof.
  cbv zeta. revert a. induction xs as [|x xs IH]; intros a Ha Hxs; simpl.
  - split; [assumption|]. split; [auto|]. constructor; [apply le_refl; assumption|constructor].
  - inversion Hxs as [|? ? Hx Hxs']; subst.
    destruct (IH (min2 a x) (min2_not_nan a x Ha Hx) Hxs') as (Hm & Hin & Hle).
    simpl in Hin. split; [assumption|]. split.
    + destruct Hin as [Hin|Hin]; [|auto].
      rewrite <- Hin. destruct (min2_cases a x Ha Hx) as [E|E]; rewrite E; auto.
    + inversion Hle as [|? ? Hle0 Hle']; subst.
      constructor; [|constructor; [|assumption]].
      * apply le_trans with (min2 a x); auto using min2_not_nan, min2_le_l.
      * apply le_trans with (min2 a x); auto using min2_not_nan, min2_le_r.
Qed.

(** [Math.min] of a non-empty list of numbers, none of them NaN, is one of
    them and is below all of them. *)
Lemma Math_min_is_minimum (x : number) (xs : list number) :
  Forall (fun y => isNaN y = false) (x :: xs) ->
  In (Math_min (x :: xs)) (x :: xs) /\ Forall (le (Math_min (x :: xs))) (x :: xs).
Proof.
  intros H. inversion H as [|? ? Hx Hxs]; subst.
  unfold Math_min. simpl fold_left. rewrite (min2_infinity x Hx).
  destruct (fold_min2 xs x Hx Hxs) as (_ & Hin & Hle). split; assumption.
Qed.

Lemma finite_not_nan (x : number) : isFinite x = true -> isNaN x = false.
Proof.
  unfold isFinite, PrimFloat.is_finite, isNaN.
  destruct (PrimFloat.is_nan x); [discriminate | reflexivity].
Qed.

End FloatOrder.

(* ================================================================== *)
(** * Lists and loops *)
(* ================================================================== *)

Module ListFacts.

(** ** Loops that may throw *)

Lemma mapM_Forall2 {A B} (f : A -> completion B) (P : A -> B -> Prop) (xs : list A) :
  (forall x, In x xs -> exists y, f x = Return y /\ P x y) ->
  exists ys, mapM f xs = Return ys /\ Forall2 P xs ys.
Proof.
  induction xs as [|x xs IH]; intros H; simpl.
  - exists []. split; [reflexivity | constructor].
  - destruct (H x (or_introl eq_refl)) as (y & Ey & Py).
    destruct IH as (ys & Eys & Pys); [intros z Hz; apply H; right; exact Hz|].
    exists (y :: ys). rewrite Ey. simpl. rewrite Eys. simpl.
    split; [reflexivity | constructor; assumption].
Qed.

Lemma Forall2_nth_error_l {A B} (P : A -> B -> Prop) (xs : list A) (ys : list B) :
  Forall2 P xs ys ->
  forall i x, nth_error xs i = Some x -> exists y, nth_error ys i = Some y /\ P x y.
Proof.
  induction 1 as [|x0 y0 xs ys H0 _ IH]; intros i x Hi.
  - destruct i; discriminate.
  - destruct i as [|i]; simpl in *.
    + injection Hi as <-. exists y0. auto.
    + apply IH. exact Hi.
Qed.

(** ** Indexed loops *)

Lemma map_fst_combine_seq {A} (xs : list A) (s : nat) :
  map fst (combine (seq s (length xs)) xs) = seq s (length xs).
Proof.
  revert s. induction xs as [|x xs IH]; intros s; simpl; [reflexivity|].
  rewrite IH. reflexivity.
Qed.

Lemma map_snd_combine_seq {A} (xs : list A) (s : nat) :
  map snd (combine (seq s (length xs)) xs) = xs.
Proof.
  revert s. induction xs as [|x xs IH]; intros s; simpl; [reflexivity|].
  rewrite IH. reflexivity.
Qed.

Lemma map_fst_entries {A} (xs : list A) : map fst (entries xs) = seq 0 (length xs).
Proof. apply map_fst_combine_seq. Qed.

Lemma map_snd_entries {A} (xs : list A) : map snd (entries xs) = xs.
Proof. apply map_snd_combine_seq. Qed.

(** ** Maps and filters *)

Lemma Forall2_map_r {A B} (P : A -> B -> Prop) (f : A -> B) (xs : list A) :
  (forall x, P x (f x)) -> Forall2 P xs (map f xs).
Proof. intros H. induction xs; simpl; constructor; auto. Qed.

Lemma filter_idem {A} (f : A -> bool) (l : list A) : filter f (filter f l) = filter f l.
Proof.
  induction l as [|x l IH]; simpl; [reflexivity|].
  destruct (f x) eqn:E; simpl; rewrite ?E, IH; reflexivity.
Qed.

Lemma existsb_filter_implied {A} (p f : A -> bool) (l : list A) :
  (forall x, p x = true -> f x = true) -> existsb p (filter f l) = existsb p l.
Proof.
  intros H. induction l as [|x l IH]; simpl; [reflexivity|].
  destruct (f x) eqn:E; simpl; rewrite IH; [reflexivity|].
  destruct (p x) eqn:P; [|reflexivity]. rewrite (H x P) in E. discriminate.
Qed.

End ListFacts.

(* ================================================================== *)
(** * The rule engine: proofs *)
(* ================================================================== *)

Module EngineFacts.
Import Engine EngineSpec ListFacts.

Section WithHost.
Context {host : Host}.

Lemma built_pass rule ev : built rule (pass rule ev).
Proof. exact (built_intro rule PASS ev None). Qed.

Lemma built_fail rule ev : built rule (fail rule ev).
Proof. exact (built_intro rule FAIL ev None). Qed.

Lemma built_skip rule reason : built rule (skip rule reason).
Proof. exact (built_intro rule SKIP _ None). Qed.

Lemma built_errorResult rule message ev : built rule (errorResult rule message ev).
Proof. exact (built_intro rule ERROR ev _). Qed.

Create HintDb built.
#[local] Hint Resolve built_pass built_fail built_skip built_errorResult : built.

Ltac split_cases :=
  repeat match goal with
         | |- context [match ?x with _ => _ end] => destruct x
         end.

Ltac solve_built := simpl; split_cases; simpl; auto with built.

Lemma built_evalTextRegex rule p i : builtOrThrows rule (evalTextRegex rule p i).
Proof. unfold evalTextRegex, bind. solve_built. Qed.

Lemma built_evalTextKeywordBlacklist rule p i :
  builtOrThrows rule (evalTextKeywordBlacklist rule p i).
Proof. unfold evalTextKeywordBlacklist, bind. solve_built. Qed.

Lemma built_evalTextRequiredPhrase rule p i :
  builtOrThrows rule (evalTextRequiredPhrase rule p i).
Proof. unfold evalTextRequiredPhrase, bind. solve_built. Qed.

Lemma built_evalNumericRange rule p i : builtOrThrows rule (evalNumericRange rule p i).
Proof. unfold evalNumericRange, bind. destruct (assertKind i KRecord rule); solve_built. Qed.

Lemma built_evalRequiredField rule p i : builtOrThrows rule (evalRequiredField rule p i).
Proof. unfold evalRequiredField, bind. destruct (assertKind i KRecord rule); solve_built. Qed.

Lemma built_evalExcelRequiredColumns rule p i :
  builtOrThrows rule (evalExcelRequiredColumns rule p i).
Proof.
  unfold evalExcelRequiredColumns, bind. destruct (assertKind i KTable rule); solve_built.
Qed.

Lemma built_evalExcelAllCaps rule p i : builtOrThrows rule (evalExcelAllCaps rule p i).
Proof.
  unfold evalExcelAllCaps, bind. destruct (assertKind i KTable rule); [|exact I].
  destruct i; simpl; auto.
  destruct (indexOf columns (column p)); simpl; auto with built.
  destruct (fold_left _ rows _) as [total caps].
  solve_built.
Qed.

Lemma built_evalAudioDurationLimit rule p i :
  builtOrThrows rule (evalAudioDurationLimit rule p i).
Proof.
  unfold evalAudioDurationLimit, bind. destruct (assertKind i KAudio rule); solve_built.
Qed.

Lemma built_evalSlaTimeDifference rule p i :
  builtOrThrows rule (evalSlaTimeDifference rule p i).
Proof.
  unfold evalSlaTimeDifference, bind. destruct (assertKind i KRecord rule); solve_built.
Qed.

Lemma built_evalToneClassification rule p s : built rule (evalToneClassification rule p s).
Proof. unfold evalToneClassification. solve_built. Qed.

Lemma built_evalImpliedAbuseDetection rule p s :
  built rule (evalImpliedAbuseDetection rule p s).
Proof. unfold evalImpliedAbuseDetection. solve_built. Qed.

Lemma built_evaluateRule ctx rule : built rule (evaluateRule ctx rule).
Proof.
  unfold evaluateRule. destruct (negb (Rule.enabled rule)); [apply built_skip|].
  assert (H : builtOrThrows rule (dispatch ctx rule)).
  { unfold dispatch. destruct (Rule.params rule); simpl;
      auto using built_evalTextRegex, built_evalTextKeywordBlacklist,
        built_evalTextRequiredPhrase, built_evalNumericRange, built_evalRequiredField,
        built_evalExcelRequiredColumns, built_evalExcelAllCaps,
        built_evalAudioDurationLimit, built_evalSlaTimeDifference,
        built_evalToneClassification, built_evalImpliedAbuseDetection. }
  destruct (dispatch ctx rule); [exact H | apply built_errorResult].
Qed.

Lemma runQc_unfold request :
  runQc request =
  if configError request
  then Throw (QcRuleValidationError (str "passScoreThreshold must be between 0 and 1"))
  else Return {| summary := summarize (thresholdOf request) (blockerSwitchOf request)
                                      (executedAtIso request)
                                      (map (evaluateRule (contextOf request)) (rules request));
                 ruleResults := map (evaluateRule (contextOf request)) (rules request) |}.
Proof. reflexivity. Qed.


(** C10. [runQc] either rejects the request for its threshold, before any
    rule runs, or returns one result per rule, in rule order, each carrying
    its rule's [ruleId] and the score of its outcome: 1 for PASS and SKIP,
    0 for FAIL and ERROR. *)
Theorem runQc_one_binary_result_per_rule (request : RunQcRequest) :
  match runQc request with
  | Throw _ => configError request = true
  | Return res =>
      configError request = false /\
      length (ruleResults res) = length (rules request) /\
      Forall2 (fun rule r =>
                 RuleResult.ruleId r = Rule.ruleId rule /\
                 RuleResult.score r = scoreOf (RuleResult.outcome r) /\
                 (RuleResult.score r = 1%float \/ RuleResult.score r = 0%float))
              (rules request) (ruleResults res)
  end.
Proof.
  rewrite runQc_unfold. destruct (configError request); [reflexivity|].
  simpl. split; [reflexivity|]. split; [apply length_map|].
  apply Forall2_map_r. intros rule.
  destruct (built_evaluateRule (contextOf request) rule) as [o ev err]. simpl.
  repeat split. destruct o; simpl; auto.
Qed.

(** ** Aggregation *)

Lemma existsb_Exists_blocker (results : list QcRuleResult) :
  Exists (fun r => RuleResult.outcome r = FAIL /\ RuleResult.severity r = BLOCKER) results ->
  existsb (fun r => outcome_eqb (RuleResult.outcome r) FAIL
                    && isBlocker (RuleResult.severity r)) results = true.
Proof.
  intros H. apply existsb_exists. apply Exists_exists in H as (r & Hin & Ho & Hs).
  exists r. split; [exact Hin|]. rewrite Ho, Hs. reflexivity.
Qed.

(** C4. With [blockerFailureForcesFail] on (the default), a returned run
    whose results hold a FAIL of severity BLOCKER has overall outcome FAIL,
    whatever the weighted score and the threshold. *)
Theorem blocker_failure_forces_fail (request : RunQcRequest) :
  blockerSwitchOf request = true ->
  match runQc request with
  | Throw _ => configError request = true
  | Return res =>
      Exists (fun r => RuleResult.outcome r = FAIL /\ RuleResult.severity r = BLOCKER)
             (ruleResults res) ->
      RunSummary.overallOutcome (summary res) = OverallFAIL
  end.
Proof.
  intros Hb. rewrite runQc_unfold. destruct (configError request); [reflexivity|].
  simpl. intros Hex. rewrite Hb. rewrite (existsb_Exists_blocker _ Hex). reflexivity.
Qed.

Lemma filter_nonSkip_all_skip (results : list QcRuleResult) :
  Forall (fun r => RuleResult.outcome r = SKIP) results -> filter nonSkip results = [].
Proof.
  induction 1 as [|r rs Hr _ IH]; simpl; [reflexivity|].
  unfold nonSkip at 1. rewrite Hr. simpl. exact IH.
Qed.

Lemma no_fail_all_skip (results : list QcRuleResult) :
  Forall (fun r => RuleResult.outcome r = SKIP) results ->
  existsb (fun r => outcome_eqb (RuleResult.outcome r) FAIL
                    && isBlocker (RuleResult.severity r)) results = false.
Proof.
  induction 1 as [|r rs Hr _ IH]; simpl; [reflexivity|]. rewrite Hr. simpl. exact IH.
Qed.

(** C5. When every result of a returned run is a SKIP, the overall score is 1
    and the overall outcome PASS; and in general the overall score and outcome
    are those of the results with the SKIPs removed. *)
Theorem all_skip_is_vacuous_pass (request : RunQcRequest) :
  match runQc request with
  | Throw _ => configError request = true
  | Return res =>
      (Forall (fun r => RuleResult.outcome r = SKIP) (ruleResults res) ->
       RunSummary.overallScore (summary res) = 1%float /\
       RunSummary.overallOutcome (summary res) = OverallPASS) /\
      (let kept := summarize (thresholdOf request) (blockerSwitchOf request)
                             (executedAtIso request) (filter nonSkip (ruleResults res)) in
       RunSummary.overallScore (summary res) = RunSummary.overallScore kept /\
       RunSummary.overallOutcome (summary res) = RunSummary.overallOutcome kept)
  end.
Proof.
  rewrite runQc_unfold. destruct (configError request) eqn:Hcfg; [reflexivity|].
  cbn [summary ruleResults]. set (results := map _ _).
  unfold summarize, nonSkip. cbn [RunSummary.overallScore RunSummary.overallOutcome].
  split.
  - intros Hall. pose proof (filter_nonSkip_all_skip _ Hall) as Hnil. unfold nonSkip in Hnil.
    rewrite Hnil. simpl fold_left. rewrite (no_fail_all_skip _ Hall).
    unfold configError in Hcfg. apply orb_false_elim in Hcfg as [_ Hgt].
    change (0 <=? 0)%float with true. cbv iota.
    split; [reflexivity|]. rewrite Hgt. destruct (blockerSwitchOf request); reflexivity.
  - rewrite filter_idem. split; [reflexivity|].
    rewrite (existsb_filter_implied _ nonSkip results); [reflexivity|].
    intros r. unfold nonSkip. destruct (RuleResult.outcome r); simpl; auto.
Qed.

(** ** The time zone *)

Section Zone.
Variables (dp : jsstring -> number) (ds : value -> jsstring).





End Zone.


(** ** Kind mismatches *)

Lemma assertKind_mismatch rule (i : QcNormalizedInput) k :
  kind i <> k ->
  assertKind i k rule = Throw (QcExecutionError (kindMismatchMessage rule k (kind i))).
Proof.
  intros H. unfold assertKind.
  destruct (kind_eqb (kind i) k) eqn:E; [|reflexivity].
  exfalso. apply H. destruct (kind i), k; simpl in E; congruence.
Qed.

(** C2, as the code has it. An enabled rule of a type that asserts its input
    kind, run on an input of another kind, yields ERROR with score 0, no
    evidence and the error [{ code: 'RULE_EVALUATION_ERROR', message }] built
    from the assertion's message. An enabled text rule on a table or audio
    input yields SKIP with score 1. Whichever rules and input it is given,
    [runQc] throws for an out-of-range threshold only, and otherwise returns
    the results of [evaluateRule] on every rule. *)
Theorem kind_mismatch_outcomes (ctx : QcExecutionContext) (rule : QcRuleDefinition) :
  Rule.enabled rule = true ->
  (forall k, assertedKind (Rule.type rule) = Some k -> kind (ctx_input ctx) <> k ->
     evaluateRule ctx rule
     = errorResult rule (kindMismatchMessage rule k (kind (ctx_input ctx))) [] /\
     RuleResult.outcome (evaluateRule ctx rule) = ERROR /\
     RuleResult.score (evaluateRule ctx rule) = 0%float) /\
  (isTextRule (Rule.type rule) = true ->
   kind (ctx_input ctx) = KTable \/ kind (ctx_input ctx) = KAudio ->
     RuleResult.outcome (evaluateRule ctx rule) = SKIP /\
     RuleResult.score (evaluateRule ctx rule) = 1%float) /\
  (forall request, ctx = contextOf request ->
     match runQc request with
     | Throw _ => configError request = true
     | Return res =>
         configError request = false /\
         ruleResults res = map (evaluateRule ctx) (rules request)
     end).
Proof.
  intros Hen. split; [|split].
  - intros k Hk Hne.
    assert (E : evaluateRule ctx rule
                = errorResult rule (kindMismatchMessage rule k (kind (ctx_input ctx))) []).
    { unfold evaluateRule. rewrite Hen. simpl. unfold dispatch, Rule.type in *.
      destruct (Rule.params rule); simpl in Hk; try discriminate; injection Hk as <-;
        [ unfold evalNumericRange | unfold evalRequiredField | unfold evalExcelAllCaps
        | unfold evalExcelRequiredColumns | unfold evalAudioDurationLimit
        | unfold evalSlaTimeDifference ];
        rewrite assertKind_mismatch by exact Hne; reflexivity. }
    rewrite E. repeat split.
  - intros Ht Hk. unfold evaluateRule. rewrite Hen. simpl.
    unfold dispatch, Rule.type in *.
    destruct (Rule.params rule); simpl in Ht; try discriminate;
      [ unfold evalTextRegex | unfold evalTextKeywordBlacklist
      | unfold evalTextRequiredPhrase ];
      destruct (ctx_input ctx); simpl in Hk; destruct Hk; try discriminate;
      simpl; split; reflexivity.
  - intros request ->. rewrite runQc_unfold.
    destruct (configError request); [reflexivity|]. split; reflexivity.
Qed.

End WithHost.

(** ** Closed examples *)

Import ExampleHost.

(** Scenario A of the specification. *)
Example scenario_required_phrase :
  option_map (fun res => (RunSummary.overallOutcome (summary res),
                          RunSummary.overallScore (summary res),
                          map RuleResult.outcome (ruleResults res)))
             (match runQc (exampleRequest (InText (str "Your Order ID is 55") None)
                                          [requiredPhraseRule] None) with
              | Return res => Some res
              | Throw _ => None
              end)
  = Some (OverallPASS, 1%float, [PASS]).
Proof. vm_compute. reflexivity. Qed.

(** Scenario D of the specification: the upper bound is exclusive. *)
Example scenario_exclusive_bound :
  RuleResult.outcome
    (evaluateRule {| ctx_input := InRecord (VObj [(str "amount", VNum 10%float)]);
                     ctx_aiSignals := None; ctx_executedAtIso := str "" |}
                  numericRangeRule)
  = FAIL.
Proof. vm_compute. reflexivity. Qed.

Lemma blocker_failure_forces_fail_witness :
  blockerSwitchOf blockerRequest = true /\
  match runQc blockerRequest with
  | Throw _ => configError blockerRequest = true
  | Return res =>
      Exists (fun r => RuleResult.outcome r = FAIL /\ RuleResult.severity r = BLOCKER)
             (ruleResults res) ->
      RunSummary.overallOutcome (summary res) = OverallFAIL
  end.
Proof.
  split; [reflexivity|]. apply (blocker_failure_forces_fail blockerRequest). reflexivity.
Defined.

(** The weighted score of that request is 1, its threshold 1, its outcome FAIL. *)
Example blocker_overrides_passing_score :
  option_map (fun res => (RunSummary.overallOutcome (summary res),
                          RunSummary.overallScore (summary res),
                          map RuleResult.outcome (ruleResults res)))
             (match runQc blockerRequest with
              | Return res => Some res
              | Throw _ => None
              end)
  = Some (OverallFAIL, 1%float, [FAIL; PASS]).
Proof. vm_compute. reflexivity. Qed.

Lemma all_skip_is_vacuous_pass_witness :
  exists res,
    runQc allDisabledRequest = Return res /\
    Forall (fun r => RuleResult.outcome r = SKIP) (ruleResults res) /\
    RunSummary.overallScore (summary res) = 1%float /\
    RunSummary.overallOutcome (summary res) = OverallPASS.
Proof.
  pose proof (all_skip_is_vacuous_pass allDisabledRequest) as H.
  destruct (runQc allDisabledRequest) as [res|e] eqn:E; [|discriminate H].
  exists res. split; [reflexivity|].
  assert (Hall : Forall (fun r => RuleResult.outcome r = SKIP) (ruleResults res)).
  { injection E as <-. repeat constructor. }
  split; [exact Hall|]. exact (proj1 H Hall).
Defined.



(** C2, as stated, fails: an enabled TEXT_REQUIRED_PHRASE rule on a table
    input is not an ERROR of score 0 but a SKIP of score 1, and so is any
    disabled rule, whatever kind it expects. *)
Lemma text_rule_on_table_is_skipped :
  RuleResult.outcome (evaluateRule tableContext requiredPhraseRule) = SKIP /\
  RuleResult.score (evaluateRule tableContext requiredPhraseRule) = 1%float /\
  RuleResult.error (evaluateRule tableContext requiredPhraseRule) = None /\
  RuleResult.outcome (evaluateRule tableContext requiredPhraseRule) <> ERROR /\
  RuleResult.outcome (evaluateRule tableContext disabledRule) = SKIP.
Proof. vm_compute. repeat split; discriminate. Qed.

Lemma kind_mismatch_outcomes_witness :
  RuleResult.outcome (evaluateRule tableContext numericRangeRule) = ERROR /\
  RuleResult.score (evaluateRule tableContext numericRangeRule) = 0%float /\
  RuleResult.error (evaluateRule tableContext numericRangeRule)
  = Some {| code := str "RULE_EVALUATION_ERROR";
            err_message := str "Rule amount (NUMERIC_RANGE) expects input kind 'record', got 'table'." |} /\
  RuleResult.outcome (evaluateRule tableContext requiredPhraseRule) = SKIP.
Proof.
  destruct (@kind_mismatch_outcomes ExampleHost.host tableContext numericRangeRule eq_refl)
    as (Herr & _ & _).
  destruct (Herr KRecord eq_refl ltac:(discriminate)) as (E & Ho & Hs).
  destruct (@kind_mismatch_outcomes ExampleHost.host tableContext requiredPhraseRule eq_refl)
    as (_ & Hskip & _).
  split; [exact Ho|]. split; [exact Hs|]. split; [rewrite E; reflexivity|].
  exact (proj1 (Hskip eq_refl (or_introl eq_refl))).
Defined.

End EngineFacts.

(* ================================================================== *)
(** * The aggregator: proofs *)
(* ================================================================== *)

Module AggregatorFacts.
Import Engine Mapping ChatSplit Processor AggregatorSpec FloatOrderDefs ListFacts.

(** ** Worst status *)

Lemma max2_rank (a b : RuleStatus) :
  max2 (statusRank a) (statusRank b) = statusRank (worst a b).
Proof. destruct a, b; vm_compute; reflexivity. Qed.

Lemma max2_neg_infinity_rank (a : RuleStatus) :
  max2 neg_infinity (statusRank a) = statusRank a.
Proof. destruct a; vm_compute; reflexivity. Qed.

Lemma rankToStatus_rank (s : RuleStatus) : rankToStatus (statusRank s) = s.
Proof. destruct s; vm_compute; reflexivity. Qed.

Lemma fold_max2_rank (ss : list RuleStatus) (a : RuleStatus) :
  fold_left max2 (map statusRank ss) (statusRank a) = statusRank (fold_left worst ss a).
Proof.
  revert a. induction ss as [|s ss IH]; intros a; simpl; [reflexivity|].
  rewrite max2_rank. apply IH.
Qed.

Lemma worst_rank_l (a b : RuleStatus) : rankOf a <= rankOf (worst a b).
Proof. destruct a, b; vm_compute; lia. Qed.

Lemma worst_rank_r (a b : RuleStatus) : rankOf b <= rankOf (worst a b).
Proof. destruct a, b; vm_compute; lia. Qed.

Lemma worst_cases (a b : RuleStatus) : worst a b = a \/ worst a b = b.
Proof. unfold worst. destruct (rankOf a <? rankOf b); auto. Qed.

Lemma fold_worst (ss : list RuleStatus) (a : RuleStatus) :
  In (fold_left worst ss a) (a :: ss) /\
  Forall (fun s => rankOf s <= rankOf (fold_left worst ss a)) (a :: ss).
Proof.
  revert a. induction ss as [|s ss IH]; intros a; simpl.
  - split; [auto | constructor; [lia | constructor]].
  - destruct (IH (worst a s)) as (Hin & Hall). split.
    + destruct Hin as [Hin|Hin]; [|auto]. rewrite <- Hin.
      destruct (worst_cases a s) as [E|E]; rewrite E; auto.
    + inversion Hall as [|? ? H0 Hrest]; subst.
      constructor; [|constructor; [|assumption]].
      * pose proof (worst_rank_l a s). lia.
      * pose proof (worst_rank_r a s). lia.
Qed.

(** The status [combineAggregatedRuleDocs] computes from the statuses of a
    rule across segments is one of them, and none of them ranks above it. *)
Lemma worst_status_of_column (s : RuleStatus) (ss : list RuleStatus) :
  let w := rankToStatus (Math_max (map statusRank (s :: ss))) in
  In w (s :: ss) /\ Forall (fun x => rankOf x <= rankOf w) (s :: ss).
Proof.
  cbv zeta. unfold Math_max. simpl fold_left.
  rewrite max2_neg_infinity_rank, fold_max2_rank, rankToStatus_rank.
  apply fold_worst.
Qed.

(** ** The combined document of one rule index *)

Lemma combineEntries_status entries base :
  RuleResultDoc.status (combineEntries entries base)
  = rankToStatus (Math_max (map statusRank (map RuleResultDoc.status (map snd entries)))).
Proof. unfold combineEntries. simpl. rewrite !map_map. reflexivity. Qed.

Lemma combineEntries_score entries base :
  RuleResultDoc.score (combineEntries entries base)
  = Math_min (map (fun d => if isFinite (RuleResultDoc.score d)
                            then RuleResultDoc.score d else 0%float)
                  (map snd entries)).
Proof. unfold combineEntries. simpl. rewrite !map_map. reflexivity. Qed.

Lemma map_finite_scores (docs : list RuleResultDoc.t) :
  Forall (fun d => isFinite (RuleResultDoc.score d) = true) docs ->
  map (fun d => if isFinite (RuleResultDoc.score d) then RuleResultDoc.score d else 0%float)
      docs
  = map RuleResultDoc.score docs.
Proof.
  induction 1 as [|d docs Hd _ IH]; simpl; [reflexivity|]. rewrite Hd, IH. reflexivity.
Qed.

Lemma combined_of_column (entries : list (ChatSegment * RuleResultDoc.t)) base :
  entries <> [] ->
  let o := combineEntries entries base in
  let col := map snd entries in
  Forall (fun d => rankOf (RuleResultDoc.status d) <= rankOf (RuleResultDoc.status o)) col /\
  Exists (fun d => RuleResultDoc.status d = RuleResultDoc.status o) col /\
  (Forall (fun d => isFinite (RuleResultDoc.score d) = true) col ->
   Exists (fun d => RuleResultDoc.score d = RuleResultDoc.score o) col /\
   Forall (fun d => le (RuleResultDoc.score o) (RuleResultDoc.score d)) col).
Proof.
  intros Hne. cbv zeta.
  destruct entries as [|e entries]; [congruence|].
  rewrite combineEntries_status, combineEntries_score.
  set (col := map snd (e :: entries)).
  assert (Hcol : col = snd e :: map snd entries) by reflexivity.
  split; [|split].
  - rewrite Hcol. simpl map.
    destruct (worst_status_of_column (RuleResultDoc.status (snd e))
                (map RuleResultDoc.status (map snd entries))) as (_ & Hall).
    simpl map in Hall. rewrite Forall_forall in Hall. apply Forall_forall. intros d Hd.
    apply Hall. change (In (RuleResultDoc.status d)
                           (map RuleResultDoc.status (snd e :: map snd entries))).
    apply in_map. exact Hd.
  - rewrite Hcol. simpl map.
    destruct (worst_status_of_column (RuleResultDoc.status (snd e))
                (map RuleResultDoc.status (map snd entries))) as (Hin & _).
    simpl map in Hin.
    change (In (rankToStatus
                  (Math_max (statusRank (RuleResultDoc.status (snd e))
                             :: map statusRank (map RuleResultDoc.status (map snd entries)))))
               (map RuleResultDoc.status (snd e :: map snd entries))) in Hin.
    apply in_map_iff in Hin as (d & Hd & Hin). apply Exists_exists. exists d. auto.
  - intros Hfin. rewrite (map_finite_scores col Hfin).
    assert (Hnan : Forall (fun y => isNaN y = false) (map RuleResultDoc.score col)).
    { apply Forall_map. eapply Forall_impl; [|exact Hfin].
      intros d. apply FloatOrder.finite_not_nan. }
    rewrite Hcol in *. simpl map in *.
    destruct (FloatOrder.Math_min_is_minimum _ _ Hnan) as (Hin & Hle). split.
    + change (In (Math_min (RuleResultDoc.score (snd e)
                            :: map RuleResultDoc.score (map snd entries)))
                 (map RuleResultDoc.score (snd e :: map snd entries))) in Hin.
      apply in_map_iff in Hin as (d & Hd & Hin). apply Exists_exists. exists d. auto.
    + change (Forall (le (Math_min (RuleResultDoc.score (snd e)
                                    :: map RuleResultDoc.score (map snd entries))))
                     (map RuleResultDoc.score (snd e :: map snd entries))) in Hle.
      rewrite Forall_forall in Hle. apply Forall_forall. intros d Hd.
      apply Hle. apply in_map. exact Hd.
Qed.

Lemma entries_of_column (perChat : list (ChatSegment * list RuleResultDoc.t)) (i n : nat) :
  Forall (fun x => length (snd x) = n) perChat -> i < n ->
  exists entries,
    mapM (fun x => match nth_error (snd x) i with
                   | Some doc => Return (fst x, doc)
                   | None =>
                       Throw (TypeError
                         (str "Cannot read properties of undefined (reading 'status')"))
                   end) perChat = Return entries /\
    map snd entries = column i perChat /\ length entries = length perChat.
Proof.
  intros Hlen Hi. unfold column. induction Hlen as [|x perChat Hx _ IH]; simpl.
  - exists []. repeat split.
  - destruct IH as (entries & E & Hcol & Hl).
    destruct (nth_error (snd x) i) as [d|] eqn:Ed.
    + exists ((fst x, d) :: entries). simpl. rewrite E. simpl.
      rewrite Hcol, Hl. repeat split.
    + apply nth_error_None in Ed. lia.
Qed.

(** The aggregator returns, for segments that all hold [n] documents, the
    combined document of every rule index, built from the entries of that
    index across the segments. *)
Lemma combine_by_column (perChat : list (ChatSegment * list RuleResultDoc.t)) (n : nat) :
  perChat <> [] ->
  Forall (fun x => length (snd x) = n) perChat ->
  exists out,
    combineAggregatedRuleDocs perChat = Return out /\
    Forall2 (fun i o =>
               exists entries base,
                 entries <> [] /\ map snd entries = column i perChat /\
                 length entries = length perChat /\ o = combineEntries entries base)
            (seq 0 n) out.
Proof.
  intros Hne Hlen.
  destruct perChat as [|first rest]; [congruence|].
  assert (Hn : length (snd first) = n) by (inversion Hlen; assumption).
  set (perChat := first :: rest) in *.
  unfold combineAggregatedRuleDocs. unfold perChat at 1. rewrite Hn. fold perChat.
  apply mapM_Forall2. intros i Hi. apply in_seq in Hi.
  destruct (entries_of_column perChat i n Hlen) as (entries & E & Hcol & Hl); [lia|].
  rewrite E. simpl.
  destruct entries as [|e0 entries'] eqn:Eent; [discriminate Hl|].
  eexists. split; [reflexivity|]. rewrite <- Eent in *.
  exists entries, (snd e0). repeat split; try assumption. rewrite Eent. discriminate.
Qed.

(** C6. For segments that all hold [n] rule documents, the aggregator
    returns [n] combined documents; the one at each rule index has a status
    that one of the segments has at that index and that ranks at least as high
    as every segment's status under NOT_EVALUATED < PASS < FAIL < ERROR, and,
    the segment scores being finite numbers, a score that one of the segments
    has and that is below or equal to every segment's score. *)
Theorem combined_rule_is_worst_case
    (perChat : list (ChatSegment * list RuleResultDoc.t)) (n : nat) :
  perChat <> [] ->
  Forall (fun x => length (snd x) = n) perChat ->
  exists out,
    combineAggregatedRuleDocs perChat = Return out /\
    length out = n /\
    forall i, i < n ->
      exists o, nth_error out i = Some o /\
        length (column i perChat) = length perChat /\
        Forall (fun d => rankOf (RuleResultDoc.status d) <= rankOf (RuleResultDoc.status o))
               (column i perChat) /\
        Exists (fun d => RuleResultDoc.status d = RuleResultDoc.status o) (column i perChat) /\
        (Forall (fun d => isFinite (RuleResultDoc.score d) = true) (column i perChat) ->
         Exists (fun d => RuleResultDoc.score d = RuleResultDoc.score o) (column i perChat) /\
         Forall (fun d => le (RuleResultDoc.score o) (RuleResultDoc.score d))
                (column i perChat)).
Proof.
  intros Hne Hlen.
  destruct (combine_by_column perChat n Hne Hlen) as (out & Eout & HP).
  exists out. split; [exact Eout|]. split.
  - apply Forall2_length in HP. rewrite length_seq in HP. symmetry. exact HP.
  - intros i Hi.
    destruct (Forall2_nth_error_l _ _ _ HP i i) as (o & Ho & entries & base & Hne' & Hcol & Hl & ->).
    { rewrite nth_error_seq. destruct (Nat.ltb_spec i n); [reflexivity | lia]. }
    exists (combineEntries entries base). split; [exact Ho|].
    destruct (combined_of_column entries base Hne') as (Hrank & Hst & Hsc).
    rewrite <- Hcol. rewrite length_map. auto.
Qed.

Lemma combined_rule_is_worst_case_witness :
  exists out,
    combineAggregatedRuleDocs exampleSegments = Return out /\
    map RuleResultDoc.status out = [FAIL; ERROR] /\
    map RuleResultDoc.score out = [0%float; 0%float].
Proof.
  destruct (combined_rule_is_worst_case exampleSegments 2) as (out & E & _ & _).
  - discriminate.
  - repeat constructor.
  - exists out. split; [exact E|].
    vm_compute in E. injection E as <-. split; reflexivity.
Defined.

End AggregatorFacts.

(* ================================================================== *)
(** * Chat segmentation: proofs *)
(* ================================================================== *)

Module ChatSplitFacts.
Import ChatSplit ChatSplitSpec ListFacts.

(** The chats built from the usable segments of a strategy are numbered from
    0 and carry the rebuilt texts of the segments. *)
Lemma chats_of_entries (lines : list jsstring) (usable : list Segment)
    (mk : nat -> Segment -> ChatSegment) :
  (forall idx seg, index (mk idx seg) = idx) ->
  (forall idx seg, text (mk idx seg) = rebuildFromLines lines (start seg) (end_ seg)) ->
  map text (map (fun '(idx, seg) => mk idx seg) (entries usable)) = textsOf lines usable /\
  map index (map (fun '(idx, seg) => mk idx seg) (entries usable))
  = seq 0 (length (textsOf lines usable)).
Proof.
  intros Hi Ht. rewrite !map_map. unfold textsOf. rewrite length_map. split.
  - rewrite <- (map_snd_entries usable) at 2. rewrite map_map.
    apply map_ext. intros [idx seg]. apply Ht.
  - rewrite <- (map_fst_entries usable). apply map_ext. intros [idx seg]. apply Hi.
Qed.

(** ** A strategy yields no more segments than it has starts *)

Lemma length_insertSorted (x : nat) (xs : list nat) :
  length (insertSorted x xs) = S (length xs).
Proof.
  induction xs as [|y xs IH]; simpl; [reflexivity|].
  destruct (x <=? y); simpl; [reflexivity | rewrite IH; reflexivity].
Qed.

Lemma length_sortAscending (xs : list nat) : length (sortAscending xs) = length xs.
Proof.
  induction xs as [|x xs IH]; simpl; [reflexivity|].
  rewrite length_insertSorted, IH. reflexivity.
Qed.

Lemma length_uniq (xs : list nat) : length (uniq xs) <= length xs.
Proof.
  induction xs as [|x xs IH]; simpl; [lia|].
  pose proof (filter_length_le (fun y => negb (y =? x)) (uniq xs)). lia.
Qed.

Lemma length_segmentsBetween (sorted : list nat) (n : nat) :
  length (segmentsBetween sorted n) <= length sorted.
Proof.
  induction sorted as [|s rest IH]; simpl; [lia|].
  rewrite length_app.
  destruct (s <? match rest with [] => n | next :: _ => next end); simpl; lia.
Qed.

Lemma length_usableFrom (lines : list jsstring) (starts : list nat) :
  length (usableFrom lines starts) <= length starts.
Proof.
  unfold usableFrom, filterNonTrivialSegments, computeSegmentsFromStarts.
  pose proof (filter_length_le
    (fun s => minChars <=? length (rebuildFromLines lines (start s) (end_ s)))
    (segmentsBetween (sortAscending (uniq starts)) (length lines))) as H1.
  pose proof (length_segmentsBetween (sortAscending (uniq starts)) (length lines)) as H2.
  rewrite length_sortAscending in H2. pose proof (length_uniq starts). lia.
Qed.

Lemma usableFrom_nontrivial (lines : list jsstring) (starts : list nat) :
  Forall (fun t => minChars <= length t) (textsOf lines (usableFrom lines starts)).
Proof.
  unfold textsOf, usableFrom, filterNonTrivialSegments. apply Forall_map.
  apply Forall_forall. intros seg Hin. apply filter_In in Hin as [_ H].
  apply Nat.leb_le. exact H.
Qed.

(** ** The three strategies *)

Lemma tryChatIdHeaders_no (lines : list jsstring) :
  length (headerSegments lines) < 2 -> tryChatIdHeaders lines = None.
Proof.
  intros H. unfold tryChatIdHeaders. fold (headerSegments lines).
  destruct (2 <=? length (chatIdStartsOf lines)); [|reflexivity].
  unfold headerSegments, usableFrom in H.
  destruct (Nat.leb_spec 2 (length (filterNonTrivialSegments lines
              (computeSegmentsFromStarts lines (map fst (chatIdStartsOf lines))))));
    [lia | reflexivity].
Qed.

Lemma tryChatIdHeaders_yes (lines : list jsstring) :
  2 <= length (headerSegments lines) ->
  exists r, tryChatIdHeaders lines = Some r /\ strategy r = CHAT_ID /\ warning r = None /\
            chatsCarry r (textsOf lines (headerSegments lines)).
Proof.
  intros H. unfold tryChatIdHeaders.
  pose proof (length_usableFrom lines (map fst (chatIdStartsOf lines))) as Hle.
  rewrite length_map in Hle. fold (headerSegments lines) in Hle.
  destruct (Nat.leb_spec 2 (length (chatIdStartsOf lines))); [|lia].
  unfold headerSegments, usableFrom in H.
  destruct (Nat.leb_spec 2 (length (filterNonTrivialSegments lines
              (computeSegmentsFromStarts lines (map fst (chatIdStartsOf lines))))));
    [|lia].
  eexists. split; [reflexivity|]. split; [reflexivity|]. split; [reflexivity|].
  unfold chatsCarry. simpl chats. apply chats_of_entries; reflexivity.
Qed.

Lemma trySeparators_no (lines : list jsstring) :
  length (separatorSegments lines) < 2 -> trySeparators lines = None.
Proof.
  intros H. unfold trySeparators.
  destruct (1 <=? length (sepStartsOf lines)); [|reflexivity].
  unfold separatorSegments, usableFrom in H.
  destruct (Nat.leb_spec 2 (length (filterNonTrivialSegments lines
              (computeSegmentsFromStarts lines (0 :: sepStartsOf lines)))));
    [lia | reflexivity].
Qed.

Lemma trySeparators_yes (lines : list jsstring) :
  2 <= length (separatorSegments lines) ->
  exists r, trySeparators lines = Some r /\ strategy r = SEPARATORS /\ warning r = None /\
            chatsCarry r (textsOf lines (separatorSegments lines)).
Proof.
  intros H. unfold trySeparators.
  pose proof (length_usableFrom lines (0 :: sepStartsOf lines)) as Hle.
  simpl length in Hle. fold (separatorSegments lines) in Hle.
  destruct (Nat.leb_spec 1 (length (sepStartsOf lines))); [|lia].
  unfold separatorSegments, usableFrom in H.
  destruct (Nat.leb_spec 2 (length (filterNonTrivialSegments lines
              (computeSegmentsFromStarts lines (0 :: sepStartsOf lines)))));
    [|lia].
  eexists. split; [reflexivity|]. split; [reflexivity|]. split; [reflexivity|].
  unfold chatsCarry. simpl chats. apply chats_of_entries; reflexivity.
Qed.

Lemma trySpeakerBlocks_no (lines : list jsstring) :
  length (speakerSegments lines) < 2 -> trySpeakerBlocks lines = None.
Proof.
  intros H. unfold trySpeakerBlocks.
  destruct (2 <=? length (participantStartsOf lines)); [|reflexivity].
  unfold speakerSegments, usableFrom in H.
  destruct (Nat.leb_spec 2 (length (filterNonTrivialSegments lines
              (computeSegmentsFromStarts lines (map fst (participantStartsOf lines))))));
    [lia | reflexivity].
Qed.

Lemma trySpeakerBlocks_yes (lines : list jsstring) :
  2 <= length (speakerSegments lines) ->
  exists r, trySpeakerBlocks lines = Some r /\ strategy r = SPEAKER_BLOCKS /\
            warning r = None /\ chatsCarry r (textsOf lines (speakerSegments lines)).
Proof.
  intros H. unfold trySpeakerBlocks.
  pose proof (length_usableFrom lines (map fst (participantStartsOf lines))) as Hle.
  rewrite length_map in Hle. fold (speakerSegments lines) in Hle.
  destruct (Nat.leb_spec 2 (length (participantStartsOf lines))); [|lia].
  unfold speakerSegments, usableFrom in H.
  destruct (Nat.leb_spec 2 (length (filterNonTrivialSegments lines
              (computeSegmentsFromStarts lines (map fst (participantStartsOf lines))))));
    [|lia].
  eexists. split; [reflexivity|]. split; [reflexivity|]. split; [reflexivity|].
  unfold chatsCarry. simpl chats. apply chats_of_entries; reflexivity.
Qed.

Lemma split_unfold (text : jsstring) :
  normalizedOf text <> [] ->
  splitTranscriptIntoChats text =
  match tryChatIdHeaders (linesOf text) with
  | Some result => result
  | None =>
      match trySeparators (linesOf text) with
      | Some result => result
      | None =>
          match trySpeakerBlocks (linesOf text) with
          | Some result => result
          | None => singleChat singleFallbackWarning (normalizedOf text)
          end
      end
  end.
Proof.
  intros H. unfold splitTranscriptIntoChats, linesOf, normalizedOf in *.
  destruct (trim (normalizeNewlines text)); [congruence | reflexivity].
Qed.

(** ** Two chat-id headers *)

Lemma chatIdStartsOf_scan (lines : list jsstring) :
  chatIdStartsOf lines = scan findChatIdHeader 0 lines.
Proof. reflexivity. Qed.

Lemma scan_cons {A} (f : jsstring -> option A) (s : nat) (l : jsstring) (ls : list jsstring) :
  scan f s (l :: ls)
  = match f l with Some a => [(s, a)] | None => [] end ++ scan f (S s) ls.
Proof. reflexivity. Qed.

Lemma scan_bounds {A} (f : jsstring -> option A) (ls : list jsstring) (s : nat) :
  Forall (fun p => s <= fst p < s + length ls /\
                   exists line, In line ls /\ f line = Some (snd p))
         (scan f s ls).
Proof.
  revert s. induction ls as [|l ls IH]; intros s; [constructor|].
  rewrite scan_cons. apply Forall_app. split.
  - destruct (f l) as [a|] eqn:E; constructor; [|constructor]. simpl. split; [lia|].
    exists l. auto.
  - eapply Forall_impl; [|apply (IH (S s))]. intros p (Hb & line & Hin & Hf). simpl.
    split; [lia|]. exists line. auto.
Qed.

Lemma scan_increasing {A} (f : jsstring -> option A) (ls : list jsstring) (s : nat)
    i a j b rest :
  scan f s ls = (i, a) :: (j, b) :: rest -> i < j.
Proof.
  revert s. induction ls as [|l ls IH]; intros s H; [discriminate|].
  rewrite scan_cons in H. destruct (f l) as [a0|].
  - simpl in H. injection H as <- <- H.
    pose proof (scan_bounds f ls (S s)) as Hb. rewrite H in Hb.
    inversion Hb as [|? ? [Hj _] _]; subst. simpl in Hj. lia.
  - simpl in H. apply (IH (S s)). exact H.
Qed.

Lemma findChatIdHeader_nonempty (line id : jsstring) :
  findChatIdHeader line = Some id -> id <> [].
Proof.
  unfold findChatIdHeader. destruct (Regex.exec reChatIdHeader line) as [m|]; [|discriminate].
  destruct (trim (groupOrEmpty m 4)); [discriminate|]. intros H. injection H as <-.
  discriminate.
Qed.

Lemma two_headers (lines : list jsstring) (i j : nat) (a b : jsstring) :
  chatIdStartsOf lines = [(i, a); (j, b)] ->
  minChars <= length (rebuildFromLines lines i j) ->
  minChars <= length (rebuildFromLines lines j (length lines)) ->
  tryChatIdHeaders lines = Some (twoHeaderChats lines i j a b).
Proof.
  intros Hstarts Hfirst Hsecond.
  assert (Hij : i < j).
  { rewrite chatIdStartsOf_scan in Hstarts. eapply scan_increasing. exact Hstarts. }
  pose proof (scan_bounds findChatIdHeader lines 0) as Hb.
  rewrite <- chatIdStartsOf_scan, Hstarts in Hb.
  inversion Hb as [|? ? (_ & la & _ & Ha) Hb']; subst.
  inversion Hb' as [|? ? (Hj & lb & _ & Hbb) _]; subst. simpl in Hj, Ha, Hbb.
  apply findChatIdHeader_nonempty in Ha, Hbb.
  unfold tryChatIdHeaders. rewrite Hstarts. cbn [length map fst Nat.leb].
  unfold computeSegmentsFromStarts. cbn [uniq filter].
  replace (j =? i) with false by (symmetry; apply Nat.eqb_neq; lia). cbn [negb].
  cbn [sortAscending fold_right insertSorted].
  replace (i <=? j) with true by (symmetry; apply Nat.leb_le; lia).
  cbn [segmentsBetween].
  replace (i <? j) with true by (symmetry; apply Nat.ltb_lt; lia).
  replace (j <? length lines) with true by (symmetry; apply Nat.ltb_lt; lia).
  cbn [app]. unfold filterNonTrivialSegments. cbn [filter start end_].
  apply Nat.leb_le in Hfirst, Hsecond. rewrite Hfirst, Hsecond.
  cbn [length Nat.leb entries seq combine map start end_].
  assert (Hfi : findStart [(i, a); (j, b)] i = Some a).
  { unfold findStart. simpl. rewrite Nat.eqb_refl. reflexivity. }
  assert (Hfj : findStart [(i, a); (j, b)] j = Some b).
  { unfold findStart. simpl.
    replace (i =? j) with false by (symmetry; apply Nat.eqb_neq; lia).
    rewrite Nat.eqb_refl. reflexivity. }
  rewrite Hfi, Hfj. unfold twoHeaderChats.
  destruct a as [|a0 a']; [congruence|]. destruct b as [|b0 b']; [congruence|].
  reflexivity.
Qed.

(** C7. On a text that is blank after normalisation the result is a single
    empty chat with a warning. Otherwise the strategies are tried in the order
    chat-id headers, separators, speaker blocks: the first that yields at least
    two segments of at least 120 rebuilt characters gives the result, whose
    chats are numbered from 0 and carry the rebuilt texts of these segments;
    when none does, the result is a single chat holding the whole normalised
    text, with the fallback warning. In particular, when exactly two lines are
    chat-id headers and the two segments they start rebuild to at least 120
    characters, the strategy is CHAT_ID with exactly the two chats of these
    headers. The function is total: it returns in every case. *)
Theorem split_follows_priority (text : jsstring) :
  (normalizedOf text = [] ->
   splitTranscriptIntoChats text = singleChat (str "No text found to split.") (str "")) /\
  (normalizedOf text <> [] ->
   (2 <= length (headerSegments (linesOf text)) ->
    strategy (splitTranscriptIntoChats text) = CHAT_ID /\
    warning (splitTranscriptIntoChats text) = None /\
    chatsCarry (splitTranscriptIntoChats text)
               (textsOf (linesOf text) (headerSegments (linesOf text)))) /\
   (length (headerSegments (linesOf text)) < 2 ->
    2 <= length (separatorSegments (linesOf text)) ->
    strategy (splitTranscriptIntoChats text) = SEPARATORS /\
    warning (splitTranscriptIntoChats text) = None /\
    chatsCarry (splitTranscriptIntoChats text)
               (textsOf (linesOf text) (separatorSegments (linesOf text)))) /\
   (length (headerSegments (linesOf text)) < 2 ->
    length (separatorSegments (linesOf text)) < 2 ->
    2 <= length (speakerSegments (linesOf text)) ->
    strategy (splitTranscriptIntoChats text) = SPEAKER_BLOCKS /\
    warning (splitTranscriptIntoChats text) = None /\
    chatsCarry (splitTranscriptIntoChats text)
               (textsOf (linesOf text) (speakerSegments (linesOf text)))) /\
   (length (headerSegments (linesOf text)) < 2 ->
    length (separatorSegments (linesOf text)) < 2 ->
    length (speakerSegments (linesOf text)) < 2 ->
    splitTranscriptIntoChats text = singleChat singleFallbackWarning (normalizedOf text))) /\
  (strategy (splitTranscriptIntoChats text) <> SINGLE ->
   2 <= length (chats (splitTranscriptIntoChats text)) /\
   Forall (fun c => minChars <= length (ChatSplit.text c))
          (chats (splitTranscriptIntoChats text))) /\
  (forall i j a b,
     chatIdStartsOf (linesOf text) = [(i, a); (j, b)] ->
     minChars <= length (rebuildFromLines (linesOf text) i j) ->
     minChars <= length (rebuildFromLines (linesOf text) j (length (linesOf text))) ->
     splitTranscriptIntoChats text = twoHeaderChats (linesOf text) i j a b).
Proof.
  split; [|split; [|split]].
  - intros H. unfold splitTranscriptIntoChats, normalizedOf in *. rewrite H. reflexivity.
  - intros Hne. rewrite (split_unfold text Hne). repeat split.
    + destruct (tryChatIdHeaders_yes _ H) as (r & -> & ? & ? & ?); assumption.
    + destruct (tryChatIdHeaders_yes _ H) as (r & -> & ? & ? & ?); assumption.
    + destruct (tryChatIdHeaders_yes _ H) as (r & -> & ? & ? & [? ?]); assumption.
    + destruct (tryChatIdHeaders_yes _ H) as (r & -> & ? & ? & [? ?]); assumption.
    + rewrite (tryChatIdHeaders_no _ H).
      destruct (trySeparators_yes _ H0) as (r & -> & ? & ? & ?); assumption.
    + rewrite (tryChatIdHeaders_no _ H).
      destruct (trySeparators_yes _ H0) as (r & -> & ? & ? & ?); assumption.
    + rewrite (tryChatIdHeaders_no _ H).
      destruct (trySeparators_yes _ H0) as (r & -> & ? & ? & [? ?]); assumption.
    + rewrite (tryChatIdHeaders_no _ H).
      destruct (trySeparators_yes _ H0) as (r & -> & ? & ? & [? ?]); assumption.
    + rewrite (tryChatIdHeaders_no _ H), (trySeparators_no _ H0).
      destruct (trySpeakerBlocks_yes _ H1) as (r & -> & ? & ? & ?); assumption.
    + rewrite (tryChatIdHeaders_no _ H), (trySeparators_no _ H0).
      destruct (trySpeakerBlocks_yes _ H1) as (r & -> & ? & ? & ?); assumption.
    + rewrite (tryChatIdHeaders_no _ H), (trySeparators_no _ H0).
      destruct (trySpeakerBlocks_yes _ H1) as (r & -> & ? & ? & [? ?]); assumption.
    + rewrite (tryChatIdHeaders_no _ H), (trySeparators_no _ H0).
      destruct (trySpeakerBlocks_yes _ H1) as (r & -> & ? & ? & [? ?]); assumption.
    + intros Hh Hs Hp.
      rewrite (tryChatIdHeaders_no _ Hh), (trySeparators_no _ Hs), (trySpeakerBlocks_no _ Hp).
      reflexivity.
  - intros Hstrat.
    destruct (list_eq_dec N.eq_dec (normalizedOf text) []) as [He|Hne].
    { exfalso. apply Hstrat. unfold splitTranscriptIntoChats, normalizedOf in *.
      rewrite He. reflexivity. }
    rewrite (split_unfold text Hne) in *.
    assert (Hcarry : forall r segs starts,
      chatsCarry r (textsOf (linesOf text) segs) -> 2 <= length segs ->
      segs = usableFrom (linesOf text) starts ->
      2 <= length (chats r) /\
      Forall (fun c => minChars <= length (ChatSplit.text c)) (chats r)).
    { intros r segs starts [Ht _] Hlen ->. split.
      - rewrite <- (length_map ChatSplit.text), Ht. unfold textsOf. rewrite length_map.
        exact Hlen.
      - pose proof (usableFrom_nontrivial (linesOf text) starts) as Hall.
        rewrite <- Ht in Hall. rewrite Forall_map in Hall. exact Hall. }
    destruct (Nat.leb_spec 2 (length (headerSegments (linesOf text)))) as [Hh|Hh].
    { destruct (tryChatIdHeaders_yes _ Hh) as (r & E & _ & _ & Hc). rewrite E.
      eapply Hcarry; [exact Hc | exact Hh | reflexivity]. }
    rewrite (tryChatIdHeaders_no _ Hh) in *.
    destruct (Nat.leb_spec 2 (length (separatorSegments (linesOf text)))) as [Hs|Hs].
    { destruct (trySeparators_yes _ Hs) as (r & E & _ & _ & Hc). rewrite E.
      eapply Hcarry; [exact Hc | exact Hs | reflexivity]. }
    rewrite (trySeparators_no _ Hs) in *.
    destruct (Nat.leb_spec 2 (length (speakerSegments (linesOf text)))) as [Hp|Hp].
    { destruct (trySpeakerBlocks_yes _ Hp) as (r & E & _ & _ & Hc). rewrite E.
      eapply Hcarry; [exact Hc | exact Hp | reflexivity]. }
    rewrite (trySpeakerBlocks_no _ Hp) in Hstrat. exfalso. apply Hstrat. reflexivity.
  - intros i j a b Hstarts Hfirst Hsecond.
    assert (Hne : normalizedOf text <> []).
    { intros He. unfold linesOf in Hstarts. rewrite He in Hstarts. discriminate Hstarts. }
    rewrite (split_unfold text Hne), (two_headers _ _ _ _ _ Hstarts Hfirst Hsecond).
    reflexivity.
Qed.

(** Scenario C of the specification on a concrete transcript, and a transcript
    without any marker. *)
Lemma split_follows_priority_witness :
  splitTranscriptIntoChats twoChatTranscript
  = twoHeaderChats (linesOf twoChatTranscript) 0 2 (str "1") (str "2") /\
  splitTranscriptIntoChats plainTranscript
  = singleChat singleFallbackWarning (normalizedOf plainTranscript).
Proof.
  split.
  - apply (proj2 (proj2 (proj2 (split_follows_priority twoChatTranscript)))).
    + vm_compute. reflexivity.
    + vm_compute. repeat constructor.
    + vm_compute. repeat constructor.
  - destruct (split_follows_priority plainTranscript) as (_ & H & _).
    apply H.
    + vm_compute. discriminate.
    + vm_compute. repeat constructor.
    + vm_compute. repeat constructor.
    + vm_compute. repeat constructor.
Defined.

Example two_chat_transcript_result :
  strategy (splitTranscriptIntoChats twoChatTranscript) = CHAT_ID /\
  map chatId (chats (splitTranscriptIntoChats twoChatTranscript))
  = [Some (str "1"); Some (str "2")] /\
  map (fun c => length (ChatSplit.text c)) (chats (splitTranscriptIntoChats twoChatTranscript))
  = [141; 141].
Proof. vm_compute. repeat split. Qed.

End ChatSplitFacts.

(* ================================================================== *)
(** * The run processor: evaluation and the choice of the write path *)
(* ================================================================== *)

Module ProcessorFacts.
Import Engine Mapping ChatSplit Processor ProcessorSpec ListFacts.

(** ** Chunks *)

Lemma chunksFrom_concat {A} (fuel : nat) (docs : list A) :
  length docs <= fuel -> concat (chunksFrom fuel docs) = docs.
Proof.
  revert docs. induction fuel as [|fuel IH]; intros docs H.
  - destruct docs; [reflexivity | simpl in H; lia].
  - destruct docs as [|d docs]; [reflexivity|].
    cbn [chunksFrom concat]. rewrite IH.
    + apply firstn_skipn.
    + rewrite length_skipn. simpl in *. unfold chunkSize. lia.
Qed.

Lemma chunks_concat {A} (docs : list A) : concat (chunks docs) = docs.
Proof. apply chunksFrom_concat. lia. Qed.

Lemma chunksFrom_bounded {A} (fuel : nat) (docs : list A) :
  Forall (fun chunk => 0 < length chunk <= chunkSize) (chunksFrom fuel docs).
Proof.
  revert docs. induction fuel as [|fuel IH]; intros docs; [constructor|].
  destruct docs as [|d docs]; [constructor|].
  cbn [chunksFrom]. constructor; [|apply IH].
  rewrite length_firstn. simpl length. unfold chunkSize. lia.
Qed.

(** ** Evaluation never throws *)

Lemma total_summarizeRuleStatuses (docs : list RuleResultDoc.t) :
  total (summarizeRuleStatuses docs) = length docs.
Proof.
  unfold summarizeRuleStatuses.
  assert (H : forall c, total (fold_left
     (fun counts r =>
        match RuleResultDoc.status r with
        | PASS => {| total := total counts; pass := S (pass counts); fail := fail counts;
                     notEvaluated := notEvaluated counts; error := error counts |}
        | FAIL => {| total := total counts; pass := pass counts; fail := S (fail counts);
                     notEvaluated := notEvaluated counts; error := error counts |}
        | NOT_EVALUATED =>
                  {| total := total counts; pass := pass counts; fail := fail counts;
                     notEvaluated := S (notEvaluated counts); error := error counts |}
        | ERROR => {| total := total counts; pass := pass counts; fail := fail counts;
                      notEvaluated := notEvaluated counts; error := S (error counts) |}
        end) docs c) = total c).
  { induction docs as [|d docs IH]; intros c; simpl; [reflexivity|].
    rewrite IH. destruct (RuleResultDoc.status d); reflexivity. }
  rewrite H. reflexivity.
Qed.

Section WithHost.
Context {host : Host}.

Lemma mapResultsToDocs_total (rules : list QcRuleDefinition) (results : list QcRuleResult)
    (source : option EvidenceSource) :
  length results <= length rules ->
  exists docs, mapResultsToDocs rules results source = Return docs /\
               length docs = length results.
Proof.
  intros Hlen. unfold mapResultsToDocs.
  destruct (mapM_Forall2
    (fun '(i, rr) =>
       match nth_error rules i with
       | Some rule => Return (mapRuleResultToDoc i rule rr source)
       | None => Throw (TypeError (str "Cannot read properties of undefined (reading 'name')"))
       end)
    (fun _ _ => True) (entries results)) as (docs & E & HF).
  - intros [i rr] Hin. apply in_combine_l in Hin. apply in_seq in Hin.
    destruct (nth_error rules i) as [rule|] eqn:Er.
    + eexists. split; [reflexivity | exact I].
    + apply nth_error_None in Er. lia.
  - exists docs. split; [exact E|]. apply Forall2_length in HF.
    rewrite <- HF. unfold entries. rewrite length_combine, length_seq. lia.
Qed.

Lemma runQc_for_processor (input : QcNormalizedInput) (rules : list QcRuleDefinition)
    (executedAtIso : jsstring) :
  exists result,
    runQc {| Engine.input := input; rules := rules; executedAtIso := executedAtIso;
             aiSignals := None; options := Some processorOptions |} = Return result /\
    length (Engine.ruleResults result) = length rules.
Proof.
  eexists. split; [reflexivity|]. simpl. apply length_map.
Qed.

Lemma computeChat_total (rules : list QcRuleDefinition) (executedAtIso : jsstring)
    (source : option EvidenceSource) (chat : ChatSegment) :
  exists p, computeChat rules executedAtIso source chat = Return p /\
            pc_chat p = chat /\ length (ruleDocs p) = length rules.
Proof.
  unfold computeChat.
  destruct (runQc_for_processor (InText (ChatSplit.text chat) None) rules executedAtIso)
    as (res & -> & Hlen). simpl.
  destruct (mapResultsToDocs_total rules (Engine.ruleResults res) source) as (docs & -> & Hd);
    [lia|]. simpl.
  eexists. split; [reflexivity|]. simpl. split; [reflexivity | lia].
Qed.

(** The evaluation of a run returns, with one aggregated rule document per
    rule and the counters of these documents; it takes the multi-chat path
    exactly for a text that splits into two chats or more. *)
Lemma compute_total (rules : list QcRuleDefinition) (input : QcNormalizedInput)
    (source : option EvidenceSource) (executedAtIso : jsstring) :
  exists c,
    compute rules input source executedAtIso = Return c /\
    length (aggregatedRuleDocs c) = length rules /\
    c_ruleCounts c = summarizeRuleStatuses (aggregatedRuleDocs c) /\
    (multiChatEnabled c = true <->
     exists text locale, input = InText text locale /\
                         2 <= length (chats (splitTranscriptIntoChats text))).
Proof.
  assert (Hsingle : forall chatMeta,
    exists c,
      bind (runQc {| Engine.input := input; rules := rules; executedAtIso := executedAtIso;
                     aiSignals := None; options := Some processorOptions |}) (fun result =>
      bind (mapResultsToDocs rules (Engine.ruleResults result) source) (fun aggregatedRuleDocs =>
      Return {| multiChatEnabled := false;
                aggregatedRuleDocs := aggregatedRuleDocs;
                c_ruleCounts := summarizeRuleStatuses aggregatedRuleDocs;
                runSummary :=
                  {| rs_overallOutcome := RunSummary.overallOutcome (Engine.summary result);
                     rs_overallScore := RunSummary.overallScore (Engine.summary result);
                     rs_failedRuleIds := RunSummary.failedRuleIds (Engine.summary result) |};
                chatSummaries := None;
                perChatComputed := None;
                chatMeta := chatMeta |})) = Return c /\
      length (aggregatedRuleDocs c) = length rules /\
      c_ruleCounts c = summarizeRuleStatuses (aggregatedRuleDocs c) /\
      multiChatEnabled c = false).
  { intros chatMeta.
    destruct (runQc_for_processor input rules executedAtIso) as (res & -> & Hlen). simpl.
    destruct (mapResultsToDocs_total rules (Engine.ruleResults res) source) as (docs & -> & Hd);
      [lia|]. simpl.
    eexists. split; [reflexivity|]. simpl. repeat split. lia. }
  unfold compute. destruct input as [text locale| record | columns rows | duration format].
  - destruct (Nat.leb_spec 2 (length (chats (splitTranscriptIntoChats text)))) as [Hm|Hm].
    + (* multi-chat *)
      destruct (mapM_Forall2 (computeChat rules executedAtIso source)
                  (fun chat p => pc_chat p = chat /\ length (ruleDocs p) = length rules)
                  (chats (splitTranscriptIntoChats text))) as (per & Eper & HF).
      { intros chat _. apply computeChat_total. }
      rewrite Eper. simpl.
      assert (Hper : map (fun c => (pc_chat c, ruleDocs c)) per <> []).
      { apply Forall2_length in HF. destruct per; simpl in *; [lia | discriminate]. }
      assert (Hlens : Forall (fun x => length (snd x) = length rules)
                             (map (fun c => (pc_chat c, ruleDocs c)) per)).
      { apply Forall_map. clear -HF. induction HF as [|? ? ? ? [_ H] _ IH]; constructor; auto. }
      destruct (AggregatorFacts.combine_by_column _ _ Hper Hlens) as (out & -> & Hout).
      simpl. eexists. split; [reflexivity|]. simpl.
      split; [apply Forall2_length in Hout; rewrite length_seq in Hout; lia|].
      split; [reflexivity|]. split; [|reflexivity].
      intros _. exists text, locale. auto.
    + destruct (Hsingle
        match nonEmpty (warning (splitTranscriptIntoChats text)) with
        | Some w => Some {| enabled := false;
                            cm_strategy := strategy (splitTranscriptIntoChats text);
                            chatCount := 1; cm_warning := Some w |}
        | None => None
        end) as (c & E & Hl & Hc & Hmulti).
      exists c. split; [exact E|]. split; [exact Hl|]. split; [exact Hc|].
      rewrite Hmulti. split; [discriminate|].
      intros (text' & locale' & Heq & Hlen). injection Heq as <- _. lia.
  - destruct (Hsingle None) as (c & E & Hl & Hc & Hmulti).
    exists c. split; [exact E|]. split; [exact Hl|]. split; [exact Hc|].
    rewrite Hmulti. split; [discriminate|]. intros (? & ? & Heq & _). discriminate.
  - destruct (Hsingle None) as (c & E & Hl & Hc & Hmulti).
    exists c. split; [exact E|]. split; [exact Hl|]. split; [exact Hc|].
    rewrite Hmulti. split; [discriminate|]. intros (? & ? & Heq & _). discriminate.
  - destruct (Hsingle None) as (c & E & Hl & Hc & Hmulti).
    exists c. split; [exact E|]. split; [exact Hl|]. split; [exact Hc|].
    rewrite Hmulti. split; [discriminate|]. intros (? & ? & Heq & _). discriminate.
Qed.

End WithHost.

(** ** The two write paths *)

Lemma forallb_app_true {A} (f : A -> bool) (xs ys : list A) :
  forallb f xs = true -> forallb f ys = true -> forallb f (xs ++ ys) = true.
Proof. intros Hx Hy. rewrite forallb_app, Hx, Hy. reflexivity. Qed.

Lemma forallb_map_true {A B} (f : B -> bool) (g : A -> B) (xs : list A) :
  (forall x, f (g x) = true) -> forallb f (map g xs) = true.
Proof. intros H. induction xs; simpl; [reflexivity|]. rewrite H. assumption. Qed.

Lemma ruleChunksOf_app (xs ys : list WriteOp) :
  ruleChunksOf (xs ++ ys) = ruleChunksOf xs ++ ruleChunksOf ys.
Proof. apply flat_map_app. Qed.

Lemma ruleChunksOf_ruleChunks (cs : list (list RuleResultDoc.t)) :
  ruleChunksOf (map WRuleChunk cs) = cs.
Proof. induction cs; simpl; [reflexivity|]. f_equal. assumption. Qed.

Lemma ruleChunksOf_chats {A} (f : A -> WriteOp) (xs : list A) :
  (forall x, match f x with WRuleChunk _ => False | _ => True end) ->
  ruleChunksOf (map f xs) = [].
Proof.
  intros H. induction xs as [|x xs IH]; simpl; [reflexivity|].
  specialize (H x). destruct (f x); simpl; try assumption. contradiction.
Qed.

(** The plan of the two-phase path: the result in the WRITING state with its
    expected count, then the chunks of the aggregated documents and the
    per-chat writes, then the final transaction. *)
Lemma plan_two_phase (rid : Id) (c : Computed) :
  canSingleBatch c = false ->
  exists body,
    plan rid c
    = WCreateResult (resultDoc rid c (Some WRITING) (Some (length (aggregatedRuleDocs c))))
      :: body ++ [WFinalTxn] /\
    forallb isBodyOp body = true /\
    ruleChunksOf body = chunks (aggregatedRuleDocs c).
Proof.
  intros H. unfold plan. rewrite H.
  eexists. split; [cbn [app]; rewrite app_assoc; reflexivity|]. split.
  - apply forallb_app_true; [apply forallb_map_true; reflexivity|].
    destruct (multiChatEnabled c), (chatSummaries c); try reflexivity.
    apply forallb_map_true. reflexivity.
  - rewrite ruleChunksOf_app, ruleChunksOf_ruleChunks.
    destruct (multiChatEnabled c), (chatSummaries c); simpl; rewrite ?app_nil_r;
      try reflexivity.
    rewrite ruleChunksOf_chats; [apply app_nil_r | intros x; exact I].
Qed.

Lemma lookup_updateDoc_same {A} (id : Id) (f : A -> A) (docs : list (Id * A)) (v : A) :
  lookup id docs = Some v -> lookup id (updateDoc id f docs) = Some (f v).
Proof.
  induction docs as [|[k w] docs IH]; simpl; [discriminate|].
  destruct (k =? id) eqn:E; simpl; rewrite E.
  - intros H. injection H as <-. reflexivity.
  - exact IH.
Qed.

Lemma lookup_updateDoc_other {A} (id id' : Id) (f : A -> A) (docs : list (Id * A)) :
  id' <> id -> lookup id' (updateDoc id f docs) = lookup id' docs.
Proof.
  intros Hne. induction docs as [|[k w] docs IH]; simpl; [reflexivity|].
  destruct (k =? id) eqn:E; simpl.
  - apply Nat.eqb_eq in E. subst k.
    replace (id =? id') with false by (symmetry; apply Nat.eqb_neq; lia). reflexivity.
  - destruct (k =? id'); [reflexivity | exact IH].
Qed.

End ProcessorFacts.

(* ================================================================== *)
(** * The run processor: SUCCEEDED only once everything is written *)
(* ================================================================== *)

Module InvariantFacts.
Import Engine Mapping ChatSplit Processor ProcessorSpec ListFacts ProcessorFacts.

(** ** The stored collections *)

Lemma lookup_app_last {A} (rid k : Id) (v : A) (docs : list (Id * A)) :
  lookup rid (docs ++ [(k, v)])
  = match lookup rid docs with
    | Some x => Some x
    | None => if k =? rid then Some v else None
    end.
Proof.
  induction docs as [|[k0 v0] docs IH]; simpl; [reflexivity|].
  destruct (k0 =? rid); [reflexivity | exact IH].
Qed.

Lemma lookup_In {A} (rid : Id) (v : A) (docs : list (Id * A)) :
  lookup rid docs = Some v -> In (rid, v) docs.
Proof.
  induction docs as [|[k0 v0] docs IH]; simpl; [discriminate|].
  destruct (k0 =? rid) eqn:E.
  - intros H. injection H as <-. apply Nat.eqb_eq in E. subst. auto.
  - intros H. right. apply IH. exact H.
Qed.

Lemma lookup_None_below {A} (rid next : Id) (docs : list (Id * A)) :
  (forall k v, In (k, v) docs -> k < next) -> next <= rid -> lookup rid docs = None.
Proof.
  intros H Hle. destruct (lookup rid docs) as [v|] eqn:E; [|reflexivity].
  apply lookup_In in E. apply H in E. lia.
Qed.

Lemma In_updateDoc {A} (id k : Id) (f : A -> A) (v : A) (docs : list (Id * A)) :
  In (k, v) (updateDoc id f docs) -> exists v0, In (k, v0) docs.
Proof.
  induction docs as [|[k0 v0] docs IH]; simpl; [contradiction|].
  destruct (k0 =? id); simpl.
  - intros [H|H]; [injection H as <- _; eauto | eauto].
  - intros [H|H]; [injection H as <- <-; eauto|]. destruct (IH H) as (w & Hw). eauto.
Qed.

Lemma under_app (rid : Id) (xs ys : list (Id * Id * RuleResultDoc.t)) :
  under rid (xs ++ ys) = under rid xs ++ under rid ys.
Proof. unfold under. rewrite filter_app, map_app. reflexivity. Qed.

Lemma under_createAll (rid parent next : Id) (docs : list RuleResultDoc.t) :
  under rid (createAll parent next docs) = if parent =? rid then docs else [].
Proof.
  unfold under, createAll, entries. generalize 0 as s.
  induction docs as [|d docs IH]; intros s; simpl.
  - destruct (parent =? rid); reflexivity.
  - specialize (IH (S s)). destruct (parent =? rid); simpl; rewrite IH; reflexivity.
Qed.

Lemma In_createAll (p parent next id : Id) (d : RuleResultDoc.t) (docs : list RuleResultDoc.t) :
  In (p, id, d) (createAll parent next docs) -> p = parent.
Proof.
  unfold createAll. intros H. apply in_map_iff in H as ([i d'] & E & _).
  injection E as <- _ _. reflexivity.
Qed.

Lemma under_None_below (rid next : Id) (docs : list (Id * Id * RuleResultDoc.t)) :
  (forall p id d, In (p, id, d) docs -> p < next) -> next <= rid -> under rid docs = [].
Proof.
  intros H Hle. unfold under. induction docs as [|[[p id] d] docs IH]; simpl; [reflexivity|].
  assert (Hp : p < next) by (apply (H p id d); left; reflexivity).
  replace (p =? rid) with false by (symmetry; apply Nat.eqb_neq; lia).
  apply IH. intros p' id' d' Hin. apply (H p' id' d'). right. exact Hin.
Qed.

(** ** Pending writes *)

Lemma pendingRuleDocs_cons_chunk (chunk : list RuleResultDoc.t) (body : list WriteOp) :
  pendingRuleDocs (WRuleChunk chunk :: body) = length chunk + pendingRuleDocs body.
Proof. unfold pendingRuleDocs. simpl. apply length_app. Qed.

Lemma pendingRuleDocs_chat_chunks (cid : Id) (cs : list (list RuleResultDoc.t))
    (body : list WriteOp) :
  pendingRuleDocs (map (WChatChunk cid) cs ++ body) = pendingRuleDocs body.
Proof.
  unfold pendingRuleDocs. rewrite ruleChunksOf_app.
  rewrite (ruleChunksOf_chats (WChatChunk cid) cs); [reflexivity | intros x; exact I].
Qed.

Lemma pendingOk_frame (st st' : Store) (rid : Id) (pending : list WriteOp) :
  sameAt rid st st' -> pendingOk st rid pending -> pendingOk st' rid pending.
Proof.
  intros [Hl Hr] H. unfold ruleResultsOf in Hr.
  inversion H as [res docs [Hu1 Hu2] | res body [Hu1 Hu2] | res body Hlk]; subst.
  - apply pending_single; try assumption. split; [rewrite Hl | unfold ruleResultsOf; rewrite Hr];
      assumption.
  - apply pending_create; try assumption. split; [rewrite Hl | unfold ruleResultsOf; rewrite Hr];
      assumption.
  - apply pending_body with res; try assumption; [rewrite Hl; assumption|].
    unfold ruleResultsOf in *. rewrite Hr. assumption.
Qed.

Lemma consistent_frame (st st' : Store) :
  run st' = run st ->
  (forall r rid, run st = Some r -> RunDoc.resultId r = Some rid -> sameAt rid st st') ->
  consistent st -> consistent st'.
Proof.
  intros Hrun Hsame Hc r Hr Hs. rewrite Hrun in Hr.
  destruct (Hc r Hr Hs) as (rid & res & Hrid & Hl & Hw & Hn & He).
  destruct (Hsame r rid Hr Hrid) as [Hl' Hr'].
  exists rid, res. rewrite Hl', Hr'. auto.
Qed.

Lemma sameAt_refl (rid : Id) (st : Store) : sameAt rid st st.
Proof. split; reflexivity. Qed.

Lemma plan_pendingOk (st : Store) (rid : Id) (c : Computed) :
  unwritten rid st ->
  c_ruleCounts c = summarizeRuleStatuses (aggregatedRuleDocs c) ->
  pendingOk st rid (plan rid c).
Proof.
  intros Hu Hc.
  assert (Ha : forall w e, announced (resultDoc rid c w e) = length (aggregatedRuleDocs c)).
  { intros w e. unfold announced, resultDoc. simpl. rewrite Hc.
    apply total_summarizeRuleStatuses. }
  destruct (canSingleBatch c) eqn:E.
  - unfold plan. rewrite E. apply pending_single; auto.
  - destruct (plan_two_phase rid c E) as (body & -> & Hb & Hch).
    apply pending_create; auto.
    + simpl. rewrite Ha. reflexivity.
    + unfold pendingRuleDocs. rewrite Hch, chunks_concat, Ha. reflexivity.
Qed.

(** ** One write *)

Lemma unchanged_ok (rid : Id) (st : Store) (next : Id) :
  consistent st -> issued st next ->
  next <= next /\ consistent st /\ issued st next /\
  (forall rid', rid' <> rid -> sameAt rid' st st) /\
  (@nil WriteOp <> [] -> pendingOk st rid [] /\ run st = run st) /\
  (forall r' rid', run st = Some r' -> RunDoc.resultId r' = Some rid' ->
     rid' = rid \/ exists r, run st = Some r /\ RunDoc.resultId r = Some rid').
Proof.
  intros Hc Hi. split; [lia|]. split; [exact Hc|]. split; [exact Hi|].
  split; [intros; apply sameAt_refl|]. split; [congruence|].
  intros r' rid' H1 H2. right. eauto.
Qed.

(** What one awaited write does to the invariant, for the invocation that
    issues it. *)
Lemma write_ok (rid : Id) (op : WriteOp) (rest : list WriteOp) (st : Store) (next : Id) :
  pendingOk st rid (op :: rest) ->
  consistent st -> issued st next -> rid < next ->
  (forall r, run st = Some r -> RunDoc.resultId r <> Some rid) ->
  match write rid op rest st next with
  | None => True
  | Some (st', next', rest') =>
      next <= next' /\ consistent st' /\ issued st' next' /\
      (forall rid', rid' <> rid -> sameAt rid' st st') /\
      (rest' <> [] -> pendingOk st' rid rest' /\ run st' = run st) /\
      (forall r' rid', run st' = Some r' -> RunDoc.resultId r' = Some rid' ->
         rid' = rid \/ exists r, run st = Some r /\ RunDoc.resultId r = Some rid')
  end.
Proof.
  intros Hp Hc Hi Hlt Hfresh. pose proof Hi as (Hi1 & Hi2 & Hi3).
  assert (Hkeep : forall r' rid', run st = Some r' -> RunDoc.resultId r' = Some rid' ->
            rid' = rid \/ exists r, run st = Some r /\ RunDoc.resultId r = Some rid').
  { intros r' rid' H1 H2. right. eauto. }
  inversion Hp as [res docs [Hu1 Hu2] Hw He Ha Eq
                  | res body [Hu1 Hu2] Hb Hw He Hn Eq
                  | res body Hlk Hb He Hn Eq].
  - (* the single batch *)
    subst. unfold write. destruct (run st) as [r|] eqn:Hr; [|exact I].
    split; [lia|]. split; [|split; [|split; [|split]]].
    + intros r' Hr' _. simpl in Hr'. injection Hr' as <-.
      exists rid, res. simpl. rewrite lookup_app_last, Hu1, Nat.eqb_refl.
      unfold ruleResultsOf in *. simpl. fold (under rid (ruleResults st ++ createAll rid next docs)).
      rewrite under_app, under_createAll, Nat.eqb_refl.
      fold (under rid (ruleResults st)) in Hu2. rewrite Hu2. simpl.
      repeat split; congruence.
    + repeat split; simpl.
      * intros k v Hin. apply in_app_or in Hin as [Hin|[Hin|[]]].
        -- apply Hi1 in Hin. lia.
        -- injection Hin as <- _. lia.
      * intros p id d Hin. apply in_app_or in Hin as [Hin|Hin].
        -- apply Hi2 in Hin. lia.
        -- apply In_createAll in Hin. lia.
      * intros r' rid' Hr' Hid. injection Hr' as <-. simpl in Hid. injection Hid as <-. lia.
    + intros rid' Hne. split; simpl.
      * rewrite lookup_app_last.
        replace (rid =? rid') with false by (symmetry; apply Nat.eqb_neq; lia).
        destruct (lookup rid' (results st)); reflexivity.
      * unfold ruleResultsOf. simpl. fold (under rid' (ruleResults st ++ createAll rid next docs)).
        rewrite under_app, under_createAll.
        replace (rid =? rid') with false by (symmetry; apply Nat.eqb_neq; lia).
        apply app_nil_r.
    + intros Hne. congruence.
    + intros r' rid' Hr' Hid. simpl in Hr'. injection Hr' as <-. simpl in Hid.
      injection Hid as <-. auto.
  - (* creation of the result *)
    subst. unfold write.
    assert (Hsame : forall rid', rid' <> rid ->
      sameAt rid' st {| run := run st; results := results st ++ [(rid, res)];
                        ruleResults := ruleResults st; chatResults := chatResults st;
                        chatRuleResults := chatRuleResults st; auditLog := auditLog st |}).
    { intros rid' Hne. split; simpl; [|reflexivity].
      rewrite lookup_app_last.
      replace (rid =? rid') with false by (symmetry; apply Nat.eqb_neq; lia).
      destruct (lookup rid' (results st)); reflexivity. }
    split; [lia|]. split; [|split; [|split; [|split]]].
    + apply (consistent_frame st); [reflexivity | | exact Hc].
      intros r rid' Hr Hid. apply Hsame. intros ->. exact (Hfresh r Hr Hid).
    + repeat split; simpl; try assumption.
      intros k v Hin. apply in_app_or in Hin as [Hin|[Hin|[]]].
      * apply Hi1 in Hin. lia.
      * injection Hin as <- _. lia.
    + exact Hsame.
    + intros _. split; [|reflexivity].
      apply pending_body with res; try assumption.
      * simpl. rewrite lookup_app_last, Hu1, Nat.eqb_refl. reflexivity.
      * unfold ruleResultsOf in *. simpl. rewrite Hu2. simpl. exact Hn.
    + exact Hkeep.
  - (* after the creation *)
    destruct body as [|op0 body]; simpl in Eq; injection Eq as <- <-.
    + (* the final transaction *)
      unfold write. destruct (run st) as [cur|] eqn:Hr; [|exact I].
      rewrite Hlk.
      destruct (RunDoc.status cur);
        try (rewrite <- Hr; exact (unchanged_ok rid st next Hc Hi)).
      split; [lia|]. split; [|split; [|split; [|split]]].
      * intros r' Hr' _. simpl in Hr'. injection Hr' as <-.
        exists rid, (completed res). simpl.
        rewrite (lookup_updateDoc_same rid _ (results st) res Hlk).
        unfold pendingRuleDocs in Hn. simpl in Hn. rewrite Nat.add_0_r in Hn.
        unfold ruleResultsOf in *. simpl.
        repeat split; try congruence; try exact Hn.
      * repeat split; simpl.
        -- intros k v Hin. apply In_updateDoc in Hin as (v0 & Hin). apply Hi1 in Hin. lia.
        -- exact Hi2.
        -- intros r' rid' Hr' Hid. injection Hr' as <-. simpl in Hid. injection Hid as <-. lia.
      * intros rid' Hne. split; simpl; [|reflexivity].
        apply lookup_updateDoc_other. exact Hne.
      * congruence.
      * intros r' rid' Hr' Hid. simpl in Hr'. injection Hr' as <-. simpl in Hid.
        injection Hid as <-. auto.
    + (* a chunk or a chat *)
      simpl in Hb. apply andb_true_iff in Hb as [Hop Hb].
      destruct op0 as [ | | chunk | chat perDocs | cid chunk | ]; try discriminate Hop;
        unfold write.
      * (* a chunk of rule results *)
        rewrite pendingRuleDocs_cons_chunk in Hn.
        assert (Hsame : forall rid', rid' <> rid ->
          sameAt rid' st {| run := run st; results := results st;
                            ruleResults := ruleResults st ++ createAll rid next chunk;
                            chatResults := chatResults st;
                            chatRuleResults := chatRuleResults st;
                            auditLog := auditLog st |}).
        { intros rid' Hne. split; simpl; [reflexivity|].
          unfold ruleResultsOf. simpl.
          fold (under rid' (ruleResults st ++ createAll rid next chunk)).
          rewrite under_app, under_createAll.
          replace (rid =? rid') with false by (symmetry; apply Nat.eqb_neq; lia).
          apply app_nil_r. }
        split; [lia|]. split; [|split; [|split; [|split]]].
        -- apply (consistent_frame st); [reflexivity | | exact Hc].
           intros r rid' Hr Hid. apply Hsame. intros ->. exact (Hfresh r Hr Hid).
        -- repeat split; simpl; try assumption.
           ++ intros k v Hin. apply Hi1 in Hin. lia.
           ++ intros p id d Hin. apply in_app_or in Hin as [Hin|Hin].
              ** apply Hi2 in Hin. lia.
              ** apply In_createAll in Hin. lia.
           ++ intros r rid' Hr Hid. pose proof (Hi3 r rid' Hr Hid). lia.
        -- exact Hsame.
        -- intros _. split; [|reflexivity].
           apply pending_body with res; try assumption.
           unfold ruleResultsOf in *. simpl.
           fold (under rid (ruleResults st ++ createAll rid next chunk)).
           fold (under rid (ruleResults st)) in Hn.
           rewrite under_app, under_createAll, Nat.eqb_refl, length_app. lia.
        -- exact Hkeep.
      * (* the summary of a chat *)
        split; [lia|]. split; [|split; [|split; [|split]]].
        -- apply (consistent_frame st); [reflexivity | | exact Hc].
           intros; split; reflexivity.
        -- repeat split; simpl.
           ++ intros k v Hin. apply Hi1 in Hin. lia.
           ++ intros p id d Hin. apply Hi2 in Hin. lia.
           ++ intros r rid' Hr Hid. pose proof (Hi3 r rid' Hr Hid). lia.
        -- intros; split; reflexivity.
        -- intros _. split; [|reflexivity]. rewrite app_assoc.
           apply pending_body with res; try assumption.
           ++ apply forallb_app_true; [apply forallb_map_true; reflexivity | exact Hb].
           ++ rewrite pendingRuleDocs_chat_chunks. unfold pendingRuleDocs in *. simpl in Hn.
              exact Hn.
        -- exact Hkeep.
      * (* a chunk of the rule results of a chat *)
        split; [lia|]. split; [|split; [|split; [|split]]].
        -- apply (consistent_frame st); [reflexivity | | exact Hc].
           intros; split; reflexivity.
        -- repeat split; simpl.
           ++ intros k v Hin. apply Hi1 in Hin. lia.
           ++ intros p id d Hin. apply Hi2 in Hin. lia.
           ++ intros r rid' Hr Hid. pose proof (Hi3 r rid' Hr Hid). lia.
        -- intros; split; reflexivity.
        -- intros _. split; [|reflexivity].
           apply pending_body with res; assumption.
        -- exact Hkeep.
Qed.

(** ** One step of one invocation *)

Lemma plan_afterWrite (rid : Id) (c : Computed) :
  afterWrite rid (plan rid c) = AtPersist rid (plan rid c).
Proof. unfold plan. destruct (canSingleBatch c); reflexivity. Qed.

Lemma pendingOk_nonempty (st : Store) (rid : Id) : ~ pendingOk st rid [].
Proof.
  intros H. inversion H as [ | | res body Hlk Hb He Hn Eq].
  destruct body; discriminate Eq.
Qed.

(** A store that differs in the run document only, the new one not SUCCEEDED
    and pointing to the same result. *)
Lemma setRun_ok (st : Store) (next : Id) (r r' : RunDoc.t) :
  run st = Some r -> RunDoc.status r' <> SUCCEEDED -> RunDoc.resultId r' = RunDoc.resultId r ->
  consistent st -> issued st next ->
  consistent (setRun st r') /\ issued (setRun st r') next /\
  (forall rid, sameAt rid st (setRun st r')) /\
  (forall r0 rid', run (setRun st r') = Some r0 -> RunDoc.resultId r0 = Some rid' ->
     exists r1, run st = Some r1 /\ RunDoc.resultId r1 = Some rid').
Proof.
  intros Hr Hs Hid Hc (Hi1 & Hi2 & Hi3). split; [|split; [|split]].
  - intros r0 Hr0 Hs0. simpl in Hr0. injection Hr0 as <-. contradiction.
  - repeat split; simpl; try assumption.
    intros r0 rid Hr0 Hid0. injection Hr0 as <-. rewrite Hid in Hid0. eauto.
  - intros rid. split; reflexivity.
  - intros r0 rid' Hr0 Hid0. simpl in Hr0. injection Hr0 as <-. rewrite Hid in Hid0. eauto.
Qed.

(** A store that differs in the audit log only. *)
Lemma audit_ok (st : Store) (next : Id) (entry : AuditMeta) :
  consistent st -> issued st next ->
  let st' := {| run := run st; results := results st; ruleResults := ruleResults st;
                chatResults := chatResults st; chatRuleResults := chatRuleResults st;
                auditLog := auditLog st ++ [entry] |} in
  consistent st' /\ issued st' next /\ (forall rid, sameAt rid st st').
Proof.
  intros Hc Hi. cbv zeta. split; [|split].
  - apply (consistent_frame st); [reflexivity | | exact Hc]. intros; split; reflexivity.
  - exact Hi.
  - intros; split; reflexivity.
Qed.

Lemma issued_mono (st : Store) (next next' : Id) :
  next <= next' -> issued st next -> issued st next'.
Proof.
  intros Hle (H1 & H2 & H3). repeat split.
  - intros rid res Hin. apply H1 in Hin. lia.
  - intros p id d Hin. apply H2 in Hin. lia.
  - intros r rid Hr Hid. pose proof (H3 r rid Hr Hid). lia.
Qed.

Lemma stepOk_unchanged (st : Store) (next : Id) (t : Invocation) (p : Pc) :
  consistent st -> issued st next ->
  (match p with AtPersist _ _ => False | _ => True end) ->
  stepOk st next t (st, next, at_ p t).
Proof.
  intros Hc Hi Hp. unfold stepOk. split; [lia|]. split; [exact Hc|]. split; [exact Hi|].
  split; [unfold invocationOk; simpl; destruct p; try exact I; contradiction|].
  split; [intros; apply sameAt_refl|]. split; [intros; right; eauto|].
  right. left. unfold owner. simpl. destruct p; try reflexivity. contradiction.
Qed.

Section WithHost.
Context {host : Host}.

Lemma step_ok (fault : bool) (st : Store) (next : Id) (t : Invocation) :
  consistent st -> issued st next -> invocationOk st next t ->
  stepOk st next t (step fault st next t).
Proof.
  intros Hc Hi Ht. unfold step.
  destruct (pc t) as [ | | | rid pending | rid | err | publicErr | | ] eqn:Epc.
  - (* the guarding transaction *)
    destruct fault; [apply stepOk_unchanged; auto|].
    destruct (run st) as [r|] eqn:Hr; [|apply stepOk_unchanged; auto].
    destruct (RunDoc.status r) eqn:Hs; try (apply stepOk_unchanged; auto; fail).
    destruct (setRun_ok st next r
                {| RunDoc.status := RUNNING; RunDoc.resultId := RunDoc.resultId r;
                   RunDoc.error := RunDoc.error r |} Hr ltac:(discriminate) eq_refl Hc Hi)
      as (Hc' & Hi' & Hsame & Hrun).
    unfold stepOk. split; [lia|]. split; [exact Hc'|]. split; [exact Hi'|].
    split; [exact I|]. split; [intros; apply Hsame|]. split; [intros; right; eauto|].
    right. left. reflexivity.
  - (* reading the run back *)
    destruct fault; [apply stepOk_unchanged; auto|].
    destruct (run st) as [r|]; [|apply stepOk_unchanged; auto].
    destruct (RunDoc.status r); apply stepOk_unchanged; auto.
  - (* evaluation *)
    destruct fault; [apply stepOk_unchanged; auto|].
    destruct (load t) as [err|l]; [apply stepOk_unchanged; auto|].
    destruct (compute_total (l_rules l) (l_input l) (l_source l) (l_executedAtIso l))
      as (c & -> & _ & Hcounts & _).
    rewrite plan_afterWrite. unfold stepOk.
    split; [lia|]. split; [exact Hc|]. split; [apply (issued_mono st next); [lia | exact Hi]|].
    destruct Hi as (Hi1 & Hi2 & Hi3).
    split; [|split; [|split]].
    + unfold invocationOk. simpl. split; [lia|]. split.
      * apply plan_pendingOk; [|exact Hcounts]. split.
        -- apply (lookup_None_below next next); [exact Hi1 | lia].
        -- apply (under_None_below next next); [exact Hi2 | lia].
      * intros r Hr Hid. pose proof (Hi3 r next Hr Hid). lia.
    + intros; apply sameAt_refl.
    + intros; right; eauto.
    + right. right. unfold owner. rewrite Epc. simpl. auto.
  - (* one write *)
    unfold invocationOk in Ht. rewrite Epc in Ht. destruct Ht as (Hlt & Hp & Hfresh).
    destruct pending as [|op rest]; [exfalso; exact (pendingOk_nonempty st rid Hp)|].
    destruct fault; [apply stepOk_unchanged; auto|].
    pose proof (write_ok rid op rest st next Hp Hc Hi Hlt Hfresh) as Hw.
    destruct (write rid op rest st next) as [[[st' next'] rest']|];
      [|apply stepOk_unchanged; auto].
    destruct Hw as (Hle & Hc' & Hi' & Hsame & Hrest & Hrun).
    unfold stepOk. split; [exact Hle|]. split; [exact Hc'|]. split; [exact Hi'|].
    split; [|split; [|split]].
    + unfold invocationOk, afterWrite. destruct rest' as [|op' rest'']; simpl; [exact I|].
      destruct Hrest as [Hp' Hr']; [discriminate|].
      split; [lia|]. split; [exact Hp'|]. rewrite Hr'. exact Hfresh.
    + intros rid' Hne. apply Hsame. unfold owner in Hne. rewrite Epc in Hne. congruence.
    + intros r' rid' Hr' Hid. unfold owner. rewrite Epc.
      destruct (Hrun r' rid' Hr' Hid) as [-> | H]; auto.
    + unfold owner, afterWrite. rewrite Epc. destruct rest'; simpl; auto.
  - (* the audit entry of a success *)
    destruct fault; [apply stepOk_unchanged; auto|].
    destruct (audit_ok st next (AuditResult rid) Hc Hi) as (Hc' & Hi' & Hsame).
    unfold stepOk. split; [lia|]. split; [exact Hc'|]. split; [exact Hi'|].
    split; [exact I|]. split; [intros; apply Hsame|]. split; [intros; right; eauto|].
    right. left. reflexivity.
  - (* the update of the catch *)
    destruct fault; [apply stepOk_unchanged; auto|].
    destruct (run st) as [r|] eqn:Hr; [|apply stepOk_unchanged; auto].
    destruct (setRun_ok st next r
                {| RunDoc.status := FAILED; RunDoc.resultId := RunDoc.resultId r;
                   RunDoc.error := Some (publicErrOf err) |} Hr ltac:(discriminate) eq_refl Hc Hi)
      as (Hc' & Hi' & Hsame & Hrun).
    unfold stepOk. split; [lia|]. split; [exact Hc'|]. split; [exact Hi'|].
    split; [exact I|]. split; [intros; apply Hsame|]. split; [intros; right; eauto|].
    right. left. reflexivity.
  - (* the audit entry of a failure *)
    destruct fault; [apply stepOk_unchanged; auto|].
    destruct (audit_ok st next (AuditFailed (code publicErr) (category publicErr)) Hc Hi)
      as (Hc' & Hi' & Hsame).
    unfold stepOk. split; [lia|]. split; [exact Hc'|]. split; [exact Hi'|].
    split; [exact I|]. split; [intros; apply Hsame|]. split; [intros; right; eauto|].
    right. left. reflexivity.
  - unfold stepOk. split; [lia|]. split; [exact Hc|]. split; [exact Hi|].
    split; [exact Ht|]. split; [intros; apply sameAt_refl|]. split; [intros; right; eauto|].
    left. reflexivity.
  - unfold stepOk. split; [lia|]. split; [exact Hc|]. split; [exact Hi|].
    split; [exact Ht|]. split; [intros; apply sameAt_refl|]. split; [intros; right; eauto|].
    left. reflexivity.
Qed.

End WithHost.

(** ** Several invocations *)

Lemma owners_app (xs ys : list Invocation) : owners (xs ++ ys) = owners xs ++ owners ys.
Proof. apply flat_map_app. Qed.

Lemma owners_cons (t : Invocation) (ts : list Invocation) :
  owners (t :: ts) = match owner t with Some rid => [rid] | None => [] end ++ owners ts.
Proof. reflexivity. Qed.

Lemma In_owners (rid : Id) (ts : list Invocation) :
  In rid (owners ts) <-> exists t, In t ts /\ owner t = Some rid.
Proof.
  unfold owners. rewrite in_flat_map. split.
  - intros (t & Hin & H). exists t. split; [exact Hin|].
    destruct (owner t) as [r|]; [destruct H as [->|[]]; reflexivity | contradiction].
  - intros (t & Hin & H). exists t. split; [exact Hin|]. rewrite H. left. reflexivity.
Qed.

Lemma NoDup_insert {A} (a : A) (xs ys : list A) :
  NoDup (xs ++ ys) -> ~ In a (xs ++ ys) -> NoDup (xs ++ a :: ys).
Proof.
  induction xs as [|x xs IH]; simpl; intros Hnd Hin.
  - constructor; assumption.
  - inversion Hnd as [|? ? Hx Hnd']; subst. constructor.
    + intros H. apply in_app_or in H as [H|[H|H]].
      * apply Hx. apply in_or_app. auto.
      * subst. apply Hin. auto.
      * apply Hx. apply in_or_app. auto.
    + apply IH; [exact Hnd' | intros H; apply Hin; auto].
Qed.

Lemma replaceAt_app {A} (xs ys : list A) (x y : A) :
  replaceAt (length xs) y (xs ++ x :: ys) = xs ++ y :: ys.
Proof. induction xs as [|z xs IH]; simpl; [reflexivity|]. rewrite IH. reflexivity. Qed.

Lemma invocationOk_other (st st' : Store) (next next' : Id) (u : Invocation) :
  invocationOk st next u -> next <= next' ->
  (forall rid, owner u = Some rid ->
     sameAt rid st st' /\
     forall r', run st' = Some r' -> RunDoc.resultId r' <> Some rid) ->
  invocationOk st' next' u.
Proof.
  unfold invocationOk, owner. destruct (pc u) as [ | | | rid pending | | | | | ]; auto.
  intros (Hlt & Hp & _) Hle H. destruct (H rid eq_refl) as (Hsame & Hfresh).
  split; [lia|]. split; [apply (pendingOk_frame st); assumption | exact Hfresh].
Qed.

Section WithHost.
Context {host : Host}.

Lemma systemStep_ok (sys : System) (ev : nat * bool) :
  systemOk sys -> systemOk (systemStep sys ev).
Proof.
  intros (Hc & Hi & Hts & Hnd). destruct ev as [i fault]. unfold systemStep.
  destruct (nth_error (invocations sys) i) as [t|] eqn:Hnth;
    [|exact (conj Hc (conj Hi (conj Hts Hnd)))].
  destruct (nth_error_split _ _ Hnth) as (l1 & l2 & Einv & Elen).
  rewrite Einv in *. subst i.
  apply Forall_app in Hts as (Hl1 & Hts). inversion Hts as [|? ? Ht Hl2]; subst.
  pose proof (step_ok fault (store sys) (nextId sys) t Hc Hi Ht) as Hstep.
  destruct (step fault (store sys) (nextId sys) t) as [[st' next'] t'].
  rewrite replaceAt_app.
  destruct Hstep as (Hle & Hc' & Hi' & Ht' & Hsame & Hrun & Hown).
  rewrite owners_app, owners_cons in Hnd.
  assert (Hothers : forall u, In u (l1 ++ l2) ->
            invocationOk (store sys) (nextId sys) u ->
            invocationOk st' next' u).
  { intros u Hin Hu. apply (invocationOk_other (store sys) st' (nextId sys) next' u Hu Hle).
    intros rid Hrid.
    assert (Hne : owner t <> Some rid).
    { intros Eo. rewrite Eo in Hnd. simpl in Hnd. apply NoDup_remove_2 in Hnd.
      apply Hnd. rewrite <- owners_app. apply In_owners. eauto. }
    split; [apply Hsame; exact Hne|].
    intros r' Hr' Hid. destruct (Hrun r' rid Hr' Hid) as [Eo | (r & Hr & Hidr)].
    - exact (Hne Eo).
    - unfold invocationOk, owner in Hu, Hrid.
      destruct (pc u) as [ | | | rid0 pending | | | | | ]; try discriminate.
      injection Hrid as ->. destruct Hu as (_ & _ & Hfresh). exact (Hfresh r Hr Hidr). }
  assert (Hbelow : forall rid, In rid (owners (l1 ++ l2)) -> rid < nextId sys).
  { intros rid Hin. apply In_owners in Hin as (u & Hin & Hrid).
    assert (Hu : invocationOk (store sys) (nextId sys) u).
    { apply in_app_or in Hin as [Hin|Hin];
        [rewrite Forall_forall in Hl1; apply Hl1 | rewrite Forall_forall in Hl2; apply Hl2];
        exact Hin. }
    unfold invocationOk, owner in Hu, Hrid.
    destruct (pc u) as [ | | | rid0 pending | | | | | ]; try discriminate.
    injection Hrid as ->. apply Hu. }
  split; [exact Hc'|]. split; [exact Hi'|]. split.
  - simpl. apply Forall_app. split.
    + apply Forall_forall. intros u Hin. apply Hothers; [apply in_or_app; auto|].
      rewrite Forall_forall in Hl1. apply Hl1. exact Hin.
    + constructor; [exact Ht'|].
      apply Forall_forall. intros u Hin. apply Hothers; [apply in_or_app; auto|].
      rewrite Forall_forall in Hl2. apply Hl2. exact Hin.
  - simpl. rewrite owners_app, owners_cons.
    assert (Hrest : NoDup (owners l1 ++ owners l2)).
    { destruct (owner t); simpl in Hnd; [apply NoDup_remove_1 in Hnd|]; exact Hnd. }
    destruct Hown as [E | [E | (E0 & E & Hlt)]]; rewrite E.
    + exact Hnd.
    + exact Hrest.
    + simpl. apply NoDup_insert; [exact Hrest|].
      rewrite <- owners_app. intros Hin. apply Hbelow in Hin. lia.
Qed.

Lemma runSchedule_ok (schedule : list (nat * bool)) (sys : System) :
  systemOk sys -> systemOk (runSchedule sys schedule).
Proof.
  revert sys. induction schedule as [|ev schedule IH]; intros sys H; [exact H|].
  apply IH. apply systemStep_ok. exact H.
Qed.

Lemma initialSystem_ok (loads : list (Failure + Loaded)) : systemOk (initialSystem loads).
Proof.
  split; [|split; [|split]].
  - intros r Hr Hs. simpl in Hr. injection Hr as <-. discriminate.
  - repeat split; simpl; try contradiction.
    intros r rid Hr Hid. injection Hr as <-. discriminate.
  - simpl. apply Forall_map. apply Forall_forall. intros l _. exact I.
  - simpl. induction loads; simpl; [constructor | assumption].
Qed.

End WithHost.

(** ** An invocation that meets no failure *)

Lemma cost_app (xs ys : list WriteOp) : cost (xs ++ ys) = cost xs + cost ys.
Proof. unfold cost. rewrite map_app, list_sum_app. reflexivity. Qed.

Lemma cost_chat_chunks (cid : Id) (cs : list (list RuleResultDoc.t)) :
  cost (map (WChatChunk cid) cs) = length cs.
Proof. unfold cost. induction cs as [|c cs IH]; simpl in *; [reflexivity | rewrite IH; reflexivity]. Qed.

(** A write of an invocation whose run is RUNNING goes through; it either
    was the last one and left the run SUCCEEDED, or left the run as it was. *)
Lemma write_progress (rid : Id) (op : WriteOp) (rest : list WriteOp) (st : Store) (next : Id)
    (r : RunDoc.t) :
  pendingOk st rid (op :: rest) -> run st = Some r -> RunDoc.status r = RUNNING ->
  exists st' next' rest',
    write rid op rest st next = Some (st', next', rest') /\
    S (cost rest') = cost (op :: rest) /\
    ((rest' = [] /\ run st' = Some (succeeded r rid)) \/ (rest' <> [] /\ run st' = run st)).
Proof.
  intros Hp Hr Hs.
  inversion Hp as [res docs Hu Hw He Ha Eq | res body Hu Hb Hw He Hn Eq
                  | res body Hlk Hb He Hn Eq].
  - subst. unfold write. rewrite Hr. eexists _, _, _. split; [reflexivity|]. split; auto.
  - subst. unfold write. eexists _, _, _. split; [reflexivity|]. split; [reflexivity|].
    right. split; [destruct body; discriminate | reflexivity].
  - destruct body as [|op0 body]; simpl in Eq; injection Eq as <- <-.
    + unfold write. rewrite Hr, Hs, Hlk. eexists _, _, _. split; [reflexivity|]. split; auto.
    + simpl in Hb. apply andb_true_iff in Hb as [Hop Hb].
      destruct op0 as [ | | chunk | chat perDocs | cid chunk | ]; try discriminate Hop;
        unfold write; eexists _, _, _; (split; [reflexivity|]).
      * split; [reflexivity|]. right. split; [destruct body; discriminate | reflexivity].
      * split.
        -- rewrite cost_app, cost_chat_chunks. reflexivity.
        -- right. split; [|reflexivity].
           destruct (chunks perDocs); destruct body; discriminate.
      * split; [reflexivity|]. right. split; [destruct body; discriminate | reflexivity].
Qed.

Section WithHost.
Context {host : Host}.

Lemma runAlone_add (n m : nat) (st : Store) (next : Id) (t : Invocation) :
  runAlone (n + m) st next t
  = let '(st', next', t') := runAlone n st next t in runAlone m st' next' t'.
Proof.
  revert st next t. induction n as [|n IH]; intros st next t; simpl; [reflexivity|].
  destruct (step false st next t) as [[st' next'] t']. apply IH.
Qed.

Lemma runAlone_schedule (n : nat) (st : Store) (next : Id) (t : Invocation) :
  runSchedule {| store := st; nextId := next; invocations := [t] |} (repeat (0, false) n)
  = let '(st', next', t') := runAlone n st next t in
    {| store := st'; nextId := next'; invocations := [t'] |}.
Proof.
  revert st next t. induction n as [|n IH]; intros st next t; simpl; [reflexivity|].
  destruct (step false st next t) as [[st' next'] t']. apply IH.
Qed.

(** The pending writes of an invocation that runs alone on a RUNNING run all
    go through, and leave the run SUCCEEDED. *)
Lemma persist_completes (rid : Id) (n : nat) :
  forall pending st next t r,
    cost pending = n -> pc t = AtPersist rid pending -> pendingOk st rid pending ->
    consistent st -> issued st next -> rid < next ->
    run st = Some r -> RunDoc.status r = RUNNING -> RunDoc.resultId r <> Some rid ->
    exists st' next',
      runAlone n st next t = (st', next', at_ (AtAudit rid) t) /\
      run st' = Some (succeeded r rid).
Proof.
  induction n as [|n IH]; intros pending st next t r Hcost Hpc Hp Hc Hi Hlt Hr Hs Hfresh;
    (destruct pending as [|op rest]; [exfalso; exact (pendingOk_nonempty st rid Hp)|]);
    destruct (write_progress rid op rest st next r Hp Hr Hs)
      as (st1 & next1 & rest1 & Ew & Hcost1 & Hcase).
  - rewrite Hcost in Hcost1. discriminate.
  - assert (Hstep : step false st next t = (st1, next1, at_ (afterWrite rid rest1) t)).
    { unfold step. rewrite Hpc, Ew. reflexivity. }
    simpl. rewrite Hstep.
    destruct Hcase as [[-> Hrun] | [Hne Hrun]].
    + rewrite Hcost in Hcost1. injection Hcost1 as <-. simpl.
      exists st1, next1. split; [reflexivity | exact Hrun].
    + assert (Hfresh' : forall r0, run st = Some r0 -> RunDoc.resultId r0 <> Some rid).
      { intros r0 E. rewrite Hr in E. injection E as <-. exact Hfresh. }
      pose proof (write_ok rid op rest st next Hp Hc Hi Hlt Hfresh') as Hok.
      rewrite Ew in Hok. destruct Hok as (Hle & Hc1 & Hi1 & _ & Hrest & _).
      destruct (Hrest Hne) as [Hp1 _].
      destruct (IH rest1 st1 next1 (at_ (afterWrite rid rest1) t) r)
        as (st' & next' & Erun & Hrun'); try assumption.
      * rewrite Hcost in Hcost1. injection Hcost1 as ->. reflexivity.
      * destruct rest1; [congruence | reflexivity].
      * lia.
      * rewrite Hrun. exact Hr.
      * exists st', next'. split; [exact Erun | exact Hrun'].
Qed.

(** C1, as the code has it. Whatever invocations are triggered on a queued
    run, whatever their loads, their interleaving and the operations that
    fail, every state they reach is consistent: a run that is SUCCEEDED points
    to a result that exists, whose write state is not WRITING, and whose rule
    results are all stored, as many as its counters and its
    [expectedRuleCount] announce; so a result in state WRITING is never the
    result a SUCCEEDED run points to. And an invocation that runs alone and
    meets no failure on a run it could load commits all its writes, ends, and
    leaves the run SUCCEEDED. *)
Theorem succeeded_only_once_written :
  (forall (loads : list (Failure + Loaded)) (schedule : list (nat * bool)),
     consistent (store (runSchedule (initialSystem loads) schedule)) /\
     forall r rid res,
       run (store (runSchedule (initialSystem loads) schedule)) = Some r ->
       RunDoc.status r = SUCCEEDED ->
       lookup rid (results (store (runSchedule (initialSystem loads) schedule))) = Some res ->
       ResultDoc.writeState res = Some WRITING ->
       RunDoc.resultId r <> Some rid) /\
  (forall (l : Loaded),
     exists n r,
       map pc (invocations (runSchedule (initialSystem [inr l]) (repeat (0, false) n)))
       = [Finished] /\
       run (store (runSchedule (initialSystem [inr l]) (repeat (0, false) n))) = Some r /\
       RunDoc.status r = SUCCEEDED).
Proof.
  split.
  - intros loads schedule.
    destruct (runSchedule_ok schedule _ (initialSystem_ok loads)) as (Hc & _).
    split; [exact Hc|].
    intros r rid res Hr Hs Hl Hw Hid.
    destruct (Hc r Hr Hs) as (rid' & res' & Hid' & Hl' & Hw' & _).
    rewrite Hid in Hid'. injection Hid' as <-. rewrite Hl in Hl'. injection Hl' as <-.
    contradiction.
  - intros l.
    destruct (compute_total (l_rules l) (l_input l) (l_source l) (l_executedAtIso l))
      as (c & Ec & _ & Hcounts & _).
    set (running := {| RunDoc.status := RUNNING; RunDoc.resultId := None;
                       RunDoc.error := None |}).
    set (t0 := {| pc := AtGuard; load := inr l |}).
    assert (E3 : runAlone 3 initialStore 0 t0
                 = (setRun initialStore running, 1, at_ (AtPersist 0 (plan 0 c)) t0)).
    { assert (S1 : step false initialStore 0 t0
                   = (setRun initialStore running, 0, at_ AtReread t0)) by reflexivity.
      assert (S2 : step false (setRun initialStore running) 0 (at_ AtReread t0)
                   = (setRun initialStore running, 0, at_ AtEvaluate t0)) by reflexivity.
      assert (S3 : step false (setRun initialStore running) 0 (at_ AtEvaluate t0)
                   = (setRun initialStore running, 1, at_ (AtPersist 0 (plan 0 c)) t0)).
      { unfold step. cbn [pc at_ load t0]. rewrite Ec, plan_afterWrite. reflexivity. }
      cbn [runAlone]. rewrite S1, S2, S3. reflexivity. }
    destruct (persist_completes 0 (cost (plan 0 c)) (plan 0 c)
                (setRun initialStore running) 1 (at_ (AtPersist 0 (plan 0 c)) t0) running)
      as (st' & next' & Erun & Hrun); try reflexivity.
    { apply plan_pendingOk; [split; reflexivity | exact Hcounts]. }
    { intros r Er Hs. injection Er as <-. discriminate Hs. }
    { split; [|split]; [intros ? ? [] | intros ? ? ? [] | intros r rid Er Hid; injection Er as <-; discriminate Hid]. }
    { lia. }
    { discriminate. }
    exists (3 + cost (plan 0 c) + 1), (succeeded running 0).
    change (initialSystem [inr l])
      with {| store := initialStore; nextId := 0; invocations := [t0] |}.
    rewrite (runAlone_schedule (3 + cost (plan 0 c) + 1) initialStore 0 t0).
    rewrite runAlone_add, runAlone_add, E3, Erun. simpl.
    split; [reflexivity|]. split; [exact Hrun | reflexivity].
Qed.

End WithHost.

Import ExampleHost.

(** Scenario E of the specification, 500 rules: the result is created in state
    WRITING, the two chunks of rule results follow, and the final transaction
    makes the result COMPLETE and the run SUCCEEDED in one step. *)
Example two_phase_window :
  let after n := stored (runSchedule (initialSystem [largeLoad]) (repeat (0, false) n)) in
  after 3 = (Some (RUNNING, None), [], []) /\
  after 4 = (Some (RUNNING, None), [(0, Some WRITING)], []) /\
  after 5 = (Some (RUNNING, None), [(0, Some WRITING)], repeat 0 400) /\
  after 6 = (Some (RUNNING, None), [(0, Some WRITING)], repeat 0 500) /\
  after 7 = (Some (SUCCEEDED, Some 0), [(0, Some COMPLETE)], repeat 0 500).
Proof. vm_compute. repeat split. Qed.

(** A final transaction that fails leaves the result in state WRITING with
    all its rule results, and the run FAILED. *)
Example failed_final_transaction :
  stored (runSchedule (initialSystem [largeLoad])
            (repeat (0, false) 6 ++ [(0, true); (0, false); (0, false)]))
  = (Some (FAILED, None), [(0, Some WRITING)], repeat 0 500).
Proof. vm_compute. reflexivity. Qed.

(** C1, as stated, fails: with 500 rules and a final transaction that fails,
    the result and every one of its 500 expected rule results are stored, and
    the run is FAILED, its invocation returned. *)
Lemma all_written_yet_failed :
  let sys := runSchedule (initialSystem [largeLoad])
               (repeat (0, false) 6 ++ [(0, true); (0, false); (0, false)]) in
  map (fun x => (fst x, ResultDoc.writeState (snd x), ResultDoc.expectedRuleCount (snd x)))
      (results (store sys)) = [(0, Some WRITING, Some 500)] /\
  length (ruleResultsOf 0 (store sys)) = 500 /\
  option_map RunDoc.status (run (store sys)) = Some FAILED /\
  map pc (invocations sys) = [Finished].
Proof. vm_compute. repeat split. Qed.

(** The audit log is written inside the [try]: when it fails after the run
    became SUCCEEDED, the [catch] makes the run FAILED, its result in place. *)
Example audit_failure_after_success :
  let after schedule := observe (runSchedule (initialSystem [smallLoad]) schedule) in
  after (repeat (0, false) 4) = (Some (SUCCEEDED, Some 0), [(0, None)], [0], [AtAudit 0]) /\
  after (repeat (0, false) 4 ++ [(0, true); (0, false); (0, false)])
  = (Some (FAILED, Some 0), [(0, None)], [0], [Finished]).
Proof. vm_compute. split; reflexivity. Qed.

End InvariantFacts.

(* ================================================================== *)
(** * Duplicate triggers of one run *)
(* ================================================================== *)

Module IdempotenceFacts.
Import Js Engine Mapping Processor ProcessorSpec.

(** A write leaves the run document as it was or makes it SUCCEEDED. *)
Lemma write_status (s : RunStatus) (rid : Id) (op : WriteOp) (rest : list WriteOp)
    (st st' : Store) (next next' : Id) (rest' : list WriteOp) :
  s <> SUCCEEDED ->
  write rid op rest st next = Some (st', next', rest') ->
  hasStatus s st' = true -> hasStatus s st = true.
Proof.
  intros Hs Ew. unfold write in Ew.
  destruct op as [res docs | res | chunk | chat perDocs | cid chunk | ].
  - destruct (run st) as [r|] eqn:Hr; [|discriminate Ew]. injection Ew as <- _ _.
    unfold hasStatus. simpl. destruct s; congruence.
  - injection Ew as <- _ _. unfold hasStatus. simpl. auto.
  - injection Ew as <- _ _. unfold hasStatus. simpl. auto.
  - injection Ew as <- _ _. unfold hasStatus. simpl. auto.
  - injection Ew as <- _ _. unfold hasStatus. simpl. auto.
  - destruct (run st) as [r|] eqn:Hr; [|discriminate Ew].
    destruct (RunDoc.status r) eqn:Er;
      try (injection Ew as <- _ _; auto).
    destruct (lookup rid (results st)); [|discriminate Ew].
    injection Ew as <- _ _. unfold hasStatus. simpl. destruct s; congruence.
Qed.

Section WithHost.
Context {host : Host}.

(** No step makes a run QUEUED, and only a QUEUED run becomes RUNNING. *)
Lemma step_status (fault : bool) (st : Store) (next : Id) (t : Invocation) :
  (isQueued (fst (fst (step fault st next t))) = true -> isQueued st = true) /\
  (isRunning (fst (fst (step fault st next t))) = true ->
   isRunning st = true \/ isQueued st = true).
Proof.
  unfold isQueued, isRunning, step.
  destruct (pc t) as [ | | | rid pending | rid | err | publicErr | | ].
  - destruct fault; [simpl; auto|].
    destruct (run st) as [r|] eqn:Hr; [|simpl; auto].
    destruct (RunDoc.status r) eqn:Es; simpl; auto.
    unfold hasStatus. simpl. rewrite Hr, Es. auto.
  - destruct fault; [simpl; auto|].
    destruct (run st) as [r|] eqn:Hr; [|simpl; auto].
    destruct (RunDoc.status r); simpl; auto.
  - destruct fault; [simpl; auto|].
    destruct (load t) as [err|l]; [simpl; auto|].
    destruct (compute _ _ _ _); simpl; auto.
  - destruct pending as [|op rest]; [simpl; auto|].
    destruct fault; [simpl; auto|].
    destruct (write rid op rest st next) as [[[st' next'] rest']|] eqn:Ew; [|simpl; auto].
    simpl. split; intros H.
    + apply (write_status QUEUED rid op rest st st' next next' rest'); [discriminate | exact Ew | exact H].
    + left. apply (write_status RUNNING rid op rest st st' next next' rest');
        [discriminate | exact Ew | exact H].
  - destruct fault; simpl; auto.
  - destruct fault; [simpl; auto|].
    destruct (run st) as [r|] eqn:Hr; [|simpl; auto].
    simpl. unfold hasStatus. simpl. split; discriminate.
  - destruct fault; simpl; auto.
  - simpl. auto.
  - simpl. auto.
Qed.

Lemma systemStep_status (sys : System) (ev : nat * bool) :
  (isQueued (store (systemStep sys ev)) = true -> isQueued (store sys) = true) /\
  (isRunning (store (systemStep sys ev)) = true ->
   isRunning (store sys) = true \/ isQueued (store sys) = true).
Proof.
  destruct ev as [i fault]. unfold systemStep.
  destruct (nth_error (invocations sys) i) as [t|]; [|auto].
  pose proof (step_status fault (store sys) (nextId sys) t) as H.
  destruct (step fault (store sys) (nextId sys) t) as [[st' next'] t']. exact H.
Qed.

Lemma queued_not_running (st : Store) : isQueued st = true -> isRunning st = false.
Proof.
  unfold isQueued, isRunning, hasStatus. destruct (run st) as [r|]; [|reflexivity].
  destruct (RunDoc.status r); auto; discriminate.
Qed.

Lemma startsCount_bound (schedule : list (nat * bool)) :
  forall sys,
    startsCount sys schedule <= 1 /\
    (isQueued (store sys) = false -> startsCount sys schedule = 0).
Proof.
  induction schedule as [|ev rest IH]; intros sys; simpl; [split; auto|].
  destruct (systemStep_status sys ev) as [Hq Hr].
  destruct (IH (systemStep sys ev)) as [Hle Hz].
  destruct (isQueued (store sys)) eqn:Eq.
  - split; [|discriminate].
    destruct (isRunning (store (systemStep sys ev))) eqn:Er.
    + assert (Eq' : isQueued (store (systemStep sys ev)) = false).
      { destruct (isQueued (store (systemStep sys ev))) eqn:E; [|reflexivity].
        rewrite (queued_not_running _ E) in Er. discriminate Er. }
      rewrite (Hz Eq'). destruct (negb _ && true); simpl; lia.
    + rewrite andb_false_r. simpl. exact Hle.
  - assert (Eq' : isQueued (store (systemStep sys ev)) = false).
    { destruct (isQueued (store (systemStep sys ev))); [|reflexivity].
      symmetry. apply Hq. reflexivity. }
    rewrite (Hz Eq').
    assert (Ei : negb (isRunning (store sys)) && isRunning (store (systemStep sys ev)) = false).
    { destruct (isRunning (store (systemStep sys ev))) eqn:Er; [|apply andb_false_r].
      destruct (Hr eq_refl) as [E|E]; [rewrite E; reflexivity | discriminate E]. }
    rewrite Ei. split; [lia|]. intros _. reflexivity.
Qed.

(** An invocation that meets a run neither QUEUED nor RUNNING returns after
    its two reads, and leaves the store as it was. *)
Lemma finished_run_is_left_alone (st : Store) (next : Id) (t : Invocation) (r : RunDoc.t) :
  pc t = AtGuard -> run st = Some r ->
  RunDoc.status r <> QUEUED -> RunDoc.status r <> RUNNING ->
  runAlone 2 st next t = (st, next, at_ Finished t).
Proof.
  intros Hpc Hr Hq Hn. simpl. unfold step at 1. rewrite Hpc, Hr.
  destruct (RunDoc.status r) eqn:Es; try congruence;
    unfold step; simpl; rewrite Hr, Es; reflexivity.
Qed.

(** Whatever invocations are triggered on a queued run and however they
    interleave, the run becomes RUNNING at most once. *)
Lemma run_starts_at_most_once (loads : list (Failure + Loaded)) (schedule : list (nat * bool)) :
  startsCount (initialSystem loads) schedule <= 1.
Proof. apply startsCount_bound. Qed.

End WithHost.

Import ExampleHost.

(** Invocation 1 starts once invocation 0 has ended: it returns after its two
    reads and the store is as invocation 0 left it. *)
Example late_trigger_is_a_no_op :
  let after n :=
    observe (runSchedule (initialSystem [smallLoad; smallLoad]) (firstn n sequentialTrigger)) in
  after 5 = (Some (SUCCEEDED, Some 0), [(0, None)], [0], [Finished; AtGuard]) /\
  after 8 = (Some (SUCCEEDED, Some 0), [(0, None)], [0], [Finished; Finished]).
Proof. vm_compute. split; reflexivity. Qed.

(** On the two-phase path the final transaction of the second invocation
    finds the run SUCCEEDED and writes nothing: its result stays in state
    WRITING, beside the completed result the run points to. *)
Example duplicate_trigger_leaves_result_writing :
  observe (runSchedule (initialSystem [twoPhaseLoad; twoPhaseLoad]) duplicateTwoPhase)
  = (Some (SUCCEEDED, Some 0), [(0, Some COMPLETE); (450, Some WRITING)],
     repeat 0 449 ++ repeat 450 449, [Finished; Finished]).
Proof. vm_compute. reflexivity. Qed.

(** C3. Whatever invocations are triggered on a queued run, the run becomes
    RUNNING at most once. But take two invocations triggered on one queued
    run: the run becomes RUNNING by the guard of invocation 0; the guard of
    invocation 1 finds the run RUNNING and writes nothing; but the read that
    follows it accepts a RUNNING run, so invocation 1 is not a no-op: it
    evaluates as well and writes a second result with its rule result, to
    which the run ends up pointing. *)
Theorem duplicate_trigger_evaluates_twice :
  let after n :=
    observe (runSchedule (initialSystem [smallLoad; smallLoad]) (firstn n duplicateTrigger)) in
  (forall (h : Host) (loads : list (Failure + Loaded)) (schedule : list (nat * bool)),
     @startsCount h (initialSystem loads) schedule <= 1) /\
  startsCount (initialSystem [smallLoad; smallLoad]) duplicateTrigger = 1 /\
  after 2 = (Some (RUNNING, None), [], [], [AtEvaluate; AtGuard]) /\
  after 3 = (Some (RUNNING, None), [], [], [AtEvaluate; AtReread]) /\
  after 4 = (Some (RUNNING, None), [], [], [AtEvaluate; AtEvaluate]) /\
  after 10 = (Some (SUCCEEDED, Some 1), [(0, None); (1, None)], [0; 1], [Finished; Finished]).
Proof.
  split.
  - intros h loads schedule. apply (@startsCount_bound h).
  - vm_compute. repeat split.
Qed.

End IdempotenceFacts.

(* ================================================================== *)
(** * The run processor: the two write paths *)
(* ================================================================== *)

Module WritePathFacts.
Import Engine Mapping ChatSplit Processor ProcessorSpec ListFacts ProcessorFacts InvariantFacts.

Lemma cost_zero (body : list WriteOp) : cost body = 0 -> body = [].
Proof.
  destruct body as [|op body]; [reflexivity|]. unfold cost. simpl.
  destruct op; discriminate.
Qed.

Section WithHost.
Context {host : Host}.

(** One write of the body of the two-phase path: the run and the result stay
    as they are, and one step less is left. *)
Lemma body_step (rid : Id) (res : ResultDoc.t) (docs : list RuleResultDoc.t)
    (op : WriteOp) (body : list WriteOp) (st : Store) (next : Id) (t : Invocation) :
  inProgress rid res docs st (op :: body) ->
  pc t = AtPersist rid ((op :: body) ++ [WFinalTxn]) ->
  exists st' next' body',
    step false st next t = (st', next', at_ (AtPersist rid (body' ++ [WFinalTxn])) t) /\
    inProgress rid res docs st' body' /\
    S (cost body') = cost (op :: body).
Proof.
  intros (Hr & Hres & Hb & Hdocs) Hpc. simpl in Hb. apply andb_true_iff in Hb as [Hop Hb].
  unfold step. rewrite Hpc. cbn [app].
  assert (Hafter : forall body', afterWrite rid (body' ++ [WFinalTxn])
                                 = AtPersist rid (body' ++ [WFinalTxn]))
    by (intros [|? ?]; reflexivity).
  destruct op as [ | | chunk | chat perDocs | cid chunk | ]; try discriminate Hop;
    cbn [write].
  - exists {| run := run st; results := results st;
              ruleResults := ruleResults st ++ createAll rid next chunk;
              chatResults := chatResults st; chatRuleResults := chatRuleResults st;
              auditLog := auditLog st |}, (next + length chunk), body.
    rewrite Hafter. split; [reflexivity|]. split; [|reflexivity].
    split; [exact Hr|]. split; [exact Hres|]. split; [exact Hb|].
    unfold ruleResultsOf in *. cbn [ruleResults].
    change (map snd (filter (fun x => fst (fst x) =? rid)
                            (ruleResults st ++ createAll rid next chunk)))
      with (under rid (ruleResults st ++ createAll rid next chunk)).
    rewrite under_app, under_createAll, Nat.eqb_refl, <- app_assoc. exact Hdocs.
  - exists {| run := run st; results := results st; ruleResults := ruleResults st;
              chatResults := chatResults st ++ [(rid, next, chat)];
              chatRuleResults := chatRuleResults st; auditLog := auditLog st |},
           (S next), (map (WChatChunk next) (chunks perDocs) ++ body).
    rewrite app_assoc, Hafter. split; [reflexivity|].
    split.
    + split; [exact Hr|]. split; [exact Hres|]. split.
      * apply forallb_app_true; [apply forallb_map_true; reflexivity | exact Hb].
      * rewrite ruleChunksOf_app, (ruleChunksOf_chats (WChatChunk next));
          [exact Hdocs | intros x; exact I].
    + rewrite cost_app, cost_chat_chunks. reflexivity.
  - exists {| run := run st; results := results st; ruleResults := ruleResults st;
              chatResults := chatResults st;
              chatRuleResults := chatRuleResults st ++ createAll cid next chunk;
              auditLog := auditLog st |}, (next + length chunk), body.
    rewrite Hafter. split; [reflexivity|]. split; [|reflexivity].
    split; [exact Hr|]. split; [exact Hres|]. split; [exact Hb | exact Hdocs].
Qed.

(** The writes of the body, as far as they go. *)
Lemma body_steps (rid : Id) (res : ResultDoc.t) (docs : list RuleResultDoc.t) (j : nat) :
  forall body st next t,
    inProgress rid res docs st body -> pc t = AtPersist rid (body ++ [WFinalTxn]) ->
    j <= cost body ->
    exists st' next' body',
      runAlone j st next t = (st', next', at_ (AtPersist rid (body' ++ [WFinalTxn])) t) /\
      inProgress rid res docs st' body' /\
      cost body' + j = cost body.
Proof.
  induction j as [|j IH]; intros body st next t Hin Hpc Hj.
  - exists st, next, body. split; [|split; [exact Hin | lia]].
    simpl. destruct t as [p l]. simpl in Hpc. subst p. reflexivity.
  - destruct body as [|op body]; [unfold cost in Hj; simpl in Hj; lia|].
    destruct (body_step rid res docs op body st next t Hin Hpc)
      as (st1 & next1 & body1 & Es & Hin1 & Hc).
    destruct (IH body1 st1 next1 (at_ (AtPersist rid (body1 ++ [WFinalTxn])) t) Hin1 eq_refl)
      as (st' & next' & body' & Er & Hin' & Hc'); [lia|].
    exists st', next', body'. cbn [runAlone]. rewrite Es, Er.
    split; [reflexivity|]. split; [exact Hin' | lia].
Qed.

(** The final transaction of an invocation whose writes are all done. *)
Lemma final_step (rid : Id) (res : ResultDoc.t) (docs : list RuleResultDoc.t)
    (st : Store) (next : Id) (t : Invocation) :
  inProgress rid res docs st [] -> pc t = AtPersist rid [WFinalTxn] ->
  exists st',
    step false st next t = (st', next, at_ (AtAudit rid) t) /\
    run st' = Some (succeeded runningRun rid) /\
    results st' = [(rid, completed res)] /\
    ruleResultsOf rid st' = docs.
Proof.
  intros (Hr & Hres & _ & Hdocs) Hpc. unfold step. rewrite Hpc. cbn [write].
  rewrite Hr, Hres. cbn [RunDoc.status runningRun lookup]. rewrite Nat.eqb_refl.
  eexists. split; [reflexivity|]. cbn [run results updateDoc]. rewrite Nat.eqb_refl.
  split; [reflexivity|]. split; [reflexivity|].
  simpl in Hdocs. rewrite app_nil_r in Hdocs. exact Hdocs.
Qed.

(** C8. An invocation that runs alone on a queued run and meets no failure
    evaluates in its third step, with one aggregated document per rule, and
    has stored nothing by then; the writes an invocation plans when it
    evaluates depend on nothing but what it evaluated. With [N] rules it takes the single batch
    exactly when the run is not multi-chat and [1 + N + 1] is at most 450: its
    fourth step then stores the result, without a write state, and all [N]
    rule results, and makes the run SUCCEEDED, all at once. Otherwise, so for a
    multi-chat run and for 500 rules, the fourth step only creates the result,
    in state WRITING with [expectedRuleCount = N]; through the writes that
    follow the run stays RUNNING and the result WRITING; and the last write,
    the final transaction, makes the result COMPLETE and the run SUCCEEDED
    together, the [N] rule results being stored under the result by then. *)
Theorem write_path_choice (l : Loaded) :
  let t0 := {| pc := AtGuard; load := inr l |} in
  let after n := runAlone n initialStore 0 t0 in
  let N := length (l_rules l) in
  exists c,
    compute (l_rules l) (l_input l) (l_source l) (l_executedAtIso l) = Return c /\
    length (aggregatedRuleDocs c) = N /\
    (canSingleBatch c = true <-> multiChatEnabled c = false /\ 1 + N + 1 <= 450) /\
    (N = 500 -> canSingleBatch c = false) /\
    (forall st next t, pc t = AtEvaluate -> load t = inr l ->
       step false st next t = (st, S next, at_ (AtPersist next (plan next c)) t)) /\
    (forall rid,
       (canSingleBatch c = true ->
        plan rid c = [WSingleBatch (resultDoc rid c None None) (aggregatedRuleDocs c)]) /\
       (canSingleBatch c = false ->
        exists body,
          plan rid c
          = WCreateResult (resultDoc rid c (Some WRITING) (Some N)) :: body ++ [WFinalTxn] /\
          forallb isBodyOp body = true /\
          concat (ruleChunksOf body) = aggregatedRuleDocs c)) /\
    after 3 = (setRun initialStore runningRun, 1, at_ (AtPersist 0 (plan 0 c)) t0) /\
    (canSingleBatch c = true ->
     after 4 = (storeOf (succeeded runningRun 0) 0 (resultDoc 0 c None None)
                        (createAll 0 1 (aggregatedRuleDocs c)),
                1 + N, at_ (AtAudit 0) t0)) /\
    (canSingleBatch c = false ->
     let writing := resultDoc 0 c (Some WRITING) (Some N) in
     let last := 3 + cost (plan 0 c) in
     fst (fst (after 4)) = storeOf runningRun 0 writing [] /\
     (forall k, 4 <= k < last ->
        run (fst (fst (after k))) = Some runningRun /\
        results (fst (fst (after k))) = [(0, writing)]) /\
     run (fst (fst (after last))) = Some (succeeded runningRun 0) /\
     results (fst (fst (after last))) = [(0, completed writing)] /\
     ruleResultsOf 0 (fst (fst (after last))) = aggregatedRuleDocs c /\
     pc (snd (after last)) = AtAudit 0).
Proof.
  intros t0 after N.
  destruct (compute_total (l_rules l) (l_input l) (l_source l) (l_executedAtIso l))
    as (c & Ec & Hlen & _ & _).
  exists c. split; [exact Ec|]. split; [exact Hlen|].
  assert (Hiff : canSingleBatch c = true <-> multiChatEnabled c = false /\ 1 + N + 1 <= 450).
  { unfold canSingleBatch, totalWritesNeeded, singleBatchCeiling. rewrite Hlen.
    rewrite andb_true_iff, negb_true_iff, Nat.leb_le. reflexivity. }
  split; [exact Hiff|]. split.
  { intros H500. destruct (canSingleBatch c) eqn:E; [|reflexivity].
    destruct (proj1 Hiff eq_refl) as [_ Hle]. lia. }
  split.
  { intros st next t Hpc Hload. unfold step. rewrite Hpc, Hload, Ec, plan_afterWrite.
    reflexivity. }
  split.
  { intros rid. split.
    - intros H. unfold plan. rewrite H. reflexivity.
    - intros H. destruct (plan_two_phase rid c H) as (body & Ep & Hb & Hch).
      exists body. unfold N. rewrite <- Hlen. split; [exact Ep|]. split; [exact Hb|].
      rewrite Hch. apply chunks_concat. }
  assert (E3 : after 3 = (setRun initialStore runningRun, 1, at_ (AtPersist 0 (plan 0 c)) t0)).
  { assert (S1 : step false initialStore 0 t0
                 = (setRun initialStore runningRun, 0, at_ AtReread t0)) by reflexivity.
    assert (S2 : step false (setRun initialStore runningRun) 0 (at_ AtReread t0)
                 = (setRun initialStore runningRun, 0, at_ AtEvaluate t0)) by reflexivity.
    assert (S3 : step false (setRun initialStore runningRun) 0 (at_ AtEvaluate t0)
                 = (setRun initialStore runningRun, 1, at_ (AtPersist 0 (plan 0 c)) t0)).
    { unfold step. cbn [pc at_ load t0]. rewrite Ec, plan_afterWrite. reflexivity. }
    unfold after. cbn [runAlone]. rewrite S1, S2, S3. reflexivity. }
  split; [exact E3|].
  assert (Eadd : forall n, after (3 + n)
                 = runAlone n (setRun initialStore runningRun) 1
                            (at_ (AtPersist 0 (plan 0 c)) t0)).
  { intros n. unfold after. rewrite runAlone_add. fold (after 3). rewrite E3. reflexivity. }
  split.
  - intros Hsingle. change 4 with (3 + 1). rewrite Eadd. cbn [runAlone].
    unfold step, plan. cbn [pc at_]. rewrite Hsingle. cbn [write run setRun initialStore].
    unfold storeOf. cbn [results ruleResults app afterWrite]. rewrite Hlen. reflexivity.
  - intros Htwo writing last.
    destruct (plan_two_phase 0 c Htwo) as (body & Ep & Hb & Hch).
    rewrite Hlen in Ep. fold N writing in Ep.
    assert (Ecost : cost (plan 0 c) = 1 + cost body + 1).
    { rewrite Ep. change (WCreateResult writing :: body ++ [WFinalTxn])
        with ([WCreateResult writing] ++ body ++ [WFinalTxn]).
      rewrite !cost_app. reflexivity. }
    assert (E4 : after 4 = (storeOf runningRun 0 writing [], 1,
                            at_ (AtPersist 0 (body ++ [WFinalTxn])) t0)).
    { change 4 with (3 + 1). rewrite Eadd. cbn [runAlone]. unfold step. cbn [pc at_].
      rewrite Ep. cbn [write]. destruct body; reflexivity. }
    assert (Hin : inProgress 0 writing (aggregatedRuleDocs c)
                             (storeOf runningRun 0 writing []) body).
    { split; [reflexivity|]. split; [reflexivity|]. split; [exact Hb|].
      rewrite Hch. apply chunks_concat. }
    assert (Ebody : forall j, j <= cost body ->
              exists st' next' body',
                after (4 + j) = (st', next', at_ (AtPersist 0 (body' ++ [WFinalTxn])) t0) /\
                inProgress 0 writing (aggregatedRuleDocs c) st' body' /\
                cost body' + j = cost body).
    { intros j Hj.
      destruct (body_steps 0 writing (aggregatedRuleDocs c) j body
                  (storeOf runningRun 0 writing []) 1
                  (at_ (AtPersist 0 (body ++ [WFinalTxn])) t0) Hin eq_refl Hj)
        as (st' & next' & body' & Er & Hin' & Hc).
      exists st', next', body'. split; [|split; [exact Hin' | exact Hc]].
      unfold after. rewrite runAlone_add. fold (after 4). rewrite E4. exact Er. }
    split; [rewrite E4; reflexivity|]. split.
    + intros k Hk. unfold last in Hk. rewrite Ecost in Hk.
      destruct (Ebody (k - 4)) as (st' & next' & body' & Ek & (Hr & Hres & _) & _); [lia|].
      replace (4 + (k - 4)) with k in Ek by lia. rewrite Ek. split; assumption.
    + destruct (Ebody (cost body) (le_n _)) as (st' & next' & body' & Ek & Hin' & Hc).
      assert (body' = []) by (apply cost_zero; lia). subst body'.
      destruct (final_step 0 writing (aggregatedRuleDocs c) st' next'
                  (at_ (AtPersist 0 ([] ++ [WFinalTxn])) t0) Hin' eq_refl)
        as (st'' & Es & Hr & Hres & Hdocs).
      assert (Elast : after last = (st'', next', at_ (AtAudit 0) t0)).
      { unfold last. rewrite Ecost.
        replace (3 + (1 + cost body + 1)) with ((4 + cost body) + 1) by lia.
        unfold after. rewrite runAlone_add. fold (after (4 + cost body)). rewrite Ek.
        cbn [runAlone]. rewrite Es. reflexivity. }
      rewrite Elast. repeat split; assumption.
Qed.

End WithHost.

Import ExampleHost.

(** Scenario E of the specification, 500 rules: 502 writes exceed the ceiling;
    the result is created in state WRITING with [expectedRuleCount = 500],
    two chunks of 400 and 100 rule results follow, and the seventh step makes
    the result COMPLETE and the run SUCCEEDED. *)
Lemma write_path_choice_witness :
  let after n :=
    runAlone n initialStore 0
      {| pc := AtGuard;
         load := inr (exampleLoaded fiveHundredRules (InText (str "Your Order ID is 55") None)) |} in
  map (fun x => (ResultDoc.writeState (snd x), ResultDoc.expectedRuleCount (snd x)))
      (results (fst (fst (after 4)))) = [(Some WRITING, Some 500)] /\
  option_map RunDoc.status (run (fst (fst (after 6)))) = Some RUNNING /\
  option_map RunDoc.status (run (fst (fst (after 7)))) = Some SUCCEEDED /\
  map (fun x => ResultDoc.writeState (snd x)) (results (fst (fst (after 7)))) = [Some COMPLETE] /\
  length (ruleResultsOf 0 (fst (fst (after 7)))) = 500.
Proof.
  intros after. subst after. cbv beta.
  destruct (write_path_choice
              (exampleLoaded fiveHundredRules (InText (str "Your Order ID is 55") None)))
    as (c & Ec & Hlen & _ & H500 & _ & _ & _ & _ & Htwo).
  specialize (Htwo (H500 eq_refl)). cbv zeta in Htwo.
  assert (Ecost : cost (plan 0 c) = 4).
  { vm_compute in Ec. injection Ec as <-. vm_compute. reflexivity. }
  rewrite Ecost in Htwo. cbn [Nat.add] in Htwo.
  destruct Htwo as (H4 & Hwin & Hrun & Hres & Hdocs & _).
  split; [rewrite H4; reflexivity|].
  split; [rewrite (proj1 (Hwin 6 ltac:(lia))); reflexivity|].
  split; [rewrite Hrun; reflexivity|].
  split; [rewrite Hres; reflexivity|].
  rewrite Hdocs, Hlen. reflexivity.
Defined.

End WritePathFacts.

(* ================================================================== *)
(** * The rule engine: further properties *)
(* ================================================================== *)

Module EngineMoreFacts.
Import Engine EngineSpec EngineMore FloatOrderDefs.

(** ** Strings *)

Lemma string_eqb_eq (a b : jsstring) : string_eqb a b = true <-> a = b.
Proof.
  revert b. induction a as [|x a IH]; intros [|y b]; simpl; split; intros H;
    try reflexivity; try discriminate.
  - apply andb_true_iff in H as [Hx Ha]. apply N.eqb_eq in Hx. apply IH in Ha. congruence.
  - injection H as -> ->. rewrite N.eqb_refl. simpl. apply IH. reflexivity.
Qed.

Lemma startsWith_prefix (s p : jsstring) :
  startsWith s p = true <-> exists post, s = p ++ post.
Proof.
  revert s. induction p as [|x p IH]; intros s; simpl.
  - split; [intros _; exists s; reflexivity | intros _; destruct s; reflexivity].
  - destruct s as [|y s]; simpl.
    + split; [discriminate | intros [post H]; discriminate H].
    + split.
      * intros H. apply andb_true_iff in H as [Hx Hp]. apply N.eqb_eq in Hx.
        apply IH in Hp as [post ->]. exists post. congruence.
      * intros [post H]. injection H as -> ->. rewrite N.eqb_refl. simpl.
        apply IH. exists post. reflexivity.
Qed.

Lemma includes_occursIn (haystack needle : jsstring) :
  includes haystack needle = true <-> occursIn needle haystack.
Proof.
  unfold occursIn. induction haystack as [|c rest IH]; cbn [includes].
  - rewrite orb_false_r, startsWith_prefix. split.
    + intros [post H]. exists [], post. exact H.
    + intros (pre & post & H). destruct pre as [|x pre]; [exists post; exact H | discriminate H].
  - rewrite orb_true_iff, startsWith_prefix, IH. split.
    + intros [[post H] | (pre & post & H)].
      * exists [], post. exact H.
      * exists (c :: pre), post. simpl. rewrite H. reflexivity.
    + intros (pre & post & H). destruct pre as [|x pre].
      * left. exists post. exact H.
      * right. injection H as _ H. exists pre, post. exact H.
Qed.

(** ** [Math.max] of two numbers *)

Lemma max2_cases (x y : number) :
  isNaN x = false -> isNaN y = false -> max2 x y = x \/ max2 x y = y.
Proof.
  intros Hx Hy. unfold max2. rewrite Hx, Hy. simpl.
  destruct (y <? x)%float; [auto|]. destruct (x <? y)%float; [auto|].
  destruct (isNegZero x); auto.
Qed.

Lemma max2_ge_l (x y : number) : isNaN x = false -> isNaN y = false -> le x (max2 x y).
Proof.
  intros Hx Hy. unfold max2. rewrite Hx, Hy. simpl.
  destruct (y <? x)%float eqn:Eyx; [apply FloatOrder.le_refl; assumption|].
  destruct (x <? y)%float eqn:Exy; [apply FloatOrder.ltb_le; assumption|].
  destruct (isNegZero x);
    [apply FloatOrder.not_ltb_le; assumption | apply FloatOrder.le_refl; assumption].
Qed.

Lemma clamp_unit (w : number) :
  isNaN (max2 0%float (min2 1%float w)) = true \/
  (le 0%float (max2 0%float (min2 1%float w)) /\ le (max2 0%float (min2 1%float w)) 1%float).
Proof.
  destruct (isNaN w) eqn:Hw.
  - left. unfold min2. rewrite Hw, orb_true_r. reflexivity.
  - right.
    assert (H1 : isNaN 1%float = false) by reflexivity.
    assert (H0 : isNaN 0%float = false) by reflexivity.
    assert (Hm : isNaN (min2 1%float w) = false) by (apply FloatOrder.min2_not_nan; assumption).
    split; [apply max2_ge_l; assumption|].
    destruct (max2_cases 0%float (min2 1%float w) H0 Hm) as [-> | ->];
      [reflexivity | apply FloatOrder.min2_le_l; assumption].
Qed.

Section WithHost.
Context {host : Host}.

(** X1. [getValueAtPath] walks a path piece by piece: the value at [p ++ q]
    is the value at [q] of the value at [p]. It never throws: below [null],
    [undefined] or a value that is not an object every further key gives
    [undefined]. *)
Theorem getValueAtPath_composes :
  (forall (record : value) (p q : list jsstring),
     getValueAtPath record (p ++ q) = getValueAtPath (getValueAtPath record p) q) /\
  (forall (v : value) (key : jsstring) (rest : list jsstring),
     isNullish v = true \/ typeofObject v = false ->
     getValueAtPath v (key :: rest) = VUndefined).
Proof.
  split.
  - intros record p. revert record. induction p as [|key p IH]; intros record q; simpl.
    + reflexivity.
    + destruct (isNullish record); [destruct q; reflexivity|].
      destruct (typeofObject record); simpl; [apply IH | destruct q; reflexivity].
  - intros v key rest [H | H]; simpl; rewrite H; [reflexivity|].
    destruct (isNullish v); reflexivity.
Qed.

(** ** Where the outcomes ERROR and SKIP come from *)

Ltac split_ifs H :=
  repeat match type of H with
         | context [if ?c then _ else _] => destruct c eqn:?
         | context [match ?c with Some _ => _ | None => _ end] => destruct c eqn:?
         | context [match ?c with [] => _ | _ :: _ => _ end] => destruct c eqn:?
         | context [match ?c with Return _ => _ | Throw _ => _ end] => destruct c eqn:?
         | context [let '(_, _) := ?c in _] => destruct c eqn:?
         end.

(** An evaluator that returns gives PASS, FAIL or SKIP. *)
Lemma returned_not_error (ctx : QcExecutionContext) (rule : QcRuleDefinition)
    (result : QcRuleResult) :
  dispatch ctx rule = Return result -> RuleResult.outcome result <> ERROR.
Proof.
  unfold dispatch. intros H E.
  destruct (Rule.params rule) as [p|p|p|p|p|p|p|p|p|p|p].
  - unfold evalTextRegex, bind in H.
    split_ifs H; try discriminate H; injection H as <-; discriminate E.
  - unfold evalTextKeywordBlacklist, bind in H.
    split_ifs H; try discriminate H; injection H as <-; discriminate E.
  - unfold evalTextRequiredPhrase, bind in H.
    split_ifs H; try discriminate H; injection H as <-; discriminate E.
  - unfold evalNumericRange, assertKind in H.
    destruct (ctx_input ctx); simpl in H; try discriminate H.
    unfold bind in H. split_ifs H; try discriminate H; injection H as <-; discriminate E.
  - unfold evalRequiredField, assertKind in H.
    destruct (ctx_input ctx); simpl in H; try discriminate H.
    split_ifs H; injection H as <-; discriminate E.
  - unfold evalExcelAllCaps, assertKind in H.
    destruct (ctx_input ctx); simpl in H; try discriminate H.
    split_ifs H; injection H as <-; discriminate E.
  - unfold evalExcelRequiredColumns, assertKind in H.
    destruct (ctx_input ctx); simpl in H; try discriminate H.
    split_ifs H; injection H as <-; discriminate E.
  - unfold evalAudioDurationLimit, assertKind in H.
    destruct (ctx_input ctx); simpl in H; try discriminate H.
    split_ifs H; injection H as <-; discriminate E.
  - unfold evalSlaTimeDifference, assertKind in H.
    destruct (ctx_input ctx); simpl in H; try discriminate H.
    split_ifs H; injection H as <-; discriminate E.
  - injection H as <-. unfold evalToneClassification in E. split_ifs E; discriminate E.
  - injection H as <-. unfold evalImpliedAbuseDetection in E. split_ifs E; discriminate E.
Qed.

(** [String(v)] and [Number(v)] throw exactly on the values whose conversion
    to a primitive value throws. *)
Lemma stringOf_thrown (v : value) (e : thrown) :
  stringOf v = Throw e <-> throwsOnConversion v = true /\ e = conversionError.
Proof.
  unfold stringOf. destruct (throwsOnConversion v); split.
  - intros H. injection H as <-. auto.
  - intros [_ ->]. reflexivity.
  - discriminate.
  - intros [H _]. discriminate H.
Qed.

Lemma numberOf_thrown (v : value) (e : thrown) :
  numberOf v = Throw e <-> throwsOnConversion v = true /\ e = conversionError.
Proof.
  unfold numberOf. destruct (throwsOnConversion v); split.
  - intros H. injection H as <-. auto.
  - intros [_ ->]. reflexivity.
  - discriminate.
  - intros [H _]. discriminate H.
Qed.

(** [asTextFromInput] throws exactly when it converts the field of a record
    and the conversion throws. *)
Lemma asTextFromInput_thrown (input : QcNormalizedInput) (fieldPath : option (list jsstring))
    (e : thrown) :
  asTextFromInput input fieldPath = Throw e <->
  exists record key rest,
    input = InRecord record /\ fieldPath = Some (key :: rest) /\
    (forall s, getValueAtPath record (key :: rest) <> VStr s) /\
    throwsOnConversion (getValueAtPath record (key :: rest)) = true /\
    e = conversionError.
Proof.
  split.
  - unfold asTextFromInput. intros H.
    destruct input as [text meta|record|columns rows|durationMs meta];
      try (destruct fieldPath; discriminate H).
    destruct fieldPath as [[|key rest]|]; try discriminate H.
    exists record, key, rest.
    destruct (getValueAtPath record (key :: rest)) eqn:Ev; try discriminate H;
      unfold bind in H;
      match type of H with context [stringOf ?v] =>
        destruct (stringOf v) eqn:Es; [discriminate H|];
        injection H as <-; apply stringOf_thrown in Es as [Ht ->]
      end;
      (split; [reflexivity|]); (split; [reflexivity|]);
      (split; [discriminate|]); (split; [exact Ht | reflexivity]).
  - intros (record & key & rest & -> & -> & Hs & Ht & ->). unfold asTextFromInput.
    destruct (getValueAtPath record (key :: rest)) eqn:Ev; try discriminate Ht;
      unfold bind, stringOf; rewrite Ht; reflexivity.
Qed.

Lemma text_rule_converts (ctx : QcExecutionContext) (rule : QcRuleDefinition) (e : thrown) :
  isTextRule (Rule.type rule) = true ->
  asTextFromInput (ctx_input ctx) (textFieldPath rule) = Throw e ->
  exists v, convertedValue ctx rule = Some v /\ throwsOnConversion v = true.
Proof.
  intros Ht H. apply asTextFromInput_thrown in H
    as (record & key & rest & Ei & Ep & Hs & Hthrow & _).
  exists (getValueAtPath record (key :: rest)). split; [|exact Hthrow].
  unfold convertedValue. rewrite Ei.
  unfold Rule.type in Ht.
  destruct (Rule.params rule); try discriminate Ht; rewrite Ep;
    destruct (getValueAtPath record (key :: rest)) eqn:Ev;
    try discriminate Hthrow; reflexivity.
Qed.

(** An evaluator throws on an input of another kind than it asserts, when the
    regular expression of a TEXT_REGEX rule cannot be built or run, or when
    the conversion of a field by [String] or [Number] throws. *)
Lemma thrown_causes (ctx : QcExecutionContext) (rule : QcRuleDefinition) (e : thrown) :
  dispatch ctx rule = Throw e ->
  (exists k, assertedKind (Rule.type rule) = Some k /\ kind (ctx_input ctx) <> k) \/
  (exists p text, Rule.params rule = PTextRegex p /\
     asTextFromInput (ctx_input ctx) (tr_fieldPath p) = Return (Some text) /\
     regExpTest (pattern p) (flagsOf p) text = Throw e) \/
  (exists v, convertedValue ctx rule = Some v /\ throwsOnConversion v = true).
Proof.
  intros H.
  assert (Htext : forall e', isTextRule (Rule.type rule) = true ->
            asTextFromInput (ctx_input ctx) (textFieldPath rule) = Throw e' ->
            exists v, convertedValue ctx rule = Some v /\ throwsOnConversion v = true)
    by (intros e'; apply text_rule_converts).
  unfold dispatch in H. unfold Rule.type, textFieldPath in *.
  destruct (Rule.params rule) as [p|p|p|p|p|p|p|p|p|p|p] eqn:Ep; try discriminate H.
  - right. unfold evalTextRegex, bind in H.
    destruct (asTextFromInput _ _) as [[text|]|e'] eqn:Et; try discriminate H.
    + left. exists p, text. split; [reflexivity|]. split; [exact Et|].
      unfold flagsOf. destruct (regExpTest _ _ _); [discriminate H | congruence].
    + right. exact (Htext e' eq_refl eq_refl).
  - right. right. unfold evalTextKeywordBlacklist, bind in H.
    destruct (asTextFromInput _ _) as [[text|]|e'] eqn:Et; try discriminate H.
    exact (Htext e' eq_refl eq_refl).
  - right. right. unfold evalTextRequiredPhrase, bind in H.
    destruct (asTextFromInput _ _) as [[text|]|e'] eqn:Et; try discriminate H.
    exact (Htext e' eq_refl eq_refl).
  - unfold evalNumericRange, assertKind in H.
    destruct (ctx_input ctx) as [text meta|record|columns rows|durationMs meta] eqn:Ei;
      simpl in H;
      try (left; exists KRecord; split; [reflexivity | discriminate]).
    right. right. unfold convertedValue. rewrite Ei, Ep.
    destruct (getValueAtPath record (nr_fieldPath p)) eqn:Ev; simpl in H; unfold bind in H;
      try (split_ifs H; discriminate H);
      match type of H with context [numberOf ?v] =>
        destruct (numberOf v) eqn:En; [split_ifs H; discriminate H|];
        apply numberOf_thrown in En as [Ht _]; exists v; split; [reflexivity | exact Ht]
      end.
  - left. exists KRecord. split; [reflexivity|].
    unfold evalRequiredField, assertKind in H.
    destruct (ctx_input ctx); simpl in H; try discriminate; split_ifs H; discriminate H.
  - left. exists KTable. split; [reflexivity|].
    unfold evalExcelAllCaps, assertKind in H.
    destruct (ctx_input ctx); simpl in H; try discriminate; split_ifs H; discriminate H.
  - left. exists KTable. split; [reflexivity|].
    unfold evalExcelRequiredColumns, assertKind in H.
    destruct (ctx_input ctx); simpl in H; try discriminate; split_ifs H; discriminate H.
  - left. exists KAudio. split; [reflexivity|].
    unfold evalAudioDurationLimit, assertKind in H.
    destruct (ctx_input ctx); simpl in H; try discriminate; split_ifs H; discriminate H.
  - left. exists KRecord. split; [reflexivity|].
    unfold evalSlaTimeDifference, assertKind in H.
    destruct (ctx_input ctx); simpl in H; try discriminate; split_ifs H; discriminate H.
Qed.

(** An enabled rule whose evaluator throws ends in ERROR. *)
Lemma thrown_gives_error (ctx : QcExecutionContext) (rule : QcRuleDefinition) (e : thrown) :
  Rule.enabled rule = true -> dispatch ctx rule = Throw e ->
  RuleResult.outcome (evaluateRule ctx rule) = ERROR.
Proof. intros En H. unfold evaluateRule. rewrite En, H. reflexivity. Qed.

Lemma mismatch_throws (ctx : QcExecutionContext) (rule : QcRuleDefinition) (k : InputKind) :
  assertedKind (Rule.type rule) = Some k -> kind (ctx_input ctx) <> k ->
  exists e, dispatch ctx rule = Throw e.
Proof.
  intros Hk Hne. unfold dispatch, Rule.type in *.
  destruct (Rule.params rule); simpl in Hk; try discriminate; injection Hk as <-;
    [ unfold evalNumericRange | unfold evalRequiredField | unfold evalExcelAllCaps
    | unfold evalExcelRequiredColumns | unfold evalAudioDurationLimit
    | unfold evalSlaTimeDifference ];
    rewrite EngineFacts.assertKind_mismatch by exact Hne; eexists; reflexivity.
Qed.

Lemma conversion_throws (ctx : QcExecutionContext) (rule : QcRuleDefinition) (v : value) :
  convertedValue ctx rule = Some v -> throwsOnConversion v = true ->
  dispatch ctx rule = Throw conversionError.
Proof.
  unfold convertedValue, dispatch, textFieldPath. intros Hv Ht.
  destruct (ctx_input ctx) as [text meta|record|columns rows|durationMs meta];
    try discriminate Hv.
  destruct (Rule.params rule) as [p|p|p|p|p|p|p|p|p|p|p]; try discriminate Hv.
  - unfold evalTextRegex, asTextFromInput.
    destruct (tr_fieldPath p) as [[|key rest]|]; try discriminate Hv.
    destruct (getValueAtPath record (key :: rest)); try discriminate Hv;
      injection Hv as <-; unfold bind, stringOf; rewrite Ht; reflexivity.
  - unfold evalTextKeywordBlacklist, asTextFromInput.
    destruct (kb_fieldPath p) as [[|key rest]|]; try discriminate Hv.
    destruct (getValueAtPath record (key :: rest)); try discriminate Hv;
      injection Hv as <-; unfold bind, stringOf; rewrite Ht; reflexivity.
  - unfold evalTextRequiredPhrase, asTextFromInput.
    destruct (rp_fieldPath p) as [[|key rest]|]; try discriminate Hv.
    destruct (getValueAtPath record (key :: rest)); try discriminate Hv;
      injection Hv as <-; unfold bind, stringOf; rewrite Ht; reflexivity.
  - unfold evalNumericRange, assertKind. cbn [kind kind_eqb negb bind].
    destruct (getValueAtPath record (nr_fieldPath p)); try discriminate Hv;
      injection Hv as <-; cbn [isNullish]; unfold bind, numberOf; rewrite Ht; reflexivity.
Qed.

(** X2. The result of a rule of one of the eleven rule types is ERROR exactly
    when the rule is enabled and its evaluator throws, which happens in three
    cases only: the evaluator asserts an input kind (record, table or audio)
    other than the kind of the input; the rule is a TEXT_REGEX rule that found
    a text and whose regular expression threw; or a text rule or a
    NUMERIC_RANGE rule hands a field of the record to [String] or [Number] and
    the field is an object with an own property [toString], or an array that
    holds one, whose conversion throws a TypeError. Missing fields, values that
    are not numbers, timestamps that cannot be parsed and absent AI signals
    never give ERROR. *)
Theorem error_has_three_causes (ctx : QcExecutionContext) (rule : QcRuleDefinition) :
  RuleResult.outcome (evaluateRule ctx rule) = ERROR <->
  Rule.enabled rule = true /\
  ((exists k, assertedKind (Rule.type rule) = Some k /\ kind (ctx_input ctx) <> k) \/
   (exists p text e, Rule.params rule = PTextRegex p /\
      asTextFromInput (ctx_input ctx) (tr_fieldPath p) = Return (Some text) /\
      regExpTest (pattern p) (flagsOf p) text = Throw e) \/
   (exists v, convertedValue ctx rule = Some v /\ throwsOnConversion v = true)).
Proof.
  split.
  - unfold evaluateRule. destruct (Rule.enabled rule); simpl; [|discriminate].
    intros H. split; [reflexivity|].
    destruct (dispatch ctx rule) as [result|e] eqn:Ed.
    + exfalso. exact (returned_not_error ctx rule result Ed H).
    + destruct (thrown_causes ctx rule e Ed) as [Hk | [(p & text & Hp & Ht & Hr) | Hv]];
        [left; exact Hk | right; left; exists p, text, e; auto | right; right; exact Hv].
  - intros [En [(k & Hk & Hne) | [(p & text & e & Hp & Ht & Hr) | (v & Hv & Ht)]]].
    + destruct (mismatch_throws ctx rule k Hk Hne) as [e He].
      exact (thrown_gives_error ctx rule e En He).
    + apply (thrown_gives_error ctx rule e En).
      unfold dispatch. rewrite Hp. unfold evalTextRegex, bind. rewrite Ht.
      unfold flagsOf in Hr. rewrite Hr. reflexivity.
    + exact (thrown_gives_error ctx rule _ En (conversion_throws ctx rule v Hv Ht)).
Qed.

(** X3. A rule is skipped for four reasons only: it is disabled; it is a text
    rule and the input gives no text (a table or audio input, or a record
    without a field path or whose field is missing); it is an EXCEL_ALL_CAPS
    rule on a table; it is an AI rule and its signal is absent. The first,
    second and fourth always skip. So the record rules, EXCEL_REQUIRED_COLUMNS
    and AUDIO_DURATION_LIMIT never skip when enabled. *)
Theorem skip_has_four_causes (ctx : QcExecutionContext) (rule : QcRuleDefinition) :
  (RuleResult.outcome (evaluateRule ctx rule) = SKIP ->
   Rule.enabled rule = false \/
   (isTextRule (Rule.type rule) = true /\
    asTextFromInput (ctx_input ctx) (textFieldPath rule) = Return None) \/
   (Rule.type rule = EXCEL_ALL_CAPS /\ kind (ctx_input ctx) = KTable) \/
   (isAiRule (Rule.type rule) = true /\
    signalOf (ctx_aiSignals ctx) (Rule.type rule) = None)) /\
  (Rule.enabled rule = false ->
   evaluateRule ctx rule = skip rule (str "Rule disabled")) /\
  (Rule.enabled rule = true -> isTextRule (Rule.type rule) = true ->
   asTextFromInput (ctx_input ctx) (textFieldPath rule) = Return None ->
   evaluateRule ctx rule = skip rule (str "No text available for evaluation")) /\
  (Rule.enabled rule = true -> isAiRule (Rule.type rule) = true ->
   signalOf (ctx_aiSignals ctx) (Rule.type rule) = None ->
   RuleResult.outcome (evaluateRule ctx rule) = SKIP).
Proof.
  unfold evaluateRule, dispatch, Rule.type, textFieldPath, signalOf.
  split; [|split; [|split]].
  - destruct (Rule.enabled rule); simpl; [|auto]. intros H. right.
    destruct (Rule.params rule) as [p|p|p|p|p|p|p|p|p|p|p]; simpl.
    + left. split; [reflexivity|]. unfold evalTextRegex, bind in H.
      destruct (asTextFromInput _ _) as [[text|]|e]; [|reflexivity|discriminate H]. exfalso.
      destruct (regExpTest _ _ _) as [matched|e]; simpl in H;
        [destruct (mustMatch p), matched|]; discriminate H.
    + left. split; [reflexivity|]. unfold evalTextKeywordBlacklist, bind in H.
      destruct (asTextFromInput _ _) as [[text|]|e]; [|reflexivity|discriminate H].
      split_ifs H; discriminate H.
    + left. split; [reflexivity|]. unfold evalTextRequiredPhrase, bind in H.
      destruct (asTextFromInput _ _) as [[text|]|e]; [|reflexivity|discriminate H].
      split_ifs H; discriminate H.
    + exfalso. unfold evalNumericRange, assertKind in H.
      destruct (ctx_input ctx) as [text meta|record|columns rows|durationMs meta];
        simpl in H; try discriminate H.
      destruct (getValueAtPath record (nr_fieldPath p)); simpl in H;
        unfold bind, numberOf in H; split_ifs H; discriminate H.
    + exfalso. unfold evalRequiredField, assertKind in H.
      destruct (ctx_input ctx); simpl in H; split_ifs H; discriminate H.
    + right. left. split; [reflexivity|]. unfold evalExcelAllCaps, assertKind in H.
      destruct (ctx_input ctx); simpl in H; try discriminate H. reflexivity.
    + exfalso. unfold evalExcelRequiredColumns, assertKind in H.
      destruct (ctx_input ctx); simpl in H; split_ifs H; discriminate H.
    + exfalso. unfold evalAudioDurationLimit, assertKind in H.
      destruct (ctx_input ctx); simpl in H; split_ifs H; discriminate H.
    + exfalso. unfold evalSlaTimeDifference, assertKind in H.
      destruct (ctx_input ctx); simpl in H; split_ifs H; discriminate H.
    + right. right. split; [reflexivity|]. unfold evalToneClassification in H.
      destruct (ctx_aiSignals ctx) as [s|]; [|reflexivity].
      destruct (tone s); [|reflexivity]. split_ifs H; discriminate H.
    + right. right. split; [reflexivity|]. unfold evalImpliedAbuseDetection in H.
      destruct (ctx_aiSignals ctx) as [s|]; [|reflexivity].
      destruct (impliedAbuse s); [|reflexivity]. split_ifs H; discriminate H.
  - intros ->. reflexivity.
  - intros -> Ht Hn. simpl.
    destruct (Rule.params rule) as [p|p|p|p|p|p|p|p|p|p|p]; try discriminate Ht.
    + unfold evalTextRegex. rewrite Hn. reflexivity.
    + unfold evalTextKeywordBlacklist. rewrite Hn. reflexivity.
    + unfold evalTextRequiredPhrase. rewrite Hn. reflexivity.
  - intros -> Ht Hn. simpl.
    destruct (Rule.params rule) as [p|p|p|p|p|p|p|p|p|p|p]; try discriminate Ht.
    + unfold evalToneClassification.
      destruct (ctx_aiSignals ctx) as [s|]; [rewrite Hn|]; reflexivity.
    + unfold evalImpliedAbuseDetection.
      destruct (ctx_aiSignals ctx) as [s|]; [rewrite Hn|]; reflexivity.
Qed.

(** ** The text rules *)

Lemma filter_nonempty_exists {A} (f : A -> bool) (xs : list A) :
  filter f xs <> [] <-> exists x, In x xs /\ f x = true.
Proof.
  split.
  - intros H. destruct (filter f xs) as [|x rest] eqn:E; [congruence|].
    exists x. apply filter_In. rewrite E. left. reflexivity.
  - intros (x & Hin & Hf) E.
    assert (Hx : In x (filter f xs)) by (apply filter_In; auto).
    rewrite E in Hx. exact Hx.
Qed.

Lemma nonempty_occurs (needle haystack : jsstring) :
  (0 <? length needle) && includes haystack needle = true
  <-> needle <> [] /\ occursIn needle haystack.
Proof.
  rewrite andb_true_iff, includes_occursIn, Nat.ltb_lt.
  destruct needle; simpl; split; intros [H1 H2]; split; auto; try lia; congruence.
Qed.

(** X4. An enabled TEXT_KEYWORD_BLACKLIST rule that finds a text fails exactly
    when one of its keywords, after case normalisation, is not empty and
    occurs in the normalised text as a run of consecutive characters; otherwise
    it passes. An empty keyword is ignored, and a keyword matches inside a
    longer word as well. *)
Theorem blacklist_fails_on_occurrence (ctx : QcExecutionContext) (rule : QcRuleDefinition)
    (p : TextKeywordBlacklistParams) (text : jsstring) :
  Rule.enabled rule = true ->
  Rule.params rule = PTextKeywordBlacklist p ->
  asTextFromInput (ctx_input ctx) (kb_fieldPath p) = Return (Some text) ->
  (RuleResult.outcome (evaluateRule ctx rule) = FAIL <->
   exists keyword,
     In keyword (keywords p) /\
     normalizeCase keyword (kb_caseSensitive p) <> [] /\
     occursIn (normalizeCase keyword (kb_caseSensitive p))
              (normalizeCase text (kb_caseSensitive p))) /\
  (RuleResult.outcome (evaluateRule ctx rule) = PASS \/
   RuleResult.outcome (evaluateRule ctx rule) = FAIL).
Proof.
  intros En Ep Et. unfold evaluateRule, dispatch. rewrite En, Ep. simpl.
  unfold evalTextKeywordBlacklist. rewrite Et. cbn [bind].
  match goal with |- context [filter ?f (keywords p)] => set (found := filter f (keywords p));
    pose proof (filter_nonempty_exists f (keywords p)) as Hex; fold found in Hex end.
  assert (Hiff : found <> [] <->
    exists keyword, In keyword (keywords p) /\
      normalizeCase keyword (kb_caseSensitive p) <> [] /\
      occursIn (normalizeCase keyword (kb_caseSensitive p))
               (normalizeCase text (kb_caseSensitive p))).
  { rewrite Hex. split; intros (k & Hin & Hk); exists k; (split; [exact Hin|]);
      apply nonempty_occurs; exact Hk. }
  destruct found as [|k0 rest]; simpl; split; auto.
  - rewrite <- Hiff. split; [discriminate | congruence].
  - rewrite <- Hiff. split; [discriminate | reflexivity].
Qed.

(** X5. An enabled TEXT_REQUIRED_PHRASE rule that finds a text passes exactly
    when its phrase, after case normalisation, is not empty and occurs in the
    normalised text; otherwise it fails. So a rule with an empty phrase fails
    on every text. *)
Theorem required_phrase_passes_on_occurrence (ctx : QcExecutionContext)
    (rule : QcRuleDefinition) (p : TextRequiredPhraseParams) (text : jsstring) :
  Rule.enabled rule = true ->
  Rule.params rule = PTextRequiredPhrase p ->
  asTextFromInput (ctx_input ctx) (rp_fieldPath p) = Return (Some text) ->
  (RuleResult.outcome (evaluateRule ctx rule) = PASS <->
   normalizeCase (phrase p) (rp_caseSensitive p) <> [] /\
   occursIn (normalizeCase (phrase p) (rp_caseSensitive p))
            (normalizeCase text (rp_caseSensitive p))) /\
  (RuleResult.outcome (evaluateRule ctx rule) = PASS \/
   RuleResult.outcome (evaluateRule ctx rule) = FAIL) /\
  (normalizeCase (phrase p) (rp_caseSensitive p) = [] ->
   RuleResult.outcome (evaluateRule ctx rule) = FAIL).
Proof.
  intros En Ep Et. unfold evaluateRule, dispatch. rewrite En, Ep. simpl.
  unfold evalTextRequiredPhrase. rewrite Et. cbn [bind].
  pose proof (nonempty_occurs (normalizeCase (phrase p) (rp_caseSensitive p))
                (normalizeCase text (rp_caseSensitive p))) as Hiff.
  destruct ((0 <? length _) && includes _ _) eqn:E; simpl.
  - split; [|split; [auto|]].
    + split; [intros _; apply Hiff; reflexivity | reflexivity].
    + intros Hn. exfalso. destruct (proj1 Hiff eq_refl) as [Hne _]. exact (Hne Hn).
  - split; [|split; [auto|reflexivity]].
    split; [discriminate|]. intros H. apply Hiff in H. discriminate H.
Qed.

(** ** The summary *)

(** X6. The overall score [runQc] returns is clamped: it is a number between
    0 and 1, or NaN (which the clamp lets through when the weighted average is
    NaN). *)
Theorem overall_score_is_clamped (request : RunQcRequest) :
  match runQc request with
  | Throw _ => configError request = true
  | Return res =>
      isNaN (RunSummary.overallScore (summary res)) = true \/
      (le 0%float (RunSummary.overallScore (summary res)) /\
       le (RunSummary.overallScore (summary res)) 1%float)
  end.
Proof.
  unfold runQc, configError, thresholdOf.
  destruct ((_ <? 0)%float || (1 <? _)%float); [reflexivity|].
  simpl. apply clamp_unit.
Qed.

Lemma failedRuleIds_summarize (threshold : number) (blocker : bool) (iso : jsstring)
    (ctx : QcExecutionContext) (rules : list QcRuleDefinition) :
  RunSummary.failedRuleIds (summarize threshold blocker iso (map (evaluateRule ctx) rules))
  = map Rule.ruleId (filter (fun rule => hasOutcome FAIL (evaluateRule ctx rule)) rules).
Proof.
  unfold summarize. cbn [RunSummary.failedRuleIds].
  induction rules as [|rule rest IH]; simpl; [reflexivity|].
  unfold hasOutcome at 1.
  destruct (outcome_eqb (RuleResult.outcome (evaluateRule ctx rule)) FAIL);
    simpl; rewrite IH; [|reflexivity].
  destruct (EngineFacts.built_evaluateRule ctx rule) as [o ev err].
  reflexivity.
Qed.

(** X7. The failed rules of a summary are, in rule order, the identifiers of
    exactly the rules whose result is FAIL; a rule that is skipped or in error
    is not listed. *)
Theorem failed_rule_ids_are_the_failing_rules (request : RunQcRequest) :
  match runQc request with
  | Throw _ => configError request = true
  | Return res =>
      RunSummary.failedRuleIds (summary res)
      = map Rule.ruleId
            (filter (fun rule => hasOutcome FAIL (evaluateRule (contextOf request) rule))
                    (rules request))
  end.
Proof.
  rewrite EngineFacts.runQc_unfold. destruct (configError request); [reflexivity|].
  cbn [summary]. apply failedRuleIds_summarize.
Qed.

(** ** Required columns *)

Lemma flat_map_nil {A B} (f : A -> list B) (xs : list A) :
  flat_map f xs = [] <-> forall x, In x xs -> f x = [].
Proof.
  induction xs as [|x xs IH]; simpl.
  - split; [intros _ x [] | reflexivity].
  - split.
    + intros H. apply app_eq_nil in H as [Hx Hxs]. intros y [<- | Hy]; [exact Hx|].
      apply IH; assumption.
    + intros H. rewrite (H x (or_introl eq_refl)). apply IH. intros y Hy. apply H. right.
      exact Hy.
Qed.

Lemma arrayIncludes_In (arr : list jsstring) (s : jsstring) :
  arrayIncludes arr s = true <-> In s arr.
Proof.
  unfold arrayIncludes. rewrite existsb_exists. split.
  - intros (x & Hin & Hx). apply string_eqb_eq in Hx. subst. exact Hin.
  - intros H. exists s. split; [exact H | apply string_eqb_eq; reflexivity].
Qed.

Lemma In_entries {A} (xs : list A) (x : A) :
  In x xs <-> exists i, In (i, x) (entries xs).
Proof.
  split.
  - intros H. rewrite <- (ListFacts.map_snd_entries xs) in H.
    apply in_map_iff in H as ([i y] & E & Hin). simpl in E. subst. exists i. exact Hin.
  - intros [i H]. unfold entries in H. apply in_combine_r in H. exact H.
Qed.

(** X8. An enabled EXCEL_REQUIRED_COLUMNS rule on a table passes exactly when
    every required column is among the columns of the table, names being
    compared as they are when the rule is case sensitive and in lower case
    otherwise; it fails otherwise. The rows play no part. *)
Theorem required_columns_pass_when_all_present (ctx : QcExecutionContext)
    (rule : QcRuleDefinition) (p : ExcelRequiredColumnsParams)
    (columns : list jsstring) (rows : list value) :
  Rule.enabled rule = true ->
  Rule.params rule = PExcelRequiredColumns p ->
  ctx_input ctx = InTable columns rows ->
  let norm := fun name => if rc_caseSensitive p then name else toLowerCase name in
  (RuleResult.outcome (evaluateRule ctx rule) = PASS <->
   forall req, In req (requiredColumns p) -> In (norm req) (map norm columns)) /\
  (RuleResult.outcome (evaluateRule ctx rule) = PASS \/
   RuleResult.outcome (evaluateRule ctx rule) = FAIL).
Proof.
  intros En Ep Ei norm. unfold evaluateRule, dispatch. rewrite En, Ep, Ei.
  unfold evalExcelRequiredColumns, assertKind. cbn [kind kind_eqb negb bind].
  match goal with |- context [flat_map ?f ?l] => set (missing := flat_map f l);
    pose proof (flat_map_nil f l) as Hnil; fold missing in Hnil end.
  assert (Hiff : missing = [] <->
            forall req, In req (requiredColumns p) -> In (norm req) (map norm columns)).
  { rewrite Hnil. unfold norm. destruct (rc_caseSensitive p).
    - rewrite map_id. split.
      + intros H req Hin. apply In_entries in Hin as [i Hi]. specialize (H (i, req) Hi).
        simpl in H. destruct (arrayIncludes columns req) eqn:E; [|discriminate H].
        apply arrayIncludes_In. exact E.
      + intros H [i req] Hin. simpl.
        assert (Hr : In req (requiredColumns p)) by (apply In_entries; exists i; exact Hin).
        apply H, arrayIncludes_In in Hr. rewrite Hr. reflexivity.
    - split.
      + intros H req Hin. apply (in_map toLowerCase) in Hin.
        apply In_entries in Hin as [i Hi]. specialize (H (i, toLowerCase req) Hi).
        simpl in H.
        destruct (arrayIncludes (map toLowerCase columns) (toLowerCase req)) eqn:E;
          [|discriminate H].
        apply arrayIncludes_In in E. exact E.
      + intros H [i req] Hin. simpl.
        assert (Hr : In req (map toLowerCase (requiredColumns p)))
          by (apply In_entries; exists i; exact Hin).
        apply in_map_iff in Hr as (req0 & <- & Hr0).
        assert (Hinc : arrayIncludes (map toLowerCase columns) (toLowerCase req0) = true)
          by (apply arrayIncludes_In; exact (H req0 Hr0)).
        rewrite Hinc. reflexivity. }
  destruct missing as [|m rest]; simpl; split; auto.
  - rewrite <- Hiff. split; reflexivity.
  - rewrite <- Hiff. split; discriminate.
Qed.

End WithHost.

Import ExampleHost.

(** A record whose [amount] is the object [{ toString: 1 }]: [Number] throws
    on it in a NUMERIC_RANGE rule, and [String] in a text rule that reads the
    field. *)
Example conversion_error_on_own_toString :
  RuleResult.outcome (evaluateRule unconvertibleContext numericRangeRule) = ERROR /\
  RuleResult.error (evaluateRule unconvertibleContext numericRangeRule)
  = Some {| code := str "RULE_EVALUATION_ERROR";
            err_message := str "Cannot convert object to primitive value" |} /\
  RuleResult.outcome (evaluateRule unconvertibleContext amountPhraseRule) = ERROR /\
  RuleResult.outcome (evaluateRule tableContext numericRangeRule) = ERROR.
Proof. vm_compute. repeat split. Qed.

Lemma blacklist_fails_on_occurrence_witness :
  RuleResult.outcome (evaluateRule refundContext blacklistRule) = FAIL.
Proof.
  destruct (@blacklist_fails_on_occurrence ExampleHost.host refundContext blacklistRule
              {| kb_fieldPath := None; keywords := [str "refund"]; kb_caseSensitive := false |}
              (str "Your Order ID is 55. I want a refund") eq_refl eq_refl eq_refl)
    as [Hiff _].
  apply Hiff. exists (str "refund"). split; [left; reflexivity|]. split; [discriminate|].
  exists (str "your order id is 55. i want a "), []. vm_compute. reflexivity.
Defined.

Lemma required_phrase_passes_on_occurrence_witness :
  RuleResult.outcome (evaluateRule refundContext requiredPhraseRule) = PASS.
Proof.
  destruct (@required_phrase_passes_on_occurrence ExampleHost.host refundContext
              requiredPhraseRule
              {| rp_fieldPath := None; phrase := str "Order ID"; rp_caseSensitive := false |}
              (str "Your Order ID is 55. I want a refund") eq_refl eq_refl eq_refl)
    as [Hiff _].
  apply Hiff. split; [discriminate|].
  exists (str "your "), (str " is 55. i want a refund"). vm_compute. reflexivity.
Defined.

Lemma required_columns_pass_when_all_present_witness :
  RuleResult.outcome (evaluateRule tableContext amountColumnRule) = PASS.
Proof.
  destruct (@required_columns_pass_when_all_present ExampleHost.host tableContext
              amountColumnRule
              {| requiredColumns := [str "Amount"]; rc_caseSensitive := false |}
              [str "amount"] [] eq_refl eq_refl eq_refl) as [Hiff _].
  apply Hiff. intros req [<- | []]. left. vm_compute. reflexivity.
Defined.

End EngineMoreFacts.

(* ================================================================== *)
(** * Result documents and evaluation of a run: further properties *)
(* ================================================================== *)

Module ResultMoreFacts.
Import Engine Mapping ChatSplit Processor EngineSpec AggregatorSpec ResultMore FloatOrderDefs.

(** ** Counters *)

Lemma counts_fold (docs : list RuleResultDoc.t) (c : RuleCounts) :
  let c' := fold_left
    (fun counts r =>
       match RuleResultDoc.status r with
       | PASS => {| total := total counts; pass := S (pass counts); fail := fail counts;
                    notEvaluated := notEvaluated counts; error := error counts |}
       | FAIL => {| total := total counts; pass := pass counts; fail := S (fail counts);
                    notEvaluated := notEvaluated counts; error := error counts |}
       | ERROR => {| total := total counts; pass := pass counts; fail := fail counts;
                     notEvaluated := notEvaluated counts; error := S (error counts) |}
       | NOT_EVALUATED =>
                  {| total := total counts; pass := pass counts; fail := fail counts;
                     notEvaluated := S (notEvaluated counts); error := error counts |}
       end) docs c in
  total c' = total c /\
  pass c' = pass c + countStatus PASS docs /\
  fail c' = fail c + countStatus FAIL docs /\
  notEvaluated c' = notEvaluated c + countStatus NOT_EVALUATED docs /\
  error c' = error c + countStatus ERROR docs.
Proof.
  revert c. induction docs as [|d docs IH]; intros c; cbv zeta.
  - unfold countStatus. simpl. repeat split; lia.
  - cbn [fold_left]. specialize (IH
      match RuleResultDoc.status d with
      | PASS => {| total := total c; pass := S (pass c); fail := fail c;
                   notEvaluated := notEvaluated c; error := error c |}
      | FAIL => {| total := total c; pass := pass c; fail := S (fail c);
                   notEvaluated := notEvaluated c; error := error c |}
      | ERROR => {| total := total c; pass := pass c; fail := fail c;
                    notEvaluated := notEvaluated c; error := S (error c) |}
      | NOT_EVALUATED =>
                 {| total := total c; pass := pass c; fail := fail c;
                    notEvaluated := S (notEvaluated c); error := error c |}
      end). cbv zeta in IH.
    destruct IH as (H0 & H1 & H2 & H3 & H4). rewrite H0, H1, H2, H3, H4.
    unfold countStatus. simpl filter.
    destruct (RuleResultDoc.status d); simpl; repeat split; lia.
Qed.

Lemma countStatus_partition (docs : list RuleResultDoc.t) :
  countStatus PASS docs + countStatus FAIL docs + countStatus NOT_EVALUATED docs
  + countStatus ERROR docs = length docs.
Proof.
  unfold countStatus. induction docs as [|d docs IH]; simpl; [reflexivity|].
  destruct (RuleResultDoc.status d); simpl; lia.
Qed.

Lemma counts_are_countStatus (docs : list RuleResultDoc.t) :
  total (summarizeRuleStatuses docs) = length docs /\
  pass (summarizeRuleStatuses docs) = countStatus PASS docs /\
  fail (summarizeRuleStatuses docs) = countStatus FAIL docs /\
  notEvaluated (summarizeRuleStatuses docs) = countStatus NOT_EVALUATED docs /\
  error (summarizeRuleStatuses docs) = countStatus ERROR docs.
Proof.
  unfold summarizeRuleStatuses.
  destruct (counts_fold docs {| total := length docs; pass := 0; fail := 0;
                                notEvaluated := 0; error := 0 |})
    as (H0 & H1 & H2 & H3 & H4).
  rewrite H0, H1, H2, H3, H4. simpl. repeat split.
Qed.

(** X9. The counters of [summarizeRuleStatuses] partition the documents:
    [total] is their number, each of [pass], [fail], [notEvaluated] and
    [error] is the number of documents with that status, and the four add up
    to [total]. *)
Theorem rule_counts_partition (docs : list RuleResultDoc.t) :
  total (summarizeRuleStatuses docs) = length docs /\
  pass (summarizeRuleStatuses docs) = countStatus PASS docs /\
  fail (summarizeRuleStatuses docs) = countStatus FAIL docs /\
  notEvaluated (summarizeRuleStatuses docs) = countStatus NOT_EVALUATED docs /\
  error (summarizeRuleStatuses docs) = countStatus ERROR docs /\
  pass (summarizeRuleStatuses docs) + fail (summarizeRuleStatuses docs)
  + notEvaluated (summarizeRuleStatuses docs) + error (summarizeRuleStatuses docs)
  = total (summarizeRuleStatuses docs).
Proof.
  destruct (counts_are_countStatus docs) as (H0 & H1 & H2 & H3 & H4).
  rewrite H0, H1, H2, H3, H4. repeat split. apply countStatus_partition.
Qed.

(** ** The combined documents *)

Lemma Forall2_nth_error_r {A B} (P : A -> B -> Prop) (xs : list A) (ys : list B) :
  Forall2 P xs ys ->
  forall i y, nth_error ys i = Some y -> exists x, nth_error xs i = Some x /\ P x y.
Proof.
  induction 1 as [|x0 y0 xs ys H0 _ IH]; intros i y Hi.
  - destruct i; discriminate.
  - destruct i as [|i]; simpl in *.
    + injection Hi as <-. exists x0. auto.
    + apply IH. exact Hi.
Qed.

(** The combined document of rule index [i] is built from the documents the
    segments hold at [i], on the base of the first segment's. *)
Lemma combined_from_first (first : ChatSegment * list RuleResultDoc.t)
    (rest : list (ChatSegment * list RuleResultDoc.t)) (n : nat) :
  Forall (fun x => length (snd x) = n) (first :: rest) ->
  exists out,
    combineAggregatedRuleDocs (first :: rest) = Return out /\
    length out = n /\
    forall i o, nth_error out i = Some o ->
      exists d entries,
        nth_error (snd first) i = Some d /\
        map snd entries = column i (first :: rest) /\
        entries <> [] /\
        o = combineEntries entries d.
Proof.
  intros Hlen.
  assert (Hn : length (snd first) = n) by (inversion Hlen; assumption).
  set (perChat := first :: rest) in *.
  unfold combineAggregatedRuleDocs. unfold perChat at 1. rewrite Hn. fold perChat.
  destruct (ListFacts.mapM_Forall2
    (fun i =>
       bind (mapM (fun x => match nth_error (snd x) i with
                            | Some doc => Return (fst x, doc)
                            | None =>
                                Throw (TypeError
                                  (str "Cannot read properties of undefined (reading 'status')"))
                            end) perChat)
            (fun entries =>
               match entries with
               | e0 :: _ => Return (combineEntries entries (snd e0))
               | [] => Throw (TypeError
                         (str "Cannot read properties of undefined (reading 'doc')"))
               end))
    (fun i o => exists d entries,
       nth_error (snd first) i = Some d /\ map snd entries = column i perChat /\
       entries <> [] /\ o = combineEntries entries d)
    (seq 0 n)) as (out & Eout & HP).
  - intros i Hi. apply in_seq in Hi.
    destruct (AggregatorFacts.entries_of_column perChat i n Hlen) as (entries & E & Hcol & Hl);
      [lia|].
    rewrite E. cbn [bind].
    destruct entries as [|e0 entries']; [discriminate Hl|].
    eexists. split; [reflexivity|].
    assert (Hd : nth_error (snd first) i = Some (snd e0)).
    { unfold perChat, column in Hcol. simpl in Hcol.
      destruct (nth_error (snd first) i) as [d|] eqn:Ed.
      - simpl in Hcol. injection Hcol as -> _. reflexivity.
      - apply nth_error_None in Ed. lia. }
    exists (snd e0), (e0 :: entries'). split; [exact Hd|]. split; [exact Hcol|].
    split; [discriminate | reflexivity].
  - exists out. split; [exact Eout|]. split.
    + apply Forall2_length in HP. rewrite length_seq in HP. symmetry. exact HP.
    + intros i o Ho.
      destruct (Forall2_nth_error_r _ _ _ HP i o Ho) as (j & Hj & d & entries & H1 & H2 & H3 & H4).
      assert (j = i).
      { pose proof Hj as Hj'. apply nth_error_In, in_seq in Hj'.
        rewrite nth_error_seq in Hj.
        destruct (i <? n); [injection Hj as <-; reflexivity | discriminate Hj]. }
      subst j. exists d, entries. auto.
Qed.

Lemma pushEvidence_cap (prefix : jsstring) (evidence : list EvidenceRef.t) (e : EvidenceRef.t) :
  length evidence <= 25 -> length (pushEvidence prefix evidence e) <= 25.
Proof.
  intros H. unfold pushEvidence. destruct (Nat.leb_spec 25 (length evidence)); [exact H|].
  rewrite length_app. simpl. lia.
Qed.

Lemma fold_pushEvidence_cap (prefix : jsstring) (es : list EvidenceRef.t) :
  forall evidence, length evidence <= 25 ->
    length (fold_left (pushEvidence prefix) es evidence) <= 25.
Proof.
  induction es as [|e es IH]; intros evidence H; simpl; [exact H|].
  apply IH, pushEvidence_cap, H.
Qed.

Lemma combineEntries_evidence_cap (entries : list (ChatSegment * RuleResultDoc.t))
    (base : RuleResultDoc.t) :
  length (RuleResultDoc.evidence (combineEntries entries base)) <= 25.
Proof.
  unfold combineEntries. cbn [RuleResultDoc.evidence].
  generalize (rankToStatus
                (Math_max (map (fun e => statusRank (RuleResultDoc.status (snd e))) entries))).
  intros status.
  match goal with |- length (fold_left ?f entries []) <= 25 =>
    assert (H : forall evidence, length evidence <= 25 ->
                  length (fold_left f entries evidence) <= 25) end.
  { induction entries as [|e entries IH]; intros evidence He; simpl; [exact He|].
    apply IH. destruct (negb _); [exact He|]. apply fold_pushEvidence_cap, He. }
  apply H. simpl. lia.
Qed.

(** X10. When every segment holds [n] rule documents, the aggregator returns
    [n] combined documents; the one at each index keeps the order, the rule
    identifier, name and type, the weight and the severity of the first
    segment's document at that index, and holds at most 25 evidence
    references. *)
Theorem combined_keeps_identity_and_caps_evidence
    (first : ChatSegment * list RuleResultDoc.t)
    (rest : list (ChatSegment * list RuleResultDoc.t)) (n : nat) :
  Forall (fun x => length (snd x) = n) (first :: rest) ->
  exists out,
    combineAggregatedRuleDocs (first :: rest) = Return out /\
    length out = n /\
    forall i o, nth_error out i = Some o ->
      length (RuleResultDoc.evidence o) <= 25 /\
      exists d,
        nth_error (snd first) i = Some d /\
        RuleResultDoc.order o = RuleResultDoc.order d /\
        RuleResultDoc.ruleId o = RuleResultDoc.ruleId d /\
        RuleResultDoc.ruleName o = RuleResultDoc.ruleName d /\
        RuleResultDoc.ruleType o = RuleResultDoc.ruleType d /\
        RuleResultDoc.weight o = RuleResultDoc.weight d /\
        RuleResultDoc.severity o = RuleResultDoc.severity d.
Proof.
  intros Hlen. destruct (combined_from_first first rest n Hlen) as (out & E & Hl & H).
  exists out. split; [exact E|]. split; [exact Hl|].
  intros i o Ho. destruct (H i o Ho) as (d & entries & Hd & _ & _ & ->).
  split; [apply combineEntries_evidence_cap|].
  exists d. split; [exact Hd|]. repeat split.
Qed.

Lemma combined_keeps_identity_and_caps_evidence_witness :
  exists out,
    combineAggregatedRuleDocs exampleSegments = Return out /\ length out = 2.
Proof.
  destruct (combined_keeps_identity_and_caps_evidence
              (exampleChat 0, [exampleDoc PASS 1%float; exampleDoc PASS 1%float])
              (tl exampleSegments) 2) as (out & E & Hl & _).
  - repeat constructor.
  - exists out. split; [exact E | exact Hl].
Defined.

(** ** The run summary of several chats *)

Lemma In_uniqStrings (xs : list jsstring) (x : jsstring) :
  In x (uniqStrings xs) <-> In x xs.
Proof.
  induction xs as [|y xs IH]; simpl; [reflexivity|].
  rewrite filter_In, IH. split.
  - intros [H | [H _]]; auto.
  - intros [H | H]; [auto|].
    destruct (string_eqb x y) eqn:E.
    + left. apply EngineMoreFacts.string_eqb_eq in E. congruence.
    + right. split; [exact H | reflexivity].
Qed.

Lemma NoDup_uniqStrings (xs : list jsstring) : NoDup (uniqStrings xs).
Proof.
  induction xs as [|y xs IH]; simpl; constructor.
  - rewrite filter_In. cbv beta. intros [_ H].
    assert (E : string_eqb y y = true) by (apply EngineMoreFacts.string_eqb_eq; reflexivity).
    rewrite E in H. discriminate H.
  - apply NoDup_filter. exact IH.
Qed.

Lemma run_summary_of_chats_members (chatSummaries : list ChatResultSummary.t)
    (id : jsstring) :
  In id (rs_failedRuleIds (combineRunSummaryFromChats chatSummaries)) <->
  exists c, In c chatSummaries /\ In id (failedRuleIds (ChatResultSummary.summary c)).
Proof.
  unfold combineRunSummaryFromChats. cbn [rs_failedRuleIds].
  rewrite In_uniqStrings, in_flat_map. reflexivity.
Qed.

(** X11. The run summary of several chats is FAIL exactly when one chat is
    FAIL; its failed rules are the failed rules of the chats, each listed once;
    its score is the lowest score of the chats when none is NaN. Without any
    chat it is PASS with score 1. *)
Theorem run_summary_of_chats (chatSummaries : list ChatResultSummary.t) :
  let r := combineRunSummaryFromChats chatSummaries in
  (rs_overallOutcome r = OverallFAIL <->
   exists c, In c chatSummaries /\
             overallOutcome (ChatResultSummary.summary c) = OverallFAIL) /\
  NoDup (rs_failedRuleIds r) /\
  (forall id, In id (rs_failedRuleIds r) <->
     exists c, In c chatSummaries /\ In id (failedRuleIds (ChatResultSummary.summary c))) /\
  (chatSummaries = [] -> rs_overallOutcome r = OverallPASS /\ rs_overallScore r = 1%float) /\
  (chatSummaries <> [] ->
   Forall (fun c => isNaN (overallScore (ChatResultSummary.summary c)) = false)
          chatSummaries ->
   (exists c, In c chatSummaries /\
              overallScore (ChatResultSummary.summary c) = rs_overallScore r) /\
   Forall (fun c => le (rs_overallScore r) (overallScore (ChatResultSummary.summary c)))
          chatSummaries).
Proof.
  cbv zeta. unfold combineRunSummaryFromChats.
  cbn [rs_overallOutcome rs_failedRuleIds rs_overallScore].
  split; [|split; [|split; [|split]]].
  - destruct (existsb _ chatSummaries) eqn:E.
    + split; [intros _|reflexivity]. apply existsb_exists in E as (c & Hc & Ho).
      exists c. split; [exact Hc|].
      destruct (overallOutcome (ChatResultSummary.summary c)); [discriminate Ho | reflexivity].
    + split; [discriminate|]. intros (c & Hc & Ho). exfalso.
      assert (E' : existsb (fun c => match overallOutcome (ChatResultSummary.summary c) with
                                     | OverallFAIL => true
                                     | OverallPASS => false
                                     end) chatSummaries = true).
      { apply existsb_exists. exists c. split; [exact Hc|]. rewrite Ho. reflexivity. }
      rewrite E' in E. discriminate E.
  - apply NoDup_uniqStrings.
  - intros id. rewrite In_uniqStrings, in_flat_map. reflexivity.
  - intros ->. split; reflexivity.
  - intros Hne Hnan. destruct chatSummaries as [|c0 rest]; [congruence|].
    assert (Hn : Forall (fun y => isNaN y = false)
                   (map (fun c => overallScore (ChatResultSummary.summary c)) (c0 :: rest))).
    { apply Forall_map. exact Hnan. }
    cbn [map] in Hn.
    destruct (FloatOrder.Math_min_is_minimum _ _ Hn) as (Hin & Hle).
    change (overallScore (ChatResultSummary.summary c0)
            :: map (fun c => overallScore (ChatResultSummary.summary c)) rest)
      with (map (fun c => overallScore (ChatResultSummary.summary c)) (c0 :: rest))
      in Hin, Hle.
    split.
    + apply in_map_iff in Hin as (c & Hc & Hin). exists c. auto.
    + rewrite Forall_forall in Hle. apply Forall_forall. intros c Hc. apply Hle.
      apply (in_map (fun c => overallScore (ChatResultSummary.summary c))). exact Hc.
Qed.

Section WithHost.
Context {host : Host}.

(** ** The document of a rule result *)

Lemma error_result_shape (ctx : QcExecutionContext) (rule : QcRuleDefinition) :
  RuleResult.outcome (evaluateRule ctx rule) = Engine.ERROR ->
  exists message, evaluateRule ctx rule = errorResult rule message [].
Proof.
  unfold evaluateRule. destruct (negb (Rule.enabled rule)); [discriminate|].
  destruct (dispatch ctx rule) as [result|e] eqn:Ed.
  - intros H. exfalso. exact (EngineMoreFacts.returned_not_error ctx rule result Ed H).
  - intros _. eexists. reflexivity.
Qed.

(** X12. The document stored for the result of a rule carries the given order
    and the rule's identifier and name, one evidence reference per piece of
    evidence, and the score of its status: 1 for PASS and NOT_EVALUATED, 0 for
    FAIL and ERROR. It has an [error] exactly when its status is ERROR; that
    error is of category RULE_EVALUATION with code RULE_EVALUATION_ERROR, is
    not retryable, and its message is a fixed sentence: what the evaluator threw
    appears in [help] only, after "Details: ". A PASS or ERROR document has no
    [reason]. *)
Theorem document_of_a_rule_result (ctx : QcExecutionContext) (rule : QcRuleDefinition)
    (order : nat) (source : option EvidenceSource) :
  let d := mapRuleResultToDoc order rule (evaluateRule ctx rule) source in
  RuleResultDoc.order d = order /\
  RuleResultDoc.ruleId d = Rule.ruleId rule /\
  RuleResultDoc.ruleName d = Rule.name rule /\
  RuleResultDoc.status d = ruleOutcomeToStatus (RuleResult.outcome (evaluateRule ctx rule)) /\
  RuleResultDoc.score d = scoreOfStatus (RuleResultDoc.status d) /\
  length (RuleResultDoc.evidence d) = length (RuleResult.evidence (evaluateRule ctx rule)) /\
  (RuleResultDoc.status d = ERROR ->
   exists thrownMessage,
     RuleResultDoc.error d
     = Some {| category := RULE_EVALUATION;
               code := str "RULE_EVALUATION_ERROR";
               message := str "This rule could not be evaluated for the provided input.";
               help := match thrownMessage with
                       | [] => None
                       | _ => Some (str "Details: " +++ thrownMessage)
                       end;
               retryable := false |}) /\
  (RuleResultDoc.status d <> ERROR -> RuleResultDoc.error d = None) /\
  (RuleResultDoc.status d = PASS \/ RuleResultDoc.status d = ERROR ->
   RuleResultDoc.reason d = None).
Proof.
  cbv zeta. unfold mapRuleResultToDoc. cbn [RuleResultDoc.order RuleResultDoc.ruleId
    RuleResultDoc.ruleName RuleResultDoc.status RuleResultDoc.score RuleResultDoc.evidence
    RuleResultDoc.error RuleResultDoc.reason].
  split; [reflexivity|]. split.
  { destruct (EngineFacts.built_evaluateRule ctx rule) as [o ev err]. reflexivity. }
  split; [reflexivity|]. split; [reflexivity|]. split.
  { destruct (EngineFacts.built_evaluateRule ctx rule) as [o ev err]. destruct o; reflexivity. }
  split; [unfold evidenceToRefs; apply length_map|]. split; [|split].
  - intros Hs.
    assert (Ho : RuleResult.outcome (evaluateRule ctx rule) = Engine.ERROR).
    { destruct (RuleResult.outcome (evaluateRule ctx rule)); try discriminate Hs. reflexivity. }
    destruct (error_result_shape ctx rule Ho) as [message ->]. exists message.
    simpl. destruct message; reflexivity.
  - intros Hs. destruct (ruleOutcomeToStatus _); try reflexivity. congruence.
  - intros [Hs | Hs]; rewrite Hs; reflexivity.
Qed.

(** ** What [processQcRun] computes *)

Lemma mapM_Return_map {A B} (f : A -> completion B) (g : A -> B) (xs : list A) :
  (forall x, In x xs -> f x = Return (g x)) -> mapM f xs = Return (map g xs).
Proof.
  induction xs as [|x xs IH]; intros H; simpl; [reflexivity|].
  rewrite (H x (or_introl eq_refl)). simpl. rewrite IH; [reflexivity|].
  intros y Hy. apply H. right. exact Hy.
Qed.

Lemma mapResultsToDocs_from (ctx : QcExecutionContext) (source : option EvidenceSource)
    (all : list QcRuleDefinition) :
  forall rest pre, all = pre ++ rest ->
    mapM (fun '(i, rr) =>
            match nth_error all i with
            | Some rule => Return (mapRuleResultToDoc i rule rr source)
            | None =>
                Throw (TypeError (str "Cannot read properties of undefined (reading 'name')"))
            end)
         (combine (seq (length pre) (length rest)) (map (evaluateRule ctx) rest))
    = Return (map (fun '(i, rule) => mapRuleResultToDoc i rule (evaluateRule ctx rule) source)
                  (combine (seq (length pre) (length rest)) rest)).
Proof.
  induction rest as [|x rest IH]; intros pre E; simpl; [reflexivity|].
  assert (Hx : nth_error all (length pre) = Some x).
  { rewrite E, nth_error_app2, Nat.sub_diag; [reflexivity | lia]. }
  rewrite Hx. simpl.
  specialize (IH (pre ++ [x])). rewrite length_app, Nat.add_1_r in IH.
  rewrite IH; [reflexivity|]. rewrite <- app_assoc. exact E.
Qed.

Lemma mapResultsToDocs_docsOf (ctx : QcExecutionContext) (rules : list QcRuleDefinition)
    (source : option EvidenceSource) :
  mapResultsToDocs rules (map (evaluateRule ctx) rules) source
  = Return (docsOf ctx rules source).
Proof.
  unfold mapResultsToDocs, docsOf, entries. rewrite length_map.
  exact (mapResultsToDocs_from ctx source rules rules [] eq_refl).
Qed.

Lemma runQc_processorRequest (input : QcNormalizedInput) (rules : list QcRuleDefinition)
    (executedAtIso : jsstring) :
  runQc (processorRequest input rules executedAtIso)
  = Return {| Engine.summary :=
                summarize 1%float true executedAtIso
                  (map (evaluateRule (processorContext input executedAtIso)) rules);
              Engine.ruleResults :=
                map (evaluateRule (processorContext input executedAtIso)) rules |}.
Proof. reflexivity. Qed.

Lemma computeChat_perChatOf (rules : list QcRuleDefinition) (executedAtIso : jsstring)
    (source : option EvidenceSource) (chat : ChatSegment) :
  computeChat rules executedAtIso source chat
  = Return (perChatOf rules executedAtIso source chat).
Proof.
  unfold computeChat.
  change (runQc _) with
    (runQc (processorRequest (InText (ChatSplit.text chat) None) rules executedAtIso)).
  rewrite runQc_processorRequest. cbn [bind Engine.ruleResults Engine.summary].
  rewrite mapResultsToDocs_docsOf. reflexivity.
Qed.

(** The single evaluation of an input that is not split into chats. *)
Lemma compute_single (rules : list QcRuleDefinition) (input : QcNormalizedInput)
    (source : option EvidenceSource) (executedAtIso : jsstring) :
  isMulti input = false ->
  exists c,
    compute rules input source executedAtIso = Return c /\
    multiChatEnabled c = false /\
    aggregatedRuleDocs c = docsOf (processorContext input executedAtIso) rules source /\
    c_ruleCounts c = summarizeRuleStatuses (aggregatedRuleDocs c) /\
    rs_failedRuleIds (runSummary c)
    = RunSummary.failedRuleIds
        (summarize 1%float true executedAtIso
           (map (evaluateRule (processorContext input executedAtIso)) rules)) /\
    rs_overallOutcome (runSummary c)
    = RunSummary.overallOutcome
        (summarize 1%float true executedAtIso
           (map (evaluateRule (processorContext input executedAtIso)) rules)) /\
    rs_overallScore (runSummary c)
    = RunSummary.overallScore
        (summarize 1%float true executedAtIso
           (map (evaluateRule (processorContext input executedAtIso)) rules)).
Proof.
  intros Hm. unfold compute.
  assert (Hrun : forall k : QcRunResult -> completion Computed,
    bind (runQc {| Engine.input := input; rules := rules; executedAtIso := executedAtIso;
                   aiSignals := None; options := Some processorOptions |}) k
    = k {| Engine.summary :=
             summarize 1%float true executedAtIso
               (map (evaluateRule (processorContext input executedAtIso)) rules);
           Engine.ruleResults :=
             map (evaluateRule (processorContext input executedAtIso)) rules |})
    by reflexivity.
  destruct input as [text locale | record | columns rows | duration format];
    cbn [isMulti] in Hm; try rewrite Hm; rewrite Hrun; cbn [Engine.ruleResults];
    rewrite mapResultsToDocs_docsOf; cbn [bind]; eexists; (split; [reflexivity|]);
    cbn; repeat split; reflexivity.
Qed.

(** The evaluation chat by chat of a text that is split. *)
Lemma compute_multi (rules : list QcRuleDefinition) (text : jsstring)
    (locale : option jsstring) (source : option EvidenceSource) (executedAtIso : jsstring) :
  isMulti (InText text locale) = true ->
  exists c out,
    compute rules (InText text locale) source executedAtIso = Return c /\
    multiChatEnabled c = true /\
    combineAggregatedRuleDocs
      (map (fun chat => (chat, ruleDocs (perChatOf rules executedAtIso source chat)))
           (chats (splitTranscriptIntoChats text))) = Return out /\
    aggregatedRuleDocs c = out /\
    c_ruleCounts c = summarizeRuleStatuses out /\
    perChatComputed c
    = Some (map (perChatOf rules executedAtIso source) (chats (splitTranscriptIntoChats text))) /\
    runSummary c
    = combineRunSummaryFromChats
        (map (fun chat =>
                {| ChatResultSummary.index := ChatSplit.index chat;
                   ChatResultSummary.title := ChatSplit.title chat;
                   ChatResultSummary.chatId := nonEmpty (ChatSplit.chatId chat);
                   ChatResultSummary.participants := ChatSplit.participants chat;
                   ChatResultSummary.summary :=
                     pc_summary (perChatOf rules executedAtIso source chat) |})
             (chats (splitTranscriptIntoChats text))).
Proof.
  intros Hm. cbn [isMulti] in Hm. unfold compute. rewrite Hm.
  rewrite (mapM_Return_map (computeChat rules executedAtIso source)
             (perChatOf rules executedAtIso source));
    [|intros chat _; apply computeChat_perChatOf].
  cbn [bind]. rewrite map_map. cbn [pc_chat perChatOf ruleDocs].
  set (perChat := map _ (chats _)).
  assert (Hne : perChat <> []).
  { unfold perChat. apply Nat.leb_le in Hm.
    destruct (chats (splitTranscriptIntoChats text)); simpl in *; [lia | discriminate]. }
  assert (Hlen : Forall (fun x => length (snd x) = length rules) perChat).
  { unfold perChat. apply Forall_map. apply Forall_forall. intros chat _. simpl.
    unfold docsOf, entries. rewrite length_map, length_combine, length_seq. lia. }
  destruct (AggregatorFacts.combine_by_column perChat (length rules) Hne Hlen)
    as (out & Eout & _).
  rewrite Eout. cbn [bind]. eexists. exists out. split; [reflexivity|].
  cbn [multiChatEnabled aggregatedRuleDocs c_ruleCounts perChatComputed runSummary].
  rewrite map_map. repeat split.
Qed.

(** ** The documents of a run *)

Lemma nth_error_combine_seq {A} (xs : list A) :
  forall s i j x,
    nth_error (combine (seq s (length xs)) xs) i = Some (j, x) ->
    j = s + i /\ nth_error xs i = Some x.
Proof.
  induction xs as [|y xs IH]; intros s i j x H; simpl in H.
  - destruct i; discriminate H.
  - destruct i as [|i]; simpl in H.
    + injection H as <- <-. split; [lia | reflexivity].
    + destruct (IH (S s) i j x H) as [-> Hx]. split; [lia | exact Hx].
Qed.

Lemma docsOf_nth (ctx : QcExecutionContext) (rules : list QcRuleDefinition)
    (source : option EvidenceSource) (i : nat) (d : RuleResultDoc.t) :
  nth_error (docsOf ctx rules source) i = Some d ->
  exists rule,
    nth_error rules i = Some rule /\
    d = mapRuleResultToDoc i rule (evaluateRule ctx rule) source.
Proof.
  unfold docsOf. intros H. rewrite nth_error_map in H.
  destruct (nth_error (entries rules) i) as [[j rule]|] eqn:E; [|discriminate H].
  simpl in H. injection H as <-.
  destruct (nth_error_combine_seq rules 0 i j rule E) as [-> Hr].
  exists rule. split; [exact Hr | reflexivity].
Qed.

Lemma length_docsOf (ctx : QcExecutionContext) (rules : list QcRuleDefinition)
    (source : option EvidenceSource) :
  length (docsOf ctx rules source) = length rules.
Proof. unfold docsOf, entries. rewrite length_map, length_combine, length_seq. lia. Qed.

Lemma doc_score_of_status (ctx : QcExecutionContext) (rule : QcRuleDefinition)
    (order : nat) (source : option EvidenceSource) :
  RuleResultDoc.score (mapRuleResultToDoc order rule (evaluateRule ctx rule) source)
  = scoreOfStatus
      (RuleResultDoc.status (mapRuleResultToDoc order rule (evaluateRule ctx rule) source)).
Proof.
  unfold mapRuleResultToDoc. cbn [RuleResultDoc.score RuleResultDoc.status].
  destruct (EngineFacts.built_evaluateRule ctx rule) as [o ev err]. destruct o; reflexivity.
Qed.

Lemma doc_identity (ctx : QcExecutionContext) (rule : QcRuleDefinition)
    (order : nat) (source : option EvidenceSource) :
  let d := mapRuleResultToDoc order rule (evaluateRule ctx rule) source in
  RuleResultDoc.order d = order /\
  RuleResultDoc.ruleId d = Rule.ruleId rule /\
  RuleResultDoc.ruleName d = Rule.name rule /\
  RuleResultDoc.ruleType d = Rule.type rule /\
  RuleResultDoc.weight d = Rule.weight rule /\
  RuleResultDoc.severity d = Rule.severity rule.
Proof.
  cbv zeta. unfold mapRuleResultToDoc. cbn.
  destruct (EngineFacts.built_evaluateRule ctx rule) as [o ev err]. repeat split.
Qed.

Lemma In_column (i : nat) (perChat : list (ChatSegment * list RuleResultDoc.t))
    (d : RuleResultDoc.t) :
  In d (column i perChat) -> exists x, In x perChat /\ nth_error (snd x) i = Some d.
Proof.
  unfold column. intros H. apply in_flat_map in H as (x & Hx & Hd).
  exists x. split; [exact Hx|].
  destruct (nth_error (snd x) i) as [d'|]; [|destruct Hd].
  destruct Hd as [-> | []]. reflexivity.
Qed.

Lemma binary_status_score (s : RuleStatus) (x : number) :
  x = scoreOfStatus s -> isFinite x = true /\ (x = 1%float \/ x = 0%float).
Proof. intros ->. destruct s; simpl; split; auto. Qed.

(** The combined document of documents that carry the score of their status
    carries the score of its status. *)
Lemma combineEntries_score_of_status (entries : list (ChatSegment * RuleResultDoc.t))
    (base : RuleResultDoc.t) :
  entries <> [] ->
  Forall (fun d => RuleResultDoc.score d = scoreOfStatus (RuleResultDoc.status d))
         (map snd entries) ->
  RuleResultDoc.score (combineEntries entries base)
  = scoreOfStatus (RuleResultDoc.status (combineEntries entries base)).
Proof.
  intros Hne Hall.
  destruct (AggregatorFacts.combined_of_column entries base Hne) as (Hrank & Hst & Hsc).
  cbv zeta in *.
  assert (Hfin : Forall (fun d => isFinite (RuleResultDoc.score d) = true) (map snd entries)).
  { eapply Forall_impl; [|exact Hall]. intros d Hd.
    apply (binary_status_score (RuleResultDoc.status d)). exact Hd. }
  destruct (Hsc Hfin) as (Hex & Hle).
  apply Exists_exists in Hex as (d2 & Hd2 & E2).
  apply Exists_exists in Hst as (d1 & Hd1 & E1).
  rewrite Forall_forall in Hall, Hrank, Hle.
  set (o := combineEntries entries base) in *.
  destruct (RuleResultDoc.status o) eqn:Es; cbn [scoreOfStatus].
  - (* PASS *)
    rewrite <- E2, (Hall d2 Hd2). specialize (Hrank d2 Hd2).
    destruct (RuleResultDoc.status d2); cbn [scoreOfStatus rankOf] in *; try reflexivity; lia.
  - (* FAIL *)
    pose proof (Hle d1 Hd1) as Hle1. rewrite (Hall d1 Hd1), E1 in Hle1.
    cbn [scoreOfStatus] in Hle1.
    rewrite <- E2 in Hle1 |- *. rewrite (Hall d2 Hd2) in Hle1 |- *.
    destruct (RuleResultDoc.status d2); cbn [scoreOfStatus] in *; try reflexivity;
      unfold le in Hle1; vm_compute in Hle1; discriminate Hle1.
  - (* NOT_EVALUATED *)
    rewrite <- E2, (Hall d2 Hd2). specialize (Hrank d2 Hd2).
    destruct (RuleResultDoc.status d2); cbn [scoreOfStatus rankOf] in *; try reflexivity; lia.
  - (* ERROR *)
    pose proof (Hle d1 Hd1) as Hle1. rewrite (Hall d1 Hd1), E1 in Hle1.
    cbn [scoreOfStatus] in Hle1.
    rewrite <- E2 in Hle1 |- *. rewrite (Hall d2 Hd2) in Hle1 |- *.
    destruct (RuleResultDoc.status d2); cbn [scoreOfStatus] in *; try reflexivity;
      unfold le in Hle1; vm_compute in Hle1; discriminate Hle1.
Qed.

(** X13. The evaluation of a run returns one document per rule, whether the
    input is evaluated once or chat by chat: the document at index [i] has
    order [i], the identifier, name, type, weight and severity of rule [i],
    and the score of its status, 1 for PASS and NOT_EVALUATED, 0 for FAIL and
    ERROR. *)
Theorem computed_documents_follow_the_rules (rules : list QcRuleDefinition)
    (input : QcNormalizedInput) (source : option EvidenceSource) (executedAtIso : jsstring) :
  exists c,
    compute rules input source executedAtIso = Return c /\
    length (aggregatedRuleDocs c) = length rules /\
    forall i d, nth_error (aggregatedRuleDocs c) i = Some d ->
      RuleResultDoc.order d = i /\
      RuleResultDoc.score d = scoreOfStatus (RuleResultDoc.status d) /\
      exists rule,
        nth_error rules i = Some rule /\
        RuleResultDoc.ruleId d = Rule.ruleId rule /\
        RuleResultDoc.ruleName d = Rule.name rule /\
        RuleResultDoc.ruleType d = Rule.type rule /\
        RuleResultDoc.weight d = Rule.weight rule /\
        RuleResultDoc.severity d = Rule.severity rule.
Proof.
  destruct (isMulti input) eqn:Hm.
  - destruct input as [text locale | | |]; try discriminate Hm.
    destruct (compute_multi rules text locale source executedAtIso Hm)
      as (c & out & Ec & _ & Eout & Ea & _).
    exists c. split; [exact Ec|]. rewrite Ea. clear c Ec Ea.
    cbn [isMulti] in Hm. apply Nat.leb_le in Hm.
    destruct (chats (splitTranscriptIntoChats text)) as [|chat0 chats']; [simpl in Hm; lia|].
    cbn [map] in Eout.
    set (docs := fun chat =>
           ruleDocs (perChatOf rules executedAtIso source chat)) in *.
    assert (Hlen : Forall (fun x => length (snd x) = length rules)
                     ((chat0, docs chat0) :: map (fun chat => (chat, docs chat)) chats')).
    { constructor; [apply length_docsOf|]. apply Forall_map, Forall_forall.
      intros chat _. apply length_docsOf. }
    destruct (combined_from_first (chat0, docs chat0) _ (length rules) Hlen)
      as (out' & Eout' & Hl & H).
    pose proof (eq_trans (eq_sym Eout) Eout') as E'. injection E' as <-.
    split; [exact Hl|]. intros i d Hd.
    destruct (H i d Hd) as (d0 & entries & Hd0 & Hcol & Hne & ->).
    destruct (docsOf_nth _ rules source i d0 Hd0) as (rule & Hr & ->).
    split; [reflexivity|]. split.
    + apply combineEntries_score_of_status; [exact Hne|].
      rewrite Hcol. apply Forall_forall. intros d Hin.
      apply In_column in Hin as (x & Hx & Hnth).
      assert (Hx' : exists chat, snd x = docs chat).
      { destruct Hx as [<- | Hx]; [exists chat0; reflexivity|].
        apply in_map_iff in Hx as (chat & <- & _). exists chat. reflexivity. }
      destruct Hx' as (chat & Edocs). rewrite Edocs in Hnth.
      destruct (docsOf_nth _ rules source i d Hnth) as (rule' & _ & ->).
      apply doc_score_of_status.
    + exists rule. split; [exact Hr|].
      destruct (doc_identity (processorContext (InText (ChatSplit.text chat0) None)
                                executedAtIso) rule i source) as (_ & H1 & H2 & H3 & H4 & H5).
      repeat split; assumption.
  - destruct (compute_single rules input source executedAtIso Hm)
      as (c & Ec & _ & Ea & _).
    exists c. split; [exact Ec|]. rewrite Ea. split; [apply length_docsOf|].
    intros i d Hd. destruct (docsOf_nth _ rules source i d Hd) as (rule & Hr & ->).
    split; [reflexivity|]. split; [apply doc_score_of_status|].
    exists rule. split; [exact Hr|].
    destruct (doc_identity (processorContext input executedAtIso) rule i source)
      as (_ & H1 & H2 & H3 & H4 & H5).
    repeat split; assumption.
Qed.

(** ** Failed rules *)

Lemma doc_status_fail (ctx : QcExecutionContext) (rule : QcRuleDefinition)
    (order : nat) (source : option EvidenceSource) :
  RuleResultDoc.status (mapRuleResultToDoc order rule (evaluateRule ctx rule) source) = FAIL
  <-> EngineMore.hasOutcome Engine.FAIL (evaluateRule ctx rule) = true.
Proof.
  unfold mapRuleResultToDoc, EngineMore.hasOutcome. cbn [RuleResultDoc.status].
  destruct (RuleResult.outcome (evaluateRule ctx rule)); simpl; split; congruence.
Qed.

Lemma countStatus_docs_from (ctx : QcExecutionContext) (source : option EvidenceSource)
    (rules : list QcRuleDefinition) :
  forall s,
    countStatus FAIL
      (map (fun '(i, rule) => mapRuleResultToDoc i rule (evaluateRule ctx rule) source)
           (combine (seq s (length rules)) rules))
    = length (filter (fun rule => EngineMore.hasOutcome Engine.FAIL (evaluateRule ctx rule))
                     rules).
Proof.
  unfold countStatus. induction rules as [|rule rest IH]; intros s; simpl; [reflexivity|].
  unfold EngineMore.hasOutcome at 1.
  destruct (RuleResult.outcome (evaluateRule ctx rule)); simpl; rewrite IH; reflexivity.
Qed.

Lemma failing_rule_is_listed (ctx : QcExecutionContext) (rules : list QcRuleDefinition)
    (iso : jsstring) (i : nat) (rule : QcRuleDefinition) :
  nth_error rules i = Some rule ->
  EngineMore.hasOutcome Engine.FAIL (evaluateRule ctx rule) = true ->
  In (Rule.ruleId rule)
     (RunSummary.failedRuleIds (summarize 1%float true iso (map (evaluateRule ctx) rules))).
Proof.
  intros Hn Hf. rewrite EngineMoreFacts.failedRuleIds_summarize.
  apply in_map. apply filter_In. split; [exact (nth_error_In _ _ Hn) | exact Hf].
Qed.

(** X14. In the summary of a run, evaluated once or chat by chat, the failed
    rules contain the rule identifier of every document whose status is FAIL.
    When the input is evaluated once, the counter [fail] is the number of
    failed rules listed. *)
Theorem failed_documents_are_listed (rules : list QcRuleDefinition)
    (input : QcNormalizedInput) (source : option EvidenceSource) (executedAtIso : jsstring) :
  exists c,
    compute rules input source executedAtIso = Return c /\
    (forall d, In d (aggregatedRuleDocs c) -> RuleResultDoc.status d = FAIL ->
       In (RuleResultDoc.ruleId d) (rs_failedRuleIds (runSummary c))) /\
    (multiChatEnabled c = false ->
     fail (c_ruleCounts c) = length (rs_failedRuleIds (runSummary c))).
Proof.
  destruct (isMulti input) eqn:Hm.
  - destruct input as [text locale | | |]; try discriminate Hm.
    destruct (compute_multi rules text locale source executedAtIso Hm)
      as (c & out & Ec & Emulti & Eout & Ea & _ & _ & Esum).
    exists c. split; [exact Ec|]. split; [|rewrite Emulti; discriminate].
    rewrite Ea, Esum. clear c Ec Ea Esum Emulti.
    cbn [isMulti] in Hm. apply Nat.leb_le in Hm.
    destruct (chats (splitTranscriptIntoChats text)) as [|chat0 chats'] eqn:Echats;
      [simpl in Hm; lia|].
    rewrite <- Echats. intros d Hd Hs.
    destruct (run_summary_of_chats_members
                (map (fun chat =>
                   {| ChatResultSummary.index := ChatSplit.index chat;
                      ChatResultSummary.title := ChatSplit.title chat;
                      ChatResultSummary.chatId := nonEmpty (ChatSplit.chatId chat);
                      ChatResultSummary.participants := ChatSplit.participants chat;
                      ChatResultSummary.summary :=
                        pc_summary (perChatOf rules executedAtIso source chat) |})
                   (chats (splitTranscriptIntoChats text)))
                (RuleResultDoc.ruleId d)) as [_ Hin].
    apply Hin. clear Hin. rewrite Echats in *. cbn [map] in Eout.
    set (docs := fun chat => ruleDocs (perChatOf rules executedAtIso source chat)) in *.
    assert (Hlen : Forall (fun x => length (snd x) = length rules)
                     ((chat0, docs chat0) :: map (fun chat => (chat, docs chat)) chats')).
    { constructor; [apply length_docsOf|]. apply Forall_map, Forall_forall.
      intros chat _. apply length_docsOf. }
    destruct (combined_from_first (chat0, docs chat0) _ (length rules) Hlen)
      as (out' & Eout' & Hl & H).
    pose proof (eq_trans (eq_sym Eout) Eout') as E'. injection E' as <-.
    apply In_nth_error in Hd as (i & Hi).
    destruct (H i d Hi) as (d0 & entries & Hd0 & Hcol & Hne & ->).
    destruct (docsOf_nth _ rules source i d0 Hd0) as (rule & Hr & ->).
    destruct (AggregatorFacts.combined_of_column entries
                (mapRuleResultToDoc i rule
                   (evaluateRule (processorContext (InText (ChatSplit.text chat0) None)
                                    executedAtIso) rule) source) Hne) as (_ & Hst & _).
    cbv zeta in Hst. rewrite Hs, Hcol in Hst.
    apply Exists_exists in Hst as (d1 & Hd1 & E1).
    apply In_column in Hd1 as (x & Hx & Hnth).
    assert (Hx' : exists chat, In chat (chat0 :: chats') /\ snd x = docs chat).
    { destruct Hx as [<- | Hx]; [exists chat0; split; [left|]; reflexivity|].
      apply in_map_iff in Hx as (chat & <- & Hc). exists chat. split; [right; exact Hc|].
      reflexivity. }
    destruct Hx' as (chat & Hchat & Edocs). rewrite Edocs in Hnth.
    destruct (docsOf_nth _ rules source i d1 Hnth) as (rule' & Hr' & ->).
    rewrite Hr in Hr'. injection Hr' as <-.
    apply doc_status_fail in E1.
    eexists. split.
    + apply in_map_iff. exists chat. split; [reflexivity | exact Hchat].
    + cbn [ChatResultSummary.summary perChatOf pc_summary failedRuleIds].
      unfold combineEntries at 1. cbn [RuleResultDoc.ruleId].
      destruct (doc_identity (processorContext (InText (ChatSplit.text chat0) None)
                                executedAtIso) rule i source) as (_ & -> & _).
      exact (failing_rule_is_listed _ rules executedAtIso i rule Hr E1).
  - destruct (compute_single rules input source executedAtIso Hm)
      as (c & Ec & _ & Ea & Ecounts & Efailed & _).
    exists c. split; [exact Ec|]. rewrite Ecounts, Ea, Efailed. split.
    + intros d Hd Hs. apply In_nth_error in Hd as (i & Hi).
      destruct (docsOf_nth _ rules source i d Hi) as (rule & Hr & ->).
      apply doc_status_fail in Hs.
      destruct (doc_identity (processorContext input executedAtIso) rule i source)
        as (_ & -> & _).
      exact (failing_rule_is_listed _ rules executedAtIso i rule Hr Hs).
    + intros _. destruct (counts_are_countStatus
                            (docsOf (processorContext input executedAtIso) rules source))
        as (_ & _ & -> & _).
      rewrite EngineMoreFacts.failedRuleIds_summarize, length_map.
      unfold docsOf, entries. apply countStatus_docs_from.
Qed.

End WithHost.

End ResultMoreFacts.

(* ================================================================== *)
(** * Chat segmentation: further properties *)
(* ================================================================== *)

Module ChatSplitMoreFacts.
Import ChatSplit ChatSplitSpec ChatSplitMore.

(** ** Line ends *)

Lemma replaceCRLF_without_CR (s : jsstring) : ~ In CR s -> replaceCRLF s = s.
Proof.
  induction s as [|c rest IH]; intros H; [reflexivity|].
  assert (Hc : (c =? 13)%N = false).
  { apply N.eqb_neq. intros ->. apply H. left. reflexivity. }
  assert (Hrest : replaceCRLF rest = rest) by (apply IH; intros Hin; apply H; right; exact Hin).
  destruct rest as [|d rest']; [reflexivity|].
  change (replaceCRLF (c :: d :: rest'))
    with (if ((c =? 13) && (d =? 10))%N then 10%N :: replaceCRLF rest'
          else c :: replaceCRLF (d :: rest')).
  rewrite Hc. cbn [andb]. rewrite Hrest. reflexivity.
Qed.

Lemma map_CR_without_CR (s : jsstring) :
  ~ In CR s -> map (fun c => if (c =? 13)%N then 10%N else c) s = s.
Proof.
  induction s as [|c rest IH]; intros H; simpl; [reflexivity|].
  assert (Hc : (c =? 13)%N = false).
  { apply N.eqb_neq. intros ->. apply H. left. reflexivity. }
  rewrite Hc, IH; [reflexivity|]. intros Hin. apply H. right. exact Hin.
Qed.

Lemma normalizeNewlines_no_CR (text : jsstring) : ~ In CR (normalizeNewlines text).
Proof.
  unfold normalizeNewlines. intros H. apply in_map_iff in H as (c & Hc & _).
  destruct (c =? 13)%N eqn:E; [discriminate Hc|].
  apply N.eqb_neq in E. apply E. exact Hc.
Qed.

Lemma length_replaceCRLF (s : jsstring) : length (replaceCRLF s) <= length s.
Proof.
  assert (H : forall n s, length s <= n -> length (replaceCRLF s) <= length s).
  { induction n as [|n IH]; intros [|c rest] Hn; simpl in Hn; try lia;
      try (simpl; lia).
    destruct rest as [|d rest']; [simpl; lia|].
    change (replaceCRLF (c :: d :: rest'))
      with (if ((c =? 13) && (d =? 10))%N then 10%N :: replaceCRLF rest'
            else c :: replaceCRLF (d :: rest')).
    destruct ((c =? 13)%N && (d =? 10)%N).
    - specialize (IH rest'). simpl in *. lia.
    - specialize (IH (d :: rest')). cbn [length] in *. lia. }
  apply (H (length s)). lia.
Qed.

(** X15. Normalising the line ends leaves no carriage return, never makes the
    text longer, changes nothing in a text without carriage returns, and so
    leaves a normalised text as it is. *)
Theorem normalizeNewlines_removes_carriage_returns (text : jsstring) :
  ~ In CR (normalizeNewlines text) /\
  length (normalizeNewlines text) <= length text /\
  (~ In CR text -> normalizeNewlines text = text) /\
  normalizeNewlines (normalizeNewlines text) = normalizeNewlines text.
Proof.
  assert (Hid : forall s, ~ In CR s -> normalizeNewlines s = s).
  { intros s H. unfold normalizeNewlines. rewrite (replaceCRLF_without_CR s H).
    apply map_CR_without_CR, H. }
  split; [apply normalizeNewlines_no_CR|]. split.
  - unfold normalizeNewlines. rewrite length_map. apply length_replaceCRLF.
  - split; [apply Hid|]. apply Hid, normalizeNewlines_no_CR.
Qed.

(** ** Titles *)

Lemma length_trimStart (s : jsstring) : length (trimStart s) <= length s.
Proof.
  induction s as [|c s IH]; simpl; [lia|]. destruct (isWhiteSpace c); simpl; lia.
Qed.

Lemma length_trimEnd (s : jsstring) : length (trimEnd s) <= length s.
Proof.
  unfold trimEnd. rewrite length_rev.
  pose proof (length_trimStart (rev s)) as H. rewrite length_rev in H. exact H.
Qed.

(** X16. [clampString] returns a string of at most [maxLen] code units (of one
    code unit when [maxLen] is 0): a string within the limit is returned as it
    is, a longer one is cut and ends with an ellipsis. *)
Theorem clampString_bounds (s : jsstring) (maxLen : nat) :
  length (clampString s maxLen) <= Nat.max maxLen 1 /\
  (length s <= maxLen -> clampString s maxLen = s) /\
  (maxLen < length s ->
   exists kept, clampString s maxLen = kept ++ ellipsis /\
                length kept <= maxLen - 1 /\
                exists dropped, s = kept ++ dropped).
Proof.
  unfold clampString, append.
  destruct (Nat.leb_spec (length s) maxLen) as [Hle | Hgt].
  - split; [lia|]. split; [reflexivity | lia].
  - assert (Hk : length (trimEnd (slice s 0 (Nat.max 0 (maxLen - 1)))) <= maxLen - 1).
    { pose proof (length_trimEnd (slice s 0 (Nat.max 0 (maxLen - 1)))) as H.
      unfold slice in *. rewrite length_firstn in H. lia. }
    split; [rewrite length_app; unfold ellipsis; cbn [length]; lia|]. split; [lia|]. intros _.
    exists (trimEnd (slice s 0 (Nat.max 0 (maxLen - 1)))). split; [reflexivity|].
    split; [exact Hk|].
    unfold slice. simpl skipn. rewrite Nat.sub_0_r.
    set (k := Nat.max 0 (maxLen - 1)).
    assert (Ht : forall x : jsstring, exists d, x = trimEnd x ++ d).
    { intros x. unfold trimEnd.
      assert (Hs : forall y : jsstring, exists p, y = p ++ trimStart y).
      { induction y as [|c y IH]; [exists []; reflexivity|]. simpl.
        destruct (isWhiteSpace c); [|exists []; reflexivity].
        destruct IH as [p Hp]. exists (c :: p). simpl. rewrite <- Hp. reflexivity. }
      destruct (Hs (rev x)) as [p Hp]. exists (rev p).
      rewrite <- rev_app_distr, <- Hp, rev_involutive. reflexivity. }
    destruct (Ht (firstn k s)) as [d Hd].
    exists (d ++ skipn k s). rewrite app_assoc, <- Hd. symmetry. apply firstn_skipn.
Qed.

(** ** Segments *)

Lemma In_uniq (xs : list nat) (x : nat) : In x (uniq xs) <-> In x xs.
Proof.
  induction xs as [|y xs IH]; simpl; [reflexivity|].
  rewrite filter_In, IH. split.
  - intros [H | [H _]]; auto.
  - intros [H | H]; [auto|].
    destruct (Nat.eq_dec x y) as [-> | Hne]; [auto|].
    right. split; [exact H|]. apply negb_true_iff, Nat.eqb_neq. exact Hne.
Qed.

Lemma NoDup_uniq (xs : list nat) : NoDup (uniq xs).
Proof.
  induction xs as [|y xs IH]; simpl; constructor.
  - rewrite filter_In. intros [_ H]. rewrite Nat.eqb_refl in H. discriminate H.
  - apply NoDup_filter. exact IH.
Qed.

Lemma In_insertSorted (x : nat) (xs : list nat) (y : nat) :
  In y (insertSorted x xs) <-> y = x \/ In y xs.
Proof.
  induction xs as [|z xs IH]; simpl; [intuition|].
  destruct (x <=? z); simpl; [intuition|]. rewrite IH. intuition.
Qed.

Lemma In_sortAscending (xs : list nat) (y : nat) : In y (sortAscending xs) <-> In y xs.
Proof.
  induction xs as [|x xs IH]; simpl; [reflexivity|].
  rewrite In_insertSorted, IH. intuition.
Qed.

Lemma increasing_insertSorted (x : nat) (xs : list nat) :
  increasing xs -> ~ In x xs -> increasing (insertSorted x xs).
Proof.
  induction xs as [|y xs IH]; intros Hinc Hnot; simpl; [auto|].
  destruct (Nat.leb_spec x y) as [Hle | Hgt].
  - split; [|exact Hinc]. assert (x <> y) by (intros ->; apply Hnot; left; reflexivity). lia.
  - destruct Hinc as [Hy Hinc]. split.
    + destruct xs as [|z xs]; simpl; [exact Hgt|].
      destruct (x <=? z); [exact Hgt | exact Hy].
    + apply IH; [exact Hinc|]. intros H. apply Hnot. right. exact H.
Qed.

Lemma increasing_sortAscending (xs : list nat) : NoDup xs -> increasing (sortAscending xs).
Proof.
  induction 1 as [|x xs Hx _ IH]; simpl; [exact I|].
  apply increasing_insertSorted; [exact IH|]. rewrite In_sortAscending. exact Hx.
Qed.

Lemma segmentsBetween_increasing (sorted : list nat) (n : nat) :
  increasing sorted -> Forall (fun s => s < n) sorted ->
  map start (segmentsBetween sorted n) = sorted /\ chained (segmentsBetween sorted n) n.
Proof.
  induction sorted as [|s rest IH]; intros Hinc Hlt; [simpl; auto|].
  destruct Hinc as [Hs Hinc]. inversion Hlt as [|? ? Hsn Hrest]; subst.
  destruct (IH Hinc Hrest) as [Hmap Hch]. clear IH.
  destruct rest as [|next rest'].
  - simpl. apply Nat.ltb_lt in Hsn as Hb. rewrite Hb. simpl. auto.
  - change (segmentsBetween (s :: next :: rest') n)
      with ((if s <? next then [{| start := s; end_ := next |}] else [])
            ++ segmentsBetween (next :: rest') n).
    apply Nat.ltb_lt in Hs as Hb. rewrite Hb.
    destruct (segmentsBetween (next :: rest') n) as [|s' segs];
      [discriminate Hmap|].
    simpl in Hmap. injection Hmap as Hs' Hsegs.
    simpl. rewrite Hs', Hsegs. split; [reflexivity|].
    split; [exact Hs|]. split; [reflexivity|].
    simpl in Hch. rewrite Hs' in Hch. exact Hch.
Qed.

(** X17. From start lines that all lie within the text, [computeSegmentsFromStarts]
    makes one segment per distinct start, in increasing order of the starts;
    no segment is empty, each ends where the next one starts, and the last
    ends with the last line. So the segments cover the lines from the first
    start on, and nothing before it. *)
Theorem segments_chain_from_first_start (lines : list jsstring) (startLines : list nat) :
  Forall (fun s => s < length lines) startLines ->
  let segments := computeSegmentsFromStarts lines startLines in
  increasing (map start segments) /\
  (forall s, In s (map start segments) <-> In s startLines) /\
  chained segments (length lines).
Proof.
  intros Hlt. cbv zeta. unfold computeSegmentsFromStarts.
  assert (Hinc : increasing (sortAscending (uniq startLines)))
    by (apply increasing_sortAscending, NoDup_uniq).
  assert (Hall : Forall (fun s => s < length lines) (sortAscending (uniq startLines))).
  { apply Forall_forall. intros s Hs.
    apply (proj1 (In_sortAscending _ _)) in Hs. apply (proj1 (In_uniq _ _)) in Hs.
    rewrite Forall_forall in Hlt. apply Hlt, Hs. }
  destruct (segmentsBetween_increasing _ (length lines) Hinc Hall) as [Hmap Hch].
  rewrite Hmap. split; [exact Hinc|]. split; [|exact Hch].
  intros s. rewrite In_sortAscending, In_uniq. reflexivity.
Qed.

Example clampString_cuts_and_trims :
  clampString (str "operator name") 10 = str "operator" ++ ellipsis.
Proof. vm_compute. reflexivity. Qed.

Lemma segments_chain_from_first_start_witness :
  chained (computeSegmentsFromStarts [str "a"; str "b"; str "c"; str "d"] [2; 0; 2]) 4.
Proof.
  apply (segments_chain_from_first_start [str "a"; str "b"; str "c"; str "d"] [2; 0; 2]).
  repeat constructor.
Defined.

End ChatSplitMoreFacts.

(* ================================================================== *)
(** * The run processor: further properties *)
(* ================================================================== *)

Module ProcessorMoreFacts.
Import Engine Mapping ChatSplit Processor ProcessorSpec ProcessorMore.

(** ** Chunks *)

Lemma ceil_step (n : nat) : 0 < n -> (n + 399) / 400 = S ((n - 400 + 399) / 400).
Proof.
  intros Hn. destruct (Nat.le_gt_cases 400 n) as [Hge | Hlt].
  - replace (n + 399) with ((n - 400 + 399) + 1 * 400) by lia.
    rewrite Nat.div_add by lia. lia.
  - replace (n - 400) with 0 by lia.
    rewrite (Nat.div_small (0 + 399) 400) by lia.
    symmetry. apply (Nat.div_unique (n + 399) 400 1 (n - 1)); lia.
Qed.

Lemma chunksFrom_count {A} (fuel : nat) (docs : list A) :
  length docs <= fuel ->
  length (chunksFrom fuel docs) = (length docs + 399) / 400 /\
  fullButLast (chunksFrom fuel docs).
Proof.
  revert docs. induction fuel as [|fuel IH]; intros docs H.
  - destruct docs; [|simpl in H; lia]. split; [|exact I].
    simpl length. rewrite Nat.div_small by lia. reflexivity.
  - destruct docs as [|d docs].
    + split; [|exact I]. simpl length. rewrite Nat.div_small by lia. reflexivity.
    + cbn [chunksFrom].
      assert (Hs : length (skipn chunkSize (d :: docs)) <= fuel).
      { rewrite length_skipn. unfold chunkSize. simpl in *. lia. }
      destruct (IH _ Hs) as [Hc Hf]. split.
      * cbn [length]. rewrite Hc, length_skipn. unfold chunkSize.
        symmetry. apply ceil_step. simpl. lia.
      * cbn [fullButLast]. split; [|exact Hf].
        destruct (chunksFrom fuel (skipn chunkSize (d :: docs))) as [|c cs] eqn:E; [exact I|].
        rewrite length_firstn.
        destruct (Nat.le_gt_cases chunkSize (length (d :: docs))) as [Hge | Hlt]; [lia|].
        exfalso. rewrite skipn_all2 in E by lia.
        destruct fuel; discriminate E.
Qed.

(** X18. The chunks of a list of documents, concatenated in order, give the
    list back; no chunk is empty, none holds more than 400 documents, every
    chunk but the last holds exactly 400, and [n] documents make
    [ceil(n / 400)] chunks. *)
Theorem chunks_partition {A} (docs : list A) :
  concat (chunks docs) = docs /\
  Forall (fun chunk => 0 < length chunk <= 400) (chunks docs) /\
  fullButLast (chunks docs) /\
  length (chunks docs) = (length docs + 399) / 400.
Proof.
  split; [apply ProcessorFacts.chunks_concat|]. split.
  - apply ProcessorFacts.chunksFrom_bounded.
  - destruct (chunksFrom_count (length docs) docs (Nat.le_refl _)) as [Hc Hf]. auto.
Qed.

(** ** Nothing is deleted *)

Lemma extends_refl {A} (xs : list A) : extends xs xs.
Proof. exists []. symmetry. apply app_nil_r. Qed.

Lemma extends_app {A} (xs more : list A) : extends xs (xs ++ more).
Proof. exists more. reflexivity. Qed.

Lemma extends_trans {A} (xs ys zs : list A) : extends xs ys -> extends ys zs -> extends xs zs.
Proof. intros [m1 ->] [m2 ->]. exists (m1 ++ m2). symmetry. apply app_assoc. Qed.

Lemma grows_refl (st : Store) : grows st st.
Proof. repeat split; apply extends_refl. Qed.

Lemma grows_trans (a b c : Store) : grows a b -> grows b c -> grows a c.
Proof.
  intros (H1 & H2 & H3 & H4 & H5) (K1 & K2 & K3 & K4 & K5).
  repeat split; eapply extends_trans; eassumption.
Qed.

Lemma map_fst_updateDoc {A} (id : Id) (f : A -> A) (docs : list (Id * A)) :
  map fst (updateDoc id f docs) = map fst docs.
Proof.
  induction docs as [|[k v] docs IH]; simpl; [reflexivity|].
  destruct (k =? id); simpl; [reflexivity | rewrite IH; reflexivity].
Qed.

Ltac grows_tac :=
  repeat split; simpl;
  first [apply extends_refl | apply extends_app
        | rewrite map_app; apply extends_app
        | rewrite map_fst_updateDoc; apply extends_refl].

Section WithHost.
Context {host : Host}.

Lemma write_grows (rid : Id) (op : WriteOp) (rest : list WriteOp) (st : Store) (next : Id)
    (st' : Store) (next' : Id) (rest' : list WriteOp) :
  write rid op rest st next = Some (st', next', rest') -> grows st st'.
Proof.
  unfold write. intros H.
  destruct op as [res docs | res | chunk | chat perDocs | cid chunk | ].
  - destruct (run st); [|discriminate H]. injection H as <- _ _. grows_tac.
  - injection H as <- _ _. grows_tac.
  - injection H as <- _ _. grows_tac.
  - injection H as <- _ _. grows_tac.
  - injection H as <- _ _. grows_tac.
  - destruct (run st) as [cur|]; [|discriminate H].
    destruct (RunDoc.status cur); try (injection H as <- _ _; apply grows_refl).
    destruct (lookup rid (results st)); [|discriminate H].
    injection H as <- _ _. grows_tac.
Qed.

Lemma step_grows (fault : bool) (st : Store) (next : Id) (t : Invocation) :
  grows st (fst (fst (step fault st next t))).
Proof.
  unfold step.
  destruct (pc t) as [ | | | rid pending | rid | err | publicErr | | ].
  - destruct fault; [apply grows_refl|].
    destruct (run st) as [r|]; [|apply grows_refl].
    destruct (RunDoc.status r); try apply grows_refl. grows_tac.
  - destruct fault; [apply grows_refl|].
    destruct (run st) as [r|]; [|apply grows_refl].
    destruct (RunDoc.status r); apply grows_refl.
  - destruct fault; [apply grows_refl|].
    destruct (load t); [apply grows_refl|].
    destruct (compute _ _ _ _); apply grows_refl.
  - destruct pending as [|op rest]; [apply grows_refl|].
    destruct fault; [apply grows_refl|].
    destruct (write rid op rest st next) as [[[st' next'] rest']|] eqn:Ew;
      [|apply grows_refl].
    simpl. exact (write_grows rid op rest st next st' next' rest' Ew).
  - destruct fault; [apply grows_refl|]. grows_tac.
  - destruct fault; [apply grows_refl|].
    destruct (run st); [|apply grows_refl]. grows_tac.
  - destruct fault; [apply grows_refl|]. grows_tac.
  - apply grows_refl.
  - apply grows_refl.
Qed.

Lemma systemStep_grows (sys : System) (ev : nat * bool) :
  grows (store sys) (store (systemStep sys ev)).
Proof.
  destruct ev as [i fault]. unfold systemStep.
  destruct (nth_error (invocations sys) i) as [t|]; [|apply grows_refl].
  pose proof (step_grows fault (store sys) (nextId sys) t) as H.
  destruct (step fault (store sys) (nextId sys) t) as [[st' next'] t']. exact H.
Qed.

(** X19. Nothing the processor has stored is ever removed: whatever
    invocations run, however they interleave and whichever operations fail,
    the result documents stay under their identifiers and the rule results,
    chat results and audit entries stay as they were written; later steps
    only add to them. In particular the results of a run that ends FAILED
    stay in place. *)
Theorem store_only_grows (sys : System) (schedule : list (nat * bool)) :
  grows (store sys) (store (runSchedule sys schedule)).
Proof.
  revert sys. induction schedule as [|ev rest IH]; intros sys; simpl; [apply grows_refl|].
  eapply grows_trans; [apply systemStep_grows | apply IH].
Qed.

(** ** A run that is settled *)

Lemma step_dormant (fault : bool) (st : Store) (next : Id) (t : Invocation) :
  settled st -> dormant t ->
  exists t', step fault st next t = (st, next, t') /\ dormant t'.
Proof.
  unfold settled, isQueued, isRunning, hasStatus, dormant, step. intros [Hq Hr] Hd.
  destruct (pc t) as [ | | | rid pending | rid | err | publicErr | | ] eqn:Hpc;
    try destruct Hd.
  - destruct fault; [eexists; split; [reflexivity | exact I]|].
    destruct (run st) as [r|]; [|eexists; split; [reflexivity | exact I]].
    destruct (RunDoc.status r); try discriminate;
      eexists; (split; [reflexivity | exact I]).
  - destruct fault; [eexists; split; [reflexivity | exact I]|].
    destruct (run st) as [r|]; [|eexists; split; [reflexivity | exact I]].
    destruct (RunDoc.status r); try discriminate;
      eexists; (split; [reflexivity | exact I]).
  - exists t. split; [reflexivity|]. unfold dormant. rewrite Hpc. exact I.
  - exists t. split; [reflexivity|]. unfold dormant. rewrite Hpc. exact I.
Qed.

Lemma Forall_replaceAt {A} (P : A -> Prop) (i : nat) (x : A) (xs : list A) :
  Forall P xs -> P x -> Forall P (replaceAt i x xs).
Proof.
  intros H Hx. revert i. induction H as [|y ys Hy Hys IH]; intros i; [destruct i; constructor|].
  destruct i; simpl; constructor; auto.
Qed.

(** X20. Once the run is neither QUEUED nor RUNNING (SUCCEEDED, FAILED or
    CANCELLED) and no invocation is past its two reads, triggering it again
    changes nothing: whatever the invocations do and whichever of their reads
    fail, the store stays exactly as it was and no identifier is issued. *)
Theorem settled_run_is_left_alone (sys : System) (schedule : list (nat * bool)) :
  settled (store sys) -> Forall dormant (invocations sys) ->
  store (runSchedule sys schedule) = store sys /\
  nextId (runSchedule sys schedule) = nextId sys /\
  Forall dormant (invocations (runSchedule sys schedule)).
Proof.
  revert sys. induction schedule as [|[i fault] rest IH]; intros sys Hs Hd; [simpl; auto|].
  change (runSchedule sys ((i, fault) :: rest))
    with (runSchedule (systemStep sys (i, fault)) rest).
  assert (Hstep : store (systemStep sys (i, fault)) = store sys /\
                  nextId (systemStep sys (i, fault)) = nextId sys /\
                  Forall dormant (invocations (systemStep sys (i, fault)))).
  { unfold systemStep. destruct (nth_error (invocations sys) i) as [t|] eqn:Et; [|auto].
    rewrite Forall_forall in Hd. pose proof (Hd t (nth_error_In _ _ Et)) as Ht.
    destruct (step_dormant fault (store sys) (nextId sys) t Hs Ht) as (t' & -> & Ht').
    simpl. split; [reflexivity|]. split; [reflexivity|].
    apply Forall_replaceAt; [apply Forall_forall; exact Hd | exact Ht']. }
  destruct Hstep as (E1 & E2 & E3).
  destruct (IH (systemStep sys (i, fault))) as (F1 & F2 & F3);
    [rewrite E1; exact Hs | exact E3 |].
  rewrite F1, F2, E1, E2. auto.
Qed.

(** ** Failures inside the [try] *)

(** X21. When an awaited operation inside the [try] fails (the evaluation, a
    write or the audit entry) and the [catch] then runs undisturbed, the run
    ends FAILED with the public error EXECUTION_FAILED, which is retryable, and
    keeps its [resultId]; the result documents and rule results written so far
    are left as they are, one audit entry is added for the failure, and the
    invocation returns. When loading failed with a public error, that error is
    the one recorded. *)
Theorem failure_in_try_marks_run_failed (st : Store) (next : Id) (t : Invocation)
    (r : RunDoc.t) :
  inTry t -> run st = Some r ->
  let after := runSchedule (alone st next t) [(0, true); (0, false); (0, false)] in
  run (store after) = Some (failedRun r executionFailed) /\
  Mapping.code executionFailed = str "EXECUTION_FAILED" /\
  retryable executionFailed = true /\
  results (store after) = results st /\
  ruleResults (store after) = ruleResults st /\
  auditLog (store after) = auditLog st ++ [AuditFailed (str "EXECUTION_FAILED") EXECUTION] /\
  nextId after = next /\
  map pc (invocations after) = [Finished] /\
  (forall e, pc t = AtEvaluate -> load t = inl (PublicFailure e) ->
     run (store (runSchedule (alone st next t) [(0, false); (0, false); (0, false)]))
     = Some (failedRun r e)).
Proof.
  intros Ht Hr. cbv zeta. unfold alone, inTry in *.
  assert (H1 : step true st next t = (st, next, at_ (AtCatch OtherFailure) t)).
  { unfold step. destruct (pc t) as [ | | | rid pending | rid | | | | ]; try destruct Ht;
      try reflexivity. destruct pending; [destruct Ht | reflexivity]. }
  assert (H2 : forall err,
    step false st next (at_ (AtCatch err) t)
    = (setRun st (failedRun r (publicErrOf err)), next,
       at_ (AtCatchAudit (publicErrOf err)) t)).
  { intros err. unfold step. simpl. rewrite Hr. reflexivity. }
  unfold runSchedule. cbn [fold_left systemStep nth_error invocations store nextId replaceAt].
  rewrite H1. cbn [fold_left systemStep nth_error invocations store nextId replaceAt].
  rewrite H2. cbn [fold_left systemStep nth_error invocations store nextId replaceAt].
  repeat split.
  intros e Hpc Hl.
  assert (H0 : step false st next t = (st, next, at_ (AtCatch (PublicFailure e)) t)).
  { unfold step. rewrite Hpc, Hl. reflexivity. }
  rewrite H0. cbn [fold_left systemStep nth_error invocations store nextId replaceAt].
  rewrite H2. reflexivity.
Qed.

End WithHost.

Import ExampleHost.

Lemma settled_run_is_left_alone_witness :
  store (runSchedule cancelledSystem [(0, false); (0, true); (0, false)])
  = store cancelledSystem /\
  nextId (runSchedule cancelledSystem [(0, false); (0, true); (0, false)]) = 0 /\
  Forall dormant (invocations (runSchedule cancelledSystem [(0, false); (0, true); (0, false)])).
Proof.
  apply (settled_run_is_left_alone cancelledSystem [(0, false); (0, true); (0, false)]).
  - split; reflexivity.
  - repeat constructor.
Defined.

Lemma failure_in_try_marks_run_failed_witness :
  run (store (runSchedule (alone (storeWithRun SUCCEEDED (Some 0)) 1 auditing)
                          [(0, true); (0, false); (0, false)]))
  = Some (failedRun {| RunDoc.status := SUCCEEDED; RunDoc.resultId := Some 0;
                       RunDoc.error := None |} executionFailed).
Proof.
  destruct (failure_in_try_marks_run_failed (storeWithRun SUCCEEDED (Some 0)) 1 auditing
              {| RunDoc.status := SUCCEEDED; RunDoc.resultId := Some 0;
                 RunDoc.error := None |} I eq_refl) as [H _].
  exact H.
Defined.

End ProcessorMoreFacts.

(* ================================================================== *)
(** * Inline inputs and roles: properties *)
(* ================================================================== *)

Module AccessFacts.
Import Engine EngineSpec Normalize Access AccessSpec.

Section WithHost.
Context {host : Host}.

Lemma mismatch_gives_error (ctx : QcExecutionContext) (rule : QcRuleDefinition)
    (k : InputKind) :
  Rule.enabled rule = true ->
  assertedKind (Rule.type rule) = Some k -> kind (ctx_input ctx) <> k ->
  RuleResult.outcome (evaluateRule ctx rule) = ERROR.
Proof.
  intros Hen Hk Hne. unfold evaluateRule. rewrite Hen. simpl.
  unfold dispatch, Rule.type in *.
  destruct (Rule.params rule); simpl in Hk; try discriminate; injection Hk as <-;
    [ unfold evalNumericRange | unfold evalRequiredField | unfold evalExcelAllCaps
    | unfold evalExcelRequiredColumns | unfold evalAudioDurationLimit
    | unfold evalSlaTimeDifference ];
    rewrite EngineFacts.assertKind_mismatch by exact Hne; reflexivity.
Qed.

(** X22. An inline input is a text exactly when the value is a string and a
    record otherwise, never a table or an audio input; a value that is neither
    a string nor a plain object (a number, a boolean, [null], an array) is
    wrapped in the record [{ value }]. So on an inline input every enabled
    EXCEL_ALL_CAPS, EXCEL_REQUIRED_COLUMNS and AUDIO_DURATION_LIMIT rule ends
    in ERROR, and on an inline string so does every enabled record rule. *)
Theorem inline_input_is_text_or_record (v : value) :
  (kind (normalizeInlineJson v) = KText <-> exists s, v = VStr s) /\
  (kind (normalizeInlineJson v) = KText \/ kind (normalizeInlineJson v) = KRecord) /\
  (isNullish v = true \/ typeofObject v = false \/ (exists items, v = VArr items) ->
   (forall s, v <> VStr s) ->
   normalizeInlineJson v = InRecord (VObj [(str "value", v)])) /\
  (forall ctx rule k,
     ctx_input ctx = normalizeInlineJson v ->
     Rule.enabled rule = true ->
     assertedKind (Rule.type rule) = Some k ->
     k = KTable \/ k = KAudio \/ (k = KRecord /\ exists s, v = VStr s) ->
     RuleResult.outcome (evaluateRule ctx rule) = ERROR).
Proof.
  split; [|split; [|split]].
  - destruct v; simpl; split; try discriminate; try (intros [s' H]; discriminate H);
      eauto.
  - destruct v; simpl; auto.
  - intros H Hs. destruct v; simpl in *; try reflexivity.
    + exfalso. exact (Hs s eq_refl).
    + destruct H as [H | [H | [items H]]]; discriminate H.
    + destruct H as [H | [H | [items H]]]; discriminate H.
  - intros ctx rule k Hi Hen Hk Hcase.
    apply (mismatch_gives_error ctx rule k Hen Hk). rewrite Hi.
    destruct Hcase as [-> | [-> | [-> [s ->]]]]; [destruct v | destruct v | ];
      simpl; discriminate.
Qed.

End WithHost.

(** ** Roles *)

Lemma isRole_eq (r name : jsstring) : isRole (Some r) name = true <-> r = name.
Proof. apply EngineMoreFacts.string_eqb_eq. Qed.

Lemma roleRank_known (role : jsstring) :
  (roleRank (Some role) = 3 <-> role = str "Admin") /\
  (roleRank (Some role) = 2 <-> role = str "Manager") /\
  (roleRank (Some role) = 1 <-> role = str "Viewer") /\
  (roleRank (Some role) = 0 <-> ~ known role) /\
  roleRank (Some role) <= 3.
Proof.
  unfold roleRank, known.
  destruct (isRole (Some role) (str "Admin")) eqn:Ea;
    [apply isRole_eq in Ea; subst; repeat split; try discriminate; try lia; intuition discriminate|].
  destruct (isRole (Some role) (str "Manager")) eqn:Em;
    [apply isRole_eq in Em; subst; repeat split; try discriminate; try lia; intuition discriminate|].
  destruct (isRole (Some role) (str "Viewer")) eqn:Ev;
    [apply isRole_eq in Ev; subst; repeat split; try discriminate; try lia; intuition discriminate|].
  assert (Ha : role <> str "Admin") by (intros H; apply isRole_eq in H; congruence).
  assert (Hm : role <> str "Manager") by (intros H; apply isRole_eq in H; congruence).
  assert (Hv : role <> str "Viewer") by (intros H; apply isRole_eq in H; congruence).
  repeat split; try discriminate; try lia; intuition.
Qed.

Lemma isRole_Some (actual : roleValue) (name : jsstring) :
  isRole actual name = true <-> actual = Some name.
Proof.
  destruct actual as [r|]; simpl.
  - rewrite EngineMoreFacts.string_eqb_eq. split; congruence.
  - split; discriminate.
Qed.

Lemma eqb_neq (a b : jsstring) : string_eqb a b = false <-> a <> b.
Proof.
  destruct (string_eqb a b) eqn:E.
  - apply EngineMoreFacts.string_eqb_eq in E. split; [discriminate | congruence].
  - split; [|reflexivity]. intros _ H. apply EngineMoreFacts.string_eqb_eq in H. congruence.
Qed.

(** [requireRole] lets the caller through exactly in these cases. *)
Lemma requireRole_allows (actual : roleValue) (required : jsstring) :
  requireRole actual required = inr tt <->
  actual = Some (str "Admin") \/
  (actual = Some (str "Manager") /\ required <> str "Admin") \/
  (required <> str "Admin" /\ required <> str "Manager").
Proof.
  unfold requireRole. rewrite <- !isRole_Some, <- !eqb_neq.
  destruct (isRole actual (str "Admin")), (isRole actual (str "Manager")),
    (string_eqb required (str "Admin")), (string_eqb required (str "Manager"));
    cbn; split; intros H; try reflexivity; try discriminate H; auto;
    repeat match goal with
           | H : _ \/ _ |- _ => destruct H
           | H : _ /\ _ |- _ => destruct H
           end; discriminate.
Qed.

(** X23. The web client's [roleAtLeast] orders the roles Viewer < Manager <
    Admin: a Viewer is at least a Viewer only, a Manager at least a Viewer and
    a Manager, an Admin at least every role; the order is reflexive and
    transitive, and a missing or unknown role is below each of the three. The
    functions' [requireRole] agrees with it on the three roles; it lets the
    caller through exactly when the caller is an Admin, or a Manager and the
    required role is not Admin, or the required role is neither Admin nor
    Manager, and otherwise throws the ApiError FORBIDDEN, "Requires role"
    followed by the role, which [errorMiddleware] answers with HTTP 403. So it
    ranks every role value other than Admin and Manager as Viewer, and a check
    that requires Viewer lets every caller through. *)
Theorem role_checks :
  (forall role required, known role -> known required ->
     (roleAtLeast (Some role) required = true <->
      required = str "Viewer" \/
      (required = str "Manager" /\ (role = str "Manager" \/ role = str "Admin")) \/
      (required = str "Admin" /\ role = str "Admin"))) /\
  (forall role, known role -> roleAtLeast (Some role) role = true) /\
  (forall a b c, roleAtLeast (Some a) b = true -> roleAtLeast (Some b) c = true ->
                 roleAtLeast (Some a) c = true) /\
  (forall required, known required ->
     roleAtLeast None required = false /\
     forall role, ~ known role -> roleAtLeast (Some role) required = false) /\
  (forall actual required, known actual -> known required ->
     (requireRole (Some actual) required = inr tt <->
      roleAtLeast (Some actual) required = true)) /\
  (forall actual required,
     requireRole actual required = inr tt <->
     actual = Some (str "Admin") \/
     (actual = Some (str "Manager") /\ required <> str "Admin") \/
     (required <> str "Admin" /\ required <> str "Manager")) /\
  (forall actual required,
     requireRole actual required = inr tt \/
     requireRole actual required
     = inl {| code := str "FORBIDDEN"; message := str "Requires role " +++ required;
              status := 403 |}) /\
  (forall actual required e,
     requireRole actual required = inl e ->
     httpStatus (errorMiddleware (ThrownApiError e)) = 403 /\
     errorCode (errorMiddleware (ThrownApiError e)) = str "FORBIDDEN" /\
     errorMessage (errorMiddleware (ThrownApiError e)) = str "Requires role " +++ required) /\
  (forall actual, requireRole actual (str "Viewer") = inr tt).
Proof.
  split; [|split; [|split; [|split; [|split; [|split; [|split; [|split]]]]]]].
  - intros role required Hr Hq.
    destruct Hr as [-> | [-> | ->]]; destruct Hq as [-> | [-> | ->]];
      vm_compute; split; intros H;
      first [ reflexivity | discriminate H
            | left; reflexivity
            | right; left; split; [reflexivity | first [left; reflexivity | right; reflexivity]]
            | right; right; split; reflexivity
            | repeat match goal with
                     | H : _ \/ _ |- _ => destruct H
                     | H : _ /\ _ |- _ => destruct H
                     end; discriminate ].
  - intros role _. unfold roleAtLeast. apply Nat.leb_refl.
  - intros a b c. unfold roleAtLeast. rewrite !Nat.leb_le. lia.
  - intros required Hk. split.
    + unfold roleAtLeast. apply Nat.leb_gt.
      change (roleRank None) with 0.
      destruct (roleRank_known required) as (_ & _ & _ & H0 & _).
      destruct (roleRank (Some required)); [|lia]. exfalso. apply H0; auto.
    + intros role Hn. unfold roleAtLeast. apply Nat.leb_gt.
      destruct (roleRank_known role) as (_ & _ & _ & Hr & _).
      rewrite (proj2 Hr Hn).
      destruct (roleRank_known required) as (_ & _ & _ & H0 & _).
      destruct (roleRank (Some required)); [|lia]. exfalso. apply H0; auto.
  - intros actual required Ha Hr. unfold requireRole, roleAtLeast, roleRank.
    destruct Ha as [-> | [-> | ->]]; destruct Hr as [-> | [-> | ->]];
      vm_compute; split; congruence.
  - exact requireRole_allows.
  - intros actual required. unfold requireRole.
    destruct (_ <? _); [right | left]; reflexivity.
  - intros actual required e. unfold requireRole.
    destruct (_ <? _); intros H; [|discriminate H]. injection H as <-.
    repeat split.
  - intros actual. unfold requireRole.
    change (string_eqb (str "Viewer") (str "Admin")) with false.
    change (string_eqb (str "Viewer") (str "Manager")) with false.
    cbv iota.
    destruct (isRole actual (str "Admin")); [reflexivity|].
    destruct (isRole actual (str "Manager")); reflexivity.
Qed.

End AccessFacts.

(* ================================================================== *)
(** * The rule builder: properties *)
(* ================================================================== *)

Module RuleBuilderFacts.
Import Engine RuleBuilder RuleBuilderSpec.

(** ** Trimming *)

Lemma trimStart_idem (s : jsstring) : trimStart (trimStart s) = trimStart s.
Proof.
  induction s as [|c s IH]; simpl; [reflexivity|].
  destruct (isWhiteSpace c) eqn:E; [exact IH | simpl; rewrite E; reflexivity].
Qed.

Lemma trimStart_fixed (c : char) (s : jsstring) :
  trimStart (c :: s) = c :: s <-> isWhiteSpace c = false.
Proof.
  simpl. destruct (isWhiteSpace c); split; try reflexivity; try discriminate.
  intros H. pose proof (ChatSplitMoreFacts.length_trimStart s) as Hl.
  rewrite H in Hl. simpl in Hl. lia.
Qed.

Lemma trimStart_snoc (l : jsstring) (c : char) :
  isWhiteSpace c = false -> trimStart (l ++ [c]) = trimStart l ++ [c].
Proof.
  intros Hc. induction l as [|x l IH]; simpl; [rewrite Hc; reflexivity|].
  destruct (isWhiteSpace x); [exact IH | reflexivity].
Qed.

Lemma trimStart_app_fixed (p rest : jsstring) :
  p <> [] -> trimStart p = p -> trimStart (p ++ rest) = p ++ rest.
Proof.
  intros Hne Hp. destruct p as [|c p]; [congruence|].
  apply trimStart_fixed in Hp. simpl. rewrite Hp. reflexivity.
Qed.

Lemma trimEnd_cons (c : char) (s : jsstring) :
  isWhiteSpace c = false -> trimEnd (c :: s) = c :: trimEnd s.
Proof.
  intros Hc. unfold trimEnd. simpl rev. rewrite (trimStart_snoc _ c Hc), rev_app_distr.
  reflexivity.
Qed.

Lemma trimEnd_idem (s : jsstring) : trimEnd (trimEnd s) = trimEnd s.
Proof. unfold trimEnd. rewrite rev_involutive, trimStart_idem. reflexivity. Qed.

Lemma trimEnd_app_fixed (l p : jsstring) :
  p <> [] -> trimEnd p = p -> trimEnd (l ++ p) = l ++ p.
Proof.
  intros Hne Hp. unfold trimEnd in *. rewrite rev_app_distr.
  assert (Hr : trimStart (rev p) = rev p).
  { rewrite <- (rev_involutive (trimStart (rev p))), Hp. reflexivity. }
  rewrite trimStart_app_fixed; [rewrite <- rev_app_distr; apply rev_involutive | | exact Hr].
  intros E. apply Hne. rewrite <- (rev_involutive p), E. reflexivity.
Qed.

Lemma trim_edgeFree (s : jsstring) : edgeFree (trim s).
Proof.
  unfold edgeFree, trim. split; [|apply trimEnd_idem].
  pose proof (trimStart_idem s) as Hx. destruct (trimStart s) as [|c x]; [reflexivity|].
  apply trimStart_fixed in Hx. rewrite (trimEnd_cons c x Hx).
  apply trimStart_fixed. exact Hx.
Qed.

Lemma trim_fixed (s : jsstring) : edgeFree s -> trim s = s.
Proof. intros [H1 H2]. unfold trim. rewrite H1. exact H2. Qed.

Lemma trim_idem (s : jsstring) : trim (trim s) = trim s.
Proof. apply trim_fixed, trim_edgeFree. Qed.

Lemma In_trimStart (a : char) (s : jsstring) : In a (trimStart s) -> In a s.
Proof.
  induction s as [|c s IH]; simpl; [auto|].
  destruct (isWhiteSpace c); [intros H; right; apply IH, H | auto].
Qed.

Lemma In_trim (a : char) (s : jsstring) : In a (trim s) -> In a s.
Proof.
  unfold trim, trimEnd. intros H. apply in_rev, In_trimStart, in_rev in H.
  apply In_trimStart. exact H.
Qed.

Lemma trim_space (s : jsstring) : trim (32%N :: s) = trim s.
Proof. reflexivity. Qed.

(** ** Splitting and joining *)

Lemma splitOn_nonempty (sep : char) (s : jsstring) : splitOn sep s <> [].
Proof.
  destruct s as [|c s]; simpl; [discriminate|].
  destruct (splitOn sep s); [discriminate|]. destruct (N.eqb c sep); discriminate.
Qed.

Lemma splitOn_cons (sep c : char) (s : jsstring) :
  splitOn sep (c :: s)
  = if N.eqb c sep then [] :: splitOn sep s
    else match splitOn sep s with
         | cur :: rest => (c :: cur) :: rest
         | [] => [[c]]
         end.
Proof.
  simpl. pose proof (splitOn_nonempty sep s) as H.
  destruct (splitOn sep s); [congruence|]. reflexivity.
Qed.

Lemma splitOn_no_sep (sep : char) (s : jsstring) :
  Forall (fun p => ~ In sep p) (splitOn sep s).
Proof.
  induction s as [|c s IH]; [repeat constructor; auto|].
  rewrite splitOn_cons. destruct (N.eqb_spec c sep) as [-> | Hne].
  - constructor; [auto | exact IH].
  - destruct (splitOn sep s) as [|cur rest]; [repeat constructor; simpl; intuition|].
    inversion IH as [|? ? Hcur Hrest]; subst. constructor; [|exact Hrest].
    simpl. intros [E | E]; [congruence | exact (Hcur E)].
Qed.

Lemma splitOn_app (sep : char) (p rest : jsstring) :
  ~ In sep p ->
  splitOn sep (p ++ rest)
  = match splitOn sep rest with
    | cur :: more => (p ++ cur) :: more
    | [] => [p]
    end.
Proof.
  intros Hp. induction p as [|c p IH].
  - simpl. destruct (splitOn sep rest) eqn:E; [|reflexivity].
    exfalso. exact (splitOn_nonempty sep rest E).
  - simpl app. rewrite splitOn_cons.
    assert (Hc : N.eqb c sep = false).
    { apply N.eqb_neq. intros ->. apply Hp. left. reflexivity. }
    rewrite Hc, IH by (intros H; apply Hp; right; exact H).
    destruct (splitOn sep rest); reflexivity.
Qed.

Lemma splitOn_whole (sep : char) (p : jsstring) : ~ In sep p -> splitOn sep p = [p].
Proof.
  intros Hp. rewrite <- (app_nil_r p) at 1. rewrite (splitOn_app sep p [] Hp).
  simpl. rewrite app_nil_r. reflexivity.
Qed.

Lemma splitOn_join (sep : char) (pad : jsstring) (p : jsstring) (rest : list jsstring) :
  ~ In sep pad -> Forall (fun x => ~ In sep x) (p :: rest) ->
  splitOn sep (joinWith (sep :: pad) (p :: rest)) = p :: map (app pad) rest.
Proof.
  intros Hpad. revert p. induction rest as [|q rest IH]; intros p Hall.
  - inversion Hall; subst. simpl. apply splitOn_whole. assumption.
  - inversion Hall as [|? ? Hp Hrest]; subst.
    change (joinWith (sep :: pad) (p :: q :: rest))
      with (p ++ (sep :: pad) ++ joinWith (sep :: pad) (q :: rest)).
    rewrite (splitOn_app sep p _ Hp). rewrite <- app_comm_cons.
    rewrite splitOn_cons, N.eqb_refl. cbv iota.
    rewrite (splitOn_app sep pad _ Hpad), (IH q Hrest). rewrite app_nil_r. reflexivity.
Qed.

Lemma joinWith_last (sep : jsstring) (parts : list jsstring) (p : jsstring) :
  exists l, joinWith sep (parts ++ [p]) = l ++ p.
Proof.
  induction parts as [|q parts IH]; [exists []; reflexivity|].
  destruct IH as [l Hl]. simpl app.
  destruct (parts ++ [p]) as [|x xs] eqn:E; [destruct parts; discriminate E|].
  exists (q ++ sep ++ l). change (joinWith sep (q :: x :: xs)) with (q ++ sep ++ joinWith sep (x :: xs)).
  rewrite Hl, !app_assoc. reflexivity.
Qed.

Lemma joinWith_first (sep : jsstring) (p : jsstring) (rest : list jsstring) :
  exists r, joinWith sep (p :: rest) = p ++ r.
Proof.
  destruct rest as [|q rest]; [exists []; simpl; symmetry; apply app_nil_r|].
  eexists. reflexivity.
Qed.

Lemma nonEmptyStrings_all (xs : list jsstring) :
  Forall (fun x => x <> []) xs -> nonEmptyStrings xs = xs.
Proof.
  induction 1 as [|x xs Hx _ IH]; [reflexivity|].
  destruct x as [|c x]; [congruence|].
  change (nonEmptyStrings ((c :: x) :: xs)) with ((c :: x) :: nonEmptyStrings xs).
  rewrite IH. reflexivity.
Qed.

Lemma map_trim_pieces (sep : char) (xs : list jsstring) :
  Forall (piece sep) xs -> map trim xs = xs.
Proof.
  induction 1 as [|x xs (_ & Hx & _) _ IH]; simpl; [reflexivity|].
  rewrite (trim_fixed x Hx), IH. reflexivity.
Qed.

(** The pieces the builder extracts from a text. *)
Lemma pieces_of_text (sep : char) (text : jsstring) :
  Forall (piece sep) (nonEmptyStrings (map trim (splitOn sep text))).
Proof.
  apply Forall_forall. intros p Hp. unfold nonEmptyStrings in Hp.
  apply filter_In in Hp as [Hin Hne]. apply in_map_iff in Hin as (q & <- & Hq).
  split; [intros E; rewrite E in Hne; discriminate Hne|].
  split; [apply trim_edgeFree|].
  intros H. apply In_trim in H.
  pose proof (splitOn_no_sep sep text) as Hall. rewrite Forall_forall in Hall.
  exact (Hall q Hq H).
Qed.

Lemma joined_pieces_edgeFree (sep : char) (pad : jsstring) (parts : list jsstring) :
  parts <> [] -> Forall (piece sep) parts ->
  joinWith (sep :: pad) parts <> [] /\ edgeFree (joinWith (sep :: pad) parts).
Proof.
  intros Hne Hall.
  destruct parts as [|p rest]; [congruence|].
  inversion Hall as [|? ? (Hp & [Hs He] & _) Hrest]; subst.
  destruct (joinWith_first (sep :: pad) p rest) as [r Hr].
  split; [rewrite Hr; destruct p; [congruence | discriminate]|].
  split.
  - rewrite Hr. apply trimStart_app_fixed; assumption.
  - destruct (exists_last Hne) as (front & lastp & Elast).
    assert (Hl : piece sep lastp).
    { rewrite Forall_forall in Hall. apply Hall. rewrite Elast. apply in_or_app. right.
      left. reflexivity. }
    destruct Hl as (Hl1 & [_ Hl2] & _).
    rewrite Elast. destruct (joinWith_last (sep :: pad) front lastp) as [l ->].
    apply trimEnd_app_fixed; assumption.
Qed.

Lemma parseFieldPath_pieces (text : jsstring) (parts : list jsstring) :
  parseFieldPath text = Some parts -> parts <> [] /\ Forall (piece dot) parts.
Proof.
  unfold parseFieldPath. destruct (trim text) as [|c t]; [discriminate|].
  pose proof (pieces_of_text dot (c :: t)) as H.
  destruct (nonEmptyStrings _) as [|p ps]; [discriminate|].
  intros E. injection E as <-. split; [discriminate | exact H].
Qed.

Lemma parseFieldPath_join (parts : list jsstring) :
  parts <> [] -> Forall (piece dot) parts ->
  parseFieldPath (joinWith [dot] parts) = Some parts.
Proof.
  intros Hne Hall. unfold parseFieldPath.
  destruct (joined_pieces_edgeFree dot [] parts Hne Hall) as [Hj He].
  rewrite (trim_fixed _ He).
  destruct (joinWith [dot] parts) as [|c t] eqn:Ej; [congruence|]. rewrite <- Ej.
  destruct parts as [|p rest]; [congruence|].
  rewrite (splitOn_join dot [] p rest); [|auto|].
  - rewrite (map_ext (app []) (fun x => x)) by reflexivity. rewrite map_id.
    rewrite (map_trim_pieces dot (p :: rest) Hall).
    rewrite nonEmptyStrings_all; [reflexivity|].
    eapply Forall_impl; [|exact Hall]. intros x (Hx & _). exact Hx.
  - eapply Forall_impl; [|exact Hall]. intros x (_ & _ & Hx). exact Hx.
Qed.

Lemma keywords_join (ks : list jsstring) :
  Forall (piece comma) ks ->
  nonEmptyStrings (map trim (splitOn comma (joinWith [comma; 32%N] ks))) = ks.
Proof.
  intros Hall. destruct ks as [|k rest]; [reflexivity|].
  rewrite (splitOn_join comma [32%N] k rest).
  - simpl map. rewrite map_map.
    rewrite (map_ext (fun x => trim ([32%N] ++ x)) trim) by (intros x; apply trim_space).
    change (trim k :: map trim rest) with (map trim (k :: rest)).
    rewrite (map_trim_pieces comma (k :: rest) Hall).
    apply nonEmptyStrings_all.
    eapply Forall_impl; [|exact Hall]. intros x (Hx & _). exact Hx.
  - simpl. intros [E | []]. discriminate E.
  - eapply Forall_impl; [|exact Hall]. intros x (_ & _ & Hx). exact Hx.
Qed.

(** ** Saving, loading and saving again *)

Lemma fieldPath_again (applyTo : ApplyTo) (text : jsstring) :
  let fp := fieldPathOf applyTo text in
  fieldPathOf match fp with Some (_ :: _) => FIELD | _ => WHOLE_DOCUMENT end
              match fp with Some x => joinWith [dot] x | None => [] end
  = fp.
Proof.
  cbv zeta. destruct (fieldPathOf applyTo text) as [parts|] eqn:E; [|reflexivity].
  assert (Hp : parseFieldPath text = Some parts).
  { destruct applyTo; simpl in E; [discriminate E | exact E]. }
  destruct (parseFieldPath_pieces text parts Hp) as [Hne Hall].
  destruct parts as [|p rest]; [congruence|].
  exact (parseFieldPath_join (p :: rest) Hne Hall).
Qed.

Lemma requiredFieldPath_again (text : jsstring) :
  let fp := match parseFieldPath text with Some fp => fp | None => [] end in
  match parseFieldPath (joinWith [dot] fp) with Some fp' => fp' | None => [] end = fp.
Proof.
  cbv zeta. destruct (parseFieldPath text) as [parts|] eqn:E; [|reflexivity].
  destruct (parseFieldPath_pieces text parts E) as [Hne Hall].
  rewrite (parseFieldPath_join parts Hne Hall). reflexivity.
Qed.

Lemma toRule_fromRule_toRule (fresh : jsstring) (r : Builder) :
  uiId r <> [] -> toRule (fromRule fresh (toRule r)) = toRule r.
Proof.
  destruct r as [id name sev en k]. cbn [uiId]. intros Hid.
  destruct id as [|c id]; [congruence|].
  destruct k as [applyTo text phrase cs | applyTo text pattern flags mm
                | applyTo text keywords cs | text allow];
    unfold toRule, fromRule;
    cbn [uiId RuleBuilder.name severity enabled kind s_ruleId s_name s_severity s_enabled
         s_type s_params orElse typeOf applyToOf fieldPathTextOf p_fieldPath p_phrase
         p_caseSensitive p_pattern p_flags p_mustMatch p_keywords p_allowEmptyString];
    unfold applyToOf, fieldPathTextOf; cbn [p_fieldPath];
    rewrite trim_idem.
  - rewrite (fieldPath_again applyTo text). reflexivity.
  - rewrite (fieldPath_again applyTo text).
    pose proof (trim_idem flags) as Hf.
    destruct (trim flags) as [|c0 l]; [reflexivity|]. cbn [orElse]. rewrite Hf. reflexivity.
  - rewrite (fieldPath_again applyTo text).
    rewrite (keywords_join _ (pieces_of_text comma keywords)). reflexivity.
  - rewrite (requiredFieldPath_again text). reflexivity.
Qed.

Lemma snapshot_again_from (fresh : nat -> jsstring) (rules : list Builder) :
  Forall (fun r => uiId r <> []) rules ->
  forall s,
    map toRule (map (fun '(i, r) => fromRule (fresh i) r)
                    (combine (seq s (length rules)) (map toRule rules)))
    = map toRule rules.
Proof.
  induction 1 as [|r rules Hr _ IH]; intros s; simpl; [reflexivity|].
  rewrite (toRule_fromRule_toRule (fresh s) r Hr), IH. reflexivity.
Qed.

(** X24. Saving the rules of the builder, loading the saved snapshot and
    saving again gives the same snapshot, provided every rule has an
    identifier: the name, the field path, the flags and the keywords are put
    in their stored form by the first save (trimmed, empty pieces dropped) and
    loading gives texts that parse back to exactly that form. *)
Theorem save_load_save_is_stable (fresh : nat -> jsstring) (rules : list Builder) :
  Forall (fun r => uiId r <> []) rules ->
  toRuleSnapshot (fromRuleSnapshot fresh (toRuleSnapshot rules)) = toRuleSnapshot rules.
Proof.
  intros H. unfold toRuleSnapshot, fromRuleSnapshot, entries. rewrite length_map.
  apply snapshot_again_from. exact H.
Qed.

Lemma save_load_save_is_stable_witness :
  toRuleSnapshot (fromRuleSnapshot (fun _ => str "fresh") (toRuleSnapshot [exampleBuilder]))
  = toRuleSnapshot [exampleBuilder].
Proof.
  apply (save_load_save_is_stable (fun _ => str "fresh") [exampleBuilder]).
  repeat constructor. discriminate.
Defined.

(** What the first save stores for the example, and what loading shows. *)
Example saved_example :
  s_name (toRule exampleBuilder) = Some (str "No refunds") /\
  option_map p_fieldPath (s_params (toRule exampleBuilder))
  = Some (Some [str "ticket"; str "body"]) /\
  option_map p_keywords (s_params (toRule exampleBuilder))
  = Some (Some [str "refund"; str "chargeback"]) /\
  kind (fromRule (str "fresh") (toRule exampleBuilder))
  = BKeywordBlacklist FIELD (str "ticket.body") (str "refund, chargeback") false.
Proof. vm_compute. repeat split. Qed.

End RuleBuilderFacts.
